(** * GrabCut with slim graph construction (modules/imgproc/src/grabcut.cpp)

    A shallow embedding of the GrabCut implementation and of its "slim"
    graph construction, followed by the properties that the design
    document states about it.

    Conventions of the embedding.
    - [double] values are real numbers ([R]); rounding is not modelled, and
      a comparison of two doubles is the comparison of the exact values.
      [log] of a non-positive number, which IEEE arithmetic answers with an
      infinity or a NaN, stops the model with [NonFinite]: the runs of the
      model are the runs of the code in which every weight is finite.
    - [int] values are integers ([Z]); the pixel coordinates and vertex
      numbers the code works with stay inside the 32-bit range.  The [int]
      expression that can leave it, the divisor of [calcBeta], has its
      wrap-around written out ([wrap_int]), and so has the one place where
      the code relies on unsigned wrap-around, the [size_t] counter of the
      pending-sum loops ([wrap_size_t]).
    - [CV_Error] and [CV_Assert] are results in an error monad ([res]).
    - A [cv::Mat] is a header (type code, rows, cols) with its elements as a
      function of (row, column); an element outside the matrix is never
      read by the code for the inputs considered.
    - [std::vector] is a list; an index outside it is [OutOfRange]. *)

From Stdlib Require Import ZArith List Bool String Sorted Reals Lra Lia.
Import ListNotations.

Open Scope Z_scope.

(* ================================================================== *)
(** * Errors *)

Inductive error : Type :=
| BadArg (msg : string)   (* CV_Error( CV_StsBadArg, msg ) *)
| AssertFailed            (* CV_Assert( ... ) *)
| NonFinite               (* log of a non-positive double *)
| OutOfRange              (* std::vector index outside [0, size) *)
| Diverges.               (* a loop that does not terminate *)

Inductive res (A : Type) : Type :=
| Ok (a : A)
| Err (e : error).

Arguments Ok {A} a.
Arguments Err {A} e.

Definition bind {A B : Type} (m : res A) (f : A -> res B) : res B :=
  match m with
  | Ok a => f a
  | Err e => Err e
  end.

Notation "'do' x <- m ; k" := (bind m (fun x => k))
  (at level 10, x name, m at level 100, k at level 200).
Notation "'do' ' pat <- m ; k" := (bind m (fun x => match x with pat => k end))
  (at level 10, pat pattern, m at level 100, k at level 200).

Definition CV_Assert (b : bool) : res unit :=
  if b then Ok tt else Err AssertFailed.

(** A [for] loop whose body can fail: the state is threaded left to right
    through the list of loop indices. *)
Fixpoint forM {A S : Type} (l : list A) (body : S -> A -> res S) (s : S) : res S :=
  match l with
  | [] => Ok s
  | a :: l' => do s' <- body s a; forM l' body s'
  end.

(** [0; 1; ...; n-1], the values of [for (i = 0; i < n; i++)]. *)
Definition zrange (n : Z) : list Z := map Z.of_nat (seq 0 (Z.to_nat n)).

(* ================================================================== *)
(** * Points, rectangles, matrices *)

Record Point : Type := mkPoint { px : Z; py : Z }.

Definition Point_eqb (a b : Point) : bool := (px a =? px b) && (py a =? py b).

Record Size : Type := mkSize { width : Z; height : Z }.

Record Rect : Type := mkRect { rx : Z; ry : Z; rwidth : Z; rheight : Z }.

Record Mat (A : Type) : Type := mkMat {
  mtype : Z;
  rows : Z;
  cols : Z;
  elems : Z -> Z -> A   (* row, column *)
}.

Arguments mkMat {A}.
Arguments mtype {A}.
Arguments rows {A}.
Arguments cols {A}.
Arguments elems {A}.

(* OpenCV element type codes *)
Definition CV_8UC1 : Z := 0.
Definition CV_32SC1 : Z := 4.
Definition CV_64FC1 : Z := 6.
Definition CV_8UC3 : Z := 16.

(** [m.at<T>(y, x)] *)
Definition mat_at {A} (m : Mat A) (y x : Z) : A := elems m y x.

(** [m.at<T>(p)] with [p] a [Point]: row [p.y], column [p.x] *)
Definition mat_atP {A} (m : Mat A) (p : Point) : A := elems m (py p) (px p).

(** [m.at<T>(y, x) = v] *)
Definition mat_set {A} (m : Mat A) (y x : Z) (v : A) : Mat A :=
  mkMat (mtype m) (rows m) (cols m)
        (fun y' x' => if (y' =? y) && (x' =? x) then v else elems m y' x').

Definition mat_setP {A} (m : Mat A) (p : Point) (v : A) : Mat A :=
  mat_set m (py p) (px p) v.

(** [m.empty()] *)
Definition mat_empty {A} (m : Mat A) : bool := (rows m =? 0) || (cols m =? 0).

(** [m.create(rows, cols, type); m.setTo(v)] *)
Definition mat_create_fill {A} (r c t : Z) (v : A) : Mat A :=
  mkMat t r c (fun _ _ => v).

Definition mat_size {A} (m : Mat A) : Size := mkSize (cols m) (rows m).

(** The pixels in the order of
    [for (p.y = 0; p.y < rows; p.y++) for (p.x = 0; p.x < cols; p.x++)]. *)
Definition raster (nrows ncols : Z) : list Point :=
  flat_map (fun y => map (fun x => mkPoint x y) (zrange ncols)) (zrange nrows).

(* colors *)
Definition Vec3b : Type := (Z * Z * Z)%type.
Definition Vec3d : Type := (R * R * R)%type.

Definition to_Vec3d (c : Vec3b) : Vec3d :=
  let '(c0, c1, c2) := c in (IZR c0, IZR c1, IZR c2).

(* ================================================================== *)
(** * Real-number tests *)

Definition Rgtb (a b : R) : bool := if Rgt_dec a b then true else false.
Definition Rleb (a b : R) : bool := if Rle_dec a b then true else false.

(** [std::numeric_limits<double>::epsilon()] = 2^-52 *)
Definition epsilon : R := (/ IZR (2 ^ 52))%R.

(** [-log(v)].  The code takes the logarithm without a test; of 0 a double
    gives an infinity, which [R] does not have, and the model stops. *)
Definition neg_log (v : R) : res R :=
  if Rgtb v 0 then Ok (- ln v)%R else Err NonFinite.

(* ================================================================== *)
(** * GMM - Gaussian Mixture Model *)

Definition componentsCount : Z := 5.

(** The object of class GMM.  [model] is the parameter buffer
    (1 x 13*componentsCount doubles); the constructor makes it share its
    data with the caller's matrix, so what is written through [coefs],
    [mean] and [cov] is written to the caller's buffer. *)
Record GMM : Type := mkGMM {
  model : Mat R;
  inverseCovs : Z -> Z -> Z -> R;
  covDeterms : Z -> R;
  sums : Z -> Z -> R;
  prods : Z -> Z -> Z -> R;
  sampleCounts : Z -> Z;
  totalSampleCount : Z
}.

(* coefs = model.ptr<double>(0); mean = coefs + componentsCount;
   cov = mean + 3*componentsCount *)
Definition coefs (g : GMM) (i : Z) : R := mat_at (model g) 0 i.
Definition mean (g : GMM) (i : Z) : R := mat_at (model g) 0 (componentsCount + i).
Definition cov (g : GMM) (i : Z) : R :=
  mat_at (model g) 0 (componentsCount + 3 * componentsCount + i).

Definition with_model (g : GMM) (m : Mat R) : GMM :=
  mkGMM m (inverseCovs g) (covDeterms g) (sums g) (prods g)
        (sampleCounts g) (totalSampleCount g).

Definition set_coefs (g : GMM) (i : Z) (v : R) : GMM :=
  with_model g (mat_set (model g) 0 i v).
Definition set_mean (g : GMM) (i : Z) (v : R) : GMM :=
  with_model g (mat_set (model g) 0 (componentsCount + i) v).
Definition set_cov (g : GMM) (i : Z) (v : R) : GMM :=
  with_model g (mat_set (model g) 0 (componentsCount + 3 * componentsCount + i) v).

Definition upd1 {A} (f : Z -> A) (i : Z) (v : A) : Z -> A :=
  fun i' => if i' =? i then v else f i'.
Definition upd2 {A} (f : Z -> Z -> A) (i j : Z) (v : A) : Z -> Z -> A :=
  fun i' j' => if (i' =? i) && (j' =? j) then v else f i' j'.
Definition upd3 {A} (f : Z -> Z -> Z -> A) (i j k : Z) (v : A) : Z -> Z -> Z -> A :=
  fun i' j' k' => if (i' =? i) && (j' =? j) && (k' =? k) then v else f i' j' k'.

Section GMM_ops.
Local Open Scope R_scope.

(** The determinant as both [endLearning] and [calcInverseCovAndDeterm]
    write it, on the nine entries of a row-major 3x3 matrix. *)
Definition det3 (c : Z -> R) : R :=
  c 0%Z * (c 4%Z * c 8%Z - c 5%Z * c 7%Z)
  - c 1%Z * (c 3%Z * c 8%Z - c 5%Z * c 6%Z)
  + c 2%Z * (c 3%Z * c 7%Z - c 4%Z * c 6%Z).

(** [GMM::calcInverseCovAndDeterm] *)
Definition calcInverseCovAndDeterm (g : GMM) (ci : Z) : res GMM :=
  if Rgtb (coefs g ci) 0 then
    let c := fun i => cov g (9 * ci + i)%Z in
    let dtrm := det3 c in
    let g1 := mkGMM (model g) (inverseCovs g) (upd1 (covDeterms g) ci dtrm)
                    (sums g) (prods g) (sampleCounts g) (totalSampleCount g) in
    do _ <- CV_Assert (Rgtb dtrm epsilon);
    let ic := inverseCovs g1 in
    let ic := upd3 ic ci 0 0 ((c 4%Z * c 8%Z - c 5%Z * c 7%Z) / dtrm) in
    let ic := upd3 ic ci 1 0 (- (c 3%Z * c 8%Z - c 5%Z * c 6%Z) / dtrm) in
    let ic := upd3 ic ci 2 0 ((c 3%Z * c 7%Z - c 4%Z * c 6%Z) / dtrm) in
    let ic := upd3 ic ci 0 1 (- (c 1%Z * c 8%Z - c 2%Z * c 7%Z) / dtrm) in
    let ic := upd3 ic ci 1 1 ((c 0%Z * c 8%Z - c 2%Z * c 6%Z) / dtrm) in
    let ic := upd3 ic ci 2 1 (- (c 0%Z * c 7%Z - c 1%Z * c 6%Z) / dtrm) in
    let ic := upd3 ic ci 0 2 ((c 1%Z * c 5%Z - c 2%Z * c 4%Z) / dtrm) in
    let ic := upd3 ic ci 1 2 (- (c 0%Z * c 5%Z - c 2%Z * c 3%Z) / dtrm) in
    let ic := upd3 ic ci 2 2 ((c 0%Z * c 4%Z - c 1%Z * c 3%Z) / dtrm) in
    Ok (mkGMM (model g1) ic (covDeterms g1) (sums g1) (prods g1)
              (sampleCounts g1) (totalSampleCount g1))
  else Ok g.

Definition model_msg : string :=
  "_model must have CV_64FC1 type, rows == 1 and cols == 13*componentsCount".

(** const int modelSize = 3 + 9 + 1 *)
Definition modelSize : Z := 3 + 9 + 1.

(** [GMM::GMM( Mat& _model )].  The fields that the constructor leaves
    uninitialised hold 0 here. *)
Definition GMM_new (_model : Mat R) : res GMM :=
  do m <- (if mat_empty _model
           then Ok (mat_create_fill 1 (modelSize * componentsCount) CV_64FC1 0)
           else if negb (mtype _model =? CV_64FC1) || negb (rows _model =? 1)
                   || negb (cols _model =? modelSize * componentsCount)
                then Err (BadArg model_msg)
                else Ok _model);
  let g := mkGMM m (fun _ _ _ => 0) (fun _ => 0) (fun _ _ => 0)
                 (fun _ _ _ => 0) (fun _ => 0%Z) 0%Z in
  forM (zrange componentsCount)
       (fun g ci => if Rgtb (coefs g ci) 0 then calcInverseCovAndDeterm g ci else Ok g)
       g.

(** [double GMM::operator()( int ci, const Vec3d color ) const] *)
Definition GMM_call_ci (g : GMM) (ci : Z) (color : Vec3d) : res R :=
  if Rgtb (coefs g ci) 0 then
    do _ <- CV_Assert (Rgtb (covDeterms g ci) epsilon);
    let '(c0, c1, c2) := color in
    let m := fun i => mean g (3 * ci + i)%Z in
    let d0 := c0 - m 0%Z in
    let d1 := c1 - m 1%Z in
    let d2 := c2 - m 2%Z in
    let ic := inverseCovs g ci in
    let mult :=
      d0 * (d0 * ic 0%Z 0%Z + d1 * ic 1%Z 0%Z + d2 * ic 2%Z 0%Z)
      + d1 * (d0 * ic 0%Z 1%Z + d1 * ic 1%Z 1%Z + d2 * ic 2%Z 1%Z)
      + d2 * (d0 * ic 0%Z 2%Z + d1 * ic 1%Z 2%Z + d2 * ic 2%Z 2%Z) in
    Ok (1 / sqrt (covDeterms g ci) * exp (- (1 / 2) * mult))
  else Ok 0.

(** [double GMM::operator()( const Vec3d color ) const] *)
Definition GMM_call (g : GMM) (color : Vec3d) : res R :=
  forM (zrange componentsCount)
       (fun res ci => do v <- GMM_call_ci g ci color; Ok (res + coefs g ci * v))
       0.

(** [int GMM::whichComponent( const Vec3d color ) const]; the loop state
    is the pair (k, max). *)
Definition whichComponent (g : GMM) (color : Vec3d) : res Z :=
  do km <- forM (zrange componentsCount)
             (fun (km : Z * R) ci =>
                do p <- GMM_call_ci g ci color;
                if Rgtb p (snd km) then Ok (ci, p) else Ok km)
             (0%Z, 0);
  Ok (fst km).

(** [GMM::initLearning] *)
Definition initLearning (g : GMM) : GMM :=
  let g' := fold_left
    (fun g ci =>
       let s := upd2 (upd2 (upd2 (sums g) ci 2 0) ci 1 0) ci 0 0 in
       let p := prods g in
       let p := upd3 (upd3 (upd3 p ci 0 2 0) ci 0 1 0) ci 0 0 0 in
       let p := upd3 (upd3 (upd3 p ci 1 2 0) ci 1 1 0) ci 1 0 0 in
       let p := upd3 (upd3 (upd3 p ci 2 2 0) ci 2 1 0) ci 2 0 0 in
       mkGMM (model g) (inverseCovs g) (covDeterms g) s p
             (upd1 (sampleCounts g) ci 0%Z) (totalSampleCount g))
    (zrange componentsCount) g in
  mkGMM (model g') (inverseCovs g') (covDeterms g') (sums g') (prods g')
        (sampleCounts g') 0%Z.

(** [GMM::addSample] *)
Definition addSample (g : GMM) (ci : Z) (color : Vec3d) : GMM :=
  let '(c0, c1, c2) := color in
  let c := fun i : Z => if (i =? 0)%Z then c0 else if (i =? 1)%Z then c1 else c2 in
  let s := sums g in
  let s := upd2 s ci 0 (s ci 0%Z + c0) in
  let s := upd2 s ci 1 (s ci 1%Z + c1) in
  let s := upd2 s ci 2 (s ci 2%Z + c2) in
  let p := fold_left
    (fun p ij => upd3 p ci (fst ij) (snd ij)
                   (p ci (fst ij) (snd ij) + c (fst ij) * c (snd ij)))
    [(0, 0); (0, 1); (0, 2); (1, 0); (1, 1); (1, 2); (2, 0); (2, 1); (2, 2)]%Z
    (prods g) in
  mkGMM (model g) (inverseCovs g) (covDeterms g) s p
        (upd1 (sampleCounts g) ci (sampleCounts g ci + 1)%Z)
        (totalSampleCount g + 1)%Z.

(** [GMM::endLearning], the component has samples: the assignments to
    [coefs[ci]], to the mean [m] and to the covariance [c]. *)
Definition learnComponent (g : GMM) (ci : Z) : GMM :=
  let n := sampleCounts g ci in
  let g := set_coefs g ci (IZR n / IZR (totalSampleCount g)) in
  let nr := IZR n in
  (* double* m = mean + 3*ci *)
  let g := set_mean g (3 * ci + 0) (sums g ci 0%Z / nr) in
  let g := set_mean g (3 * ci + 1) (sums g ci 1%Z / nr) in
  let g := set_mean g (3 * ci + 2) (sums g ci 2%Z / nr) in
  let m := fun i => mean g (3 * ci + i)%Z in
  (* double* c = cov + 9*ci *)
  fold_left
    (fun g ij => set_cov g (9 * ci + (3 * fst ij + snd ij))
                   (prods g ci (fst ij) (snd ij) / nr - m (fst ij) * m (snd ij)))
    [(0, 0); (0, 1); (0, 2); (1, 0); (1, 1); (1, 2); (2, 0); (2, 1); (2, 2)]%Z
    g.

(** [GMM::endLearning]: "adds the white noise to avoid singular covariance
    matrix".  The test is made on the exact determinant; the code makes it
    on the rounded one. *)
Definition addWhiteNoise (g : GMM) (ci : Z) : GMM :=
  let variance := 1 / 100 in
  let c := fun i => cov g (9 * ci + i)%Z in
  let dtrm := det3 c in
  if Rleb dtrm epsilon then
    let g := set_cov g (9 * ci + 0) (c 0%Z + variance) in
    let g := set_cov g (9 * ci + 4) (c 4%Z + variance) in
    set_cov g (9 * ci + 8) (c 8%Z + variance)
  else g.

(** The body of the loop of [GMM::endLearning] for one component. *)
Definition endLearning_ci (g : GMM) (ci : Z) : res GMM :=
  let n := sampleCounts g ci in
  if (n =? 0)%Z then Ok (set_coefs g ci 0)
  else calcInverseCovAndDeterm (addWhiteNoise (learnComponent g ci) ci) ci.

(** [GMM::endLearning] *)
Definition endLearning (g : GMM) : res GMM :=
  forM (zrange componentsCount) endLearning_ci g.

End GMM_ops.

(* ================================================================== *)
(** * Labels and modes (constants of the imgproc header) *)

Definition GC_BGD : Z := 0.
Definition GC_FGD : Z := 1.
Definition GC_PR_BGD : Z := 2.
Definition GC_PR_FGD : Z := 3.

Definition GC_INIT_WITH_RECT : Z := 0.
Definition GC_INIT_WITH_MASK : Z := 1.
Definition GC_EVAL : Z := 2.

(** Modelled from the spec: the sentinels of the pixel-to-vertex map and the
    two predicates on them; their declarations are not in grabcut.cpp.
    "JOINED_BG = -1, JOINED_FG = -2"; "joined-to-foreground?" and
    "joined-to-background?" classify the sentinels. *)
Definition GC_JNT_BGD : Z := -1.
Definition GC_JNT_FGD : Z := -2.
Definition jbg (v : Z) : bool := v =? GC_JNT_BGD.
Definition jfg (v : Z) : bool := v =? GC_JNT_FGD.

Definition is_bgd_like (v : Z) : bool := (v =? GC_BGD) || (v =? GC_PR_BGD).
Definition is_probable (v : Z) : bool := (v =? GC_PR_BGD) || (v =? GC_PR_FGD).

(* ================================================================== *)
(** * beta and the smoothness weights *)

Section Weights.
Local Open Scope R_scope.

Definition vsub (a b : Vec3d) : Vec3d :=
  let '(a0, a1, a2) := a in let '(b0, b1, b2) := b in (a0 - b0, a1 - b1, a2 - b2).

Definition vdot (a b : Vec3d) : R :=
  let '(a0, a1, a2) := a in let '(b0, b1, b2) := b in a0 * b0 + a1 * b1 + a2 * b2.

(** [diff.dot(diff)] for [diff = color - (Vec3d)img.at<Vec3b>(y, x)] *)
Definition sqdiff (img : Mat Vec3b) (color : Vec3d) (y x : Z) : R :=
  let diff := vsub color (to_Vec3d (mat_at img y x)) in vdot diff diff.

(** A 32-bit [int] after an arithmetic operation: the two's-complement
    value of the exact result. *)
Definition wrap_int (z : Z) : Z := ((z + 2 ^ 31) mod 2 ^ 32 - 2 ^ 31)%Z.

(** [calcBeta].  The divisor
    [4*img.cols*img.rows - 3*img.cols - 3*img.rows + 2] is an [int]
    expression; wrapping the exact value once gives the same [int] as
    wrapping after each of its operations. *)
Definition calcBeta (img : Mat Vec3b) : R :=
  let beta := fold_left
    (fun beta p =>
       let x := px p in let y := py p in
       let color := to_Vec3d (mat_at img y x) in
       let beta := if (x >? 0)%Z then beta + sqdiff img color y (x - 1) else beta in
       let beta := if (y >? 0)%Z && (x >? 0)%Z
                   then beta + sqdiff img color (y - 1) (x - 1) else beta in
       let beta := if (y >? 0)%Z then beta + sqdiff img color (y - 1) x else beta in
       let beta := if (y >? 0)%Z && (x <? cols img - 1)%Z
                   then beta + sqdiff img color (y - 1) (x + 1) else beta in
       beta)
    (raster (rows img) (cols img)) 0 in
  if Rleb beta epsilon then 0
  else 1 / (2 * beta
            / IZR (wrap_int (4 * cols img * rows img - 3 * cols img - 3 * rows img + 2))).

Record NWeights : Type := mkNWeights {
  leftW : Mat R; upleftW : Mat R; upW : Mat R; uprightW : Mat R
}.

(** [std::sqrt(2.0f)]: the argument is a [float], so the result is the
    single-precision square root of 2, 11863283 * 2^-23. *)
Definition sqrt2f : R := 11863283 / 8388608.

(** [calcNWeights] *)
Definition calcNWeights (img : Mat Vec3b) (beta gamma : R) : NWeights :=
  let gammaDivSqrt2 := gamma / sqrt2f in
  let fresh := mat_create_fill (rows img) (cols img) CV_64FC1 0 in
  fold_left
    (fun nw p =>
       let x := px p in let y := py p in
       let color := to_Vec3d (mat_at img y x) in
       let l := if (x - 1 >=? 0)%Z
                then gamma * exp (- beta * sqdiff img color y (x - 1)) else 0 in
       let ul := if (x - 1 >=? 0)%Z && (y - 1 >=? 0)%Z
                 then gammaDivSqrt2 * exp (- beta * sqdiff img color (y - 1) (x - 1))
                 else 0 in
       let u := if (y - 1 >=? 0)%Z
                then gamma * exp (- beta * sqdiff img color (y - 1) x) else 0 in
       let ur := if (x + 1 <? cols img)%Z && (y - 1 >=? 0)%Z
                 then gammaDivSqrt2 * exp (- beta * sqdiff img color (y - 1) (x + 1))
                 else 0 in
       mkNWeights (mat_set (leftW nw) y x l) (mat_set (upleftW nw) y x ul)
                  (mat_set (upW nw) y x u) (mat_set (uprightW nw) y x ur))
    (raster (rows img) (cols img))
    (mkNWeights fresh fresh fresh fresh).

End Weights.

(* ================================================================== *)
(** * The mask *)

(** [checkMask] *)
Definition checkMask (img : Mat Vec3b) (mask : Mat Z) : res unit :=
  if mat_empty mask then Err (BadArg "mask is empty")
  else if negb (mtype mask =? CV_8UC1) then Err (BadArg "mask must have CV_8UC1 type")
  else if negb (cols mask =? cols img) || negb (rows mask =? rows img)
  then Err (BadArg "mask must have as many rows and cols as img")
  else
    forM (raster (rows mask) (cols mask))
         (fun _ p =>
            let val := mat_atP mask p in
            if negb (val =? GC_BGD) && negb (val =? GC_FGD)
               && negb (val =? GC_PR_BGD) && negb (val =? GC_PR_FGD)
            then Err (BadArg
              "mask element value must be equelGC_BGD or GC_FGD or GC_PR_BGD or GC_PR_FGD")
            else Ok tt)
         tt.

(** Modelled from the OpenCV core (not part of grabcut.cpp): [m(rect)],
    the header of the region of [m] under [rect], whose constructor asserts
    that the region lies in the matrix. *)
Definition roi_in_mat {A} (m : Mat A) (r : Rect) : bool :=
  (0 <=? rx r) && (0 <=? rwidth r) && (rx r + rwidth r <=? cols m)
  && (0 <=? ry r) && (0 <=? rheight r) && (ry r + rheight r <=? rows m).

Definition in_rect (r : Rect) (y x : Z) : bool :=
  (rx r <=? x) && (x <? rx r + rwidth r) && (ry r <=? y) && (y <? ry r + rheight r).

(** [(m(rect)).setTo(v)]: the region shares its data with [m]. *)
Definition roi_setTo {A} (m : Mat A) (r : Rect) (v : A) : res (Mat A) :=
  do _ <- CV_Assert (roi_in_mat m r);
  Ok (mkMat (mtype m) (rows m) (cols m)
            (fun y x => if in_rect r y x then v else elems m y x)).

(** The four assignments to [rect] in [initMaskWithRect]. *)
Definition clampRect (imgSize : Size) (rect : Rect) : Rect :=
  let x := Z.max 0 (rx rect) in
  let y := Z.max 0 (ry rect) in
  let w := Z.min (rwidth rect) (width imgSize - x) in
  let h := Z.min (rheight rect) (height imgSize - y) in
  mkRect x y w h.

(** [initMaskWithRect]; the mask it is given is overwritten by [create]. *)
Definition initMaskWithRect (imgSize : Size) (rect : Rect) : res (Mat Z) :=
  let mask := mat_create_fill (height imgSize) (width imgSize) CV_8UC1 GC_BGD in
  roi_setTo mask (clampRect imgSize rect) GC_PR_FGD.

(* ================================================================== *)
(** * Seeding and learning the GMMs *)

Section Learning.

(** The k-means collaborator: the labels, one per sample, of a partition of
    the samples into [K] clusters. *)
Variable kmeans : list Vec3d -> Z -> list Z.

Definition zero3 : Vec3d := (0%R, 0%R, 0%R).

(** The two loops [bgdGMM.addSample( labels.at<int>(i,0), samples[i] )]. *)
Definition addLabelled (g : GMM) (labels : list Z) (samples : list Vec3d) : GMM :=
  fold_left (fun g i => addSample g (nth i labels 0) (nth i samples zero3))
            (seq 0 (List.length samples)) g.

(** [initGMMs] *)
Definition initGMMs (img : Mat Vec3b) (mask : Mat Z) (bgdGMM fgdGMM : GMM)
  : res (GMM * GMM) :=
  let '(bgdSamples, fgdSamples) := fold_left
    (fun (bf : list Vec3d * list Vec3d) p =>
       if is_bgd_like (mat_atP mask p)
       then (fst bf ++ [to_Vec3d (mat_atP img p)], snd bf)
       else (fst bf, snd bf ++ [to_Vec3d (mat_atP img p)]))
    (raster (rows img) (cols img)) ([], []) in
  do _ <- CV_Assert (negb (List.length bgdSamples =? 0)%nat && negb (List.length fgdSamples =? 0)%nat);
  let bgdLabels := kmeans bgdSamples componentsCount in
  let fgdLabels := kmeans fgdSamples componentsCount in
  do bgdGMM <- endLearning (addLabelled (initLearning bgdGMM) bgdLabels bgdSamples);
  do fgdGMM <- endLearning (addLabelled (initLearning fgdGMM) fgdLabels fgdSamples);
  Ok (bgdGMM, fgdGMM).

End Learning.

(** [assignGMMsComponents]; [compIdxs] is written at every pixel. *)
Definition assignGMMsComponents (img : Mat Vec3b) (mask : Mat Z)
    (bgdGMM fgdGMM : GMM) (compIdxs : Mat Z) : res (Mat Z) :=
  forM (raster (rows img) (cols img))
       (fun compIdxs p =>
          let color := to_Vec3d (mat_atP img p) in
          do k <- (if is_bgd_like (mat_atP mask p)
                   then whichComponent bgdGMM color
                   else whichComponent fgdGMM color);
          Ok (mat_setP compIdxs p k))
       compIdxs.

(** [learnGMMs] *)
Definition learnGMMs (img : Mat Vec3b) (mask compIdxs : Mat Z)
    (bgdGMM fgdGMM : GMM) : res (GMM * GMM) :=
  let '(b, f) := fold_left
    (fun (bf : GMM * GMM) ci =>
       fold_left
         (fun (bf : GMM * GMM) p =>
            if mat_atP compIdxs p =? ci then
              if is_bgd_like (mat_atP mask p)
              then (addSample (fst bf) ci (to_Vec3d (mat_atP img p)), snd bf)
              else (fst bf, addSample (snd bf) ci (to_Vec3d (mat_atP img p)))
            else bf)
         (raster (rows img) (cols img)) bf)
    (zrange componentsCount)
    (initLearning bgdGMM, initLearning fgdGMM) in
  do b <- endLearning b;
  do f <- endLearning f;
  Ok (b, f).

(* ================================================================== *)
(** * The max-flow graph *)

(** Modelled from the spec: class GCGraph of gcgraph.hpp, which is not part
    of grabcut.cpp.  "addVtx() -> int; addTermWeights(v, fromSource, toSink)
    [accumulative]; addEdges(u, v, capUV, capVU); a symmetric-accumulate
    variant addWeight(u, v, w) adding w to both directions; sumW(v) -> total
    incident capacity including terminals; getFirstP(v) / setFirstP(v, p)
    (store a single Point per vertex); source_sigmaW and sink_sigmaW
    accumulators (terminal analogues of sumW)". *)
Record Edge : Type := mkEdge { eu : Z; ev : Z; capUV : R; capVU : R }.

Record GCGraph : Type := mkGraph {
  vtxCount : Z;
  fromSourceW : Z -> R;
  toSinkW : Z -> R;
  edges : list Edge;
  firstP : Z -> Point;
  source_sigmaW : R;
  sink_sigmaW : R
}.

Definition noPoint : Point := mkPoint (-1) (-1).

Section Graph_ops.
Local Open Scope R_scope.

(** [graph.create(vtxCount, edgeCount)] reserves memory for an empty graph. *)
Definition graph_create : GCGraph :=
  mkGraph 0%Z (fun _ => 0) (fun _ => 0) [] (fun _ => noPoint) 0 0.

Definition addVtx (g : GCGraph) : GCGraph * Z :=
  (mkGraph (vtxCount g + 1)%Z (fromSourceW g) (toSinkW g) (edges g) (firstP g)
           (source_sigmaW g) (sink_sigmaW g),
   vtxCount g).

Definition addTermWeights (g : GCGraph) (i : Z) (sourceW sinkW : R) : GCGraph :=
  mkGraph (vtxCount g)
          (upd1 (fromSourceW g) i (fromSourceW g i + sourceW))
          (upd1 (toSinkW g) i (toSinkW g i + sinkW))
          (edges g) (firstP g)
          (source_sigmaW g + sourceW) (sink_sigmaW g + sinkW).

Definition addEdges (g : GCGraph) (i j : Z) (w revw : R) : GCGraph :=
  mkGraph (vtxCount g) (fromSourceW g) (toSinkW g)
          (edges g ++ [mkEdge i j w revw]) (firstP g)
          (source_sigmaW g) (sink_sigmaW g).

Definition addWeight (g : GCGraph) (i j : Z) (w : R) : GCGraph := addEdges g i j w w.

Definition sumW (g : GCGraph) (i : Z) : R :=
  fold_left
    (fun s e => (if (eu e =? i)%Z then s + capUV e else s)
                + (if (ev e =? i)%Z then capVU e else 0))
    (edges g) (fromSourceW g i + toSinkW g i).

Definition getFirstP (g : GCGraph) (i : Z) : Point := firstP g i.

Definition setFirstP (g : GCGraph) (i : Z) (p : Point) : GCGraph :=
  mkGraph (vtxCount g) (fromSourceW g) (toSinkW g) (edges g)
          (upd1 (firstP g) i p) (source_sigmaW g) (sink_sigmaW g).

(** The capacity of the cut that puts the vertices [v] with [S v = true] on
    the side of the source and the others on the side of the sink. *)
Definition cutValue (g : GCGraph) (S : Z -> bool) : R :=
  fold_left (fun s v => s + (if S v then toSinkW g v else fromSourceW g v))
            (zrange (vtxCount g)) 0
  + fold_left (fun s e => s + (if S (eu e) && negb (S (ev e)) then capUV e else 0)
                            + (if S (ev e) && negb (S (eu e)) then capVU e else 0))
              (edges g) 0.

(** [F] is the value of a minimum cut of [g]; by the max-flow min-cut
    theorem this is what [maxFlow()] computes. *)
Definition is_mincut (g : GCGraph) (F : R) : Prop :=
  (exists S, cutValue g S = F) /\ (forall S, F <= cutValue g S).

End Graph_ops.

(* ================================================================== *)
(** * The slim graph construction *)

Section Slim.
Local Open Scope R_scope.

(** [getSinkW]: sink (BGD) weight for pixel p in the non reduced graph *)
Definition getSinkW (p : Point) (img : Mat Vec3b) (mask : Mat Z)
    (bgdGMM fgdGMM : GMM) (lambda : R) : res R :=
  let color := to_Vec3d (mat_at img (py p) (px p)) in
  if (mat_atP mask p =? GC_BGD)%Z then Ok lambda
  else if is_probable (mat_at mask (py p) (px p))
  then do v <- GMM_call fgdGMM color; neg_log v
  else Ok 0.

(** [getSourceW]: source (FGD) weight for pixel p in the non reduced graph *)
Definition getSourceW (p : Point) (img : Mat Vec3b) (mask : Mat Z)
    (bgdGMM fgdGMM : GMM) (lambda : R) : res R :=
  let color := to_Vec3d (mat_at img (py p) (px p)) in
  if (mat_atP mask p =? GC_FGD)%Z then Ok lambda
  else if is_probable (mat_at mask (py p) (px p))
  then do v <- GMM_call bgdGMM color; neg_log v
  else Ok 0.

(** [pendingSumW] *)
Definition pendingSumW (p pxl : Point) (img : Mat Vec3b) (nw : NWeights) : R :=
  let s := 0 in
  let s :=
    if (((py pxl =? py p) && (px pxl <? px p))
        || ((py pxl =? py p - 1) && (px pxl >=? px p)))%Z
    then
      let s := if (px pxl =? px p - 1)%Z
               then s + mat_atP (leftW nw) (mkPoint (px pxl + 1) (py pxl)) else s in
      if (py pxl <? rows img - 1)%Z then
        let s := s + mat_at (upW nw) (py pxl + 1) (px pxl) in
        let s := if ((px pxl >? 0) && negb (px pxl =? px p))%Z
                 then s + mat_at (uprightW nw) (py pxl + 1) (px pxl - 1) else s in
        if (px pxl <? cols img - 1)%Z
        then s + mat_at (upleftW nw) (py pxl + 1) (px pxl + 1) else s
      else s
    else s in
  if ((py pxl =? py p - 1) && (px pxl =? px p - 1))%Z
  then s + mat_atP (upleftW nw) p else s.

(** Arithmetic of [size_t] (64 bits). *)
Definition wrap_size_t (z : Z) : Z := (z mod 2 ^ 64)%Z.

(** [v[i]] for a [std::vector<Point>] and a [size_t] index. *)
Definition vec_at (v : list Point) (i : Z) : res Point :=
  if (i <? Z.of_nat (List.length v))%Z then
    match nth_error v (Z.to_nat i) with
    | Some pxl => Ok pxl
    | None => Err OutOfRange
    end
  else Err OutOfRange.

(** The loop
    [for (size_t i = v.size() - 1; i-- > 0; ) { pxl = v[i]; s += ...; if (...) break; }]
    of [getSinkPendingSumW] and [getSourcePendingSumW], from the value [i]
    of the counter before the test.  [fuel] bounds the number of tests. *)
Fixpoint pendingLoop (fuel : nat) (p : Point) (img : Mat Vec3b) (nw : NWeights)
    (v : list Point) (i : Z) (s : R) : res R :=
  match fuel with
  | O => Err Diverges
  | S fuel' =>
      if (i >? 0)%Z then
        let i := wrap_size_t (i - 1) in
        do pxl <- vec_at v i;
        let s := s + pendingSumW p pxl img nw in
        if ((py pxl <=? py p - 1) && (px pxl <? px p - 1))%Z then Ok s
        else pendingLoop fuel' p img nw v i s
      else Ok s
  end.

(** [getSinkPendingSumW] *)
Definition getSinkPendingSumW (p : Point) (img : Mat Vec3b) (nw : NWeights)
    (sinkToPxl : list Point) : res R :=
  pendingLoop (S (List.length sinkToPxl)) p img nw sinkToPxl
              (wrap_size_t (Z.of_nat (List.length sinkToPxl) - 1)) 0.

(** [getSourcePendingSumW] *)
Definition getSourcePendingSumW (p : Point) (img : Mat Vec3b) (nw : NWeights)
    (sourceToPxl : list Point) : res R :=
  pendingLoop (S (List.length sourceToPxl)) p img nw sourceToPxl
              (wrap_size_t (Z.of_nat (List.length sourceToPxl) - 1)) 0.

(** The terminal weights of a pixel as [initSigmaW], [constructGCGraph_slim]
    and [constructGCGraph] compute them: (fromSource, toSink). *)
Definition probableWeights (color : Vec3d) (bgdGMM fgdGMM : GMM) : res (R * R) :=
  do b <- GMM_call bgdGMM color;
  do fromSource <- neg_log b;
  do f <- GMM_call fgdGMM color;
  do toSink <- neg_log f;
  Ok (fromSource, toSink).

Definition tWeights (label : Z) (color : Vec3d) (bgdGMM fgdGMM : GMM) (lambda : R)
  : res (R * R) :=
  if is_probable label then probableWeights color bgdGMM fgdGMM
  else if (label =? GC_BGD)%Z then Ok (0, lambda)
  else Ok (lambda, 0).

(** [initSigmaW] *)
Definition initSigmaW (img : Mat Vec3b) (mask : Mat Z) (bgdGMM fgdGMM : GMM)
    (sigmaW : Mat R) (nw : NWeights) (lambda : R) : res (Mat R) :=
  forM (raster (rows img) (cols img))
       (fun sigmaW p =>
          let x := px p in let y := py p in
          let s := 0 in
          let s := s + mat_at (leftW nw) y x in
          let s := s + mat_at (upleftW nw) y x in
          let s := s + mat_at (upW nw) y x in
          let s := s + mat_at (uprightW nw) y x in
          let s := if (x <? cols img - 1)%Z then s + mat_at (leftW nw) y (x + 1) else s in
          let s := if ((x <? cols img - 1) && (y <? rows img - 1))%Z
                   then s + mat_at (upleftW nw) (y + 1) (x + 1) else s in
          let s := if (y <? rows img - 1)%Z then s + mat_at (upW nw) (y + 1) x else s in
          let s := if ((x >? 0) && (y <? rows img - 1))%Z
                   then s + mat_at (uprightW nw) (y + 1) (x - 1) else s in
          do '(fromSource, toSink) <-
             tWeights (mat_at mask y x) (to_Vec3d (mat_at img y x)) bgdGMM fgdGMM lambda;
          Ok (mat_set sigmaW y x (s + fromSource + toSink)))
       sigmaW.

(** [slimSumW].  The step of its loop reads [Vtx2pxl.at<Point>(p)], the
    entry of the probing pixel [p], not that of [pxl]: after the first pixel
    of the chain the loop stops when that entry is (-1,-1) and goes on for
    ever with the same [pxl] otherwise. *)
Definition slimSumW (img : Mat Vec3b) (i : Z) (p : Point) (graph : GCGraph)
    (nw : NWeights) (Vtx2pxl : Mat Point) : res R :=
  let s := sumW graph i in
  let pxl := getFirstP graph i in
  if Point_eqb pxl noPoint then Ok s
  else
    let s := s + pendingSumW p pxl img nw in
    if Point_eqb (mat_atP Vtx2pxl p) noPoint then Ok s else Err Diverges.

Definition BV_NO_VTX_FOUND : Z := -10.

(** The loop "search for first joinable neighbor" of [searchJoin]:
    [nghbrVtx] and [s] are the arrays, [half] is [0.5 * sigmaW.at<double>(p)],
    [dual cn s_i] evaluates the dual condition of a neighbour [cn]. *)
Fixpoint joinLoop (nghbrVtx : Z -> Z) (s : Z -> R) (half : R)
    (dual : Z -> R -> res bool) (idx : list Z) : res Z :=
  match idx with
  | [] => Ok BV_NO_VTX_FOUND
  | i :: idx' =>
      let cn := nghbrVtx i in
      if (cn =? -10)%Z then joinLoop nghbrVtx s half dual idx'
      else if Rgtb (s i) half then Ok cn
      else
        do d <- dual cn (s i);
        if d then Ok cn else joinLoop nghbrVtx s half dual idx'
  end.

(** The arrays [nghbrVtx] and [w] of [searchJoin] after the four tests:
    entry [i] is the pair (nghbrVtx[i], w[i]); order left, upleft, up,
    upright; (-10, 0) where there is no neighbour. *)
Definition neighbours (p : Point) (img : Mat Vec3b) (pxl2Vtx : Mat Z) (nw : NWeights)
  : Z -> Z * R :=
  let none : Z * R := ((-10)%Z, 0) in
  let n0 := if (px p >? 0)%Z
            then (mat_at pxl2Vtx (py p) (px p - 1), mat_atP (leftW nw) p) else none in
  let n1 := if ((px p >? 0) && (py p >? 0))%Z
            then (mat_at pxl2Vtx (py p - 1) (px p - 1), mat_atP (upleftW nw) p) else none in
  let n2 := if (py p >? 0)%Z
            then (mat_at pxl2Vtx (py p - 1) (px p), mat_atP (upW nw) p) else none in
  let n3 := if ((py p >? 0) && (px p <? cols img - 1))%Z
            then (mat_at pxl2Vtx (py p - 1) (px p + 1), mat_atP (uprightW nw) p) else none in
  fun i : Z => if (i =? 0)%Z then n0 else if (i =? 1)%Z then n1
               else if (i =? 2)%Z then n2 else n3.

(** The dual condition of [searchJoin] for the neighbour [cn] with
    aggregated weight [si]. *)
Definition dualCondition (p : Point) (img : Mat Vec3b) (nw : NWeights)
    (graph : GCGraph) (Vtx2pxl : Mat Point) (sinkToPxl sourceToPxl : list Point)
    (ws wt : R) (cn : Z) (si : R) : res bool :=
  if (cn >=? 0)%Z then
    do t <- slimSumW img cn p graph nw Vtx2pxl;
    Ok (Rgtb si ((1 / 2) * t))
  else if (cn =? GC_JNT_BGD)%Z then
    do pend <- getSinkPendingSumW p img nw sinkToPxl;
    Ok (Rgtb ws ((1 / 2) * (sink_sigmaW graph + pend)))
  else
    do pend <- getSourcePendingSumW p img nw sourceToPxl;
    Ok (Rgtb wt ((1 / 2) * (source_sigmaW graph + pend))).

(** The array [s] of [searchJoin]. *)
Definition aggregated (nb : Z -> Z * R) (ws wt : R) (i : Z) : R :=
  let nghbrVtx := fun i => fst (nb i) in
  let w := fun i => snd (nb i) in
  let si := fold_left
    (fun si j => if (nghbrVtx i =? nghbrVtx j)%Z then si + w j else si)
    (zrange 4) 0 in
  let si := if (nghbrVtx i =? GC_JNT_BGD)%Z then si + ws else si in
  if (nghbrVtx i =? GC_JNT_FGD)%Z then si + wt else si.

(** [searchJoin].  The source names [ws] the weight to the sink and [wt]
    the weight from the source. *)
Definition searchJoin (p : Point) (img : Mat Vec3b) (sigmaW : Mat R) (pxl2Vtx : Mat Z)
    (nw : NWeights) (graph : GCGraph) (Vtx2pxl : Mat Point) (mask : Mat Z)
    (bgdGMM fgdGMM : GMM) (lambda : R) (sinkToPxl sourceToPxl : list Point) : res Z :=
  let nb := neighbours p img pxl2Vtx nw in
  do ws <- getSinkW p img mask bgdGMM fgdGMM lambda;
  do wt <- getSourceW p img mask bgdGMM fgdGMM lambda;
  let half := (1 / 2) * mat_atP sigmaW p in
  if Rgtb ws half then Ok GC_JNT_BGD
  else if Rgtb wt half then Ok GC_JNT_FGD
  else
    joinLoop (fun i => fst (nb i)) (aggregated nb ws wt) half
      (dualCondition p img nw graph Vtx2pxl sinkToPxl sourceToPxl ws wt)
      (zrange 4).

(** The variables of [constructGCGraph_slim] that its loop changes. *)
Record SlimState : Type := mkSlim {
  graph : GCGraph;
  pxl2Vtx : Mat Z;
  Vtx2pxl : Mat Point;
  sinkToPxl : list Point;
  sourceToPxl : list Point;
  s2tw : R;
  count : Z
}.

(** One of the four blocks "set n-weights and t-weights" of the loop, for
    the neighbour with vertex [n] reached by an edge of weight [w]. *)
Definition linkNeighbor (graph : GCGraph) (s2tw : R) (vtx n : Z) (w : R)
  : GCGraph * R :=
  if (n >=? 0)%Z then
    if (vtx >=? 0)%Z then
      if negb (vtx =? n)%Z then (addWeight graph vtx n w, s2tw) else (graph, s2tw)
    else
      (addTermWeights graph n (if jfg vtx then w else 0) (if jbg vtx then w else 0), s2tw)
  else
    if (vtx >=? 0)%Z then
      (addTermWeights graph vtx (if jfg n then w else 0) (if jbg n then w else 0), s2tw)
    else
      if negb (Bool.eqb (jbg vtx) (jbg n)) then (graph, s2tw + w) else (graph, s2tw).

(** The four blocks in their order: left, upleft, up, upright. *)
Definition linkNeighbors (img : Mat Vec3b) (nw : NWeights) (p : Point)
    (pxl2Vtx : Mat Z) (graph : GCGraph) (s2tw : R) : GCGraph * R :=
  let x := px p in let y := py p in
  let vtx := mat_atP pxl2Vtx p in
  let gs := (graph, s2tw) in
  let gs := if (x >? 0)%Z
            then linkNeighbor (fst gs) (snd gs) vtx
                   (mat_atP pxl2Vtx (mkPoint (x - 1) y)) (mat_atP (leftW nw) p)
            else gs in
  let gs := if ((x >? 0) && (y >? 0))%Z
            then linkNeighbor (fst gs) (snd gs) vtx
                   (mat_atP pxl2Vtx (mkPoint (x - 1) (y - 1))) (mat_atP (upleftW nw) p)
            else gs in
  let gs := if (y >? 0)%Z
            then linkNeighbor (fst gs) (snd gs) vtx
                   (mat_atP pxl2Vtx (mkPoint x (y - 1))) (mat_atP (upW nw) p)
            else gs in
  if ((x <? cols img - 1) && (y >? 0))%Z
  then linkNeighbor (fst gs) (snd gs) vtx
         (mat_atP pxl2Vtx (mkPoint (x + 1) (y - 1))) (mat_atP (uprightW nw) p)
  else gs.

(** The first half of the loop body: the pixel gets its vertex or
    terminal. *)
Definition classifyPixel (img : Mat Vec3b) (mask : Mat Z) (bgdGMM fgdGMM : GMM)
    (lambda : R) (nw : NWeights) (sigmaW : Mat R) (st : SlimState) (p : Point)
  : res SlimState :=
  let color := to_Vec3d (mat_atP img p) in
  if is_probable (mat_atP mask p) then
    do i <- searchJoin p img sigmaW (pxl2Vtx st) nw (graph st) (Vtx2pxl st) mask
              bgdGMM fgdGMM lambda (sinkToPxl st) (sourceToPxl st);
    let '(st, vtxIdx) :=
      if negb (i =? BV_NO_VTX_FOUND)%Z then
        if (i >=? 0)%Z then
          (mkSlim (setFirstP (graph st) i p) (mat_setP (pxl2Vtx st) p i)
                  (mat_setP (Vtx2pxl st) p (getFirstP (graph st) i))
                  (sinkToPxl st) (sourceToPxl st) (s2tw st) (count st + 1)%Z, i)
        else if (i =? GC_JNT_BGD)%Z then
          (mkSlim (graph st) (mat_setP (pxl2Vtx st) p i) (Vtx2pxl st)
                  (sinkToPxl st ++ [p]) (sourceToPxl st) (s2tw st) (count st + 1)%Z, i)
        else
          (mkSlim (graph st) (mat_setP (pxl2Vtx st) p i) (Vtx2pxl st)
                  (sinkToPxl st) (sourceToPxl st ++ [p]) (s2tw st) (count st + 1)%Z, i)
      else
        let '(g, vtxIdx) := addVtx (graph st) in
        (mkSlim (setFirstP g vtxIdx p) (mat_setP (pxl2Vtx st) p vtxIdx) (Vtx2pxl st)
                (sinkToPxl st) (sourceToPxl st) (s2tw st) (count st), vtxIdx) in
    if (vtxIdx >=? 0)%Z then
      do '(fromSource, toSink) <- probableWeights color bgdGMM fgdGMM;
      Ok (mkSlim (addTermWeights (graph st) vtxIdx fromSource toSink) (pxl2Vtx st)
                 (Vtx2pxl st) (sinkToPxl st) (sourceToPxl st) (s2tw st) (count st))
    else if (vtxIdx =? GC_JNT_BGD)%Z then
      do v <- getSourceW p img mask bgdGMM fgdGMM lambda;
      Ok (mkSlim (graph st) (pxl2Vtx st) (Vtx2pxl st) (sinkToPxl st) (sourceToPxl st)
                 (s2tw st + v) (count st))
    else
      do v <- getSinkW p img mask bgdGMM fgdGMM lambda;
      Ok (mkSlim (graph st) (pxl2Vtx st) (Vtx2pxl st) (sinkToPxl st) (sourceToPxl st)
                 (s2tw st + v) (count st))
  else if (mat_atP mask p =? GC_BGD)%Z then
    Ok (mkSlim (graph st) (mat_setP (pxl2Vtx st) p GC_JNT_BGD) (Vtx2pxl st)
               (sinkToPxl st ++ [p]) (sourceToPxl st) (s2tw st) (count st))
  else
    Ok (mkSlim (graph st) (mat_setP (pxl2Vtx st) p GC_JNT_FGD) (Vtx2pxl st)
               (sinkToPxl st) (sourceToPxl st ++ [p]) (s2tw st) (count st)).

(** The body of the loop of [constructGCGraph_slim]. *)
Definition slimStep (img : Mat Vec3b) (mask : Mat Z) (bgdGMM fgdGMM : GMM)
    (lambda : R) (nw : NWeights) (sigmaW : Mat R) (st : SlimState) (p : Point)
  : res SlimState :=
  do st <- classifyPixel img mask bgdGMM fgdGMM lambda nw sigmaW st p;
  let '(g, w) := linkNeighbors img nw p (pxl2Vtx st) (graph st) (s2tw st) in
  Ok (mkSlim g (pxl2Vtx st) (Vtx2pxl st) (sinkToPxl st) (sourceToPxl st) w (count st)).

Definition slimInit (img : Mat Vec3b) (pxl2Vtx : Mat Z) : SlimState :=
  mkSlim graph_create pxl2Vtx
         (mat_create_fill (rows img) (cols img) 0%Z noPoint) [] [] 0 0%Z.

(** [constructGCGraph_slim].  The result holds the graph, the pixel map and
    the source-to-sink weight [s2tw] that the function prints.  The final
    call [graph.searchSimpleEdges()], whose count is printed and which the
    source marks "to be removed", is left out. *)
Definition constructGCGraph_slim (img : Mat Vec3b) (mask : Mat Z) (bgdGMM fgdGMM : GMM)
    (lambda : R) (nw : NWeights) (pxl2Vtx : Mat Z) : res SlimState :=
  do sigmaW <- initSigmaW img mask bgdGMM fgdGMM
                 (mat_create_fill (rows img) (cols img) CV_64FC1 0) nw lambda;
  forM (raster (rows img) (cols img))
       (slimStep img mask bgdGMM fgdGMM lambda nw sigmaW)
       (slimInit img pxl2Vtx).

(** [constructGCGraph] *)
Definition constructGCGraph (img : Mat Vec3b) (mask : Mat Z) (bgdGMM fgdGMM : GMM)
    (lambda : R) (nw : NWeights) : res GCGraph :=
  forM (raster (rows img) (cols img))
       (fun graph p =>
          let x := px p in let y := py p in
          let '(graph, vtxIdx) := addVtx graph in
          let color := to_Vec3d (mat_atP img p) in
          do '(fromSource, toSink) <- tWeights (mat_atP mask p) color bgdGMM fgdGMM lambda;
          let graph := addTermWeights graph vtxIdx fromSource toSink in
          let graph := if (x >? 0)%Z
                       then let w := mat_atP (leftW nw) p in
                            addEdges graph vtxIdx (vtxIdx - 1) w w
                       else graph in
          let graph := if ((x >? 0) && (y >? 0))%Z
                       then let w := mat_atP (upleftW nw) p in
                            addEdges graph vtxIdx (vtxIdx - cols img - 1) w w
                       else graph in
          let graph := if (y >? 0)%Z
                       then let w := mat_atP (upW nw) p in
                            addEdges graph vtxIdx (vtxIdx - cols img) w w
                       else graph in
          let graph := if ((x <? cols img - 1) && (y >? 0))%Z
                       then let w := mat_atP (uprightW nw) p in
                            addEdges graph vtxIdx (vtxIdx - cols img + 1) w w
                       else graph in
          Ok graph)
       graph_create.

End Slim.

(* ================================================================== *)
(** * Segmentation update and the entry points *)

Section Entry.

(** The collaborators: k-means, and the max-flow solver, of which the code
    uses the answer of [inSourceSegment] after [maxFlow()]. *)
Variable kmeans : list Vec3d -> Z -> list Z.
Variable inSourceSegment : GCGraph -> Z -> bool.

(** [estimateSegmentation_slim] *)
Definition estimateSegmentation_slim (graph : GCGraph) (mask : Mat Z) (ptx2Vtx : Mat Z)
  : Mat Z :=
  fold_left
    (fun mask p =>
       if is_probable (mat_atP mask p) then
         let v := mat_atP ptx2Vtx p in
         if v =? GC_JNT_BGD then mat_setP mask p GC_PR_BGD
         else if v =? GC_JNT_FGD then mat_setP mask p GC_PR_FGD
         else if inSourceSegment graph v then mat_setP mask p GC_PR_FGD
         else mat_setP mask p GC_PR_BGD
       else mask)
    (raster (rows mask) (cols mask)) mask.

(** [estimateSegmentation] *)
Definition estimateSegmentation (graph : GCGraph) (mask : Mat Z) : Mat Z :=
  fold_left
    (fun mask p =>
       if is_probable (mat_atP mask p) then
         if inSourceSegment graph (py p * cols mask + px p)
         then mat_setP mask p GC_PR_FGD
         else mat_setP mask p GC_PR_BGD
       else mask)
    (raster (rows mask) (cols mask)) mask.

(** What the caller owns and the entry points change: the mask and the two
    model buffers. *)
Record Outputs : Type := mkOutputs {
  out_mask : Mat Z;
  out_bgdModel : Mat R;
  out_fgdModel : Mat R
}.

Definition gamma : R := 50%R.
Definition lambda : R := (9 * gamma)%R.

(** The part of both entry points before the test of [iterCount]. *)
Definition initialise (img : Mat Vec3b) (mask : Mat Z) (rect : Rect)
    (bgdModel fgdModel : Mat R) (mode : Z) : res (Mat Z * GMM * GMM) :=
  if mat_empty img then Err (BadArg "image is empty")
  else if negb (mtype img =? CV_8UC3) then Err (BadArg "image must have CV_8UC3 type")
  else
    do bgdGMM <- GMM_new bgdModel;
    do fgdGMM <- GMM_new fgdModel;
    if (mode =? GC_INIT_WITH_RECT) || (mode =? GC_INIT_WITH_MASK) then
      do mask <- (if mode =? GC_INIT_WITH_RECT
                  then initMaskWithRect (mat_size img) rect
                  else do _ <- checkMask img mask; Ok mask);
      do '(bgdGMM, fgdGMM) <- initGMMs kmeans img mask bgdGMM fgdGMM;
      Ok (mask, bgdGMM, fgdGMM)
    else Ok (mask, bgdGMM, fgdGMM).

(** The state of the iterations of the entry points. *)
Definition IterState : Type := (Mat Z * GMM * GMM * Mat Z * Mat Z)%type.

(** The body of the loop of [cv::grabCut_slim]. *)
Definition iteration_slim (img : Mat Vec3b) (nw : NWeights) (st : IterState)
  : res IterState :=
  let '(mask, bgdGMM, fgdGMM, compIdxs, p2v) := st in
  do compIdxs <- assignGMMsComponents img mask bgdGMM fgdGMM compIdxs;
  do '(bgdGMM, fgdGMM) <- learnGMMs img mask compIdxs bgdGMM fgdGMM;
  do slim <- constructGCGraph_slim img mask bgdGMM fgdGMM lambda nw p2v;
  do graph2 <- constructGCGraph img mask bgdGMM fgdGMM lambda nw;
  let mask := estimateSegmentation_slim (graph slim) mask (pxl2Vtx slim) in
  Ok (mask, bgdGMM, fgdGMM, compIdxs, pxl2Vtx slim).

(** The body of the loop of [cv::grabCut]. *)
Definition iteration (img : Mat Vec3b) (nw : NWeights) (st : IterState)
  : res IterState :=
  let '(mask, bgdGMM, fgdGMM, compIdxs, p2v) := st in
  do compIdxs <- assignGMMsComponents img mask bgdGMM fgdGMM compIdxs;
  do '(bgdGMM, fgdGMM) <- learnGMMs img mask compIdxs bgdGMM fgdGMM;
  do graph <- constructGCGraph img mask bgdGMM fgdGMM lambda nw;
  Ok (estimateSegmentation graph mask, bgdGMM, fgdGMM, compIdxs, p2v).

Definition outputs (mask : Mat Z) (bgdGMM fgdGMM : GMM) : Outputs :=
  mkOutputs mask (model bgdGMM) (model fgdGMM).

(** The common shape of the two entry points, with the loop body [iter]. *)
Definition grabCut_with (iter : Mat Vec3b -> NWeights -> IterState -> res IterState)
    (img : Mat Vec3b) (mask : Mat Z) (rect : Rect) (bgdModel fgdModel : Mat R)
    (iterCount mode : Z) : res Outputs :=
  do '(mask, bgdGMM, fgdGMM) <- initialise img mask rect bgdModel fgdModel mode;
  if iterCount <=? 0 then Ok (outputs mask bgdGMM fgdGMM)
  else
    do _ <- (if mode =? GC_EVAL then checkMask img mask else Ok tt);
    let beta := calcBeta img in
    let nw := calcNWeights img beta gamma in
    let compIdxs := mat_create_fill (rows img) (cols img) CV_32SC1 0 in
    let p2v := mat_create_fill (rows img) (cols img) CV_32SC1 0 in
    do '(mask, bgdGMM, fgdGMM, _, _) <-
       forM (zrange iterCount) (fun st _ => iter img nw st)
            (mask, bgdGMM, fgdGMM, compIdxs, p2v);
    Ok (outputs mask bgdGMM fgdGMM).

(** [cv::grabCut_slim] *)
Definition grabCut_slim := grabCut_with iteration_slim.

(** [cv::grabCut] *)
Definition grabCut := grabCut_with iteration.

End Entry.

(* ================================================================== *)
(** * Notions used in the statements *)

(** The mask component of the state of the iterations. *)
Definition iter_mask (st : IterState) : Mat Z :=
  let '(mask, _, _, _, _) := st in mask.

(** Accumulation of [pendingSumW] over the pixels of [l] in their order,
    up to and including the first one that satisfies the early-out test. *)
Fixpoint pendingScan (p : Point) (img : Mat Vec3b) (nw : NWeights)
    (l : list Point) (s : R) : R :=
  match l with
  | [] => s
  | pxl :: l' =>
      let s := (s + pendingSumW p pxl img nw)%R in
      if (py pxl <=? py p - 1) && (px pxl <? px p - 1) then s
      else pendingScan p img nw l' s
  end.

(** Whether a result is the out-of-range access of a vector. *)
Definition out_of_range {A} (r : res A) : bool :=
  match r with
  | Err OutOfRange => true
  | _ => false
  end.

(** A 1 x 2 image, the second pixel as the probing pixel, and weight tables
    in which the only edge, between the two pixels, weighs 1. *)
Definition img_1x2 : Mat Vec3b := mkMat CV_8UC3 1 2 (fun _ _ => (0, 0, 0)).

Definition nw_1x2 : NWeights :=
  let zero := mat_create_fill 1 2 CV_64FC1 0%R in
  mkNWeights (mkMat CV_64FC1 1 2 (fun y x => if (y =? 0) && (x =? 1) then 1%R else 0%R))
             zero zero zero.

(** Raster order: [q] is visited before [p]. *)
Definition before (q p : Point) : Prop :=
  py q < py p \/ (py q = py p /\ px q < px p).

(** What the slim construction has recorded for a pixel [q] whose vertex is
    [v]: a graph vertex, or a terminal sentinel together with the membership
    of [q] in the chain of that terminal. *)
Definition recorded (st : SlimState) (q : Point) (v : Z) : Prop :=
  v >= 0
  \/ (v = GC_JNT_BGD /\ In q (sinkToPxl st))
  \/ (v = GC_JNT_FGD /\ In q (sourceToPxl st)).

(** Every pixel of [done] is recorded (and the count of vertices is not
    negative, so that a fresh vertex is not taken for a sentinel). *)
Definition chains_cover (done : list Point) (st : SlimState) : Prop :=
  0 <= vtxCount (graph st)
  /\ forall q, In q done -> recorded st q (mat_atP (pxl2Vtx st) q).

(** The covariance matrix of component [ci] in the parameter buffer, as
    nine row-major entries. *)
Definition covOf (g : GMM) (ci : Z) : Z -> R := fun i => cov g (9 * ci + i).

(** The mean of component [ci] in the parameter buffer. *)
Definition meanOf (g : GMM) (ci : Z) : Z -> R := fun i => mean g (3 * ci + i).

(** Entry (i, j) of the inverse of a 3x3 matrix by the adjugate formula. *)
Definition inv3 (c : Z -> R) (i j : Z) : R :=
  let cofactor :=
    if (i =? 0) && (j =? 0) then (c 4%Z * c 8%Z - c 5%Z * c 7%Z)%R
    else if (i =? 1) && (j =? 0) then (- (c 3%Z * c 8%Z - c 5%Z * c 6%Z))%R
    else if (i =? 2) && (j =? 0) then (c 3%Z * c 7%Z - c 4%Z * c 6%Z)%R
    else if (i =? 0) && (j =? 1) then (- (c 1%Z * c 8%Z - c 2%Z * c 7%Z))%R
    else if (i =? 1) && (j =? 1) then (c 0%Z * c 8%Z - c 2%Z * c 6%Z)%R
    else if (i =? 2) && (j =? 1) then (- (c 0%Z * c 7%Z - c 1%Z * c 6%Z))%R
    else if (i =? 0) && (j =? 2) then (c 1%Z * c 5%Z - c 2%Z * c 4%Z)%R
    else if (i =? 1) && (j =? 2) then (- (c 0%Z * c 5%Z - c 2%Z * c 3%Z))%R
    else (c 0%Z * c 4%Z - c 1%Z * c 3%Z)%R in
  (cofactor / det3 c)%R.

(** The quadratic form d^T M d. *)
Definition quad3 (M : Z -> Z -> R) (d : Vec3d) : R :=
  let '(d0, d1, d2) := d in
  (d0 * (d0 * M 0%Z 0%Z + d1 * M 1%Z 0%Z + d2 * M 2%Z 0%Z)
   + d1 * (d0 * M 0%Z 1%Z + d1 * M 1%Z 1%Z + d2 * M 2%Z 1%Z)
   + d2 * (d0 * M 0%Z 2%Z + d1 * M 1%Z 2%Z + d2 * M 2%Z 2%Z))%R.

(** The density of the 3-D Gaussian with mean [mu] and covariance [c]:
    (2 pi)^(-3/2) det(c)^(-1/2) exp(-1/2 (x - mu)^T c^-1 (x - mu)). *)
Definition gaussian3 (mu : Z -> R) (c : Z -> R) (x : Vec3d) : R :=
  (/ (sqrt ((2 * PI) ^ 3) * sqrt (det3 c))
   * exp (- (1 / 2) * quad3 (inv3 c) (vsub x (mu 0%Z, mu 1%Z, mu 2%Z))))%R.

(** The derived state of component [ci] agrees with the parameter buffer. *)
Definition derived_ok (g : GMM) (ci : Z) : Prop :=
  covDeterms g ci = det3 (covOf g ci)
  /\ forall i j, 0 <= i < 3 -> 0 <= j < 3 ->
       inverseCovs g ci i j = inv3 (covOf g ci) i j.

(** The value of [operator()(ci, color)] when its assertion holds. *)
Definition componentValue (g : GMM) (ci : Z) (color : Vec3d) : R :=
  if Rgtb (coefs g ci) 0
  then (1 / sqrt (covDeterms g ci)
        * exp (- (1 / 2) * quad3 (inverseCovs g ci) (vsub color (meanOf g ci 0%Z, meanOf g ci 1%Z, meanOf g ci 2%Z))))%R
  else 0%R.

(** The assertion of [operator()(ci, color)] holds for every component. *)
Definition components_regular (g : GMM) : Prop :=
  forall ci, 0 <= ci < componentsCount ->
    (coefs g ci > 0)%R -> (covDeterms g ci > epsilon)%R.

(** A parameter buffer with the 65 doubles of [l]. *)
Definition model_of_list (l : list R) : Mat R :=
  mkMat CV_64FC1 1 65 (fun _ x => nth (Z.to_nat x) l 0%R).

(** The value of [operator()(color)] when the assertions hold: the sum of
    the component values weighted by the coefficients. *)
Definition mixtureValue (g : GMM) (color : Vec3d) : R :=
  fold_left (fun res ci => (res + coefs g ci * componentValue g ci color)%R)
            (zrange componentsCount) 0%R.

(** The parameter buffer is one that the constructor takes as it is. *)
Definition model_shaped (m : Mat R) : Prop :=
  mat_empty m = false /\ mtype m = CV_64FC1 /\ rows m = 1
  /\ cols m = modelSize * componentsCount.

(** Concrete parameter buffers: coefficients, means, covariances. *)
Definition identity3 : list R := [1; 0; 0; 0; 1; 0; 0; 0; 1]%R.
Definition zeros (n : nat) : list R := repeat 0%R n.

(** One active component of weight [w], mean [(m0, m1, m2)] and identity
    covariance. *)
Definition model_single (w m0 m1 m2 : R) : Mat R :=
  model_of_list ([w; 0; 0; 0; 0]%R ++ [m0; m1; m2] ++ zeros 12
                 ++ identity3 ++ zeros 36).

(** Two active components centred at the origin: weight 9/10 with identity
    covariance, weight 1/10 with covariance diag(1/4, 1, 1). *)
Definition model_two : Mat R :=
  model_of_list ([9 / 10; 1 / 10; 0; 0; 0]%R ++ zeros 15
                 ++ identity3 ++ [1 / 4; 0; 0; 0; 1; 0; 0; 0; 1]%R ++ zeros 27).

Definition black : Vec3d := (0%R, 0%R, 0%R).

(** Weight tables that are zero everywhere. *)
Definition nw_zero (r c : Z) : NWeights :=
  let zero := mat_create_fill r c CV_64FC1 0%R in mkNWeights zero zero zero zero.

(** A 1 x 1 image of colour (1, 1, 0) whose pixel is probable foreground. *)
Definition img_1x1 : Mat Vec3b := mkMat CV_8UC3 1 1 (fun _ _ => (1, 1, 0)).
Definition mask_1x1 : Mat Z := mkMat CV_8UC1 1 1 (fun _ _ => GC_PR_FGD).

(** A 1 x 3 image of constant colour (0, 0, 0) with the labels background,
    probable foreground, foreground, and the weight tables that
    [calcNWeights] gives for it: the two horizontal edges weigh gamma. *)
Definition img_1x3 : Mat Vec3b := mkMat CV_8UC3 1 3 (fun _ _ => (0, 0, 0)).

Definition mask_1x3 : Mat Z :=
  mkMat CV_8UC1 1 3
        (fun _ x => if x =? 0 then GC_BGD else if x =? 1 then GC_PR_FGD else GC_FGD).

Definition nw_1x3 : NWeights :=
  let zero := mat_create_fill 1 3 CV_64FC1 0%R in
  mkNWeights
    (mkMat CV_64FC1 1 3
           (fun y x => if (y =? 0) && ((x =? 1) || (x =? 2)) then 50%R else 0%R))
    zero zero zero.

(** The buffer that the constructor creates for an empty one. *)
Definition zero_model : Mat R :=
  mat_create_fill 1 (modelSize * componentsCount) CV_64FC1 0%R.

(** A matrix without elements, as a default-constructed [Mat]. *)
Definition empty_model : Mat R := mkMat 0 0 0 (fun _ _ => 0%R).

(** The shape test of the constructor fails. *)
Definition wrong_shape (m : Mat R) : bool :=
  negb (mtype m =? CV_64FC1) || negb (rows m =? 1)
  || negb (cols m =? modelSize * componentsCount).

(** A 1 x 2 black image with the labels background, foreground; a k-means
    that puts every sample in cluster 0; a solver that answers "sink". *)
Definition img_1x2_black : Mat Vec3b := mkMat CV_8UC3 1 2 (fun _ _ => (0, 0, 0)).
Definition mask_1x2_hard : Mat Z :=
  mkMat CV_8UC1 1 2 (fun _ x => if x =? 0 then GC_BGD else GC_FGD).
Definition kmeans_one_cluster (samples : list Vec3d) (K : Z) : list Z :=
  map (fun _ => 0) samples.
Definition solver_all_sink (g : GCGraph) (v : Z) : bool := false.
Definition no_rect : Rect := mkRect 0 0 0 0.

(** The object that the constructor builds on an empty or zeroed buffer. *)
Definition zero_GMM : GMM :=
  mkGMM zero_model (fun _ _ _ => 0%R) (fun _ => 0%R) (fun _ _ => 0%R)
        (fun _ _ _ => 0%R) (fun _ => 0) 0.

(** That object after [initLearning] and one black sample in component 0. *)
Definition learnt_one : GMM := addSample (initLearning zero_GMM) 0 black.

(** The component map of the 1 x 2 image after [assignGMMsComponents]. *)
Definition comp_1x2 : Mat Z :=
  mat_setP (mat_setP (mat_create_fill 1 2 CV_32SC1 0) (mkPoint 0 0) 0) (mkPoint 1 0) 0.

(** The learning state of a model that has seen one black sample, in
    component 0. *)
Definition one_black_sample (g : GMM) : Prop :=
  sampleCounts g 0 = 1 /\ totalSampleCount g = 1
  /\ (forall ci, 1 <= ci < 5 -> sampleCounts g ci = 0)
  /\ (forall j, 0 <= j < 3 -> sums g 0 j = 0%R)
  /\ (forall i j, 0 <= i < 3 -> 0 <= j < 3 -> prods g 0 i j = 0%R).

(** A model with one active component: weight 1, mean 0, identity
    covariance, with its derived state. *)
Definition unit_GMM : GMM :=
  mkGMM (model_single 1 0 0 0)
        (fun ci i j => if (ci =? 0) && (i =? j) then 1%R else 0%R)
        (fun ci => if ci =? 0 then 1%R else 0%R)
        (fun _ _ => 0%R) (fun _ _ _ => 0%R) (fun _ => 0) 0.

(** Whether a result is the argument error of the GMM constructor. *)
Definition model_error {A} (r : res A) : bool :=
  match r with
  | Err (BadArg msg) => String.eqb msg model_msg
  | _ => false
  end.

(* ================================================================== *)
(** * The tests of [searchJoin] on a neighbour *)

(** The two sides of the dual condition of [searchJoin] for the neighbour
    [cn] with aggregated weight [si]: the weight that is compared, and the
    half sum it is compared with. *)
Definition dualSides (p : Point) (img : Mat Vec3b) (nw : NWeights)
    (graph : GCGraph) (Vtx2pxl : Mat Point) (sinkToPxl sourceToPxl : list Point)
    (ws wt : R) (cn : Z) (si : R) : res (R * R) :=
  if cn >=? 0 then
    do t <- slimSumW img cn p graph nw Vtx2pxl;
    Ok (si, (1 / 2 * t)%R)
  else if cn =? GC_JNT_BGD then
    do pend <- getSinkPendingSumW p img nw sinkToPxl;
    Ok (ws, (1 / 2 * (sink_sigmaW graph + pend))%R)
  else
    do pend <- getSourcePendingSumW p img nw sourceToPxl;
    Ok (wt, (1 / 2 * (source_sigmaW graph + pend))%R).

(** Neighbour [i] exists and one of its two tests holds: its aggregated
    weight is greater than [half], or, failing that, the first side of its
    dual condition is greater than the second. *)
Definition neighbour_joins (nghbrVtx : Z -> Z) (s : Z -> R) (half : R)
    (sides : Z -> R -> res (R * R)) (i : Z) : Prop :=
  nghbrVtx i <> -10
  /\ ((s i > half)%R
      \/ ((s i <= half)%R
          /\ exists a b, sides (nghbrVtx i) (s i) = Ok (a, b) /\ (a > b)%R)).

(** There is no neighbour [i], or both of its tests fail: its aggregated
    weight is at most [half] and the first side of its dual condition is at
    most the second. *)
Definition neighbour_skipped (nghbrVtx : Z -> Z) (s : Z -> R) (half : R)
    (sides : Z -> R -> res (R * R)) (i : Z) : Prop :=
  nghbrVtx i = -10
  \/ ((s i <= half)%R
      /\ exists a b, sides (nghbrVtx i) (s i) = Ok (a, b) /\ (a <= b)%R).

(* ================================================================== *)
(** * Notions for the properties of the whole pipeline *)

(** A 2 x 2 image whose first pixel is (1, 0, 0) and whose other pixels are
    black. *)
Definition img_2x2_step : Mat Vec3b :=
  mkMat CV_8UC3 2 2 (fun y x => if (y =? 0) && (x =? 0) then (1, 0, 0) else (0, 0, 0)).

(** Whether a value is one of the four labels of a mask. *)
Definition is_label (v : Z) : bool :=
  (v =? GC_BGD) || (v =? GC_FGD) || (v =? GC_PR_BGD) || (v =? GC_PR_FGD).

(** A mask that fits the image: not empty, of type CV_8UC1, of the size of
    the image, and with a label at every pixel. *)
Definition mask_fits (img : Mat Vec3b) (mask : Mat Z) : Prop :=
  mat_empty mask = false /\ mtype mask = CV_8UC1
  /\ cols mask = cols img /\ rows mask = rows img
  /\ forall y x, 0 <= y < rows mask -> 0 <= x < cols mask ->
       is_label (mat_at mask y x) = true.

Definition element_msg : string :=
  "mask element value must be equelGC_BGD or GC_FGD or GC_PR_BGD or GC_PR_FGD".

(** The covariance of the samples of component [ci] from the sums that
    [addSample] keeps, entry [(i, j)]. *)
Definition sampleCov (g : GMM) (ci i j : Z) : R :=
  (prods g ci i j / IZR (sampleCounts g ci)
   - sums g ci i / IZR (sampleCounts g ci) * (sums g ci j / IZR (sampleCounts g ci)))%R.

(** That covariance with the white noise of [endLearning]: 0.01 on the
    diagonal when the determinant is at most epsilon. *)
Definition learntCov (g : GMM) (ci i j : Z) : R :=
  (sampleCov g ci i j
   + (if Rleb (det3 (fun k => sampleCov g ci (k / 3) (k mod 3))) epsilon
      then if i =? j then 1 / 100 else 0
      else 0))%R.

(** The learning fields of [g'] are those of [g]. *)
Definition same_learning (g g' : GMM) : Prop :=
  sums g' = sums g /\ prods g' = prods g
  /\ sampleCounts g' = sampleCounts g /\ totalSampleCount g' = totalSampleCount g.

(** What [endLearning] has made of component [ci] of [g0] in [g]. *)
Definition learnt (g0 g : GMM) (ci : Z) : Prop :=
  coefs g ci = (IZR (sampleCounts g0 ci) / IZR (totalSampleCount g0))%R
  /\ (sampleCounts g0 ci <> 0 ->
      (forall j, 0 <= j < 3 ->
         mean g (3 * ci + j) = (sums g0 ci j / IZR (sampleCounts g0 ci))%R)
      /\ (forall i j, 0 <= i < 3 -> 0 <= j < 3 ->
            cov g (9 * ci + (3 * i + j)) = learntCov g0 ci i j))
  /\ ((coefs g ci > 0)%R -> derived_ok g ci /\ (covDeterms g ci > epsilon)%R).

(** Component [cj] is in [g'] as it is in [g]. *)
Definition same_component (g g' : GMM) (cj : Z) : Prop :=
  coefs g' cj = coefs g cj
  /\ (forall j, 0 <= j < 3 -> mean g' (3 * cj + j) = mean g (3 * cj + j))
  /\ (forall k, 0 <= k < 9 -> cov g' (9 * cj + k) = cov g (9 * cj + k))
  /\ covDeterms g' cj = covDeterms g cj
  /\ (forall i j, inverseCovs g' cj i j = inverseCovs g cj i j).

(** The learning counters are consistent: no count is negative and the
    total is the sum of the counts of the five components. *)
Definition counts_consistent (g : GMM) : Prop :=
  (forall ci, 0 <= ci < componentsCount -> 0 <= sampleCounts g ci)
  /\ totalSampleCount g
     = sampleCounts g 0 + sampleCounts g 1 + sampleCounts g 2
       + sampleCounts g 3 + sampleCounts g 4.

(** The sum of the five weights of a model. *)
Definition weightSum (g : GMM) : R :=
  (coefs g 0 + coefs g 1 + coefs g 2 + coefs g 3 + coefs g 4)%R.

(** The label that [estimateSegmentation] leaves at pixel (y, x) of a mask
    whose label there was [v]. *)
Definition relabel (inSourceSegment : GCGraph -> Z -> bool) (graph : GCGraph)
    (ncols : Z) (v y x : Z) : Z :=
  if is_probable v
  then if inSourceSegment graph (y * ncols + x) then GC_PR_FGD else GC_PR_BGD
  else v.

(** The label that [estimateSegmentation_slim] leaves at a pixel whose
    label was [v] and whose entry in the pixel map is [n]. *)
Definition relabel_slim (inSourceSegment : GCGraph -> Z -> bool) (graph : GCGraph)
    (v n : Z) : Z :=
  if is_probable v
  then if n =? GC_JNT_BGD then GC_PR_BGD
       else if n =? GC_JNT_FGD then GC_PR_FGD
       else if inSourceSegment graph n then GC_PR_FGD else GC_PR_BGD
  else v.

(** Whether the pixel (y, x) is in a list of pixels. *)
Definition visited (l : list Point) (y x : Z) : bool :=
  existsb (fun p => (py p =? y) && (px p =? x)) l.

(** The plain graph after the pixels of [done]: one vertex for each, in
    their order, with the terminal weights of its pixel; no weight on the
    vertices to come; edges with two equal capacities, from a vertex to an
    earlier one. *)
Definition plain_built (img : Mat Vec3b) (mask : Mat Z) (bgdGMM fgdGMM : GMM) (lam : R)
    (done : list Point) (g : GCGraph) : Prop :=
  vtxCount g = Z.of_nat (List.length done)
  /\ (forall k q, nth_error done k = Some q ->
        tWeights (mat_atP mask q) (to_Vec3d (mat_atP img q)) bgdGMM fgdGMM lam
        = Ok (fromSourceW g (Z.of_nat k), toSinkW g (Z.of_nat k)))
  /\ (forall k, Z.of_nat (List.length done) <= k ->
        fromSourceW g k = 0%R /\ toSinkW g k = 0%R)
  /\ (forall e, In e (edges g) ->
        0 <= ev e < eu e /\ eu e < Z.of_nat (List.length done)
        /\ capUV e = capVU e).

(** What the slim construction has made of a pixel [q] whose entry in the
    pixel map is [v]: a vertex of the graph, or a terminal sentinel with
    [q] in the chain of that terminal. *)
Definition vertex_of (st : SlimState) (q : Point) (v : Z) : Prop :=
  0 <= v < vtxCount (graph st)
  \/ (v = GC_JNT_BGD /\ In q (sinkToPxl st))
  \/ (v = GC_JNT_FGD /\ In q (sourceToPxl st)).

(** An edge between two different vertices of a graph, with the same
    capacity in both directions. *)
Definition edge_ok (g : GCGraph) (e : Edge) : Prop :=
  0 <= eu e < vtxCount g /\ 0 <= ev e < vtxCount g /\ eu e <> ev e
  /\ capUV e = capVU e.

(** The number of probable pixels in a list of pixels. *)
Definition probableCount (mask : Mat Z) (l : list Point) : Z :=
  Z.of_nat (List.length (filter (fun q => is_probable (mat_atP mask q)) l)).

(** The state of the slim construction after the pixels of [done]. *)
Definition slim_built (mask : Mat Z) (done : list Point) (st : SlimState) : Prop :=
  0 <= vtxCount (graph st)
  /\ (forall q, In q done -> vertex_of st q (mat_atP (pxl2Vtx st) q))
  /\ (forall q, In q done -> is_probable (mat_atP mask q) = false ->
        mat_atP (pxl2Vtx st) q
        = if mat_atP mask q =? GC_BGD then GC_JNT_BGD else GC_JNT_FGD)
  /\ (forall y x, visited done y x = false -> mat_at (Vtx2pxl st) y x = noPoint)
  /\ (forall e, In e (edges (graph st)) -> edge_ok (graph st) e)
  /\ vtxCount (graph st) + count st = probableCount mask done
  /\ StronglySorted before (sinkToPxl st)
  /\ StronglySorted before (sourceToPxl st)
  /\ (forall q, In q (sinkToPxl st) -> In q done)
  /\ (forall q, In q (sourceToPxl st) -> In q done)
  /\ 0 <= count st
  /\ (forall q, In q (sinkToPxl st) -> mat_atP (pxl2Vtx st) q = GC_JNT_BGD)
  /\ (forall q, In q (sourceToPxl st) -> mat_atP (pxl2Vtx st) q = GC_JNT_FGD).

(** Two results fail together, with the same error, or both succeed. *)
Definition same_outcome {A B} (r1 : res A) (r2 : res B) : Prop :=
  match r1, r2 with
  | Ok _, Ok _ => True
  | Err e1, Err e2 => e1 = e2
  | _, _ => False
  end.


(** The loop over the pixels that evaluates the two terminal weights of
    each and keeps nothing. *)
Definition terminalScan (img : Mat Vec3b) (mask : Mat Z) (bgdGMM fgdGMM : GMM)
    (lam : R) (l : list Point) : res unit :=
  forM l (fun (_ : unit) p =>
            do _ <- tWeights (mat_atP mask p) (to_Vec3d (mat_atP img p))
                             bgdGMM fgdGMM lam;
            Ok tt) tt.

(** The two models after the sample loops of [learnGMMs], before
    [endLearning]. *)
Definition learnGMMs_samples (img : Mat Vec3b) (mask compIdxs : Mat Z)
    (bgdGMM fgdGMM : GMM) : GMM * GMM :=
  fold_left
    (fun (bf : GMM * GMM) ci =>
       fold_left
         (fun (bf : GMM * GMM) p =>
            if mat_atP compIdxs p =? ci then
              if is_bgd_like (mat_atP mask p)
              then (addSample (fst bf) ci (to_Vec3d (mat_atP img p)), snd bf)
              else (fst bf, addSample (snd bf) ci (to_Vec3d (mat_atP img p)))
            else bf)
         (raster (rows img) (cols img)) bf)
    (zrange componentsCount)
    (initLearning bgdGMM, initLearning fgdGMM).

(** Two runs of an entry point fail together, with the same error, or
    return the same two model buffers. *)
Definition same_models (r1 r2 : res Outputs) : Prop :=
  match r1, r2 with
  | Ok o1, Ok o2 => out_bgdModel o1 = out_bgdModel o2 /\ out_fgdModel o1 = out_fgdModel o2
  | Err e1, Err e2 => e1 = e2
  | _, _ => False
  end.

(* ================================================================== *)
(** * Properties *)

(** ** Generic facts *)

Lemma Rgtb_true (a b : R) : (a > b)%R -> Rgtb a b = true.
Proof. intros H. unfold Rgtb. destruct (Rgt_dec a b); [reflexivity | contradiction]. Qed.

Lemma Rgtb_false (a b : R) : ~ (a > b)%R -> Rgtb a b = false.
Proof. intros H. unfold Rgtb. destruct (Rgt_dec a b); [contradiction | reflexivity]. Qed.

Lemma Rgtb_spec (a b : R) : Rgtb a b = true <-> (a > b)%R.
Proof.
  unfold Rgtb. destruct (Rgt_dec a b); split; intros H; try easy.
Qed.

Lemma Rleb_true (a b : R) : (a <= b)%R -> Rleb a b = true.
Proof. intros H. unfold Rleb. destruct (Rle_dec a b); [reflexivity | contradiction]. Qed.

Lemma Rleb_false (a b : R) : ~ (a <= b)%R -> Rleb a b = false.
Proof. intros H. unfold Rleb. destruct (Rle_dec a b); [contradiction | reflexivity]. Qed.

Lemma bind_Ok {A B} (m : res A) (f : A -> res B) (b : B) :
  bind m f = Ok b -> exists a, m = Ok a /\ f a = Ok b.
Proof. destruct m as [a | e]; simpl; intros H; [eauto | discriminate]. Qed.

Lemma zrange_In (n i : Z) : In i (zrange n) <-> 0 <= i < n.
Proof.
  unfold zrange. rewrite in_map_iff. split.
  - intros [k [<- Hk]]. apply in_seq in Hk. lia.
  - intros H. exists (Z.to_nat i). split; [lia | apply in_seq; lia].
Qed.

Lemma raster_In (r c : Z) (p : Point) :
  In p (raster r c) <-> 0 <= py p < r /\ 0 <= px p < c.
Proof.
  unfold raster. rewrite in_flat_map. split.
  - intros [y [Hy Hp]]. apply in_map_iff in Hp. destruct Hp as [x [<- Hx]].
    apply zrange_In in Hy. apply zrange_In in Hx. simpl. lia.
  - intros [Hy Hx]. exists (py p). split; [now apply zrange_In |].
    apply in_map_iff. exists (px p). split; [now destruct p | now apply zrange_In].
Qed.

(** ** The segmentation update leaves the hard labels alone *)

Section Estimate.
Variable inSourceSegment : GCGraph -> Z -> bool.

(** A loop over pixels whose body rewrites at most the visited pixel, and
    only if it is probable, changes no pixel that is not probable. *)
Lemma probable_only_fold (step : Mat Z -> Point -> Mat Z) (l : list Point) :
  (forall m p y x, is_probable (mat_at m y x) = false ->
                   mat_at (step m p) y x = mat_at m y x) ->
  forall m y x, is_probable (mat_at m y x) = false ->
                mat_at (fold_left step l m) y x = mat_at m y x.
Proof.
  intros Hstep. induction l as [| p l IH]; intros m y x Hm; simpl; [reflexivity |].
  rewrite IH; rewrite Hstep; auto.
Qed.

Lemma mat_setP_other (m : Mat Z) (p : Point) (v : Z) (y x : Z) :
  (y =? py p) && (x =? px p) = false -> mat_at (mat_setP m p v) y x = mat_at m y x.
Proof. intros H. unfold mat_at, mat_setP, mat_set. simpl. now rewrite H. Qed.

Lemma mat_setP_same (m : Mat Z) (p : Point) (v : Z) (y x : Z) :
  (y =? py p) && (x =? px p) = true -> mat_at (mat_setP m p v) y x = v.
Proof. intros H. unfold mat_at, mat_setP, mat_set. simpl. now rewrite H. Qed.

Lemma at_of_eqb (m : Mat Z) (p : Point) (y x : Z) :
  (y =? py p) && (x =? px p) = true -> mat_atP m p = mat_at m y x.
Proof.
  intros H. apply andb_true_iff in H. destruct H as [Hy Hx].
  apply Z.eqb_eq in Hy. apply Z.eqb_eq in Hx. subst. reflexivity.
Qed.

Ltac set_cases m p y x :=
  destruct ((y =? py p) && (x =? px p)) eqn:Hyx;
  [ rewrite (at_of_eqb m p y x Hyx) in * | rewrite ?mat_setP_other by exact Hyx ].

Lemma estimateSegmentation_slim_frame (graph : GCGraph) (mask ptx2Vtx : Mat Z) (y x : Z) :
  is_probable (mat_at mask y x) = false ->
  mat_at (estimateSegmentation_slim inSourceSegment graph mask ptx2Vtx) y x
  = mat_at mask y x.
Proof.
  unfold estimateSegmentation_slim. apply probable_only_fold.
  clear. intros m p y x Hm.
  destruct (is_probable (mat_atP m p)) eqn:Hp; [| reflexivity].
  set_cases m p y x; [congruence |].
  repeat match goal with |- context [if ?b then _ else _] => destruct b end;
    now rewrite mat_setP_other.
Qed.

Lemma estimateSegmentation_frame (graph : GCGraph) (mask : Mat Z) (y x : Z) :
  is_probable (mat_at mask y x) = false ->
  mat_at (estimateSegmentation inSourceSegment graph mask) y x = mat_at mask y x.
Proof.
  unfold estimateSegmentation. apply probable_only_fold.
  clear. intros m p y x Hm.
  destruct (is_probable (mat_atP m p)) eqn:Hp; [| reflexivity].
  set_cases m p y x; [congruence |].
  destruct (inSourceSegment graph _); now rewrite mat_setP_other.
Qed.

End Estimate.

Lemma hard_not_probable (v : Z) : v = GC_BGD \/ v = GC_FGD -> is_probable v = false.
Proof. intros [-> | ->]; reflexivity. Qed.

Lemma iteration_slim_mask inSrc img nw mask b f c p2v st' :
  iteration_slim inSrc img nw (mask, b, f, c, p2v) = Ok st' ->
  exists graph ptx, iter_mask st' = estimateSegmentation_slim inSrc graph mask ptx.
Proof.
  unfold iteration_slim. intros H.
  apply bind_Ok in H. destruct H as [c' [_ H]].
  apply bind_Ok in H. destruct H as [[b' f'] [_ H]].
  apply bind_Ok in H. destruct H as [slim [_ H]].
  apply bind_Ok in H. destruct H as [g2 [_ H]].
  injection H as <-. simpl. eauto.
Qed.

Lemma iteration_mask inSrc img nw mask b f c p2v st' :
  iteration inSrc img nw (mask, b, f, c, p2v) = Ok st' ->
  exists graph, iter_mask st' = estimateSegmentation inSrc graph mask.
Proof.
  unfold iteration. intros H.
  apply bind_Ok in H. destruct H as [c' [_ H]].
  apply bind_Ok in H. destruct H as [[b' f'] [_ H]].
  apply bind_Ok in H. destruct H as [g [_ H]].
  injection H as <-. simpl. eauto.
Qed.

(** C2.  A pixel whose label is GC_BGD or GC_FGD keeps its label through the
    segmentation update, in the slim and in the plain variant, and hence
    through every iteration of either entry point; a pixel whose label the
    update changes was GC_PR_BGD or GC_PR_FGD before. *)
Theorem hard_labels_preserved
    (inSrc : GCGraph -> Z -> bool) (img : Mat Vec3b) (nw : NWeights)
    (mask : Mat Z) (b f : GMM) (c p2v : Mat Z) (y x : Z)
    (Hhard : mat_at mask y x = GC_BGD \/ mat_at mask y x = GC_FGD) :
  (forall graph ptx,
      mat_at (estimateSegmentation_slim inSrc graph mask ptx) y x = mat_at mask y x)
  /\ (forall graph,
      mat_at (estimateSegmentation inSrc graph mask) y x = mat_at mask y x)
  /\ (forall st', iteration_slim inSrc img nw (mask, b, f, c, p2v) = Ok st' ->
                  mat_at (iter_mask st') y x = mat_at mask y x)
  /\ (forall st', iteration inSrc img nw (mask, b, f, c, p2v) = Ok st' ->
                  mat_at (iter_mask st') y x = mat_at mask y x)
  /\ (forall graph ptx y' x',
      mat_at (estimateSegmentation_slim inSrc graph mask ptx) y' x' <> mat_at mask y' x' ->
      mat_at mask y' x' = GC_PR_BGD \/ mat_at mask y' x' = GC_PR_FGD)
  /\ (forall graph y' x',
      mat_at (estimateSegmentation inSrc graph mask) y' x' <> mat_at mask y' x' ->
      mat_at mask y' x' = GC_PR_BGD \/ mat_at mask y' x' = GC_PR_FGD).
Proof.
  pose proof (hard_not_probable _ Hhard) as Hnp.
  assert (Hpr : forall v, is_probable v <> false -> v = GC_PR_BGD \/ v = GC_PR_FGD).
  { intros v Hv. unfold is_probable in Hv.
    destruct (v =? GC_PR_BGD) eqn:E1; [left; now apply Z.eqb_eq |].
    destruct (v =? GC_PR_FGD) eqn:E2; [right; now apply Z.eqb_eq | now elim Hv]. }
  repeat split.
  - intros. now apply estimateSegmentation_slim_frame.
  - intros. now apply estimateSegmentation_frame.
  - intros st' H. apply iteration_slim_mask in H. destruct H as [g [ptx ->]].
    now apply estimateSegmentation_slim_frame.
  - intros st' H. apply iteration_mask in H. destruct H as [g ->].
    now apply estimateSegmentation_frame.
  - intros g ptx y' x' Hne. apply Hpr. intros Hn. apply Hne.
    now apply estimateSegmentation_slim_frame.
  - intros g y' x' Hne. apply Hpr. intros Hn. apply Hne.
    now apply estimateSegmentation_frame.
Qed.

(** ** Initialisation of the mask with a rectangle *)

Lemma initMaskWithRect_elems (imgSize : Size) (rect : Rect) :
  roi_in_mat (mat_create_fill (height imgSize) (width imgSize) CV_8UC1 GC_BGD)
             (clampRect imgSize rect) = true ->
  exists m, initMaskWithRect imgSize rect = Ok m
            /\ rows m = height imgSize /\ cols m = width imgSize
            /\ forall y x, mat_at m y x
                 = if in_rect (clampRect imgSize rect) y x then GC_PR_FGD else GC_BGD.
Proof.
  intros H. unfold initMaskWithRect, roi_setTo. rewrite H. simpl.
  eexists. split; [reflexivity |]. simpl. auto.
Qed.

(** When the corner of the rectangle is a pixel position of the image (or
    its right or lower border), the clamped rectangle is the part of the
    rectangle that lies in the image. *)
Lemma initMaskWithRect_corner_inside (imgSize : Size) (rect : Rect) :
  0 <= rx rect <= width imgSize -> 0 <= ry rect <= height imgSize ->
  0 <= rwidth rect -> 0 <= rheight rect ->
  exists m, initMaskWithRect imgSize rect = Ok m
            /\ forall y x, 0 <= y < height imgSize -> 0 <= x < width imgSize ->
                 mat_at m y x = if in_rect rect y x then GC_PR_FGD else GC_BGD.
Proof.
  intros Hx Hy Hw Hh.
  destruct (initMaskWithRect_elems imgSize rect) as [m [Hm [_ [_ He]]]].
  - unfold roi_in_mat, clampRect. simpl.
    repeat (apply andb_true_iff; split); apply Z.leb_le; lia.
  - exists m. split; [exact Hm |]. intros y x Hyr Hxr. rewrite He.
    replace (in_rect (clampRect imgSize rect) y x) with (in_rect rect y x); [reflexivity |].
    unfold in_rect, clampRect. simpl.
    rewrite !Z.max_r by lia.
    destruct (rx rect <=? x) eqn:E1; simpl; [| reflexivity].
    destruct (ry rect <=? y) eqn:E2; simpl; [| now rewrite !andb_false_r].
    apply Z.leb_le in E1. apply Z.leb_le in E2.
    f_equal; [f_equal |].
    + destruct (x <? rx rect + rwidth rect) eqn:E; symmetry;
        [apply Z.ltb_lt; apply Z.ltb_lt in E | apply Z.ltb_ge; apply Z.ltb_ge in E]; lia.
    + destruct (y <? ry rect + rheight rect) eqn:E; symmetry;
        [apply Z.ltb_lt; apply Z.ltb_lt in E | apply Z.ltb_ge; apply Z.ltb_ge in E]; lia.
Qed.

(** C8.  The rectangle (x = -10, y = 0, 2 x 2) has no pixel in common with a
    4 x 4 image, and [initMaskWithRect] marks the 2 x 2 block at the origin
    of the image GC_PR_FGD: the corner is moved to column 0 and the width is
    left as it is. *)
Theorem initMaskWithRect_rect_left_of_image :
  let imgSize := mkSize 4 4 in
  let rect := mkRect (-10) 0 2 2 in
  (forall y x, 0 <= x < width imgSize -> in_rect rect y x = false)
  /\ exists m, initMaskWithRect imgSize rect = Ok m
               /\ mat_at m 0 0 = GC_PR_FGD /\ mat_at m 1 1 = GC_PR_FGD
               /\ mat_at m 2 2 = GC_BGD.
Proof.
  simpl. split.
  - intros y x Hx. unfold in_rect. simpl.
    assert (E : (x <? -8) = false) by (apply Z.ltb_ge; lia).
    change (-10 + 2) with (-8). rewrite E. now rewrite andb_false_r.
  - eexists. split; [reflexivity |]. repeat split.
Qed.

(** ** The pending-weight sums of the terminal chains *)

Section Pending.
Variables (p : Point) (img : Mat Vec3b) (nw : NWeights).

Lemma wrap_size_t_small (z : Z) : 0 <= z < 2 ^ 64 -> wrap_size_t z = z.
Proof. intros H. unfold wrap_size_t. now apply Z.mod_small. Qed.

(** From a counter [n] that is at most the size of the vector, the loop
    visits the indices n-1, ..., 0 and nothing else. *)
Lemma pendingLoop_scan (v : list Point) :
  forall (n fuel : nat) (s : R),
    (n <= List.length v)%nat -> (n < fuel)%nat -> Z.of_nat n < 2 ^ 64 ->
    pendingLoop fuel p img nw v (Z.of_nat n) s
    = Ok (pendingScan p img nw (rev (firstn n v)) s).
Proof.
  induction n as [| n IH]; intros fuel s Hn Hf Hb.
  - destruct fuel as [| fuel]; [lia |]. reflexivity.
  - destruct fuel as [| fuel]; [lia |].
    cbn [pendingLoop].
    replace (Z.of_nat (S n) >? 0) with true by (symmetry; apply Z.gtb_lt; lia).
    replace (Z.of_nat (S n) - 1) with (Z.of_nat n) by lia.
    rewrite wrap_size_t_small by lia. unfold vec_at.
    replace (Z.of_nat n <? Z.of_nat (List.length v)) with true
      by (symmetry; apply Z.ltb_lt; lia).
    rewrite Nat2Z.id.
    destruct (nth_error v n) as [pxl |] eqn:Hnth.
    + cbn [bind]. assert (Hfn : firstn (S n) v = firstn n v ++ [pxl]).
      { clear - Hnth. revert v Hnth. induction n as [| n IHn]; intros [| a v] H;
          simpl in *; try discriminate.
        - now injection H as ->.
        - f_equal. now apply IHn. }
      rewrite Hfn, rev_app_distr. cbn [rev app pendingScan].
      destruct ((py pxl <=? py p - 1) && (px pxl <? px p - 1)); [reflexivity |].
      apply IH; lia.
    + apply nth_error_None in Hnth. lia.
Qed.

Lemma wrap_size_t_pred_length (v : list Point) :
  v <> [] ->
  0 <= wrap_size_t (Z.of_nat (List.length v) - 1) <= Z.of_nat (List.length v) - 1.
Proof.
  intros Hv. destruct v as [| a v]; [congruence |].
  unfold wrap_size_t. cbn [List.length].
  assert (H : 0 <= Z.of_nat (S (List.length v)) - 1) by lia.
  pose proof (Z.mod_pos_bound (Z.of_nat (S (List.length v)) - 1) (2 ^ 64) ltac:(lia)).
  pose proof (Z.mod_le (Z.of_nat (S (List.length v)) - 1) (2 ^ 64) H ltac:(lia)).
  lia.
Qed.

(** On a chain that is not empty the sum is defined: it is the scan of the
    chain from its last element but one down to its first. *)
Lemma getSinkPendingSumW_nonempty (v : list Point) :
  v <> [] ->
  getSinkPendingSumW p img nw v
  = Ok (pendingScan p img nw
          (rev (firstn (Z.to_nat (wrap_size_t (Z.of_nat (List.length v) - 1))) v)) 0%R).
Proof.
  intros Hv. unfold getSinkPendingSumW.
  pose proof (wrap_size_t_pred_length v Hv) as Hw.
  assert (Hb : wrap_size_t (Z.of_nat (List.length v) - 1) < 2 ^ 64).
  { unfold wrap_size_t. apply Z.mod_pos_bound. lia. }
  rewrite <- (Z2Nat.id (wrap_size_t _)) at 1 by lia.
  apply pendingLoop_scan; lia.
Qed.

Lemma getSourcePendingSumW_eq (v : list Point) :
  getSourcePendingSumW p img nw v = getSinkPendingSumW p img nw v.
Proof. reflexivity. Qed.

(** On the empty chain the counter starts at 2^64 - 1 and the first access
    is outside the vector. *)
Lemma getSinkPendingSumW_empty : getSinkPendingSumW p img nw [] = Err OutOfRange.
Proof.
  unfold getSinkPendingSumW. cbn [List.length pendingLoop].
  change (wrap_size_t (Z.of_nat 0 - 1)) with (2 ^ 64 - 1).
  change (2 ^ 64 - 1 >? 0) with true. cbv iota.
  change (wrap_size_t (2 ^ 64 - 1 - 1)) with (2 ^ 64 - 2).
  unfold vec_at. cbn [List.length].
  change (2 ^ 64 - 2 <? Z.of_nat 0) with false. reflexivity.
Qed.

(** For a chain of fewer than 2^64 pixels the last element is the one that
    is left out. *)
Lemma getSinkPendingSumW_skips_tail (front : list Point) (tail : Point) :
  Z.of_nat (List.length front) < 2 ^ 64 ->
  getSinkPendingSumW p img nw (front ++ [tail])
  = Ok (pendingScan p img nw (rev front) 0%R).
Proof.
  intros Hb.
  assert (Hne : front ++ [tail] <> []) by (destruct front; discriminate).
  rewrite (getSinkPendingSumW_nonempty _ Hne). clear Hne.
  rewrite length_app. cbn [List.length].
  replace (Z.of_nat (List.length front + 1) - 1) with (Z.of_nat (List.length front)) by lia.
  rewrite wrap_size_t_small by lia. rewrite Nat2Z.id.
  rewrite firstn_app, Nat.sub_diag, firstn_all. cbn [firstn]. now rewrite app_nil_r.
Qed.

End Pending.

(** C4.  With the chain holding the single pixel (0,0) and the probing
    pixel (1,0) to its right, the pending weight of the chain's last pixel
    is 1 (the edge towards the probing pixel), and both pending sums are 0:
    the loops start below the last element of the chain. *)
Theorem pending_sums_skip_last_pixel :
  let p := mkPoint 1 0 in
  let tail := mkPoint 0 0 in
  pendingSumW p tail img_1x2 nw_1x2 = 1%R
  /\ getSinkPendingSumW p img_1x2 nw_1x2 [tail] = Ok 0%R
  /\ getSourcePendingSumW p img_1x2 nw_1x2 [tail] = Ok 0%R.
Proof.
  cbv zeta. split; [| split].
  - unfold pendingSumW. cbn. lra.
  - apply (getSinkPendingSumW_skips_tail _ _ _ [] (mkPoint 0 0)). cbn. lia.
  - rewrite getSourcePendingSumW_eq.
    apply (getSinkPendingSumW_skips_tail _ _ _ [] (mkPoint 0 0)). cbn. lia.
Qed.

(** ** The thresholds of [searchJoin] *)

Lemma joinLoop_no_neighbour (nghbrVtx : Z -> Z) s half dual (idx : list Z) :
  (forall i, In i idx -> nghbrVtx i = -10) ->
  joinLoop nghbrVtx s half dual idx = Ok BV_NO_VTX_FOUND.
Proof.
  induction idx as [| i idx IH]; intros H; [reflexivity |].
  cbn [joinLoop]. rewrite (H i) by now left. cbn.
  apply IH. intros j Hj. apply H. now right.
Qed.

Lemma neighbours_origin (p : Point) img p2v nw (i : Z) :
  px p = 0 -> py p = 0 -> fst (neighbours p img p2v nw i) = -10.
Proof.
  intros Hx Hy. unfold neighbours. rewrite Hx, Hy. cbn.
  repeat match goal with |- context [if ?b then _ else _] => destruct b end; reflexivity.
Qed.

(** The three outcomes of the tests of [searchJoin] on the terminal weights. *)
Lemma searchJoin_cases
    (p : Point) (img : Mat Vec3b) (sigmaW : Mat R) (p2v : Mat Z) (nw : NWeights)
    (graph : GCGraph) (v2p : Mat Point) (mask : Mat Z) (bgdGMM fgdGMM : GMM)
    (lam : R) (sinkToPxl sourceToPxl : list Point) (toSink fromSource : R)
    (Hsink : getSinkW p img mask bgdGMM fgdGMM lam = Ok toSink)
    (Hsource : getSourceW p img mask bgdGMM fgdGMM lam = Ok fromSource) :
  let result := searchJoin p img sigmaW p2v nw graph v2p mask bgdGMM fgdGMM lam
                           sinkToPxl sourceToPxl in
  let half := (1 / 2 * mat_atP sigmaW p)%R in
  ((toSink > half)%R -> result = Ok GC_JNT_BGD)
  /\ ((toSink <= half)%R -> (fromSource > half)%R -> result = Ok GC_JNT_FGD)
  /\ (px p = 0 -> py p = 0 -> (toSink <= half)%R -> (fromSource <= half)%R ->
      result = Ok BV_NO_VTX_FOUND).
Proof.
  cbv zeta. unfold searchJoin. rewrite Hsink, Hsource. cbn [bind].
  split; [| split].
  - intros H. now rewrite Rgtb_true.
  - intros H1 H2. rewrite Rgtb_false by lra. now rewrite Rgtb_true.
  - intros Hx Hy H1 H2. rewrite !Rgtb_false by lra.
    apply joinLoop_no_neighbour. intros i _. now apply neighbours_origin.
Qed.

(** The dual condition is the strict comparison of its two sides. *)
Lemma dualCondition_sides p img nw g v2p sink source ws wt cn si :
  dualCondition p img nw g v2p sink source ws wt cn si
  = (do ab <- dualSides p img nw g v2p sink source ws wt cn si;
     Ok (Rgtb (fst ab) (snd ab))).
Proof.
  unfold dualCondition, dualSides.
  destruct (cn >=? 0); [| destruct (cn =? GC_JNT_BGD)].
  - destruct (slimSumW _ _ _ _ _ _); reflexivity.
  - destruct (getSinkPendingSumW _ _ _ _); reflexivity.
  - destruct (getSourcePendingSumW _ _ _ _); reflexivity.
Qed.

(** The loop passes over the neighbours whose tests fail ... *)
Lemma joinLoop_skips (nghbrVtx : Z -> Z) s half dual sides (pre rest : list Z) :
  (forall cn si, dual cn si = (do ab <- sides cn si; Ok (Rgtb (fst ab) (snd ab)))) ->
  (forall j, In j pre -> neighbour_skipped nghbrVtx s half sides j) ->
  joinLoop nghbrVtx s half dual (pre ++ rest) = joinLoop nghbrVtx s half dual rest.
Proof.
  intros Hdual. induction pre as [| j pre IH]; intros Hskip; [reflexivity |].
  cbn [app joinLoop].
  destruct (Hskip j (or_introl eq_refl)) as [Hn | [Hs [a [b [Hab Hle]]]]].
  - rewrite Hn. cbn. apply IH. intros k Hk. apply Hskip. now right.
  - destruct (nghbrVtx j =? -10); [apply IH; intros k Hk; apply Hskip; now right |].
    rewrite Rgtb_false by lra. rewrite Hdual, Hab. cbn [bind fst snd].
    rewrite Rgtb_false by lra. apply IH. intros k Hk. apply Hskip. now right.
Qed.

(** ... and answers the first one of which a test holds. *)
Lemma joinLoop_joins (nghbrVtx : Z -> Z) s half dual sides (i : Z) (rest : list Z) :
  (forall cn si, dual cn si = (do ab <- sides cn si; Ok (Rgtb (fst ab) (snd ab)))) ->
  neighbour_joins nghbrVtx s half sides i ->
  joinLoop nghbrVtx s half dual (i :: rest) = Ok (nghbrVtx i).
Proof.
  intros Hdual [Hn Htest]. cbn [joinLoop].
  destruct (nghbrVtx i =? -10) eqn:E; [apply Z.eqb_eq in E; contradiction |].
  destruct Htest as [Hs | [Hs [a [b [Hab Hgt]]]]].
  - now rewrite (Rgtb_true _ _ Hs).
  - rewrite Rgtb_false by lra. rewrite Hdual, Hab. cbn [bind fst snd].
    now rewrite (Rgtb_true _ _ Hgt).
Qed.

(** C3 (as amended).  Every dominance test of [searchJoin] is a strict
    "greater than".  A pixel whose weight to the sink is greater than half
    its total weight is joined to the background terminal; failing that, a
    pixel whose weight from the source is greater than half its total weight
    is joined to the foreground terminal.  Failing both, the answer is the
    first neighbour, in the order left, upper left, upper, upper right, of
    which one test holds strictly: its aggregated weight is greater than
    half the total weight of the pixel, or the first side of its dual
    condition is greater than the second.  A neighbour of which both
    quantities are at most their thresholds, equality included, is passed
    over; when every neighbour is passed over, and so when the pixel has no
    predecessor neighbour, the pixel is not joined. *)
Theorem searchJoin_strict_thresholds
    (p : Point) (img : Mat Vec3b) (sigmaW : Mat R) (p2v : Mat Z) (nw : NWeights)
    (graph : GCGraph) (v2p : Mat Point) (mask : Mat Z) (bgdGMM fgdGMM : GMM)
    (lam : R) (sinkToPxl sourceToPxl : list Point) (toSink fromSource : R)
    (Hsink : getSinkW p img mask bgdGMM fgdGMM lam = Ok toSink)
    (Hsource : getSourceW p img mask bgdGMM fgdGMM lam = Ok fromSource) :
  let result := searchJoin p img sigmaW p2v nw graph v2p mask bgdGMM fgdGMM lam
                           sinkToPxl sourceToPxl in
  let half := (1 / 2 * mat_atP sigmaW p)%R in
  let nb := neighbours p img p2v nw in
  let nghbrVtx := fun i => fst (nb i) in
  let s := aggregated nb toSink fromSource in
  let sides := dualSides p img nw graph v2p sinkToPxl sourceToPxl toSink fromSource in
  ((toSink > half)%R -> result = Ok GC_JNT_BGD)
  /\ ((toSink <= half)%R -> (fromSource > half)%R -> result = Ok GC_JNT_FGD)
  /\ ((toSink <= half)%R -> (fromSource <= half)%R ->
      forall i, 0 <= i < 4 ->
        (forall j, 0 <= j < i -> neighbour_skipped nghbrVtx s half sides j) ->
        neighbour_joins nghbrVtx s half sides i ->
        result = Ok (nghbrVtx i))
  /\ ((toSink <= half)%R -> (fromSource <= half)%R ->
      (forall j, 0 <= j < 4 -> neighbour_skipped nghbrVtx s half sides j) ->
      result = Ok BV_NO_VTX_FOUND)
  /\ (px p = 0 -> py p = 0 -> (toSink <= half)%R -> (fromSource <= half)%R ->
      result = Ok BV_NO_VTX_FOUND).
Proof.
  cbv zeta.
  destruct (searchJoin_cases p img sigmaW p2v nw graph v2p mask bgdGMM fgdGMM lam
              sinkToPxl sourceToPxl toSink fromSource Hsink Hsource) as [H1 [H2 H5]].
  split; [exact H1 |]. split; [exact H2 |].
  assert (Hloop : (toSink <= 1 / 2 * mat_atP sigmaW p)%R ->
                  (fromSource <= 1 / 2 * mat_atP sigmaW p)%R ->
                  searchJoin p img sigmaW p2v nw graph v2p mask bgdGMM fgdGMM lam
                             sinkToPxl sourceToPxl
                  = joinLoop (fun i => fst (neighbours p img p2v nw i))
                      (aggregated (neighbours p img p2v nw) toSink fromSource)
                      (1 / 2 * mat_atP sigmaW p)%R
                      (dualCondition p img nw graph v2p sinkToPxl sourceToPxl
                         toSink fromSource)
                      (zrange 4)).
  { intros Hs Ht. unfold searchJoin. rewrite Hsink, Hsource. cbn [bind]. cbv zeta.
    now rewrite !Rgtb_false by lra. }
  pose proof (dualCondition_sides p img nw graph v2p sinkToPxl sourceToPxl
                toSink fromSource) as Hdual.
  split; [| split; [| exact H5]].
  - intros Hs Ht i Hi Hskip Hjoin. rewrite (Hloop Hs Ht).
    change (zrange 4) with [0; 1; 2; 3].
    assert (Hc : i = 0 \/ i = 1 \/ i = 2 \/ i = 3) by lia.
    destruct Hc as [-> | [-> | [-> | ->]]].
    + apply (joinLoop_joins _ _ _ _ _ 0 [1; 2; 3] Hdual Hjoin).
    + rewrite (joinLoop_skips _ _ _ _ _ [0] [1; 2; 3] Hdual).
      * apply (joinLoop_joins _ _ _ _ _ 1 [2; 3] Hdual Hjoin).
      * intros j Hj. apply Hskip. cbn in Hj. lia.
    + rewrite (joinLoop_skips _ _ _ _ _ [0; 1] [2; 3] Hdual).
      * apply (joinLoop_joins _ _ _ _ _ 2 [3] Hdual Hjoin).
      * intros j Hj. apply Hskip. cbn in Hj. lia.
    + rewrite (joinLoop_skips _ _ _ _ _ [0; 1; 2] [3] Hdual).
      * apply (joinLoop_joins _ _ _ _ _ 3 [] Hdual Hjoin).
      * intros j Hj. apply Hskip. cbn in Hj. lia.
  - intros Hs Ht Hskip. rewrite (Hloop Hs Ht).
    change (zrange 4) with ([0; 1; 2; 3] ++ []).
    rewrite (joinLoop_skips _ _ _ _ _ [0; 1; 2; 3] [] Hdual); [reflexivity |].
    intros j Hj. apply Hskip. cbn in Hj. lia.
Qed.

(** ** The terminal chains are never read when empty *)

Lemma oor_bind {A B} (m : res A) (f : A -> res B) :
  out_of_range m = false ->
  (forall a, m = Ok a -> out_of_range (f a) = false) ->
  out_of_range (bind m f) = false.
Proof. destruct m as [a | e]; simpl; intros H1 H2; [now apply H2 | exact H1]. Qed.

Lemma oor_forM {A S} (body : S -> A -> res S) (l : list A) :
  (forall s a, out_of_range (body s a) = false) ->
  forall s, out_of_range (forM l body s) = false.
Proof.
  intros H. induction l as [| a l IH]; intros s; [reflexivity |].
  cbn [forM]. apply oor_bind; auto.
Qed.

Lemma oor_CV_Assert b : out_of_range (CV_Assert b) = false.
Proof. now destruct b. Qed.

Lemma oor_neg_log v : out_of_range (neg_log v) = false.
Proof. unfold neg_log. now destruct (Rgtb v 0). Qed.

Lemma oor_GMM_call_ci g ci c : out_of_range (GMM_call_ci g ci c) = false.
Proof.
  unfold GMM_call_ci. destruct (Rgtb (coefs g ci) 0); [| reflexivity].
  apply oor_bind; [apply oor_CV_Assert |]. intros _ _. now destruct c as [[c0 c1] c2].
Qed.

Lemma oor_GMM_call g c : out_of_range (GMM_call g c) = false.
Proof.
  unfold GMM_call. apply oor_forM. intros s a.
  apply oor_bind; [apply oor_GMM_call_ci | reflexivity].
Qed.

Lemma oor_getSinkW p img mask b f lam : out_of_range (getSinkW p img mask b f lam) = false.
Proof.
  unfold getSinkW. destruct (mat_atP mask p =? GC_BGD); [reflexivity |].
  destruct (is_probable _); [| reflexivity].
  apply oor_bind; [apply oor_GMM_call | intros; apply oor_neg_log].
Qed.

Lemma oor_getSourceW p img mask b f lam :
  out_of_range (getSourceW p img mask b f lam) = false.
Proof.
  unfold getSourceW. destruct (mat_atP mask p =? GC_FGD); [reflexivity |].
  destruct (is_probable _); [| reflexivity].
  apply oor_bind; [apply oor_GMM_call | intros; apply oor_neg_log].
Qed.

Lemma oor_probableWeights c b f : out_of_range (probableWeights c b f) = false.
Proof.
  unfold probableWeights.
  apply oor_bind; [apply oor_GMM_call | intros].
  apply oor_bind; [apply oor_neg_log | intros].
  apply oor_bind; [apply oor_GMM_call | intros].
  apply oor_bind; [apply oor_neg_log | reflexivity].
Qed.

Lemma oor_tWeights l c b f lam : out_of_range (tWeights l c b f lam) = false.
Proof.
  unfold tWeights. destruct (is_probable l); [apply oor_probableWeights |].
  now destruct (l =? GC_BGD).
Qed.

Lemma oor_initSigmaW img mask b f sw nw lam :
  out_of_range (initSigmaW img mask b f sw nw lam) = false.
Proof.
  unfold initSigmaW. apply oor_forM. intros s a. cbv zeta.
  apply oor_bind; [apply oor_tWeights |]. now intros [fs ts] _.
Qed.

Lemma oor_slimSumW img i p g nw v2p : out_of_range (slimSumW img i p g nw v2p) = false.
Proof.
  unfold slimSumW. cbv zeta. destruct (Point_eqb _ _); [reflexivity |].
  now destruct (Point_eqb _ _).
Qed.

(** The dual condition reads a chain only for a sentinel neighbour, and is
    defined when the chain of that sentinel is not empty. *)
Lemma oor_dualCondition p img nw g v2p sink source ws wt cn si :
  (cn >= 0 \/ (cn = GC_JNT_BGD /\ sink <> []) \/ (cn = GC_JNT_FGD /\ source <> [])) ->
  out_of_range (dualCondition p img nw g v2p sink source ws wt cn si) = false.
Proof.
  intros H. unfold dualCondition.
  destruct (cn >=? 0) eqn:E0.
  - apply oor_bind; [apply oor_slimSumW | reflexivity].
  - rewrite Z.geb_leb in E0. apply Z.leb_gt in E0.
    destruct H as [H | [[-> Hs] | [-> Hs]]]; [lia | |].
    + rewrite Z.eqb_refl.
      rewrite (getSinkPendingSumW_nonempty _ _ _ _ Hs). reflexivity.
    + change (GC_JNT_FGD =? GC_JNT_BGD) with false. cbv iota.
      rewrite getSourcePendingSumW_eq.
      rewrite (getSinkPendingSumW_nonempty _ _ _ _ Hs). reflexivity.
Qed.

Lemma joinLoop_result (nghbrVtx : Z -> Z) s half dual (P : Z -> Prop) (idx : list Z) :
  (forall i, In i idx -> nghbrVtx i = -10 \/ P (nghbrVtx i)) ->
  (forall cn si, P cn -> out_of_range (dual cn si) = false) ->
  out_of_range (joinLoop nghbrVtx s half dual idx) = false
  /\ forall r, joinLoop nghbrVtx s half dual idx = Ok r -> r = BV_NO_VTX_FOUND \/ P r.
Proof.
  intros Hn Hd. induction idx as [| i idx IH]; cbn [joinLoop].
  - split; [reflexivity |]. intros r H. injection H as <-. now left.
  - assert (IH' := IH (fun j Hj => Hn j (or_intror Hj))). clear IH.
    destruct (nghbrVtx i =? -10) eqn:E; [exact IH' |].
    apply Z.eqb_neq in E.
    destruct (Hn i (or_introl eq_refl)) as [Hi | Hi]; [contradiction |].
    destruct (Rgtb (s i) half).
    + split; [reflexivity |]. intros r H. injection H as <-. now right.
    + specialize (Hd (nghbrVtx i) (s i) Hi).
      destruct (dual (nghbrVtx i) (s i)) as [[|] | e]; cbn [bind]; cbn in Hd.
      * split; [reflexivity |]. intros r H. injection H as <-. now right.
      * exact IH'.
      * split; [destruct e; cbn in *; congruence | discriminate].
Qed.

(** [searchJoin] is defined, and answers a vertex, a sentinel or "not
    found", when each neighbour it reads is recorded. *)
Lemma searchJoin_result p img sigmaW p2v nw g v2p mask b f lam sink source :
  (forall i, In i (zrange 4) ->
     let cn := fst (neighbours p img p2v nw i) in
     cn = -10 \/ cn >= 0 \/ (cn = GC_JNT_BGD /\ sink <> [])
     \/ (cn = GC_JNT_FGD /\ source <> [])) ->
  out_of_range (searchJoin p img sigmaW p2v nw g v2p mask b f lam sink source) = false
  /\ forall r, searchJoin p img sigmaW p2v nw g v2p mask b f lam sink source = Ok r ->
       r = BV_NO_VTX_FOUND \/ r >= 0 \/ r = GC_JNT_BGD \/ r = GC_JNT_FGD.
Proof.
  intros Hn. unfold searchJoin. cbv zeta.
  pose proof (oor_getSinkW p img mask b f lam) as H1.
  destruct (getSinkW p img mask b f lam) as [ws | e]; cbn [bind];
    [| split; [exact H1 | discriminate]].
  pose proof (oor_getSourceW p img mask b f lam) as H2.
  destruct (getSourceW p img mask b f lam) as [wt | e]; cbn [bind];
    [| split; [exact H2 | discriminate]].
  destruct (Rgtb ws _).
  { split; [reflexivity |]. intros r H. injection H as <-. auto. }
  destruct (Rgtb wt _).
  { split; [reflexivity |]. intros r H. injection H as <-. auto. }
  destruct (joinLoop_result (fun i => fst (neighbours p img p2v nw i))
              (aggregated (neighbours p img p2v nw) ws wt)
              (1 / 2 * mat_atP sigmaW p)%R
              (dualCondition p img nw g v2p sink source ws wt)
              (fun cn => cn >= 0 \/ (cn = GC_JNT_BGD /\ sink <> [])
                         \/ (cn = GC_JNT_FGD /\ source <> []))
              (zrange 4)) as [Ho Hr].
  - exact Hn.
  - intros cn si Hc. now apply oor_dualCondition.
  - split; [exact Ho |]. intros r H. destruct (Hr r H) as [-> | [Hp | [[-> _] | [-> _]]]]; auto.
Qed.

Lemma recorded_mono (st st' : SlimState) (q : Point) (v : Z) :
  (forall q, In q (sinkToPxl st) -> In q (sinkToPxl st')) ->
  (forall q, In q (sourceToPxl st) -> In q (sourceToPxl st')) ->
  recorded st q v -> recorded st' q v.
Proof.
  intros H1 H2 [H | [[-> H] | [-> H]]]; unfold recorded; auto.
Qed.

Lemma recorded_nonempty (st : SlimState) (q : Point) (v : Z) :
  recorded st q v ->
  v >= 0 \/ (v = GC_JNT_BGD /\ sinkToPxl st <> [])
  \/ (v = GC_JNT_FGD /\ sourceToPxl st <> []).
Proof.
  intros [H | [[-> H] | [-> H]]]; auto.
  - right. left. split; [reflexivity |]. intros E. rewrite E in H. exact H.
  - right. right. split; [reflexivity |]. intros E. rewrite E in H. exact H.
Qed.

(** What [classifyPixel] does to the pixel map and to the chains. *)
Lemma classifyPixel_records img mask b f lam nw sigmaW st p :
  0 <= vtxCount (graph st) ->
  (forall i, In i (zrange 4) ->
     let cn := fst (neighbours p img (pxl2Vtx st) nw i) in
     cn = -10 \/ cn >= 0 \/ (cn = GC_JNT_BGD /\ sinkToPxl st <> [])
     \/ (cn = GC_JNT_FGD /\ sourceToPxl st <> [])) ->
  out_of_range (classifyPixel img mask b f lam nw sigmaW st p) = false
  /\ forall st1, classifyPixel img mask b f lam nw sigmaW st p = Ok st1 ->
       exists v, pxl2Vtx st1 = mat_setP (pxl2Vtx st) p v
                 /\ recorded st1 p v
                 /\ 0 <= vtxCount (graph st1)
                 /\ (forall q, In q (sinkToPxl st) -> In q (sinkToPxl st1))
                 /\ (forall q, In q (sourceToPxl st) -> In q (sourceToPxl st1)).
Proof.
  intros Hcount Hn. unfold classifyPixel. cbv zeta.
  assert (Hin : forall (l : list Point) q, In q l -> In q (l ++ [p])).
  { intros l q H. apply in_or_app. now left. }
  assert (Hlast : forall l : list Point, In p (l ++ [p])).
  { intros l. apply in_or_app. right. now left. }
  destruct (is_probable (mat_atP mask p)).
  - destruct (searchJoin_result p img sigmaW (pxl2Vtx st) nw (graph st) (Vtx2pxl st)
                mask b f lam (sinkToPxl st) (sourceToPxl st) Hn) as [Ho Hr].
    destruct (searchJoin _ _ _ _ _ _ _ _ _ _ _ _ _) as [i | e]; cbn [bind];
      [| split; [exact Ho | discriminate]].
    clear Ho. specialize (Hr i eq_refl).
    destruct Hr as [-> | [Hi | [-> | ->]]].
    + (* not found: a fresh vertex *)
      change (negb (BV_NO_VTX_FOUND =? BV_NO_VTX_FOUND)) with false. cbv iota.
      unfold addVtx.
      replace (vtxCount (graph st) >=? 0) with true
        by (symmetry; rewrite Z.geb_leb; apply Z.leb_le; lia).
      split.
      { apply oor_bind; [apply oor_probableWeights |]. now intros [fs ts] _. }
      intros st1 H. apply bind_Ok in H. destruct H as [[fs ts] [_ H]].
      injection H as <-. cbn. exists (vtxCount (graph st)).
      repeat split; auto; try lia. left. lia.
    + (* joined to the vertex of a neighbour *)
      replace (i =? BV_NO_VTX_FOUND) with false
        by (symmetry; apply Z.eqb_neq; unfold BV_NO_VTX_FOUND; lia).
      replace (i >=? 0) with true by (symmetry; rewrite Z.geb_leb; apply Z.leb_le; lia).
      cbn [negb]. cbv iota.
      replace (i >=? 0) with true by (symmetry; rewrite Z.geb_leb; apply Z.leb_le; lia).
      split.
      { apply oor_bind; [apply oor_probableWeights |]. now intros [fs ts] _. }
      intros st1 H. apply bind_Ok in H. destruct H as [[fs ts] [_ H]].
      injection H as <-. cbn. exists i. repeat split; auto. now left.
    + (* joined to the sink *)
      cbn. split.
      { apply oor_bind; [apply oor_getSourceW | reflexivity]. }
      intros st1 H. apply bind_Ok in H. destruct H as [w [_ H]].
      injection H as <-. cbn. exists GC_JNT_BGD. repeat split; auto.
      right. left. cbn. auto.
    + (* joined to the source *)
      cbn. split.
      { apply oor_bind; [apply oor_getSinkW | reflexivity]. }
      intros st1 H. apply bind_Ok in H. destruct H as [w [_ H]].
      injection H as <-. cbn. exists GC_JNT_FGD. repeat split; auto.
      right. right. cbn. auto.
  - destruct (mat_atP mask p =? GC_BGD).
    + split; [reflexivity |]. intros st1 H. injection H as <-. cbn.
      exists GC_JNT_BGD. repeat split; auto. right. left. cbn. auto.
    + split; [reflexivity |]. intros st1 H. injection H as <-. cbn.
      exists GC_JNT_FGD. repeat split; auto. right. right. cbn. auto.
Qed.

(** *** Raster order *)

Lemma StronglySorted_app_intro {A} (R : A -> A -> Prop) (l1 l2 : list A) :
  StronglySorted R l1 -> StronglySorted R l2 ->
  (forall a b, In a l1 -> In b l2 -> R a b) ->
  StronglySorted R (l1 ++ l2).
Proof.
  induction l1 as [| a l1 IH]; intros H1 H2 H12; [exact H2 |].
  inversion H1 as [| ? ? Hs Hf]; subst. cbn. constructor.
  - apply IH; auto. intros x y Hx Hy. apply H12; [now right | exact Hy].
  - apply Forall_app. split; [exact Hf |].
    apply Forall_forall. intros y Hy. apply H12; [now left | exact Hy].
Qed.

Lemma StronglySorted_map_intro {A B} (R : A -> A -> Prop) (R' : B -> B -> Prop)
    (g : A -> B) (l : list A) :
  (forall a b, R a b -> R' (g a) (g b)) ->
  StronglySorted R l -> StronglySorted R' (map g l).
Proof.
  intros Hg. induction 1 as [| a l Hs IH Hf]; cbn; constructor; [exact IH |].
  apply Forall_forall. intros y Hy. apply in_map_iff in Hy.
  destruct Hy as [x [<- Hx]]. apply Hg. rewrite Forall_forall in Hf. now apply Hf.
Qed.

Lemma StronglySorted_suffix {A} (R : A -> A -> Prop) (l1 l2 : list A) :
  StronglySorted R (l1 ++ l2) -> StronglySorted R l2.
Proof.
  induction l1 as [| a l1 IH]; cbn; intros H; [exact H |].
  inversion H; subst. now apply IH.
Qed.

Lemma zrange_sorted (n : Z) : StronglySorted Z.lt (zrange n).
Proof.
  unfold zrange. generalize (Z.to_nat n) as k. generalize 0%nat as a.
  intros a k. revert a. induction k as [| k IH]; intros a; cbn; constructor.
  - apply IH.
  - apply Forall_forall. intros y Hy. apply in_map_iff in Hy.
    destruct Hy as [x [<- Hx]]. apply in_seq in Hx. lia.
Qed.

Lemma raster_sorted (r c : Z) : StronglySorted before (raster r c).
Proof.
  unfold raster. pose proof (zrange_sorted r) as Hr. revert Hr.
  generalize (zrange r) as ys. induction ys as [| y ys IH]; intros Hs; cbn.
  - constructor.
  - inversion Hs as [| ? ? Hs' Hf]; subst. apply StronglySorted_app_intro.
    + apply (StronglySorted_map_intro Z.lt); [| apply zrange_sorted].
      intros a b Hab. right. cbn. auto.
    + now apply IH.
    + intros a b Ha Hb. apply in_map_iff in Ha. destruct Ha as [x [<- _]].
      apply in_flat_map in Hb. destruct Hb as [y' [Hy' Hb]].
      apply in_map_iff in Hb. destruct Hb as [x' [<- _]].
      left. cbn. rewrite Forall_forall in Hf. now apply Hf.
Qed.

(** The pixels of the image that come before [p] in raster order have
    been visited when the loop is at [p]. *)
Lemma raster_visited (r c : Z) (pre post : list Point) (p q : Point) :
  raster r c = pre ++ p :: post ->
  0 <= py q < r -> 0 <= px q < c -> before q p -> In q pre.
Proof.
  intros Hsplit Hy Hx Hb.
  assert (Hq : In q (raster r c)) by (apply raster_In; auto).
  rewrite Hsplit in Hq. apply in_app_or in Hq. destruct Hq as [Hq | [Hq | Hq]].
  - exact Hq.
  - subst q. unfold before in Hb. lia.
  - pose proof (raster_sorted r c) as Hs. rewrite Hsplit in Hs.
    apply StronglySorted_suffix in Hs. inversion Hs as [| ? ? _ Hf]; subst.
    rewrite Forall_forall in Hf. specialize (Hf q Hq).
    unfold before in *. lia.
Qed.

(** *** The loop *)

Lemma forM_invariant {A S} (I : list A -> S -> Prop) (body : S -> A -> res S)
    (l : list A) (s0 : S) :
  I [] s0 ->
  (forall pre a post s, l = pre ++ a :: post -> I pre s ->
     out_of_range (body s a) = false
     /\ forall s', body s a = Ok s' -> I (pre ++ [a]) s') ->
  out_of_range (forM l body s0) = false
  /\ forall s', forM l body s0 = Ok s' -> I l s'.
Proof.
  intros H0 Hstep.
  assert (G : forall rest pre s, l = pre ++ rest -> I pre s ->
              out_of_range (forM rest body s) = false
              /\ forall s', forM rest body s = Ok s' -> I l s').
  { induction rest as [| a rest IH]; intros pre s Hl Hi.
    - cbn. split; [reflexivity |]. intros s' H. injection H as <-.
      rewrite app_nil_r in Hl. now subst.
    - cbn [forM]. destruct (Hstep pre a rest s Hl Hi) as [Ho Hs].
      destruct (body s a) as [s1 | e]; cbn [bind]; [| split; [exact Ho | discriminate]].
      apply (IH (pre ++ [a])); [| now apply Hs].
      rewrite <- app_assoc. exact Hl. }
  apply (G l [] s0); auto.
Qed.

Lemma linkNeighbor_vtxCount g w vtx n wt :
  vtxCount (fst (linkNeighbor g w vtx n wt)) = vtxCount g.
Proof.
  unfold linkNeighbor.
  repeat match goal with |- context [if ?b then _ else _] => destruct b end; reflexivity.
Qed.

Lemma linkNeighbors_vtxCount img nw p p2v g w :
  vtxCount (fst (linkNeighbors img nw p p2v g w)) = vtxCount g.
Proof.
  unfold linkNeighbors. cbv zeta.
  repeat match goal with
         | |- context [if ?b then _ else _] => destruct b
         | |- _ => rewrite linkNeighbor_vtxCount
         end; reflexivity.
Qed.

Lemma neighbours_visited (r c : Z) (img : Mat Vec3b) (nw : NWeights)
    (pre post : list Point) (p : Point) (st : SlimState) :
  rows img = r -> cols img = c ->
  raster r c = pre ++ p :: post -> chains_cover pre st ->
  forall i, In i (zrange 4) ->
    let cn := fst (neighbours p img (pxl2Vtx st) nw i) in
    cn = -10 \/ cn >= 0 \/ (cn = GC_JNT_BGD /\ sinkToPxl st <> [])
    \/ (cn = GC_JNT_FGD /\ sourceToPxl st <> []).
Proof.
  intros Hr Hc Hsplit [_ Hcover] i _. cbv zeta.
  assert (Hp : In p (raster r c)) by (rewrite Hsplit; apply in_or_app; right; now left).
  apply raster_In in Hp. destruct Hp as [Hpy Hpx].
  assert (Hq : forall qx qy, 0 <= qy < r -> 0 <= qx < c -> before (mkPoint qx qy) p ->
             let cn := mat_at (pxl2Vtx st) qy qx in
             cn = -10 \/ cn >= 0 \/ (cn = GC_JNT_BGD /\ sinkToPxl st <> [])
             \/ (cn = GC_JNT_FGD /\ sourceToPxl st <> [])).
  { intros qx qy Hy Hx Hb. cbv zeta. right.
    apply (recorded_nonempty st (mkPoint qx qy)).
    apply (Hcover (mkPoint qx qy)).
    apply (raster_visited r c pre post p); auto. }
  unfold neighbours. cbv zeta.
  repeat match goal with |- context [if ?b then _ else _] => destruct b eqn:? end;
    cbn [fst]; auto;
    repeat match goal with
           | H : _ && _ = true |- _ => apply andb_true_iff in H; destruct H
           | H : (_ >? _) = true |- _ => apply Z.gtb_lt in H
           | H : (_ <? _) = true |- _ => apply Z.ltb_lt in H
           end;
    apply Hq; unfold before; cbn; lia.
Qed.

(** One step of the loop keeps the record of the visited pixels and does
    not read outside a chain. *)
Lemma slimStep_records (r c : Z) img mask b f lam nw sigmaW
    (pre post : list Point) (p : Point) (st : SlimState) :
  rows img = r -> cols img = c ->
  raster r c = pre ++ p :: post -> chains_cover pre st ->
  out_of_range (slimStep img mask b f lam nw sigmaW st p) = false
  /\ forall st', slimStep img mask b f lam nw sigmaW st p = Ok st' ->
       chains_cover (pre ++ [p]) st'.
Proof.
  intros Hr Hc Hsplit Hcover.
  pose proof (neighbours_visited r c img nw pre post p st Hr Hc Hsplit Hcover) as Hn.
  destruct Hcover as [Hcount Hcover].
  destruct (classifyPixel_records img mask b f lam nw sigmaW st p Hcount Hn) as [Ho Hs].
  unfold slimStep.
  destruct (classifyPixel img mask b f lam nw sigmaW st p) as [st1 | e]; cbn [bind];
    [| split; [exact Ho | discriminate]].
  destruct (Hs st1 eq_refl) as [v [Hp2v [Hrec [Hcnt [Hsink Hsource]]]]].
  pose proof (linkNeighbors_vtxCount img nw p (pxl2Vtx st1) (graph st1) (s2tw st1)) as Hl.
  destruct (linkNeighbors img nw p (pxl2Vtx st1) (graph st1) (s2tw st1)) as [g w].
  cbn [fst] in Hl.
  split; [reflexivity |]. intros st' H. injection H as <-.
  split; [cbn; lia |].
  intros q Hq. cbn [pxl2Vtx].
  assert (Hmono : forall q v, recorded st1 q v ->
            recorded (mkSlim g (pxl2Vtx st1) (Vtx2pxl st1) (sinkToPxl st1)
                             (sourceToPxl st1) w (count st1)) q v).
  { intros q' v'. apply recorded_mono; auto. }
  apply Hmono. rewrite Hp2v. unfold mat_atP, mat_setP, mat_set. cbn [elems].
  destruct ((py q =? py p) && (px q =? px p)) eqn:E.
  - apply andb_true_iff in E. destruct E as [Ey Ex].
    apply Z.eqb_eq in Ey. apply Z.eqb_eq in Ex.
    replace q with p by (destruct p, q; cbn in *; congruence). exact Hrec.
  - apply in_app_or in Hq. destruct Hq as [Hq | [<- | []]].
    + apply (recorded_mono st); auto.
    + rewrite !Z.eqb_refl in E; try discriminate.
Qed.

(** C10.  The slim construction never reads a chain vector outside its
    bounds: when [searchJoin] evaluates the dual condition of a neighbour
    that is a terminal sentinel, the chain of that terminal holds the
    neighbour, hence is not empty, because each pixel that is given a
    sentinel is appended to the chain of that sentinel; and after the
    construction every pixel of the image is a graph vertex or is in the
    chain of its terminal. *)
Theorem chains_never_read_empty
    (img : Mat Vec3b) (mask : Mat Z) (bgdGMM fgdGMM : GMM) (lam : R)
    (nw : NWeights) (p2v : Mat Z) :
  out_of_range (constructGCGraph_slim img mask bgdGMM fgdGMM lam nw p2v) = false
  /\ forall st, constructGCGraph_slim img mask bgdGMM fgdGMM lam nw p2v = Ok st ->
       chains_cover (raster (rows img) (cols img)) st.
Proof.
  unfold constructGCGraph_slim.
  pose proof (oor_initSigmaW img mask bgdGMM fgdGMM
                (mat_create_fill (rows img) (cols img) CV_64FC1 0%R) nw lam) as Hs.
  destruct (initSigmaW _ _ _ _ _ _ _) as [sigmaW | e]; cbn [bind];
    [| split; [exact Hs | discriminate]].
  apply forM_invariant.
  - split; [cbn; lia | intros q []].
  - intros pre a post s Hsplit Hi.
    apply (slimStep_records (rows img) (cols img)) with (post := post); auto.
Qed.

(** ** The mixture model *)

Section GMM_facts.
Local Open Scope R_scope.

Lemma epsilon_pos : 0 < epsilon.
Proof. unfold epsilon. apply Rinv_0_lt_compat. apply IZR_lt. reflexivity. Qed.

Lemma epsilon_lt_1 : epsilon < 1.
Proof.
  pose proof epsilon_pos as Hp. unfold epsilon in *.
  assert (Hx : 1 < IZR (2 ^ 52)) by (apply IZR_lt; reflexivity).
  assert (Hi : / IZR (2 ^ 52) * IZR (2 ^ 52) = 1) by (apply Rinv_l; lra).
  nra.
Qed.

(** The adjugate formula gives the inverse. *)
Lemma inv3_inverse (c : Z -> R) :
  det3 c <> 0 ->
  forall i j, (0 <= i < 3)%Z -> (0 <= j < 3)%Z ->
    c (3 * i + 0)%Z * inv3 c 0%Z j + c (3 * i + 1)%Z * inv3 c 1%Z j
    + c (3 * i + 2)%Z * inv3 c 2%Z j
    = if (i =? j)%Z then 1 else 0.
Proof.
  intros Hd i j Hi Hj.
  assert (Ei : i = 0%Z \/ i = 1%Z \/ i = 2%Z) by lia.
  assert (Ej : j = 0%Z \/ j = 1%Z \/ j = 2%Z) by lia.
  destruct Ei as [-> | [-> | ->]]; destruct Ej as [-> | [-> | ->]];
    unfold inv3; cbn -[det3]; unfold det3 in *; field; exact Hd.
Qed.

Lemma GMM_call_ci_value (g : GMM) (ci : Z) (color : Vec3d) :
  (coefs g ci > 0 -> covDeterms g ci > epsilon) ->
  GMM_call_ci g ci color = Ok (componentValue g ci color).
Proof.
  intros H. unfold GMM_call_ci, componentValue.
  destruct (Rgtb (coefs g ci) 0) eqn:E; [| reflexivity].
  apply Rgtb_spec in E. rewrite (Rgtb_true _ _ (H E)). cbn [CV_Assert bind].
  destruct color as [[c0 c1] c2]. reflexivity.
Qed.

Lemma GMM_call_ci_assert (g : GMM) (ci : Z) (color : Vec3d) :
  coefs g ci > 0 -> ~ covDeterms g ci > epsilon ->
  GMM_call_ci g ci color = Err AssertFailed.
Proof.
  intros H1 H2. unfold GMM_call_ci.
  rewrite (Rgtb_true _ _ H1), (Rgtb_false _ _ H2). reflexivity.
Qed.

Lemma componentValue_nonneg (g : GMM) (ci : Z) (color : Vec3d) :
  (coefs g ci > 0 -> covDeterms g ci > epsilon) -> 0 <= componentValue g ci color.
Proof.
  intros H. unfold componentValue.
  destruct (Rgtb (coefs g ci) 0) eqn:E; [| lra].
  apply Rgtb_spec in E. specialize (H E). pose proof epsilon_pos.
  assert (0 < sqrt (covDeterms g ci)) by (apply sqrt_lt_R0; lra).
  assert (0 < 1 / sqrt (covDeterms g ci)) by (apply Rdiv_lt_0_compat; lra).
  pose proof (exp_pos (- (1 / 2) * quad3 (inverseCovs g ci)
    (vsub color (meanOf g ci 0%Z, meanOf g ci 1%Z, meanOf g ci 2%Z)))).
  apply Rlt_le. now apply Rmult_lt_0_compat.
Qed.

(** The component value in terms of the parameters alone. *)
Lemma componentValue_gaussian (g : GMM) (ci : Z) (color : Vec3d) :
  derived_ok g ci -> coefs g ci > 0 -> det3 (covOf g ci) > 0 ->
  componentValue g ci color
  = sqrt ((2 * PI) ^ 3) * gaussian3 (meanOf g ci) (covOf g ci) color.
Proof.
  intros [Hd Hi] Hc Hdet. unfold componentValue, gaussian3.
  rewrite (Rgtb_true _ _ Hc). rewrite Hd.
  assert (Hq : forall d, quad3 (inverseCovs g ci) d = quad3 (inv3 (covOf g ci)) d).
  { intros [[d0 d1] d2]. unfold quad3. rewrite !Hi by lia. reflexivity. }
  rewrite Hq.
  assert (0 < sqrt (det3 (covOf g ci))) by (apply sqrt_lt_R0; lra).
  assert (0 < sqrt ((2 * PI) ^ 3)).
  { apply sqrt_lt_R0. apply pow_lt. pose proof PI_RGT_0. lra. }
  field. split; lra.
Qed.

End GMM_facts.

Section GMM_construction.
Local Open Scope R_scope.

Lemma forM_total {A S} (body : S -> A -> res S) (step : S -> A -> S) (l : list A) :
  (forall s a, In a l -> body s a = Ok (step s a)) ->
  forall s, forM l body s = Ok (fold_left step l s).
Proof.
  induction l as [| a l IH]; intros H s; [reflexivity |].
  cbn [forM fold_left]. rewrite H by now left. cbn [bind].
  apply IH. intros s' a' Ha. apply H. now right.
Qed.

Lemma forM_Ok_invariant {A S} (I : list A -> S -> Prop) (body : S -> A -> res S)
    (l : list A) (s0 : S) :
  I [] s0 ->
  (forall pre a post s, l = pre ++ a :: post -> I pre s ->
     exists s', body s a = Ok s' /\ I (pre ++ [a]) s') ->
  exists s', forM l body s0 = Ok s' /\ I l s'.
Proof.
  intros H0 Hstep.
  assert (G : forall rest pre s, l = pre ++ rest -> I pre s ->
              exists s', forM rest body s = Ok s' /\ I l s').
  { induction rest as [| a rest IH]; intros pre s Hl Hi.
    - exists s. split; [reflexivity |]. rewrite app_nil_r in Hl. now subst.
    - cbn [forM]. destruct (Hstep pre a rest s Hl Hi) as [s1 [Hb Hi1]].
      rewrite Hb. cbn [bind]. apply (IH (pre ++ [a])); [| exact Hi1].
      rewrite <- app_assoc. exact Hl. }
  apply (G l [] s0); auto.
Qed.

(** [calcInverseCovAndDeterm] on an active component whose determinant
    passes the assertion: the buffer is kept, the derived state of the
    component is set from the buffer, and that of the others is kept. *)
Lemma calcInverseCovAndDeterm_derived (g : GMM) (ci : Z) :
  coefs g ci > 0 -> det3 (covOf g ci) > epsilon ->
  exists g', calcInverseCovAndDeterm g ci = Ok g'
             /\ model g' = model g
             /\ derived_ok g' ci
             /\ forall cj, cj <> ci -> derived_ok g cj -> derived_ok g' cj.
Proof.
  intros Hc Hd. unfold calcInverseCovAndDeterm. cbv zeta.
  rewrite (Rgtb_true _ _ Hc).
  change (det3 (fun i : Z => cov g (9 * ci + i))) with (det3 (covOf g ci)).
  rewrite (Rgtb_true _ _ Hd). cbn [CV_Assert bind].
  eexists. split; [reflexivity |]. unfold derived_ok, covOf, cov.
  cbn [model covDeterms inverseCovs].
  split; [reflexivity |]. split.
  - split.
    + unfold upd1. now rewrite Z.eqb_refl.
    + intros i j Hi Hj.
      assert (Ei : i = 0%Z \/ i = 1%Z \/ i = 2%Z) by lia.
      assert (Ej : j = 0%Z \/ j = 1%Z \/ j = 2%Z) by lia.
      destruct Ei as [-> | [-> | ->]]; destruct Ej as [-> | [-> | ->]];
        unfold upd3, inv3; rewrite !Z.eqb_refl; cbn -[det3 Rdiv mat_at]; reflexivity.
  - intros cj Hne [H1 H2]. apply Z.eqb_neq in Hne. split.
    + unfold upd1. rewrite Hne. exact H1.
    + intros i j Hi Hj. unfold upd3. rewrite Hne. cbn [andb].
      now apply H2.
Qed.

(** The constructor on a buffer of the right shape whose active components
    have a determinant above epsilon: the object shares the buffer and the
    derived state of every active component agrees with it. *)
Lemma GMM_new_derived (m : Mat R) :
  model_shaped m ->
  (forall ci, (0 <= ci < componentsCount)%Z -> mat_at m 0 ci > 0 ->
     det3 (fun i => mat_at m 0 (componentsCount + 3 * componentsCount + (9 * ci + i))%Z)
     > epsilon) ->
  exists g, GMM_new m = Ok g /\ model g = m
            /\ forall ci, (0 <= ci < componentsCount)%Z -> coefs g ci > 0 ->
                 derived_ok g ci /\ covDeterms g ci > epsilon.
Proof.
  intros [He [Ht [Hr Hc]]] Hdet. unfold GMM_new. rewrite He.
  rewrite Ht, Hr, Hc, !Z.eqb_refl. cbn [negb orb bind].
  match goal with |- context [forM _ _ ?g0] => set (g0' := g0) end.
  destruct (forM_Ok_invariant
              (fun done g => model g = m
                 /\ forall ci, In ci done -> coefs g ci > 0 ->
                      derived_ok g ci /\ covDeterms g ci > epsilon)
              (fun g ci => if Rgtb (coefs g ci) 0
                           then calcInverseCovAndDeterm g ci else Ok g)
              (zrange componentsCount) g0') as [g [Hg [Hm Hd]]].
  - split; [reflexivity | intros ci []].
  - intros pre ci post g Hsplit [Hm Hd].
    assert (Hci : In ci (zrange componentsCount)).
    { rewrite Hsplit. apply in_or_app. right. now left. }
    apply zrange_In in Hci.
    destruct (Rgtb (coefs g ci) 0) eqn:E.
    + apply Rgtb_spec in E.
      destruct (calcInverseCovAndDeterm_derived g ci E) as [g' [Hg' [Hm' [Hok Hoth]]]].
      { unfold covOf, cov. rewrite Hm. apply Hdet; [exact Hci |].
        unfold coefs in E. now rewrite Hm in E. }
      exists g'. split; [exact Hg' |]. split; [congruence |].
      intros cj Hcj Hpos.
      assert (Hcoef : coefs g cj = coefs g' cj) by (unfold coefs; congruence).
      destruct (Z.eq_dec cj ci) as [-> | Hne].
      * split; [exact Hok |]. destruct Hok as [-> _].
        unfold covOf, cov. rewrite Hm', Hm. apply Hdet; [exact Hci |].
        unfold coefs in E. now rewrite Hm in E.
      * apply in_app_or in Hcj. destruct Hcj as [Hcj | [-> | []]]; [| congruence].
        rewrite <- Hcoef in Hpos. destruct (Hd cj Hcj Hpos) as [Hd1 Hd2].
        pose proof (Hoth cj Hne Hd1) as Hd1'. split; [exact Hd1' |].
        destruct Hd1' as [-> _]. destruct Hd1 as [Hd1 _]. rewrite Hd1 in Hd2.
        unfold covOf, cov in *. now rewrite Hm'.
    + exists g. split; [reflexivity |]. split; [exact Hm |].
      intros cj Hcj Hpos. apply in_app_or in Hcj. destruct Hcj as [Hcj | [-> | []]].
      * now apply Hd.
      * apply Rgtb_spec in Hpos. congruence.
  - exists g. split; [exact Hg |]. split; [exact Hm |].
    intros ci Hci. apply Hd. now apply zrange_In.
Qed.

Lemma GMM_call_value (g : GMM) (color : Vec3d) :
  components_regular g -> GMM_call g color = Ok (mixtureValue g color).
Proof.
  intros Hreg. unfold GMM_call, mixtureValue. apply forM_total.
  intros s ci Hci. apply zrange_In in Hci.
  rewrite GMM_call_ci_value by (now apply Hreg). reflexivity.
Qed.

End GMM_construction.

(** ** Component values and the choice of a component *)

Section GMM_claims.
Local Open Scope R_scope.

(** C5 (as amended).  For a model whose derived state agrees with its
    parameters and whose active components pass the determinant assertion,
    [operator()(ci, color)] returns 0 for a component of weight 0 and
    otherwise det^(-1/2) exp(-1/2 d^T cov^-1 d), that is (2 pi)^(3/2) times
    the Gaussian density, without the weight of the component; the weight
    is applied by [operator()(color)], which returns the sum over the
    components of weight times component value. *)
Theorem component_value_is_unweighted_density
    (g : GMM) (ci : Z) (color : Vec3d)
    (Hci : (0 <= ci < componentsCount)%Z)
    (Hreg : components_regular g)
    (Hder : forall cj, (0 <= cj < componentsCount)%Z -> coefs g cj > 0 -> derived_ok g cj) :
  GMM_call_ci g ci color
  = Ok (if Rgtb (coefs g ci) 0
        then sqrt ((2 * PI) ^ 3) * gaussian3 (meanOf g ci) (covOf g ci) color
        else 0)
  /\ GMM_call g color
     = Ok (fold_left
             (fun res cj =>
                res + coefs g cj
                      * (if Rgtb (coefs g cj) 0
                         then sqrt ((2 * PI) ^ 3) * gaussian3 (meanOf g cj) (covOf g cj) color
                         else 0))
             (zrange componentsCount) 0).
Proof.
  assert (Hval : forall cj, (0 <= cj < componentsCount)%Z ->
            componentValue g cj color
            = if Rgtb (coefs g cj) 0
              then sqrt ((2 * PI) ^ 3) * gaussian3 (meanOf g cj) (covOf g cj) color
              else 0).
  { intros cj Hcj. destruct (Rgtb (coefs g cj) 0) eqn:E.
    - apply Rgtb_spec in E. apply componentValue_gaussian; auto.
      pose proof (Hreg cj Hcj E) as Hd. destruct (Hder cj Hcj E) as [Hdet _].
      rewrite Hdet in Hd. pose proof epsilon_pos. lra.
    - unfold componentValue. now rewrite E. }
  split.
  - rewrite GMM_call_ci_value by (now apply Hreg). now rewrite Hval.
  - rewrite GMM_call_value by exact Hreg. unfold mixtureValue. f_equal.
    assert (G : forall l s, (forall cj, In cj l -> (0 <= cj < componentsCount)%Z) ->
              fold_left (fun res cj => res + coefs g cj * componentValue g cj color) l s
              = fold_left (fun res cj => res + coefs g cj *
                   (if Rgtb (coefs g cj) 0
                    then sqrt ((2 * PI) ^ 3) * gaussian3 (meanOf g cj) (covOf g cj) color
                    else 0)) l s).
    { induction l as [| a l IH]; intros s Hl; [reflexivity |].
      cbn [fold_left]. rewrite Hval by (apply Hl; now left).
      apply IH. intros cj Hcj. apply Hl. now right. }
    apply G. intros cj Hcj. now apply zrange_In.
Qed.

Lemma StronglySorted_prefix {A} (Rel : A -> A -> Prop) (pre post : list A) (a : A) :
  StronglySorted Rel (pre ++ a :: post) -> forall k, In k pre -> Rel k a.
Proof.
  induction pre as [| b pre IH]; cbn; intros H k Hk; [contradiction |].
  inversion H as [| ? ? Hs Hf]; subst. destruct Hk as [<- | Hk].
  - rewrite Forall_forall in Hf. apply Hf. apply in_or_app. right. now left.
  - now apply IH.
Qed.

(** [whichComponent] returns the first index at which the component value
    is largest. *)
Lemma whichComponent_first_largest (g : GMM) (color : Vec3d) :
  components_regular g ->
  exists k, whichComponent g color = Ok k
            /\ (0 <= k < componentsCount)%Z
            /\ (forall ci, (0 <= ci < componentsCount)%Z ->
                  componentValue g ci color <= componentValue g k color)
            /\ (forall ci, (0 <= ci < k)%Z ->
                  componentValue g ci color < componentValue g k color).
Proof.
  intros Hreg. unfold whichComponent.
  set (val := fun ci => componentValue g ci color).
  destruct (forM_Ok_invariant
    (fun done (km : Z * R) =>
       (forall ci, In ci done -> val ci <= snd km)
       /\ ((fst km = 0%Z /\ snd km = 0)
           \/ (In (fst km) done /\ snd km = val (fst km) /\ 0 < snd km
               /\ forall ci, In ci done -> (ci < fst km)%Z -> val ci < snd km)))
    (fun (km : Z * R) ci =>
       do p <- GMM_call_ci g ci color;
       if Rgtb p (snd km) then Ok (ci, p) else Ok km)
    (zrange componentsCount) (0%Z, 0)) as [[k mx] [Hrun [Hle Hcase]]].
  - split; [intros ci [] | left; auto].
  - intros pre a post [k mx] Hsplit [Hle Hcase]. cbn [fst snd] in *.
    assert (Ha : In a (zrange componentsCount)).
    { rewrite Hsplit. apply in_or_app. right. now left. }
    apply zrange_In in Ha.
    rewrite GMM_call_ci_value by (now apply Hreg). cbn [bind]. fold (val a).
    assert (Hmx : 0 <= mx) by (destruct Hcase as [[_ ->] | [_ [_ [H _]]]]; lra).
    destruct (Rgtb (val a) mx) eqn:E.
    + apply Rgtb_spec in E. eexists. split; [reflexivity |]. cbn [fst snd]. split.
      * intros ci Hci. apply in_app_or in Hci. destruct Hci as [Hci | [<- | []]].
        -- specialize (Hle ci Hci). lra.
        -- lra.
      * right. split; [apply in_or_app; right; now left |].
        split; [reflexivity |]. split; [lra |].
        intros ci Hci Hlt. apply in_app_or in Hci. destruct Hci as [Hci | [<- | []]].
        -- specialize (Hle ci Hci). lra.
        -- lia.
    + assert (E' : ~ val a > mx) by (intros H; apply Rgtb_spec in H; congruence).
      eexists. split; [reflexivity |]. cbn [fst snd]. split.
      * intros ci Hci. apply in_app_or in Hci. destruct Hci as [Hci | [<- | []]].
        -- now apply Hle.
        -- lra.
      * destruct Hcase as [Hz | [Hk [Hv [Hp Hf]]]]; [now left | right].
        split; [apply in_or_app; now left |]. split; [exact Hv |]. split; [exact Hp |].
        intros ci Hci Hlt. apply in_app_or in Hci. destruct Hci as [Hci | [<- | []]].
        -- now apply Hf.
        -- pose proof (zrange_sorted componentsCount) as Hs. rewrite Hsplit in Hs.
           pose proof (StronglySorted_prefix _ _ _ _ Hs k Hk). lia.
  - cbn [fst snd] in *. rewrite Hrun. cbn [bind fst]. exists k.
    split; [reflexivity |].
    destruct Hcase as [[-> ->] | [Hk [Hv [Hp Hf]]]].
    + split; [unfold componentsCount; lia |].
      assert (Hz : forall ci, (0 <= ci < componentsCount)%Z -> val ci = 0).
      { intros ci Hci. pose proof (Hle ci (proj2 (zrange_In _ _) Hci)).
        pose proof (componentValue_nonneg g ci color (Hreg ci Hci)).
        unfold val in *. lra. }
      split; [| intros ci Hci; lia].
      intros ci Hci. fold (val ci) (val 0%Z).
      rewrite (Hz ci Hci), (Hz 0%Z) by (unfold componentsCount; lia). lra.
    + split; [now apply zrange_In |]. split.
      * intros ci Hci. fold (val ci) (val k). rewrite <- Hv.
        apply Hle. now apply zrange_In.
      * intros ci Hci. fold (val ci) (val k). rewrite <- Hv.
        apply zrange_In in Hk. apply Hf; [apply zrange_In |]; lia.
Qed.

(** C9 (as amended).  For a model whose active components pass the
    determinant assertion, [whichComponent] returns the smallest index k at
    which the component value [operator()(k, color)] is largest; this value
    is the unweighted density of an active component and 0 for a component
    of weight 0, so that the weights take part only as a gate; when every
    component value is 0 the index is 0. *)
Theorem whichComponent_first_largest_component_value
    (g : GMM) (color : Vec3d) (Hreg : components_regular g) :
  exists k, whichComponent g color = Ok k
            /\ (0 <= k < componentsCount)%Z
            /\ (forall ci, (0 <= ci < componentsCount)%Z ->
                  GMM_call_ci g ci color = Ok (componentValue g ci color)
                  /\ componentValue g ci color <= componentValue g k color)
            /\ (forall ci, (0 <= ci < k)%Z ->
                  componentValue g ci color < componentValue g k color)
            /\ ((forall ci, (0 <= ci < componentsCount)%Z ->
                   componentValue g ci color = 0) -> k = 0%Z).
Proof.
  destruct (whichComponent_first_largest g color Hreg) as [k [Hk [Hr [Hmax Hfirst]]]].
  exists k. split; [exact Hk |]. split; [exact Hr |]. split; [| split].
  - intros ci Hci. split; [| now apply Hmax].
    apply GMM_call_ci_value. now apply Hreg.
  - exact Hfirst.
  - intros Hz. destruct (Z.eq_dec k 0) as [-> | Hne]; [reflexivity |].
    assert (H0 : (0 <= 0 < k)%Z) by lia.
    specialize (Hfirst 0%Z H0).
    rewrite (Hz 0%Z), (Hz k) in Hfirst by (unfold componentsCount in *; lia). lra.
Qed.

End GMM_claims.

(** ** Concrete models *)

(** Evaluation that leaves real arithmetic alone. *)
Ltac reval :=
  cbv -[Rplus Rminus Rmult Rdiv Ropp Rinv IZR Rgt Rlt Rge Rle exp ln sqrt PI
        Rgtb Rleb epsilon pow].
Ltac reval_in H :=
  cbv -[Rplus Rminus Rmult Rdiv Ropp Rinv IZR Rgt Rlt Rge Rle exp ln sqrt PI
        Rgtb Rleb epsilon pow] in H.

Section Concrete_models.
Local Open Scope R_scope.

Lemma model_single_shaped w m0 m1 m2 : model_shaped (model_single w m0 m1 m2).
Proof. repeat split. Qed.

Lemma range5_cases (ci : Z) :
  (0 <= ci < componentsCount)%Z ->
  ci = 0%Z \/ ci = 1%Z \/ ci = 2%Z \/ ci = 3%Z \/ ci = 4%Z.
Proof. unfold componentsCount. lia. Qed.

Lemma Rgtb_0_0 : Rgtb 0 0 = false.
Proof. apply Rgtb_false. lra. Qed.

(** The object built from [model_single]: its only active component is the
    first, and its likelihood is w exp(-|c - m|^2 / 2). *)
Lemma model_single_GMM (w m0 m1 m2 : R) :
  w > 0 ->
  exists g, GMM_new (model_single w m0 m1 m2) = Ok g
            /\ model g = model_single w m0 m1 m2
            /\ components_regular g
            /\ (forall ci, (0 <= ci < componentsCount)%Z -> coefs g ci > 0 -> derived_ok g ci)
            /\ forall c0 c1 c2,
                 GMM_call g (c0, c1, c2)
                 = Ok (w * exp (- (1 / 2) * ((c0 - m0) * (c0 - m0) + (c1 - m1) * (c1 - m1)
                                            + (c2 - m2) * (c2 - m2)))).
Proof.
  intros Hw.
  destruct (GMM_new_derived (model_single w m0 m1 m2) (model_single_shaped _ _ _ _))
    as [g [Hg [Hm Hd]]].
  - intros ci Hci Hpos. apply range5_cases in Hci.
    destruct Hci as [-> | [-> | [-> | [-> | ->]]]]; reval_in Hpos; try lra.
    reval. pose proof epsilon_lt_1. lra.
  - exists g. split; [exact Hg |]. split; [exact Hm |].
    assert (Hreg : components_regular g).
    { intros ci Hci Hpos. now apply Hd. }
    split; [exact Hreg |]. split; [intros ci Hci Hpos; now apply Hd |].
    intros c0 c1 c2. rewrite GMM_call_value by exact Hreg. f_equal.
    assert (H0 : coefs g 0%Z = w) by (unfold coefs; rewrite Hm; reflexivity).
    assert (Hz : forall ci, ci = 1%Z \/ ci = 2%Z \/ ci = 3%Z \/ ci = 4%Z -> coefs g ci = 0).
    { intros ci Hci. unfold coefs. rewrite Hm.
      destruct Hci as [-> | [-> | [-> | ->]]]; reflexivity. }
    destruct (Hd 0%Z ltac:(unfold componentsCount; lia) ltac:(lra)) as [[Hdet Hinv] _].
    assert (Hdet1 : det3 (covOf g 0%Z) = 1).
    { unfold det3, covOf, cov. rewrite Hm. reval. lra. }
    assert (Hv0 : componentValue g 0%Z (c0, c1, c2)
                  = exp (- (1 / 2) * ((c0 - m0) * (c0 - m0) + (c1 - m1) * (c1 - m1)
                                     + (c2 - m2) * (c2 - m2)))).
    { unfold componentValue. rewrite H0, (Rgtb_true _ _ Hw), Hdet, Hdet1, sqrt_1.
      unfold quad3, vsub. rewrite !Hinv by lia.
      unfold inv3. rewrite Hdet1. unfold meanOf, mean, covOf, cov. rewrite Hm. reval.
      replace (1 / 1) with 1 by field. rewrite Rmult_1_l. f_equal. field. }
    unfold mixtureValue.
    change (zrange componentsCount) with [0; 1; 2; 3; 4]%Z. cbn [fold_left].
    rewrite Hv0, H0. rewrite !Hz by auto. lra.
Qed.

End Concrete_models.

(** ** Terminal weights of probable pixels *)

Section Data_terms.
Local Open Scope R_scope.

Lemma probable_not_hard (v : Z) :
  is_probable v = true -> (v =? GC_BGD)%Z = false /\ (v =? GC_FGD)%Z = false.
Proof.
  unfold is_probable. intros H. apply orb_true_iff in H.
  destruct H as [H | H]; apply Z.eqb_eq in H; subst; split; reflexivity.
Qed.

Lemma neg_log_exp (w x : R) : w = 1 -> neg_log (w * exp x) = Ok (- x).
Proof.
  intros ->. unfold neg_log. rewrite Rmult_1_l.
  rewrite Rgtb_true by apply exp_pos. now rewrite ln_exp.
Qed.

Lemma getSinkW_probable p img mask b f lam v :
  is_probable (mat_atP mask p) = true ->
  GMM_call f (to_Vec3d (mat_atP img p)) = Ok v ->
  getSinkW p img mask b f lam = neg_log v.
Proof.
  intros Hp Hv. unfold getSinkW. cbv zeta.
  destruct (probable_not_hard _ Hp) as [-> _].
  change (mat_at mask (py p) (px p)) with (mat_atP mask p). rewrite Hp.
  change (mat_at img (py p) (px p)) with (mat_atP img p). now rewrite Hv.
Qed.

Lemma getSourceW_probable p img mask b f lam v :
  is_probable (mat_atP mask p) = true ->
  GMM_call b (to_Vec3d (mat_atP img p)) = Ok v ->
  getSourceW p img mask b f lam = neg_log v.
Proof.
  intros Hp Hv. unfold getSourceW. cbv zeta.
  destruct (probable_not_hard _ Hp) as [_ ->].
  change (mat_at mask (py p) (px p)) with (mat_atP mask p). rewrite Hp.
  change (mat_at img (py p) (px p)) with (mat_atP img p). now rewrite Hv.
Qed.

Lemma probableWeights_value c b f vb vf ws wt :
  GMM_call b c = Ok vb -> neg_log vb = Ok wt ->
  GMM_call f c = Ok vf -> neg_log vf = Ok ws ->
  probableWeights c b f = Ok (wt, ws).
Proof.
  intros H1 H2 H3 H4. unfold probableWeights.
  rewrite H1. cbn [bind]. rewrite H2. cbn [bind].
  rewrite H3. cbn [bind]. rewrite H4. reflexivity.
Qed.

End Data_terms.

(** ** A pixel at the threshold *)

Section Threshold.
Local Open Scope R_scope.

(** C3, counterexample.  The single pixel of [img_1x1] has weight 1 to the
    sink and weight 1 from the source under the same model for both
    classes, so its total weight is 2 and its weight to the sink equals half
    of it; [searchJoin] answers "no vertex found", not the background
    sentinel. *)
Lemma searchJoin_equality_does_not_join :
  let p := mkPoint 0 0 in
  let nw := nw_zero 1 1 in
  exists g sigmaW,
    GMM_new (model_single 1 0 0 0) = Ok g
    /\ initSigmaW img_1x1 mask_1x1 g g (mat_create_fill 1 1 CV_64FC1 0) nw lambda
       = Ok sigmaW
    /\ getSinkW p img_1x1 mask_1x1 g g lambda = Ok 1
    /\ 1 >= 1 / 2 * mat_atP sigmaW p
    /\ searchJoin p img_1x1 sigmaW (mat_create_fill 1 1 CV_32SC1 0%Z) nw graph_create
                  (mat_create_fill 1 1 0%Z noPoint) mask_1x1 g g lambda [] []
       = Ok BV_NO_VTX_FOUND
    /\ BV_NO_VTX_FOUND <> GC_JNT_BGD.
Proof.
  cbv zeta.
  destruct (model_single_GMM 1 0 0 0 ltac:(lra)) as [g [Hg [_ [_ [_ Hcall]]]]].
  assert (Hc : GMM_call g (to_Vec3d (mat_atP img_1x1 (mkPoint 0 0)))
               = Ok (1 * exp (- 1))).
  { change (to_Vec3d (mat_atP img_1x1 (mkPoint 0 0))) with (IZR 1, IZR 1, IZR 0).
    rewrite Hcall. do 2 f_equal. f_equal. lra. }
  assert (Hn : neg_log (1 * exp (- 1)) = Ok 1).
  { rewrite neg_log_exp by reflexivity. f_equal. lra. }
  assert (Hs : getSinkW (mkPoint 0 0) img_1x1 mask_1x1 g g lambda = Ok 1).
  { rewrite (getSinkW_probable (mkPoint 0 0) img_1x1 mask_1x1 g g lambda _ eq_refl Hc).
    exact Hn. }
  assert (Ht : getSourceW (mkPoint 0 0) img_1x1 mask_1x1 g g lambda = Ok 1).
  { rewrite (getSourceW_probable (mkPoint 0 0) img_1x1 mask_1x1 g g lambda _ eq_refl Hc).
    exact Hn. }
  exists g. eexists. split; [exact Hg |]. split.
  - unfold initSigmaW. change (raster (rows img_1x1) (cols img_1x1)) with [mkPoint 0 0].
    cbn [forM]. cbv zeta.
    change (tWeights _ _ g g lambda) with (probableWeights (to_Vec3d (mat_atP img_1x1 (mkPoint 0 0))) g g).
    rewrite (probableWeights_value _ _ _ _ _ _ _ Hc Hn Hc Hn). cbn [bind]. reflexivity.
  - split; [exact Hs |]. split.
    + reval. lra.
    + split; [| discriminate].
      apply (searchJoin_cases _ _ _ _ _ _ _ _ _ _ _ _ _ _ _ Hs Ht); try reflexivity;
        reval; lra.
Qed.

End Threshold.

(** ** The slim graph against the plain graph on a 1 x 3 image *)

Ltac rcmp :=
  repeat match goal with
  | |- context [Rgtb ?a ?b] =>
      first [rewrite (Rgtb_true a b) by lra | rewrite (Rgtb_false a b) by lra]
  end.

Section Slim_against_plain.
Local Open Scope R_scope.

Lemma raster_1x3 :
  raster (rows img_1x3) (cols img_1x3) = [mkPoint 0 0; mkPoint 1 0; mkPoint 2 0].
Proof. reflexivity. Qed.

(** The image is constant, so beta is 0 ... *)
Lemma calcBeta_1x3 : calcBeta img_1x3 = 0.
Proof.
  unfold calcBeta. rewrite raster_1x3. cbn [fold_left]. cbv beta zeta.
  match goal with |- (if Rleb ?b _ then _ else _) = _ => assert (Hb : b = 0) end.
  { reval. lra. }
  rewrite Hb. rewrite Rleb_true; [reflexivity | pose proof epsilon_pos; lra].
Qed.

(** ... and [nw_1x3] holds the weights that [calcNWeights] computes. *)
Lemma calcNWeights_1x3 (y x : Z) :
  (0 <= y < 1)%Z -> (0 <= x < 3)%Z ->
  let nw := calcNWeights img_1x3 (calcBeta img_1x3) gamma in
  mat_at (leftW nw) y x = mat_at (leftW nw_1x3) y x
  /\ mat_at (upleftW nw) y x = mat_at (upleftW nw_1x3) y x
  /\ mat_at (upW nw) y x = mat_at (upW nw_1x3) y x
  /\ mat_at (uprightW nw) y x = mat_at (uprightW nw_1x3) y x.
Proof.
  intros Hy Hx. rewrite calcBeta_1x3. cbv zeta.
  assert (y = 0%Z) by lia. subst y.
  assert (Hc : x = 0%Z \/ x = 1%Z \/ x = 2%Z) by lia.
  destruct Hc as [-> | [-> | ->]]; reval; repeat split; try reflexivity.
  all: match goal with |- _ * exp ?e = _ => replace e with 0 by lra end;
    rewrite exp_0; lra.
Qed.

(** The two models: foreground centred at (8, 0, 0), background centred at
    (8, 4, 0), unit covariance.  A black pixel has weight 40 from the source
    and 32 to the sink. *)
Lemma models_1x3 :
  exists gb gf,
    GMM_new (model_single 1 8 4 0) = Ok gb
    /\ GMM_new (model_single 1 8 0 0) = Ok gf
    /\ (forall p, probableWeights (to_Vec3d (mat_atP img_1x3 p)) gb gf = Ok (40, 32))
    /\ (forall y x, probableWeights (to_Vec3d (mat_at img_1x3 y x)) gb gf = Ok (40, 32))
    /\ getSinkW (mkPoint 1 0) img_1x3 mask_1x3 gb gf lambda = Ok 32
    /\ getSourceW (mkPoint 1 0) img_1x3 mask_1x3 gb gf lambda = Ok 40.
Proof.
  destruct (model_single_GMM 1 8 4 0 ltac:(lra)) as [gb [Hgb [_ [_ [_ Hb]]]]].
  destruct (model_single_GMM 1 8 0 0 ltac:(lra)) as [gf [Hgf [_ [_ [_ Hf]]]]].
  exists gb, gf.
  assert (Hcb : GMM_call gb (IZR 0, IZR 0, IZR 0) = Ok (1 * exp (- 40))).
  { rewrite Hb. do 2 f_equal. f_equal. lra. }
  assert (Hcf : GMM_call gf (IZR 0, IZR 0, IZR 0) = Ok (1 * exp (- 32))).
  { rewrite Hf. do 2 f_equal. f_equal. lra. }
  assert (Hnb : neg_log (1 * exp (- 40)) = Ok 40).
  { rewrite neg_log_exp by reflexivity. f_equal. lra. }
  assert (Hnf : neg_log (1 * exp (- 32)) = Ok 32).
  { rewrite neg_log_exp by reflexivity. f_equal. lra. }
  assert (Hpw : probableWeights (IZR 0, IZR 0, IZR 0) gb gf = Ok (40, 32)).
  { exact (probableWeights_value _ _ _ _ _ _ _ Hcb Hnb Hcf Hnf). }
  repeat split; try assumption.
  - intros p. exact Hpw.
  - intros y x. exact Hpw.
  - rewrite (getSinkW_probable (mkPoint 1 0) img_1x3 mask_1x3 gb gf lambda _ eq_refl Hcf).
    exact Hnf.
  - rewrite (getSourceW_probable (mkPoint 1 0) img_1x3 mask_1x3 gb gf lambda _ eq_refl Hcb).
    exact Hnb.
Qed.

(** C1.  On the 1 x 3 black image labelled background, probable
    foreground, foreground, with the weights of [calcNWeights] and the two
    models above, the slim construction joins the middle pixel to the sink
    by the dual condition of its left neighbour: the slim graph has no
    vertex, its minimum cut is 0 and s2tw is 90, while the minimum cut of
    the plain graph is 82 (the middle pixel on the side of the source). *)
Theorem slim_cut_differs_from_plain_cut :
  exists gb gf slim plain,
    GMM_new (model_single 1 8 4 0) = Ok gb
    /\ GMM_new (model_single 1 8 0 0) = Ok gf
    /\ constructGCGraph_slim img_1x3 mask_1x3 gb gf lambda nw_1x3
         (mat_create_fill 1 3 CV_32SC1 0%Z) = Ok slim
    /\ constructGCGraph img_1x3 mask_1x3 gb gf lambda nw_1x3 = Ok plain
    /\ is_mincut (graph slim) 0
    /\ s2tw slim = 90
    /\ is_mincut plain 82
    /\ Rabs (0 + 90 - 82) > 1 / 1000000 * Rmax 1 (Rabs 82).
Proof.
  destruct models_1x3 as [gb [gf [Hgb [Hgf [HpwP [Hpw [Hs Ht]]]]]]].
  exists gb, gf. do 2 eexists.
  split; [exact Hgb |]. split; [exact Hgf |]. split; [| split].
  - unfold constructGCGraph_slim, initSigmaW, tWeights.
    rewrite raster_1x3. cbn [forM]. cbv beta zeta. rewrite !Hpw.
    unfold slimStep, classifyPixel, searchJoin. cbv beta zeta.
    rewrite ?Hs, ?Ht, ?HpwP.
    reval. rcmp. reval. rcmp. reflexivity.
  - unfold constructGCGraph, tWeights.
    rewrite raster_1x3. cbn [forM]. cbv beta zeta. rewrite ?HpwP.
    reval. reflexivity.
  - split; [| split; [| split]].
    + split.
      * exists (fun _ => true). reval. lra.
      * intros S. reval. lra.
    + reval. lra.
    + split.
      * exists (fun v => negb (v =? 0)%Z). reval. lra.
      * intros S. unfold cutValue. reval. destruct (S 0%Z), (S 1%Z), (S 2%Z); lra.
    + replace (0 + 90 - 82) with 8 by lra.
      rewrite !Rabs_pos_eq by lra. rewrite Rmax_right by lra. lra.
Qed.

End Slim_against_plain.

(** ** The model buffers at the entry points *)

Section Model_buffers.
Local Open Scope R_scope.

Lemma calcInverseCovAndDeterm_outcome (g : GMM) (ci : Z) :
  (exists g', calcInverseCovAndDeterm g ci = Ok g' /\ model g' = model g)
  \/ calcInverseCovAndDeterm g ci = Err AssertFailed.
Proof.
  unfold calcInverseCovAndDeterm. cbv zeta.
  destruct (Rgtb (coefs g ci) 0); [| left; eauto].
  destruct (Rgtb _ epsilon); cbn [CV_Assert bind]; [left | right; reflexivity].
  eexists. split; reflexivity.
Qed.

Lemma GMM_new_loop_outcome (l : list Z) (g : GMM) :
  (exists g', forM l (fun g ci => if Rgtb (coefs g ci) 0
                                  then calcInverseCovAndDeterm g ci else Ok g) g = Ok g'
              /\ model g' = model g)
  \/ forM l (fun g ci => if Rgtb (coefs g ci) 0
                         then calcInverseCovAndDeterm g ci else Ok g) g = Err AssertFailed.
Proof.
  revert g. induction l as [| ci l IH]; intros g; cbn [forM]; [left; eauto |].
  destruct (Rgtb (coefs g ci) 0).
  - destruct (calcInverseCovAndDeterm_outcome g ci) as [[g1 [-> Hm]] | ->]; cbn [bind];
      [| now right].
    destruct (IH g1) as [[g' [-> Hm']] | ->]; [left | now right].
    exists g'. split; [reflexivity | congruence].
  - cbn [bind]. apply IH.
Qed.

(** The constructor accepts an empty buffer: it creates the zeroed buffer
    and, every coefficient being 0, computes nothing else. *)
Lemma GMM_new_empty (m : Mat R) :
  mat_empty m = true ->
  GMM_new m = Ok (mkGMM zero_model (fun _ _ _ => 0) (fun _ => 0) (fun _ _ => 0)
                        (fun _ _ _ => 0) (fun _ => 0%Z) 0%Z).
Proof.
  intros He. unfold GMM_new. rewrite He. cbn [bind].
  change (zrange componentsCount) with [0; 1; 2; 3; 4]%Z.
  cbn [forM]. unfold coefs, mat_at, mat_create_fill.
  repeat (cbn [bind model elems]; rewrite Rgtb_0_0). reflexivity.
Qed.

(** The argument error of the constructor is that of the shape test on a
    buffer that is not empty; a buffer that passes is kept. *)
Lemma GMM_new_outcome (m : Mat R) :
  (GMM_new m = Err (BadArg model_msg) <-> mat_empty m = false /\ wrong_shape m = true)
  /\ (forall g, GMM_new m = Ok g -> mat_empty m = false -> model g = m).
Proof.
  unfold GMM_new. fold (wrong_shape m).
  destruct (mat_empty m) eqn:He.
  - cbn [bind]. split; [| discriminate].
    split; [| intros [H _]; discriminate].
    intros H.
    match type of H with forM ?l ?b ?g = _ =>
      destruct (GMM_new_loop_outcome l g) as [[g' [Hg _]] | Hg] end;
      rewrite Hg in H; discriminate.
  - destruct (wrong_shape m) eqn:Hw; cbn [bind].
    + split; [split; auto | discriminate].
    + split.
      * split; [| intros [_ H]; discriminate].
        intros H.
        match type of H with forM ?l ?b ?g = _ =>
          destruct (GMM_new_loop_outcome l g) as [[g' [Hg _]] | Hg] end;
          rewrite Hg in H; discriminate.
      * intros g Hg _.
        match type of Hg with forM ?l ?b ?g0 = _ =>
          destruct (GMM_new_loop_outcome l g0) as [[g' [Hg' Hm]] | Hg'] end;
          rewrite Hg' in Hg; [| discriminate].
        injection Hg as <-. exact Hm.
Qed.

End Model_buffers.

(** ** Learning a component from one black sample *)

Section Learning_one_sample.
Local Open Scope R_scope.

Lemma epsilon_small : epsilon < 1 / 1000000.
Proof.
  unfold epsilon.
  assert (Hx : 1000000 < IZR (2 ^ 52)) by (apply IZR_lt; reflexivity).
  assert (Hi : / IZR (2 ^ 52) * IZR (2 ^ 52) = 1) by (apply Rinv_l; lra).
  assert (0 < / IZR (2 ^ 52)) by (apply Rinv_0_lt_compat; lra).
  nra.
Qed.

Lemma nine_cases (k : Z) :
  (0 <= k < 9)%Z ->
  k = 0%Z \/ k = 1%Z \/ k = 2%Z \/ k = 3%Z \/ k = 4%Z \/ k = 5%Z \/ k = 6%Z
  \/ k = 7%Z \/ k = 8%Z.
Proof. lia. Qed.

Lemma learnComponent_one_black (g : GMM) :
  one_black_sample g ->
  coefs (learnComponent g 0) 0 = 1
  /\ (forall k, (0 <= k < 9)%Z -> cov (learnComponent g 0) (9 * 0 + k) = 0)
  /\ sampleCounts (learnComponent g 0) = sampleCounts g
  /\ cols (model (learnComponent g 0)) = cols (model g).
Proof.
  destruct g as [m ic cd sm pr sc tot]. unfold one_black_sample.
  cbn [sampleCounts totalSampleCount sums prods].
  intros [Hn [Ht [_ [Hs Hp]]]]. split; [| split; [| split]].
  - reval. rewrite Hn, Ht. lra.
  - intros k Hk.
    destruct (nine_cases k Hk) as [-> | [-> | [-> | [-> | [-> | [-> | [-> | [-> | ->]]]]]]]];
      reval; rewrite ?Hn, ?Ht, ?Hs, ?Hp by lia; lra.
  - reflexivity.
  - reflexivity.
Qed.

Lemma addWhiteNoise_one_black (g : GMM) :
  one_black_sample g ->
  exists gb, addWhiteNoise (learnComponent g 0) 0 = gb
             /\ coefs gb 0 = 1
             /\ det3 (covOf gb 0) = 1 / 1000000
             /\ sampleCounts gb = sampleCounts g
             /\ cols (model gb) = cols (model g).
Proof.
  intros Hg. destruct (learnComponent_one_black g Hg) as [Hc [Hcov [Hsc Hcols]]].
  unfold addWhiteNoise. cbv zeta.
  assert (Hd : det3 (fun i => cov (learnComponent g 0) (9 * 0 + i)) = 0).
  { unfold det3. rewrite !Hcov by lia. lra. }
  rewrite Hd. rewrite Rleb_true by (pose proof epsilon_pos; lra).
  rewrite !Hcov by lia.
  eexists. split; [reflexivity |].
  revert Hc Hcov Hsc Hcols. generalize (learnComponent g 0). intros ga Hc Hcov Hsc Hcols.
  destruct ga as [m ic cd sm pr sc tot].
  unfold coefs, cov, mat_at in *. cbn [model elems sampleCounts cols] in *.
  split; [exact Hc |]. split; [| split; [exact Hsc | exact Hcols]].
  unfold det3, covOf, cov, set_cov, with_model, mat_at, mat_set. cbn [model elems].
  assert (H1 := Hcov 1%Z ltac:(lia)). assert (H2 := Hcov 2%Z ltac:(lia)).
  assert (H3 := Hcov 3%Z ltac:(lia)). assert (H5 := Hcov 5%Z ltac:(lia)).
  assert (H6 := Hcov 6%Z ltac:(lia)). assert (H7 := Hcov 7%Z ltac:(lia)).
  cbn in H1, H2, H3, H5, H6, H7 |- *.
  rewrite ?H1, ?H2, ?H3, ?H5, ?H6, ?H7. lra.
Qed.

Lemma calcInverseCovAndDeterm_keeps (g g' : GMM) (ci : Z) :
  calcInverseCovAndDeterm g ci = Ok g' ->
  model g' = model g /\ sampleCounts g' = sampleCounts g.
Proof.
  unfold calcInverseCovAndDeterm. cbv zeta.
  destruct (Rgtb (coefs g ci) 0); [| intros H; injection H as <-; auto].
  destruct (Rgtb _ epsilon); cbn [CV_Assert bind]; [| discriminate].
  intros H. injection H as <-. auto.
Qed.

(** [endLearning] on such a model succeeds, by way of the white noise, and
    gives weight 1 to component 0. *)
Lemma endLearning_one_black (g : GMM) :
  one_black_sample g ->
  exists g1, endLearning g = Ok g1
             /\ coefs g1 0 = 1
             /\ cols (model g1) = cols (model g).
Proof.
  intros Hg. pose proof Hg as [Hn [_ [Hz _]]].
  destruct (addWhiteNoise_one_black g Hg) as [gb [Hgb [Hc [Hd [Hsc Hcols]]]]].
  destruct (calcInverseCovAndDeterm_derived gb 0) as [g0 [Hg0 [Hm0 _]]].
  { lra. }
  { rewrite Hd. pose proof epsilon_small. lra. }
  destruct (calcInverseCovAndDeterm_keeps _ _ _ Hg0) as [_ Hsc0].
  unfold endLearning. change (zrange componentsCount) with [0; 1; 2; 3; 4]%Z.
  cbn [forM]. unfold endLearning_ci at 1. cbv zeta. rewrite Hn. cbn [Z.eqb].
  rewrite Hgb, Hg0. cbn [bind].
  assert (Hstep : forall ga ci, sampleCounts ga ci = 0%Z ->
            endLearning_ci ga ci = Ok (set_coefs ga ci 0)).
  { intros ga ci H. unfold endLearning_ci. cbv zeta. now rewrite H. }
  assert (Hsc' : forall ci, (1 <= ci < 5)%Z -> sampleCounts g0 ci = 0%Z).
  { intros ci Hci. rewrite Hsc0, Hsc. now apply Hz. }
  rewrite Hstep by (apply Hsc'; lia). cbn [bind].
  rewrite Hstep by (cbn [set_coefs with_model sampleCounts]; apply Hsc'; lia). cbn [bind].
  rewrite Hstep by (cbn [set_coefs with_model sampleCounts]; apply Hsc'; lia). cbn [bind].
  rewrite Hstep by (cbn [set_coefs with_model sampleCounts]; apply Hsc'; lia).
  eexists. split; [reflexivity |].
  unfold coefs, set_coefs, with_model, mat_at, mat_set in *. cbn [model elems cols] in *.
  rewrite Hm0. split; [exact Hc | exact Hcols].
Qed.

End Learning_one_sample.

(** ** The argument error of the constructor is raised nowhere else *)

Create HintDb merr.

Section No_model_error.

Lemma me_bind {A B} (m : res A) (f : A -> res B) :
  model_error m = false -> (forall a, model_error (f a) = false) ->
  model_error (bind m f) = false.
Proof. destruct m as [a | e]; simpl; intros H1 H2; [apply H2 | exact H1]. Qed.

Lemma me_forM {A S} (body : S -> A -> res S) (l : list A) :
  (forall s a, model_error (body s a) = false) ->
  forall s, model_error (forM l body s) = false.
Proof.
  intros H. induction l as [| a l IH]; intros s; [reflexivity |].
  cbn [forM]. apply me_bind; auto.
Qed.

Ltac me_step :=
  match goal with
  | |- model_error (Ok _) = false => reflexivity
  | |- model_error (Err _) = false => reflexivity
  | |- model_error (bind _ _) = false => apply me_bind; [| intros]
  | |- model_error (forM _ _ _) = false => apply me_forM; intros
  | |- model_error (if ?b then _ else _) = false => destruct b
  | |- model_error (match ?x with _ => _ end) = false => destruct x
  | |- model_error (let _ := _ in _) = false => cbv zeta
  end.
Ltac me := repeat (first [me_step | solve [auto with merr]]).



Lemma me_CV_Assert b : model_error (CV_Assert b) = false.
Proof. now destruct b. Qed.
#[local] Hint Resolve me_CV_Assert : merr.

Lemma me_neg_log v : model_error (neg_log v) = false.
Proof. unfold neg_log. me. Qed.
#[local] Hint Resolve me_neg_log : merr.

Lemma me_calcInverse g ci : model_error (calcInverseCovAndDeterm g ci) = false.
Proof. unfold calcInverseCovAndDeterm. me. Qed.
#[local] Hint Resolve me_calcInverse : merr.

Lemma me_GMM_call_ci g ci c : model_error (GMM_call_ci g ci c) = false.
Proof. unfold GMM_call_ci. me. Qed.
#[local] Hint Resolve me_GMM_call_ci : merr.

Lemma me_GMM_call g c : model_error (GMM_call g c) = false.
Proof. unfold GMM_call. me. Qed.
#[local] Hint Resolve me_GMM_call : merr.

Lemma me_whichComponent g c : model_error (whichComponent g c) = false.
Proof. unfold whichComponent. me. Qed.
#[local] Hint Resolve me_whichComponent : merr.

Lemma me_endLearning g : model_error (endLearning g) = false.
Proof. unfold endLearning, endLearning_ci. me. Qed.
#[local] Hint Resolve me_endLearning : merr.

Lemma me_checkMask img mask : model_error (checkMask img mask) = false.
Proof. unfold checkMask. me. Qed.
#[local] Hint Resolve me_checkMask : merr.

Lemma me_initMaskWithRect sz r : model_error (initMaskWithRect sz r) = false.
Proof. unfold initMaskWithRect, roi_setTo. me. Qed.
#[local] Hint Resolve me_initMaskWithRect : merr.

Lemma me_initGMMs km img mask b f : model_error (initGMMs km img mask b f) = false.
Proof. unfold initGMMs. me. Qed.
#[local] Hint Resolve me_initGMMs : merr.

Lemma me_assign img mask b f c : model_error (assignGMMsComponents img mask b f c) = false.
Proof. unfold assignGMMsComponents. me. Qed.
#[local] Hint Resolve me_assign : merr.

Lemma me_learn img mask c b f : model_error (learnGMMs img mask c b f) = false.
Proof. unfold learnGMMs. me. Qed.
#[local] Hint Resolve me_learn : merr.

Lemma me_getSinkW p img mask b f lam : model_error (getSinkW p img mask b f lam) = false.
Proof. unfold getSinkW. me. Qed.
Lemma me_getSourceW p img mask b f lam : model_error (getSourceW p img mask b f lam) = false.
Proof. unfold getSourceW. me. Qed.
#[local] Hint Resolve me_getSinkW me_getSourceW : merr.

Lemma me_pendingLoop fuel p img nw v : forall i s, model_error (pendingLoop fuel p img nw v i s) = false.
Proof.
  induction fuel as [| fuel IH]; intros i s; cbn [pendingLoop]; [reflexivity |].
  unfold vec_at. me.
Qed.
#[local] Hint Resolve me_pendingLoop : merr.

Lemma me_probableWeights c b f : model_error (probableWeights c b f) = false.
Proof. unfold probableWeights. me. Qed.
#[local] Hint Resolve me_probableWeights : merr.

Lemma me_tWeights l c b f lam : model_error (tWeights l c b f lam) = false.
Proof. unfold tWeights. me. Qed.
#[local] Hint Resolve me_tWeights : merr.

Lemma me_initSigmaW img mask b f sw nw lam : model_error (initSigmaW img mask b f sw nw lam) = false.
Proof. unfold initSigmaW. me. Qed.
#[local] Hint Resolve me_initSigmaW : merr.

Lemma me_dualCondition p img nw g v2p sink source ws wt cn si :
  model_error (dualCondition p img nw g v2p sink source ws wt cn si) = false.
Proof. unfold dualCondition, slimSumW, getSinkPendingSumW, getSourcePendingSumW. me. Qed.
#[local] Hint Resolve me_dualCondition : merr.

Lemma me_joinLoop nv s half dual idx :
  (forall cn si, model_error (dual cn si) = false) ->
  model_error (joinLoop nv s half dual idx) = false.
Proof.
  intros H. induction idx as [| i idx IH]; cbn [joinLoop]; [reflexivity |]. me.
Qed.

Lemma me_searchJoin p img sw p2v nw g v2p mask b f lam sink source :
  model_error (searchJoin p img sw p2v nw g v2p mask b f lam sink source) = false.
Proof. unfold searchJoin. me. apply me_joinLoop. intros. auto with merr. Qed.
#[local] Hint Resolve me_searchJoin : merr.

Lemma me_slimStep img mask b f lam nw sw st p :
  model_error (slimStep img mask b f lam nw sw st p) = false.
Proof. unfold slimStep, classifyPixel, addVtx. me. Qed.
#[local] Hint Resolve me_slimStep : merr.

Lemma me_construct_slim img mask b f lam nw p2v :
  model_error (constructGCGraph_slim img mask b f lam nw p2v) = false.
Proof. unfold constructGCGraph_slim. me. Qed.
Lemma me_construct img mask b f lam nw :
  model_error (constructGCGraph img mask b f lam nw) = false.
Proof. unfold constructGCGraph, addVtx. me. Qed.
#[local] Hint Resolve me_construct_slim me_construct : merr.

Lemma me_iteration_slim inSrc img nw st : model_error (iteration_slim inSrc img nw st) = false.
Proof. unfold iteration_slim. destruct st as [[[[m b] f] c] p]. me. Qed.
Lemma me_iteration inSrc img nw st : model_error (iteration inSrc img nw st) = false.
Proof. unfold iteration. destruct st as [[[[m b] f] c] p]. me. Qed.
#[local] Hint Resolve me_iteration_slim me_iteration : merr.

Lemma me_grabCut_with km iter img mask rect bgd fgd iterCount mode :
  (forall img nw st, model_error (iter img nw st) = false) ->
  mat_empty bgd = true -> mat_empty fgd = true ->
  model_error (grabCut_with km iter img mask rect bgd fgd iterCount mode) = false.
Proof.
  intros Hiter Hb Hf. unfold grabCut_with, initialise.
  rewrite (GMM_new_empty bgd Hb), (GMM_new_empty fgd Hf). me.
Qed.
End No_model_error.

(** ** Runs of the entry point on a 1 x 2 image *)

Section Entry_runs.
Local Open Scope R_scope.

Lemma GMM_new_zero : GMM_new zero_model = Ok zero_GMM.
Proof.
  unfold GMM_new. change (mat_empty zero_model) with false. cbv iota.
  change (negb (mtype zero_model =? CV_64FC1) || negb (rows zero_model =? 1)
          || negb (cols zero_model =? modelSize * componentsCount))%Z with false.
  cbv iota. cbn [bind].
  change (zrange componentsCount) with [0; 1; 2; 3; 4]%Z.
  cbn [forM]. unfold coefs, mat_at, zero_model, mat_create_fill.
  repeat (cbn [bind model elems]; rewrite Rgtb_0_0). reflexivity.
Qed.

Lemma learnt_one_state : one_black_sample learnt_one.
Proof.
  unfold one_black_sample. repeat split.
  - intros ci Hci. assert (Hc : (ci = 1 \/ ci = 2 \/ ci = 3 \/ ci = 4)%Z) by lia.
    destruct Hc as [-> | [-> | [-> | ->]]]; reflexivity.
  - intros j Hj. assert (Hc : (j = 0 \/ j = 1 \/ j = 2)%Z) by lia.
    destruct Hc as [-> | [-> | ->]]; reval; lra.
  - intros i j Hi Hj. assert (Hc : (i = 0 \/ i = 1 \/ i = 2)%Z) by lia.
    assert (Hc' : (j = 0 \/ j = 1 \/ j = 2)%Z) by lia.
    destruct Hc as [-> | [-> | ->]]; destruct Hc' as [-> | [-> | ->]]; reval; lra.
Qed.

Lemma initGMMs_1x2 :
  initGMMs kmeans_one_cluster img_1x2_black mask_1x2_hard zero_GMM zero_GMM
  = (do b <- endLearning learnt_one; do f <- endLearning learnt_one; Ok (b, f)).
Proof. reflexivity. Qed.

Lemma whichComponent_zero (c : Vec3d) : whichComponent zero_GMM c = Ok 0%Z.
Proof.
  unfold whichComponent. change (zrange componentsCount) with [0; 1; 2; 3; 4]%Z.
  cbn [forM]. unfold GMM_call_ci, coefs, mat_at, zero_GMM, zero_model, mat_create_fill.
  cbn [model elems]. rewrite !Rgtb_0_0.
  repeat (progress cbn [bind snd]; rewrite ?Rgtb_0_0). reflexivity.
Qed.

Lemma assign_1x2 :
  assignGMMsComponents img_1x2_black mask_1x2_hard zero_GMM zero_GMM
    (mat_create_fill 1 2 CV_32SC1 0%Z) = Ok comp_1x2.
Proof.
  unfold assignGMMsComponents.
  change (raster (rows img_1x2_black) (cols img_1x2_black))
    with [mkPoint 0 0; mkPoint 1 0].
  cbn [forM]. cbv beta zeta.
  change (is_bgd_like (mat_atP mask_1x2_hard (mkPoint 0 0))) with true.
  change (is_bgd_like (mat_atP mask_1x2_hard (mkPoint 1 0))) with false.
  cbv iota. rewrite !whichComponent_zero. cbn [bind]. reflexivity.
Qed.

Lemma learn_1x2 :
  learnGMMs img_1x2_black mask_1x2_hard comp_1x2 zero_GMM zero_GMM
  = (do b <- endLearning learnt_one; do f <- endLearning learnt_one; Ok (b, f)).
Proof. reflexivity. Qed.

(** C6, counterexample.  Mode GC_EVAL, both model buffers empty, one
    iteration, on the 1 x 2 image labelled background, foreground: the call
    returns normally, the mask as it was, the buffers created (65 columns)
    and learnt. *)
Lemma eval_with_empty_models_returns :
  exists out,
    grabCut_slim kmeans_one_cluster solver_all_sink img_1x2_black mask_1x2_hard
                 no_rect empty_model empty_model 1 GC_EVAL = Ok out
    /\ mat_empty empty_model = true
    /\ out_mask out = mask_1x2_hard
    /\ cols (out_bgdModel out) = 65%Z /\ cols (out_fgdModel out) = 65%Z.
Proof.
  destruct (endLearning_one_black learnt_one learnt_one_state) as [g1 [Hg1 [_ Hcols]]].
  eexists. split; [| split; [| split; [| split]]].
  - unfold grabCut_slim, grabCut_with, initialise.
    change (mat_empty img_1x2_black) with false. cbv iota.
    change (negb (mtype img_1x2_black =? CV_8UC3)%Z) with false. cbv iota.
    rewrite (GMM_new_empty empty_model eq_refl). fold zero_GMM. cbn [bind].
    change ((GC_EVAL =? GC_INIT_WITH_RECT) || (GC_EVAL =? GC_INIT_WITH_MASK))%Z with false.
    cbv iota. change (1 <=? 0)%Z with false. cbv iota.
    change (GC_EVAL =? GC_EVAL)%Z with true. cbv iota.
    change (checkMask img_1x2_black mask_1x2_hard) with (Ok tt : res unit). cbn [bind].
    cbv zeta.
    generalize (calcNWeights img_1x2_black (calcBeta img_1x2_black) gamma). intros nw.
    change (zrange 1) with [0%Z]. cbn [forM]. unfold iteration_slim.
    change (mat_create_fill (rows img_1x2_black) (cols img_1x2_black) CV_32SC1 0%Z)
      with (mat_create_fill 1 2 CV_32SC1 0%Z).
    rewrite assign_1x2. cbn [bind]. rewrite learn_1x2, Hg1. cbn [bind].
    destruct nw as [[? ? ? l] [? ? ? ul] [? ? ? u] [? ? ? ur]].
    reval. reflexivity.
  - reflexivity.
  - reflexivity.
  - cbn. exact Hcols.
  - cbn. exact Hcols.
Qed.

(** C6 (as amended).  An empty model buffer is accepted: the constructor
    replaces it by the zeroed 1 x 65 buffer, and its argument error is
    raised exactly for a buffer that is not empty and has the wrong type or
    shape.  With two empty buffers neither entry point ends in that error,
    whatever the image, the mask, the mode and the number of iterations;
    with a valid image, a mode other than the two INIT modes and no
    iteration, the entry point returns normally: the mask as it was, both
    buffers zero-filled. *)
Theorem empty_model_buffer_is_accepted
    (kmeans : list Vec3d -> Z -> list Z) (inSrc : GCGraph -> Z -> bool)
    (img : Mat Vec3b) (mask : Mat Z) (rect : Rect) (bgdModel fgdModel : Mat R)
    (iterCount mode : Z)
    (Hbgd : mat_empty bgdModel = true) (Hfgd : mat_empty fgdModel = true) :
  GMM_new bgdModel = Ok zero_GMM
  /\ model zero_GMM = zero_model
  /\ (forall m, GMM_new m = Err (BadArg model_msg)
                <-> mat_empty m = false /\ wrong_shape m = true)
  /\ model_error (grabCut_slim kmeans inSrc img mask rect bgdModel fgdModel
                               iterCount mode) = false
  /\ model_error (grabCut kmeans inSrc img mask rect bgdModel fgdModel
                          iterCount mode) = false
  /\ (mat_empty img = false -> mtype img = CV_8UC3 -> (iterCount <= 0)%Z ->
      mode <> GC_INIT_WITH_RECT -> mode <> GC_INIT_WITH_MASK ->
      grabCut_slim kmeans inSrc img mask rect bgdModel fgdModel iterCount mode
      = Ok (mkOutputs mask zero_model zero_model)).
Proof.
  split; [exact (GMM_new_empty bgdModel Hbgd) |]. split; [reflexivity |].
  split; [intros m; apply (proj1 (GMM_new_outcome m)) |].
  split; [apply me_grabCut_with; auto using me_iteration_slim |].
  split; [apply me_grabCut_with; auto using me_iteration |].
  intros Hi Ht Hit Hr Hm.
  unfold grabCut_slim, grabCut_with, initialise.
  rewrite Hi, Ht, Z.eqb_refl. cbn [negb].
  rewrite (GMM_new_empty bgdModel Hbgd), (GMM_new_empty fgdModel Hfgd). cbn [bind].
  apply Z.eqb_neq in Hr. apply Z.eqb_neq in Hm. rewrite Hr, Hm. cbn [orb].
  apply Z.leb_le in Hit. rewrite Hit. reflexivity.
Qed.

Lemma empty_model_buffer_is_accepted_witness :
  mat_empty empty_model = true
  /\ grabCut_slim kmeans_one_cluster solver_all_sink img_1x2_black mask_1x2_hard
                  no_rect empty_model empty_model 0 GC_EVAL
     = Ok (mkOutputs mask_1x2_hard zero_model zero_model).
Proof.
  split; [reflexivity |].
  apply (empty_model_buffer_is_accepted kmeans_one_cluster solver_all_sink
           img_1x2_black mask_1x2_hard no_rect empty_model empty_model 0 GC_EVAL
           eq_refl eq_refl);
    first [reflexivity | discriminate | lia].
Defined.

(** C7, counterexample.  Mode GC_INIT_WITH_MASK with iterCount = 0, both
    buffers zeroed and of the right shape: the call returns normally and
    the first weight of the background model, 0 before, is 1 after. *)
Lemma zero_iterations_write_the_models :
  exists out,
    grabCut_slim kmeans_one_cluster solver_all_sink img_1x2_black mask_1x2_hard
                 no_rect zero_model zero_model 0 GC_INIT_WITH_MASK = Ok out
    /\ mat_at zero_model 0 0 = 0
    /\ mat_at (out_bgdModel out) 0 0 = 1
    /\ out_bgdModel out <> zero_model.
Proof.
  destruct (endLearning_one_black learnt_one learnt_one_state) as [g1 [Hg1 [Hc _]]].
  assert (Hrun : grabCut_slim kmeans_one_cluster solver_all_sink img_1x2_black
                   mask_1x2_hard no_rect zero_model zero_model 0 GC_INIT_WITH_MASK
                 = Ok (outputs mask_1x2_hard g1 g1)).
  { unfold grabCut_slim, grabCut_with, initialise.
    change (mat_empty img_1x2_black) with false. cbv iota.
    change (negb (mtype img_1x2_black =? CV_8UC3)%Z) with false. cbv iota.
    rewrite GMM_new_zero. cbn [bind].
    change ((GC_INIT_WITH_MASK =? GC_INIT_WITH_RECT)
            || (GC_INIT_WITH_MASK =? GC_INIT_WITH_MASK))%Z with true.
    cbv iota. change (GC_INIT_WITH_MASK =? GC_INIT_WITH_RECT)%Z with false. cbv iota.
    change (checkMask img_1x2_black mask_1x2_hard) with (Ok tt : res unit). cbn [bind].
    rewrite initGMMs_1x2, Hg1. cbn [bind]. reflexivity. }
  exists (outputs mask_1x2_hard g1 g1). split; [exact Hrun |].
  split; [reflexivity |]. split; [exact Hc |].
  intros E. cbn [outputs out_bgdModel] in E. unfold coefs in Hc. rewrite E in Hc.
  cbv [mat_at zero_model mat_create_fill elems] in Hc. lra.
Qed.

(** C7 (as amended).  With iterCount <= 0 both entry points return after
    the initialisation and before any iteration work.  What they have done
    by then depends on the mode.  In a mode other than the two INIT modes,
    with a valid image and model buffers that the constructor takes as they
    are, nothing is changed: the mask and the two buffers are returned as
    given.  In the two INIT modes the mask is the one built from the
    rectangle or the given one after validation, and the buffers hold the
    models that [initGMMs] has learnt from that mask. *)
Theorem zero_iterations_return_after_initialisation
    (kmeans : list Vec3d -> Z -> list Z) (inSrc : GCGraph -> Z -> bool)
    (img : Mat Vec3b) (mask : Mat Z) (rect : Rect) (bgdModel fgdModel : Mat R)
    (iterCount mode : Z) (Hiter : (iterCount <= 0)%Z) :
  grabCut_slim kmeans inSrc img mask rect bgdModel fgdModel iterCount mode
  = (do '(mask', gb, gf) <- initialise kmeans img mask rect bgdModel fgdModel mode;
     Ok (outputs mask' gb gf))
  /\ grabCut kmeans inSrc img mask rect bgdModel fgdModel iterCount mode
     = (do '(mask', gb, gf) <- initialise kmeans img mask rect bgdModel fgdModel mode;
        Ok (outputs mask' gb gf))
  /\ (mode <> GC_INIT_WITH_RECT -> mode <> GC_INIT_WITH_MASK ->
      mat_empty img = false -> mtype img = CV_8UC3 ->
      mat_empty bgdModel = false -> mat_empty fgdModel = false ->
      forall gb gf, GMM_new bgdModel = Ok gb -> GMM_new fgdModel = Ok gf ->
        grabCut_slim kmeans inSrc img mask rect bgdModel fgdModel iterCount mode
        = Ok (mkOutputs mask bgdModel fgdModel))
  /\ (mode = GC_INIT_WITH_RECT \/ mode = GC_INIT_WITH_MASK ->
      forall out,
        grabCut_slim kmeans inSrc img mask rect bgdModel fgdModel iterCount mode = Ok out ->
        exists gb gf mask' gb' gf',
          GMM_new bgdModel = Ok gb /\ GMM_new fgdModel = Ok gf
          /\ (mode = GC_INIT_WITH_RECT -> initMaskWithRect (mat_size img) rect = Ok mask')
          /\ (mode = GC_INIT_WITH_MASK -> checkMask img mask = Ok tt /\ mask' = mask)
          /\ initGMMs kmeans img mask' gb gf = Ok (gb', gf')
          /\ out = mkOutputs mask' (model gb') (model gf')).
Proof.
  assert (Hrun : forall iter,
            grabCut_with kmeans iter img mask rect bgdModel fgdModel iterCount mode
            = (do '(mask', gb, gf) <- initialise kmeans img mask rect bgdModel fgdModel mode;
               Ok (outputs mask' gb gf))).
  { intros iter. unfold grabCut_with.
    destruct (initialise kmeans img mask rect bgdModel fgdModel mode)
      as [[[mask' gb] gf] | e]; cbn [bind]; [| reflexivity].
    apply Z.leb_le in Hiter. now rewrite Hiter. }
  split; [apply Hrun |]. split; [apply Hrun |]. split.
  - intros Hr Hm Hi Ht Hb Hf gb gf Hgb Hgf.
    unfold grabCut_slim. rewrite Hrun. unfold initialise.
    rewrite Hi, Ht, Z.eqb_refl. cbn [negb]. rewrite Hgb, Hgf. cbn [bind].
    apply Z.eqb_neq in Hr. apply Z.eqb_neq in Hm. rewrite Hr, Hm. cbn [orb bind].
    unfold outputs.
    rewrite (proj2 (GMM_new_outcome bgdModel) gb Hgb Hb).
    rewrite (proj2 (GMM_new_outcome fgdModel) gf Hgf Hf). reflexivity.
  - intros Hmode out Hout. unfold grabCut_slim in Hout. rewrite Hrun in Hout.
    apply bind_Ok in Hout. destruct Hout as [[[mask' gb'] gf'] [Hinit Hout]].
    injection Hout as <-. unfold initialise in Hinit.
    destruct (mat_empty img); [discriminate |].
    destruct (negb (mtype img =? CV_8UC3)%Z); [discriminate |].
    apply bind_Ok in Hinit. destruct Hinit as [gb [Hgb Hinit]].
    apply bind_Ok in Hinit. destruct Hinit as [gf [Hgf Hinit]].
    exists gb, gf, mask', gb', gf'. split; [exact Hgb |]. split; [exact Hgf |].
    destruct Hmode as [-> | ->].
    + change ((GC_INIT_WITH_RECT =? GC_INIT_WITH_RECT)
              || (GC_INIT_WITH_RECT =? GC_INIT_WITH_MASK))%Z with true in Hinit.
      change (GC_INIT_WITH_RECT =? GC_INIT_WITH_RECT)%Z with true in Hinit. cbv iota in Hinit.
      apply bind_Ok in Hinit. destruct Hinit as [m1 [Hm1 Hinit]].
      apply bind_Ok in Hinit. destruct Hinit as [[b1 f1] [Hg Hinit]].
      injection Hinit as <- <- <-.
      split; [intros _; exact Hm1 |]. split; [discriminate |]. split; [exact Hg | reflexivity].
    + change ((GC_INIT_WITH_MASK =? GC_INIT_WITH_RECT)
              || (GC_INIT_WITH_MASK =? GC_INIT_WITH_MASK))%Z with true in Hinit.
      change (GC_INIT_WITH_MASK =? GC_INIT_WITH_RECT)%Z with false in Hinit. cbv iota in Hinit.
      apply bind_Ok in Hinit. destruct Hinit as [m1 [Hm1 Hinit]].
      apply bind_Ok in Hinit. destruct Hinit as [[b1 f1] [Hg Hinit]].
      injection Hinit as <- <- <-.
      apply bind_Ok in Hm1. destruct Hm1 as [[] [Hck Hm1]]. injection Hm1 as <-.
      split; [discriminate |]. split; [intros _; auto |]. split; [exact Hg | reflexivity].
Qed.

End Entry_runs.

(** ** The weight of a component is not part of its value *)

Section Weights_left_out.
Local Open Scope R_scope.

Lemma sqrt_2pi3_gt_1 : 1 < sqrt ((2 * PI) ^ 3).
Proof.
  rewrite <- sqrt_1 at 1. apply sqrt_lt_1_alt.
  pose proof PI2_1 as H. unfold PI2 in H. cbn [pow]. split; [lra | nra].
Qed.

Lemma quad3_zero (M : Z -> Z -> R) (m0 m1 m2 : R) :
  m0 = 0 -> m1 = 0 -> m2 = 0 -> quad3 M (vsub black (m0, m1, m2)) = 0.
Proof. intros -> -> ->. unfold quad3, vsub, black. ring. Qed.

(** C5, counterexample.  The model with one active component of weight 1/2,
    mean 0 and identity covariance: at the mean, [operator()(0, color)]
    returns 1, which is neither 1/2 times the Gaussian density nor 1/2 times
    the value itself. *)
Lemma component_value_has_no_weight :
  exists g,
    GMM_new (model_single (1 / 2) 0 0 0) = Ok g
    /\ coefs g 0 = 1 / 2
    /\ GMM_call_ci g 0 black = Ok 1
    /\ coefs g 0 * gaussian3 (meanOf g 0) (covOf g 0) black < 1
    /\ Ok (coefs g 0 * gaussian3 (meanOf g 0) (covOf g 0) black) <> GMM_call_ci g 0 black.
Proof.
  destruct (model_single_GMM (1 / 2) 0 0 0 ltac:(lra)) as [g [Hg [Hm [Hreg [Hder _]]]]].
  assert (H0 : coefs g 0 = 1 / 2) by (unfold coefs; rewrite Hm; reflexivity).
  assert (Hr : (0 <= 0 < componentsCount)%Z) by (unfold componentsCount; lia).
  assert (Hpos : coefs g 0 > 0) by lra.
  pose proof (Hder 0%Z Hr Hpos) as Hd.
  assert (Hdet : det3 (covOf g 0) = 1).
  { unfold det3, covOf, cov. rewrite Hm. reval. lra. }
  assert (Hgauss : gaussian3 (meanOf g 0) (covOf g 0) black = / sqrt ((2 * PI) ^ 3)).
  { unfold gaussian3. rewrite Hdet, sqrt_1.
    rewrite quad3_zero by (unfold meanOf, mean; rewrite Hm; reflexivity).
    rewrite Rmult_0_r, exp_0. pose proof sqrt_2pi3_gt_1. field. lra. }
  assert (Hval : GMM_call_ci g 0 black = Ok 1).
  { rewrite GMM_call_ci_value by (intros _; now apply Hreg).
    rewrite componentValue_gaussian by (auto; lra). rewrite Hgauss.
    f_equal. pose proof sqrt_2pi3_gt_1. field. lra. }
  assert (Hlt : coefs g 0 * gaussian3 (meanOf g 0) (covOf g 0) black < 1).
  { rewrite H0, Hgauss. pose proof sqrt_2pi3_gt_1 as HK.
    assert (/ sqrt ((2 * PI) ^ 3) < / 1) by (apply Rinv_lt_contravar; lra).
    rewrite Rinv_1 in H. lra. }
  exists g. split; [exact Hg |]. split; [exact H0 |]. split; [exact Hval |].
  split; [exact Hlt |].
  rewrite Hval. intros E. injection E as E. lra.
Qed.

Lemma model_two_shaped : model_shaped model_two.
Proof. repeat split. Qed.

(** C9, counterexample.  The model with two components centred at the
    origin, weight 9/10 with identity covariance and weight 1/10 with
    covariance diag(1/4, 1, 1): at the origin the component values are 1 and
    2, and [whichComponent] returns 1, while the weighted density of
    component 0 is the larger. *)
Lemma whichComponent_ignores_the_weights :
  exists g,
    GMM_new model_two = Ok g
    /\ whichComponent g black = Ok 1%Z
    /\ coefs g 1 * gaussian3 (meanOf g 1) (covOf g 1) black
       < coefs g 0 * gaussian3 (meanOf g 0) (covOf g 0) black.
Proof.
  destruct (GMM_new_derived model_two model_two_shaped) as [g [Hg [Hm Hd]]].
  { intros ci Hci Hpos. apply range5_cases in Hci.
    destruct Hci as [-> | [-> | [-> | [-> | ->]]]]; reval_in Hpos; try lra;
      reval; pose proof epsilon_lt_1; pose proof epsilon_small; lra. }
  assert (Hreg : components_regular g) by (intros ci Hci Hpos; now apply Hd).
  assert (Hc0 : coefs g 0 = 9 / 10) by (unfold coefs; rewrite Hm; reflexivity).
  assert (Hc1 : coefs g 1 = 1 / 10) by (unfold coefs; rewrite Hm; reflexivity).
  assert (Hcz : forall ci, ci = 2%Z \/ ci = 3%Z \/ ci = 4%Z -> coefs g ci = 0).
  { intros ci [-> | [-> | ->]]; unfold coefs; rewrite Hm; reflexivity. }
  assert (Hr0 : (0 <= 0 < componentsCount)%Z) by (unfold componentsCount; lia).
  assert (Hr1 : (0 <= 1 < componentsCount)%Z) by (unfold componentsCount; lia).
  destruct (Hd 0%Z Hr0 ltac:(lra)) as [[Hcd0 _] _].
  destruct (Hd 1%Z Hr1 ltac:(lra)) as [[Hcd1 _] _].
  assert (Hdet0 : det3 (covOf g 0) = 1).
  { unfold det3, covOf, cov. rewrite Hm. reval. lra. }
  assert (Hdet1 : det3 (covOf g 1) = 1 / 4).
  { unfold det3, covOf, cov. rewrite Hm. reval. lra. }
  assert (Hsq : sqrt (1 / 4) = 1 / 2) by (apply sqrt_lem_1; lra).
  assert (Hq : forall M ci, (0 <= ci < componentsCount)%Z ->
            quad3 M (vsub black (meanOf g ci 0%Z, meanOf g ci 1%Z, meanOf g ci 2%Z)) = 0).
  { intros M ci Hci. apply range5_cases in Hci.
    destruct Hci as [-> | [-> | [-> | [-> | ->]]]];
      apply quad3_zero; unfold meanOf, mean; rewrite Hm; reflexivity. }
  assert (Hv0 : componentValue g 0 black = 1).
  { unfold componentValue. rewrite Hc0, Rgtb_true by lra.
    rewrite Hq by exact Hr0. rewrite Hcd0, Hdet0, sqrt_1, Rmult_0_r, exp_0. lra. }
  assert (Hv1 : componentValue g 1 black = 2).
  { unfold componentValue. rewrite Hc1, Rgtb_true by lra.
    rewrite Hq by exact Hr1. rewrite Hcd1, Hdet1, Hsq, Rmult_0_r, exp_0. lra. }
  assert (Hvz : forall ci, ci = 2%Z \/ ci = 3%Z \/ ci = 4%Z -> componentValue g ci black = 0).
  { intros ci Hci. unfold componentValue. rewrite (Hcz ci Hci), Rgtb_0_0. reflexivity. }
  exists g. split; [exact Hg |]. split.
  - destruct (whichComponent_first_largest g black Hreg) as [k [Hk [Hrange [Hmax _]]]].
    rewrite Hk. f_equal. pose proof (Hmax 1%Z Hr1) as H1. rewrite Hv1 in H1.
    apply range5_cases in Hrange.
    destruct Hrange as [-> | [-> | [-> | [-> | ->]]]]; try reflexivity;
      [rewrite Hv0 in H1 | rewrite Hvz in H1 by auto ..]; lra.
  - unfold gaussian3. rewrite !(Hq _ _ Hr0), !(Hq _ _ Hr1).
    rewrite Hdet0, Hdet1, Hsq, sqrt_1, Hc0, Hc1, Rmult_0_r, exp_0.
    pose proof sqrt_2pi3_gt_1 as HK.
    assert (Hi : 0 < / sqrt ((2 * PI) ^ 3)) by (apply Rinv_0_lt_compat; lra).
    replace (/ (sqrt ((2 * PI) ^ 3) * (1 / 2))) with (2 * / sqrt ((2 * PI) ^ 3))
      by (field; lra).
    replace (/ (sqrt ((2 * PI) ^ 3) * 1)) with (/ sqrt ((2 * PI) ^ 3)) by (field; lra).
    lra.
Qed.

End Weights_left_out.

(** ** The statements at concrete inputs *)

Section Instances.
Local Open Scope R_scope.

Lemma unit_GMM_regular : components_regular unit_GMM.
Proof.
  intros ci Hci Hpos. apply range5_cases in Hci.
  destruct Hci as [-> | [-> | [-> | [-> | ->]]]]; reval_in Hpos; try lra.
  reval. pose proof epsilon_lt_1. lra.
Qed.

Lemma unit_GMM_derived (cj : Z) :
  (0 <= cj < componentsCount)%Z -> coefs unit_GMM cj > 0 -> derived_ok unit_GMM cj.
Proof.
  intros Hci Hpos. apply range5_cases in Hci.
  destruct Hci as [-> | [-> | [-> | [-> | ->]]]]; reval_in Hpos; try lra.
  split.
  - reval. lra.
  - intros i j Hi Hj.
    assert (Ei : (i = 0 \/ i = 1 \/ i = 2)%Z) by lia.
    assert (Ej : (j = 0 \/ j = 1 \/ j = 2)%Z) by lia.
    destruct Ei as [-> | [-> | ->]]; destruct Ej as [-> | [-> | ->]]; reval; field; lra.
Qed.

Lemma hard_labels_preserved_witness :
  (mat_at mask_1x2_hard 0 0 = GC_BGD \/ mat_at mask_1x2_hard 0 0 = GC_FGD)
  /\ forall graph ptx,
       mat_at (estimateSegmentation_slim solver_all_sink graph mask_1x2_hard ptx) 0 0
       = mat_at mask_1x2_hard 0 0.
Proof.
  split; [left; reflexivity |].
  exact (proj1 (hard_labels_preserved solver_all_sink img_1x2_black (nw_zero 1 2)
                  mask_1x2_hard zero_GMM zero_GMM comp_1x2 comp_1x2 0 0
                  (or_introl eq_refl))).
Defined.

Lemma searchJoin_strict_thresholds_witness :
  exists gb gf sigmaW st,
    GMM_new (model_single 1 8 4 0) = Ok gb
    /\ GMM_new (model_single 1 8 0 0) = Ok gf
    /\ initSigmaW img_1x3 mask_1x3 gb gf (mat_create_fill 1 3 CV_64FC1 0) nw_1x3 lambda
       = Ok sigmaW
    /\ slimStep img_1x3 mask_1x3 gb gf lambda nw_1x3 sigmaW
         (slimInit img_1x3 (mat_create_fill 1 3 CV_32SC1 0%Z)) (mkPoint 0 0) = Ok st
    /\ searchJoin (mkPoint 1 0) img_1x3 sigmaW (pxl2Vtx st) nw_1x3 (graph st)
         (Vtx2pxl st) mask_1x3 gb gf lambda (sinkToPxl st) (sourceToPxl st)
       = Ok GC_JNT_BGD.
Proof.
  destruct models_1x3 as [gb [gf [Hgb [Hgf [HpwP [Hpw [Hs Ht]]]]]]].
  exists gb, gf. do 2 eexists.
  split; [exact Hgb |]. split; [exact Hgf |]. split; [| split].
  - unfold initSigmaW, tWeights. rewrite raster_1x3. cbn [forM]. cbv beta zeta.
    rewrite !Hpw. reval. reflexivity.
  - reflexivity.
  - match goal with
    | |- searchJoin ?p ?img ?sw ?pv ?nw ?g ?v ?m ?b ?f ?l ?sk ?sr = _ =>
        refine (proj1 (proj2 (proj2 (searchJoin_strict_thresholds
                  p img sw pv nw g v m b f l sk sr 32 40 Hs Ht))) _ _ 0%Z _ _ _)
    end; [reval; lra | reval; lra | lia | intros j Hj; lia |].
    split; [reval; discriminate |].
    right. split; [reval; lra |].
    exists 32, (1 / 2 * (0 + 0)). split; [| lra].
    reflexivity.
Defined.

Lemma component_value_is_unweighted_density_witness :
  GMM_call_ci unit_GMM 0 black
  = Ok (if Rgtb (coefs unit_GMM 0) 0
        then sqrt ((2 * PI) ^ 3)
             * gaussian3 (meanOf unit_GMM 0) (covOf unit_GMM 0) black
        else 0).
Proof.
  apply (proj1 (component_value_is_unweighted_density unit_GMM 0 black
                  ltac:(unfold componentsCount; lia) unit_GMM_regular unit_GMM_derived)).
Defined.

Lemma whichComponent_first_largest_component_value_witness :
  exists k, whichComponent unit_GMM black = Ok k /\ (0 <= k < componentsCount)%Z.
Proof.
  destruct (whichComponent_first_largest_component_value unit_GMM black unit_GMM_regular)
    as [k [Hk [Hr _]]].
  exists k. split; assumption.
Defined.

Lemma zero_iterations_return_after_initialisation_witness :
  (0 <= 0)%Z
  /\ grabCut_slim kmeans_one_cluster solver_all_sink img_1x2_black mask_1x2_hard no_rect
                  zero_model zero_model 0 GC_EVAL
     = (do '(mask', gb, gf) <-
          initialise kmeans_one_cluster img_1x2_black mask_1x2_hard no_rect
                     zero_model zero_model GC_EVAL;
        Ok (outputs mask' gb gf)).
Proof.
  split; [lia |].
  apply (proj1 (zero_iterations_return_after_initialisation kmeans_one_cluster
                  solver_all_sink img_1x2_black mask_1x2_hard no_rect zero_model
                  zero_model 0 GC_EVAL ltac:(lia))).
Defined.

End Instances.


(* ================================================================== *)
(** * Further properties *)

(** ** The mask check *)

(** A loop that only tests its elements succeeds exactly when no element
    fails the test, and otherwise stops with the error of the test. *)
Lemma forM_test_Ok {A} (bad : A -> bool) (e : error) (l : list A) :
  forM l (fun (_ : unit) a => if bad a then Err e else Ok tt) tt = Ok tt
  <-> forall a, In a l -> bad a = false.
Proof.
  induction l as [| a l IH]; cbn [forM].
  - split; [intros _ a [] | reflexivity].
  - destruct (bad a) eqn:E; cbn [bind].
    + split; [discriminate |]. intros H. rewrite (H a (or_introl eq_refl)) in E.
      discriminate.
    + rewrite IH. split.
      * intros H b [<- | Hb]; auto.
      * intros H b Hb. apply H. now right.
Qed.

Lemma forM_test_Err {A} (bad : A -> bool) (e : error) (l : list A) (a : A) :
  In a l -> bad a = true ->
  forM l (fun (_ : unit) a => if bad a then Err e else Ok tt) tt = Err e.
Proof.
  induction l as [| b l IH]; cbn [forM]; intros Hin Hbad; [contradiction |].
  destruct (bad b) eqn:E; cbn [bind]; [reflexivity |].
  destruct Hin as [-> | Hin]; [congruence | now apply IH].
Qed.

Lemma is_label_tests (v : Z) :
  negb (v =? GC_BGD) && negb (v =? GC_FGD) && negb (v =? GC_PR_BGD)
  && negb (v =? GC_PR_FGD) = negb (is_label v).
Proof. unfold is_label. now rewrite !negb_orb. Qed.

Lemma checkMask_elements (mask : Mat Z) :
  forM (raster (rows mask) (cols mask))
       (fun _ p =>
          let val := mat_atP mask p in
          if negb (val =? GC_BGD) && negb (val =? GC_FGD)
             && negb (val =? GC_PR_BGD) && negb (val =? GC_PR_FGD)
          then Err (BadArg element_msg) else Ok tt) tt
  = forM (raster (rows mask) (cols mask))
         (fun (_ : unit) p => if negb (is_label (mat_atP mask p))
                              then Err (BadArg element_msg) else Ok tt) tt.
Proof.
  generalize (raster (rows mask) (cols mask)) as l.
  induction l as [| p l IH]; [reflexivity |]. cbn [forM]. cbv zeta.
  rewrite is_label_tests. destruct (negb (is_label (mat_atP mask p))); cbn [bind];
    [reflexivity | exact IH].
Qed.

(** [checkMask] accepts exactly the masks that fit the image. *)
Lemma checkMask_Ok_iff (img : Mat Vec3b) (mask : Mat Z) :
  checkMask img mask = Ok tt <-> mask_fits img mask.
Proof.
  unfold checkMask, mask_fits.
  destruct (mat_empty mask) eqn:He.
  { split; [discriminate | intros [H _]; discriminate]. }
  destruct (mtype mask =? CV_8UC1) eqn:Et; cbn [negb].
  2:{ apply Z.eqb_neq in Et. split; [discriminate | intros [_ [H _]]; contradiction]. }
  apply Z.eqb_eq in Et.
  destruct (cols mask =? cols img) eqn:Ec; cbn [negb orb].
  2:{ apply Z.eqb_neq in Ec. split; [discriminate | intros [_ [_ [H _]]]; contradiction]. }
  apply Z.eqb_eq in Ec.
  destruct (rows mask =? rows img) eqn:Er; cbn [negb].
  2:{ apply Z.eqb_neq in Er.
      split; [discriminate | intros [_ [_ [_ [H _]]]]; contradiction]. }
  apply Z.eqb_eq in Er.
  change (BadArg _) with (BadArg element_msg) at 1.
  rewrite checkMask_elements, forM_test_Ok.
  split.
  - intros H. repeat split; auto. intros y x Hy Hx.
    specialize (H (mkPoint x y)). apply negb_false_iff. apply H.
    apply raster_In. cbn. auto.
  - intros [_ [_ [_ [_ H]]]] p Hp. apply raster_In in Hp.
    apply negb_false_iff. apply H; tauto.
Qed.

(** X1.  [checkMask] returns without an error exactly for a mask that is
    not empty, has type CV_8UC1, has the rows and columns of the image and
    holds one of GC_BGD, GC_FGD, GC_PR_BGD, GC_PR_FGD at every pixel. *)
Theorem checkMask_accepts_fitting_masks (img : Mat Vec3b) (mask : Mat Z) :
  checkMask img mask = Ok tt <-> mask_fits img mask.
Proof. exact (checkMask_Ok_iff img mask). Qed.

(** X2.  The errors of [checkMask], in the order of its tests: an empty
    mask, a type that is not CV_8UC1, a size that is not that of the image,
    and, for a mask that passes those, a pixel whose value is not a label. *)
Theorem checkMask_errors (img : Mat Vec3b) (mask : Mat Z) :
  (mat_empty mask = true -> checkMask img mask = Err (BadArg "mask is empty"))
  /\ (mat_empty mask = false -> mtype mask <> CV_8UC1 ->
      checkMask img mask = Err (BadArg "mask must have CV_8UC1 type"))
  /\ (mat_empty mask = false -> mtype mask = CV_8UC1 ->
      cols mask <> cols img \/ rows mask <> rows img ->
      checkMask img mask = Err (BadArg "mask must have as many rows and cols as img"))
  /\ (mat_empty mask = false -> mtype mask = CV_8UC1 ->
      cols mask = cols img -> rows mask = rows img ->
      forall y x, 0 <= y < rows mask -> 0 <= x < cols mask ->
        is_label (mat_at mask y x) = false ->
        checkMask img mask = Err (BadArg element_msg)).
Proof.
  unfold checkMask. repeat split.
  - intros ->. reflexivity.
  - intros -> Ht. apply Z.eqb_neq in Ht. now rewrite Ht.
  - intros -> Ht Hs. rewrite Ht, Z.eqb_refl. cbn [negb].
    destruct Hs as [Hs | Hs]; apply Z.eqb_neq in Hs; rewrite Hs; cbn [negb orb];
      [reflexivity | now rewrite orb_true_r].
  - intros -> Ht Hc Hr y x Hy Hx Hbad.
    rewrite Ht, Hc, Hr, !Z.eqb_refl. cbn [negb orb].
    rewrite <- Hc, <- Hr.
    change (BadArg _) with (BadArg element_msg) at 1.
    rewrite checkMask_elements.
    apply (forM_test_Err (fun p => negb (is_label (mat_atP mask p)))
             (BadArg element_msg) _ (mkPoint x y)).
    + apply raster_In. cbn. auto.
    + unfold mat_atP. cbn. unfold mat_at in Hbad. now rewrite Hbad.
Qed.

(** ** The mask of a rectangle *)

(** X3.  For a rectangle whose corner is a pixel position of the image (or
    lies on its right or lower border) and whose width and height are not
    negative, [initMaskWithRect] creates a CV_8UC1 mask of the size of the
    image in which the pixels of the rectangle are GC_PR_FGD and all the
    others GC_BGD; the part of the rectangle that sticks out of the image
    is cut off. *)
Theorem initMaskWithRect_marks_the_rectangle (imgSize : Size) (rect : Rect)
    (Hx : 0 <= rx rect <= width imgSize) (Hy : 0 <= ry rect <= height imgSize)
    (Hw : 0 <= rwidth rect) (Hh : 0 <= rheight rect) :
  exists m, initMaskWithRect imgSize rect = Ok m
            /\ mtype m = CV_8UC1 /\ rows m = height imgSize /\ cols m = width imgSize
            /\ forall y x, 0 <= y < height imgSize -> 0 <= x < width imgSize ->
                 mat_at m y x = if in_rect rect y x then GC_PR_FGD else GC_BGD.
Proof.
  destruct (initMaskWithRect_corner_inside imgSize rect Hx Hy Hw Hh) as [m [Hm He]].
  exists m. split; [exact Hm |].
  unfold initMaskWithRect, roi_setTo in Hm.
  destruct (roi_in_mat _ _); cbn in Hm; [| discriminate].
  injection Hm as <-. cbn. auto.
Qed.

(** What [initMaskWithRect] returns when the assertion of the region
    holds. *)
Lemma initMaskWithRect_Ok (imgSize : Size) (rect : Rect) (m : Mat Z) :
  initMaskWithRect imgSize rect = Ok m ->
  mtype m = CV_8UC1 /\ rows m = height imgSize /\ cols m = width imgSize
  /\ forall y x, mat_at m y x = GC_PR_FGD \/ mat_at m y x = GC_BGD.
Proof.
  unfold initMaskWithRect, roi_setTo. destruct (roi_in_mat _ _); cbn; [| discriminate].
  intros H. injection H as <-. cbn. repeat split.
  intros y x. destruct (in_rect _ y x); auto.
Qed.

Lemma initMaskWithRect_mask_is_fit (img : Mat Vec3b) (rect : Rect) (m : Mat Z) :
  mat_empty img = false -> initMaskWithRect (mat_size img) rect = Ok m ->
  checkMask img m = Ok tt.
Proof.
  intros Himg Hm. apply checkMask_Ok_iff.
  destruct (initMaskWithRect_Ok _ _ _ Hm) as [Ht [Hr [Hc He]]]. cbn in Hr, Hc.
  unfold mask_fits. repeat split; auto.
  - unfold mat_empty in *. now rewrite Hr, Hc.
  - intros y x _ _. destruct (He y x) as [-> | ->]; reflexivity.
Qed.

(** X4.  The mask that [initMaskWithRect] makes for an image that is not
    empty passes [checkMask] for that image, whatever the rectangle. *)
Theorem initMaskWithRect_mask_passes_checkMask
    (img : Mat Vec3b) (rect : Rect) (m : Mat Z)
    (Himg : mat_empty img = false)
    (Hm : initMaskWithRect (mat_size img) rect = Ok m) :
  checkMask img m = Ok tt.
Proof. exact (initMaskWithRect_mask_is_fit img rect m Himg Hm). Qed.


(** ** The seeds of the two models *)

Section Seeds.
Variable kmeans : list Vec3d -> Z -> list Z.

(** The two sample vectors that the loop of [initGMMs] collects. *)
Lemma initGMMs_samples (img : Mat Vec3b) (mask : Mat Z) (l : list Point)
    (b f : list Vec3d) :
  fold_left
    (fun (bf : list Vec3d * list Vec3d) p =>
       if is_bgd_like (mat_atP mask p)
       then (fst bf ++ [to_Vec3d (mat_atP img p)], snd bf)
       else (fst bf, snd bf ++ [to_Vec3d (mat_atP img p)]))
    l (b, f)
  = (b ++ map (fun p => to_Vec3d (mat_atP img p))
            (filter (fun p => is_bgd_like (mat_atP mask p)) l),
     f ++ map (fun p => to_Vec3d (mat_atP img p))
            (filter (fun p => negb (is_bgd_like (mat_atP mask p))) l)).
Proof.
  revert b f. induction l as [| p l IH]; intros b f; cbn [fold_left filter map].
  - now rewrite !app_nil_r.
  - destruct (is_bgd_like (mat_atP mask p)); cbn [negb fst snd map];
      rewrite IH, <- app_assoc; reflexivity.
Qed.

Lemma filter_none {A} (t : A -> bool) (l : list A) :
  (forall a, In a l -> t a = false) -> filter t l = [].
Proof.
  induction l as [| a l IH]; intros H; cbn; [reflexivity |].
  rewrite (H a (or_introl eq_refl)). apply IH. intros b Hb. apply H. now right.
Qed.

(** [initGMMs] stops at its assertion when one of the two classes has no
    pixel. *)
Lemma initGMMs_one_class (img : Mat Vec3b) (mask : Mat Z) (bgdGMM fgdGMM : GMM) :
  (forall y x, 0 <= y < rows img -> 0 <= x < cols img ->
     is_bgd_like (mat_at mask y x) = true)
  \/ (forall y x, 0 <= y < rows img -> 0 <= x < cols img ->
        is_bgd_like (mat_at mask y x) = false) ->
  initGMMs kmeans img mask bgdGMM fgdGMM = Err AssertFailed.
Proof.
  intros H. unfold initGMMs. rewrite initGMMs_samples. cbn [app].
  destruct H as [H | H].
  - rewrite (filter_none (fun p => negb (is_bgd_like (mat_atP mask p)))).
    + cbn [map List.length Nat.eqb negb]. now rewrite andb_false_r.
    + intros p Hp. apply raster_In in Hp. apply negb_false_iff. apply H; tauto.
  - rewrite (filter_none (fun p => is_bgd_like (mat_atP mask p))).
    + reflexivity.
    + intros p Hp. apply raster_In in Hp. apply H; tauto.
Qed.

(** X5.  [initGMMs] needs a pixel of each class: when every pixel of the
    image is GC_BGD or GC_PR_BGD, or none is, the assertion that neither
    sample vector is empty fails, before k-means is called. *)
Theorem initGMMs_needs_both_classes
    (img : Mat Vec3b) (mask : Mat Z) (bgdGMM fgdGMM : GMM)
    (Hone : (forall y x, 0 <= y < rows img -> 0 <= x < cols img ->
               is_bgd_like (mat_at mask y x) = true)
            \/ (forall y x, 0 <= y < rows img -> 0 <= x < cols img ->
                  is_bgd_like (mat_at mask y x) = false)) :
  initGMMs kmeans img mask bgdGMM fgdGMM = Err AssertFailed.
Proof. exact (initGMMs_one_class img mask bgdGMM fgdGMM Hone). Qed.

(** X6.  Initialisation with a rectangle fails at the assertion of
    [initGMMs] when the rectangle covers the image (no background sample)
    and when it has no width or no height (no foreground sample), in both
    entry points and for every number of iterations. *)
Theorem rect_needs_pixels_inside_and_outside
    (inSrc : GCGraph -> Z -> bool)
    (img : Mat Vec3b) (mask : Mat Z) (rect : Rect) (bgdModel fgdModel : Mat R)
    (b f : GMM) (iterCount : Z)
    (Hrows : 0 < rows img) (Hcols : 0 < cols img) (Htype : mtype img = CV_8UC3)
    (Hb : GMM_new bgdModel = Ok b) (Hf : GMM_new fgdModel = Ok f)
    (Hrect : (rx rect <= 0 /\ ry rect <= 0
              /\ cols img <= rwidth rect /\ rows img <= rheight rect)
             \/ (0 <= rx rect <= cols img /\ 0 <= ry rect <= rows img
                 /\ 0 <= rwidth rect /\ 0 <= rheight rect
                 /\ (rwidth rect = 0 \/ rheight rect = 0))) :
  grabCut_slim kmeans inSrc img mask rect bgdModel fgdModel iterCount GC_INIT_WITH_RECT
  = Err AssertFailed
  /\ grabCut kmeans inSrc img mask rect bgdModel fgdModel iterCount GC_INIT_WITH_RECT
     = Err AssertFailed.
Proof.
  assert (Hinit : initialise kmeans img mask rect bgdModel fgdModel GC_INIT_WITH_RECT
                  = Err AssertFailed).
  { unfold initialise.
    replace (mat_empty img) with false
      by (symmetry; unfold mat_empty; apply orb_false_iff; split; apply Z.eqb_neq; lia).
    rewrite Htype, Z.eqb_refl, Hb, Hf. cbn [negb bind].
    change (GC_INIT_WITH_RECT =? GC_INIT_WITH_RECT) with true. cbn [orb].
    destruct (initMaskWithRect_elems (mat_size img) rect) as [m [Hm [Hr [Hc He]]]].
    { unfold roi_in_mat, clampRect. cbn.
      repeat (apply andb_true_iff; split); apply Z.leb_le; lia. }
    rewrite Hm. cbn [bind].
    rewrite initGMMs_one_class; [reflexivity |].
    destruct Hrect as [Hcover | Hnone]; [right | left]; intros y x Hy Hx;
      rewrite He; unfold in_rect, clampRect; cbn.
    - replace (Z.max 0 (rx rect) <=? x) with true by (symmetry; apply Z.leb_le; lia).
      replace (Z.max 0 (ry rect) <=? y) with true by (symmetry; apply Z.leb_le; lia).
      replace (x <? _) with true by (symmetry; apply Z.ltb_lt; lia).
      replace (y <? _) with true by (symmetry; apply Z.ltb_lt; lia).
      reflexivity.
    - destruct Hnone as [? [? [? [? [Hz | Hz]]]]].
      + destruct (Z.max 0 (rx rect) <=? x) eqn:E; [| reflexivity].
        apply Z.leb_le in E.
        replace (x <? _) with false by (symmetry; apply Z.ltb_ge; lia).
        reflexivity.
      + destruct (Z.max 0 (ry rect) <=? y) eqn:E; [| now rewrite andb_false_r].
        apply Z.leb_le in E.
        replace (y <? _) with false by (symmetry; apply Z.ltb_ge; lia).
        now rewrite !andb_false_r. }
  unfold grabCut_slim, grabCut, grabCut_with. rewrite Hinit. split; reflexivity.
Qed.

End Seeds.

(** ** beta and the smoothness weights *)

Section Smoothness.
Local Open Scope R_scope.

Lemma sqdiff_nonneg (img : Mat Vec3b) (color : Vec3d) (y x : Z) :
  0 <= sqdiff img color y x.
Proof.
  unfold sqdiff, vsub, vdot. destruct color as [[c0 c1] c2].
  destruct (to_Vec3d (mat_at img y x)) as [[d0 d1] d2]. cbv zeta.
  pose proof (Rle_0_sqr (c0 - d0)). pose proof (Rle_0_sqr (c1 - d1)).
  pose proof (Rle_0_sqr (c2 - d2)). unfold Rsqr in *. lra.
Qed.

Lemma sqdiff_same (img : Mat Vec3b) (y x y' x' : Z) :
  mat_at img y x = mat_at img y' x' ->
  sqdiff img (to_Vec3d (mat_at img y x)) y' x' = 0.
Proof.
  intros ->. unfold sqdiff, vsub, vdot.
  destruct (to_Vec3d (mat_at img y' x')) as [[d0 d1] d2]. ring.
Qed.

Lemma raster_nil (r c : Z) : (r <= 0 \/ c <= 0)%Z -> raster r c = [].
Proof.
  intros H. destruct (raster r c) as [| p l] eqn:E; [reflexivity |].
  assert (Hp : In p (raster r c)) by (rewrite E; now left).
  apply raster_In in Hp. lia.
Qed.

(** The sum of squared colour differences that [calcBeta] accumulates. *)
Lemma calcBeta_sum_nonneg (img : Mat Vec3b) (l : list Point) (s : R) :
  0 <= s ->
  0 <= fold_left
    (fun beta p =>
       let x := px p in let y := py p in
       let color := to_Vec3d (mat_at img y x) in
       let beta := if (x >? 0)%Z then beta + sqdiff img color y (x - 1) else beta in
       let beta := if (y >? 0)%Z && (x >? 0)%Z
                   then beta + sqdiff img color (y - 1) (x - 1) else beta in
       let beta := if (y >? 0)%Z then beta + sqdiff img color (y - 1) x else beta in
       let beta := if (y >? 0)%Z && (x <? cols img - 1)%Z
                   then beta + sqdiff img color (y - 1) (x + 1) else beta in
       beta) l s.
Proof.
  revert s. induction l as [| p l IH]; intros s Hs; cbn [fold_left]; [exact Hs |].
  apply IH. cbv zeta.
  pose proof (sqdiff_nonneg img (to_Vec3d (mat_at img (py p) (px p)))) as Hd.
  repeat match goal with |- context [if ?b then _ else _] => destruct b end;
    repeat match goal with |- context [sqdiff img ?c ?y ?x] =>
      let H := fresh in pose proof (Hd y x) as H; generalize dependent (sqdiff img c y x);
      intros end; lra.
Qed.

Lemma calcBeta_sum_zero (img : Mat Vec3b) (l : list Point) :
  (forall y x y' x', (0 <= y < rows img)%Z -> (0 <= x < cols img)%Z ->
     (0 <= y' < rows img)%Z -> (0 <= x' < cols img)%Z ->
     mat_at img y x = mat_at img y' x') ->
  (forall p, In p l -> (0 <= py p < rows img)%Z /\ (0 <= px p < cols img)%Z) ->
  fold_left
    (fun beta p =>
       let x := px p in let y := py p in
       let color := to_Vec3d (mat_at img y x) in
       let beta := if (x >? 0)%Z then beta + sqdiff img color y (x - 1) else beta in
       let beta := if (y >? 0)%Z && (x >? 0)%Z
                   then beta + sqdiff img color (y - 1) (x - 1) else beta in
       let beta := if (y >? 0)%Z then beta + sqdiff img color (y - 1) x else beta in
       let beta := if (y >? 0)%Z && (x <? cols img - 1)%Z
                   then beta + sqdiff img color (y - 1) (x + 1) else beta in
       beta) l 0 = 0.
Proof.
  intros Hconst. induction l as [| p l IH]; intros Hl; cbn [fold_left]; [reflexivity |].
  destruct (Hl p (or_introl eq_refl)) as [Hy Hx].
  match goal with |- fold_left ?f l ?s = 0 => replace s with 0 end.
  { apply IH. intros q Hq. apply Hl. now right. }
  cbv zeta.
  repeat match goal with
         | |- context [if ?b then _ else _] => destruct b eqn:?
         end;
    repeat match goal with
           | H : _ && _ = true |- _ => apply andb_true_iff in H; destruct H
           | H : (_ >? _)%Z = true |- _ => apply Z.gtb_lt in H
           | H : (_ <? _)%Z = true |- _ => apply Z.ltb_lt in H
           end;
    rewrite ?sqdiff_same by (apply Hconst; lia); lra.
Qed.

Lemma wrap_int_small (z : Z) : (- 2 ^ 31 <= z < 2 ^ 31)%Z -> wrap_int z = z.
Proof. intros H. unfold wrap_int. rewrite Z.mod_small; lia. Qed.

Lemma calcBeta_ge_0 (img : Mat Vec3b) :
  (4 * cols img * rows img <= 2 ^ 31 - 1)%Z -> 0 <= calcBeta img.
Proof.
  intros Hsize. unfold calcBeta.
  match goal with |- context [fold_left ?f ?l 0] =>
    pose proof (calcBeta_sum_nonneg img l 0 ltac:(lra)) as Hs;
    cbv zeta in Hs; cbv zeta; set (S := fold_left f l 0) in * end.
  destruct (Rleb S epsilon) eqn:E; [lra |].
  assert (Hpos : epsilon < S).
  { unfold Rleb in E. destruct (Rle_dec S epsilon); [discriminate | lra]. }
  pose proof epsilon_pos as He.
  destruct (Z_le_gt_dec (rows img) 0) as [Hr | Hr].
  { subst S. rewrite raster_nil in Hpos by auto. cbn in Hpos. lra. }
  destruct (Z_le_gt_dec (cols img) 0) as [Hc | Hc].
  { subst S. rewrite raster_nil in Hpos by auto. cbn in Hpos. lra. }
  destruct (Z.eq_dec (rows img) 1) as [Hr1 | Hr1];
    [destruct (Z.eq_dec (cols img) 1) as [Hc1 | Hc1] |].
  { subst S. pose proof (calcBeta_sum_zero img (raster (rows img) (cols img))) as Hz.
    cbv zeta in Hz. rewrite Hz in Hpos; [lra | |].
    - intros y x y' x' ? ? ? ?.
      replace y' with y by lia. replace x' with x by lia. reflexivity.
    - intros p Hp. now apply raster_In in Hp. }
  all: assert (HN : (0 < 4 * cols img * rows img - 3 * cols img - 3 * rows img + 2)%Z)
         by nia;
       rewrite wrap_int_small by lia;
       apply IZR_lt in HN;
       set (N := IZR (4 * cols img * rows img - 3 * cols img - 3 * rows img + 2)) in *;
       assert (0 < 2 * S / N) by (apply Rdiv_lt_0_compat; lra);
       apply Rlt_le; apply Rdiv_lt_0_compat; lra.
Qed.

(** X7.  On an image small enough for the [int] product
    4 * cols * rows not to overflow, beta is not negative: the sum of the
    squared colour differences is not negative, and where it exceeds
    epsilon the image has two pixels at least, so that the count of
    neighbour pairs that divides it is positive. *)
Theorem calcBeta_nonneg (img : Mat Vec3b)
    (Hsize : (4 * cols img * rows img <= 2 ^ 31 - 1)%Z) : 0 <= calcBeta img.
Proof. exact (calcBeta_ge_0 img Hsize). Qed.

(** X8.  On an image of one colour, and on an image of one pixel, beta
    is 0. *)
Theorem calcBeta_constant_image (img : Mat Vec3b)
    (Hconst : forall y x y' x', (0 <= y < rows img)%Z -> (0 <= x < cols img)%Z ->
                (0 <= y' < rows img)%Z -> (0 <= x' < cols img)%Z ->
                mat_at img y x = mat_at img y' x') :
  calcBeta img = 0.
Proof.
  unfold calcBeta. cbv zeta.
  pose proof (calcBeta_sum_zero img (raster (rows img) (cols img)) Hconst) as Hz.
  cbv zeta in Hz. rewrite Hz.
  - rewrite Rleb_true; [reflexivity |]. pose proof epsilon_pos. lra.
  - intros p Hp. now apply raster_In in Hp.
Qed.

End Smoothness.

Section Smoothness_weights.
Local Open Scope R_scope.

(** The four weights that the body of the loop of [calcNWeights] writes at
    a pixel. *)
Lemma calcNWeights_fold (img : Mat Vec3b) (beta gamma : R) (l : list Point)
    (nw0 : NWeights) (y x : Z) :
  let step := fun nw p =>
       let x := px p in let y := py p in
       let color := to_Vec3d (mat_at img y x) in
       let l := if (x - 1 >=? 0)%Z
                then gamma * exp (- beta * sqdiff img color y (x - 1)) else 0 in
       let ul := if (x - 1 >=? 0)%Z && (y - 1 >=? 0)%Z
                 then gamma / sqrt2f * exp (- beta * sqdiff img color (y - 1) (x - 1))
                 else 0 in
       let u := if (y - 1 >=? 0)%Z
                then gamma * exp (- beta * sqdiff img color (y - 1) x) else 0 in
       let ur := if (x + 1 <? cols img)%Z && (y - 1 >=? 0)%Z
                 then gamma / sqrt2f * exp (- beta * sqdiff img color (y - 1) (x + 1))
                 else 0 in
       mkNWeights (mat_set (leftW nw) y x l) (mat_set (upleftW nw) y x ul)
                  (mat_set (upW nw) y x u) (mat_set (uprightW nw) y x ur) in
  let nw := fold_left step l nw0 in
  let color := to_Vec3d (mat_at img y x) in
  (In (mkPoint x y) l ->
     mat_at (leftW nw) y x
     = (if (x - 1 >=? 0)%Z
        then gamma * exp (- beta * sqdiff img color y (x - 1)) else 0)
     /\ mat_at (upleftW nw) y x
        = (if (x - 1 >=? 0)%Z && (y - 1 >=? 0)%Z
           then gamma / sqrt2f * exp (- beta * sqdiff img color (y - 1) (x - 1))
           else 0)
     /\ mat_at (upW nw) y x
        = (if (y - 1 >=? 0)%Z
           then gamma * exp (- beta * sqdiff img color (y - 1) x) else 0)
     /\ mat_at (uprightW nw) y x
        = (if (x + 1 <? cols img)%Z && (y - 1 >=? 0)%Z
           then gamma / sqrt2f * exp (- beta * sqdiff img color (y - 1) (x + 1))
           else 0))
  /\ (~ In (mkPoint x y) l ->
      mat_at (leftW nw) y x = mat_at (leftW nw0) y x
      /\ mat_at (upleftW nw) y x = mat_at (upleftW nw0) y x
      /\ mat_at (upW nw) y x = mat_at (upW nw0) y x
      /\ mat_at (uprightW nw) y x = mat_at (uprightW nw0) y x)
  /\ rows (leftW nw) = rows (leftW nw0) /\ cols (leftW nw) = cols (leftW nw0)
  /\ rows (upleftW nw) = rows (upleftW nw0) /\ cols (upleftW nw) = cols (upleftW nw0)
  /\ rows (upW nw) = rows (upW nw0) /\ cols (upW nw) = cols (upW nw0)
  /\ rows (uprightW nw) = rows (uprightW nw0)
  /\ cols (uprightW nw) = cols (uprightW nw0).
Proof.
  intros step. revert nw0. induction l as [| p l IH]; intros nw0; cbn [fold_left].
  - cbv zeta. split; [intros [] |]. split; [tauto |]. tauto.
  - specialize (IH (step nw0 p)). cbv zeta in IH |- *.
    destruct IH as [Hin [Hout Hhdr]].
    assert (Hp : {p = mkPoint x y} + {p <> mkPoint x y}).
    { destruct p as [a b]. destruct (Z.eq_dec a x) as [-> | Ha];
        [destruct (Z.eq_dec b y) as [-> | Hb] |]; [left | right | right]; congruence. }
    split; [| split].
    + intros Hl. destruct (in_dec (fun a b : Point => ltac:(
        destruct a as [a1 a2], b as [b1 b2];
        destruct (Z.eq_dec a1 b1); [destruct (Z.eq_dec a2 b2) |];
        [left | right | right]; congruence)) (mkPoint x y) l) as [Hi | Hn].
      * now apply Hin.
      * destruct Hl as [-> | Hl]; [| contradiction].
        destruct (Hout Hn) as [H1 [H2 [H3 H4]]]. rewrite H1, H2, H3, H4.
        unfold step, mat_at, mat_set. cbn [leftW upleftW upW uprightW elems px py].
        rewrite !Z.eqb_refl. cbn [andb]. auto.
    + intros Hn. destruct (Hout (fun H => Hn (or_intror H))) as [H1 [H2 [H3 H4]]].
      rewrite H1, H2, H3, H4.
      assert (E : (y =? py p)%Z && (x =? px p)%Z = false).
      { destruct ((y =? py p)%Z && (x =? px p)%Z) eqn:E; [| reflexivity].
        apply andb_true_iff in E. destruct E as [Ey Ex].
        apply Z.eqb_eq in Ey. apply Z.eqb_eq in Ex. exfalso. apply Hn. left.
        destruct p; cbn in *; congruence. }
      unfold step, mat_at, mat_set. cbn [leftW upleftW upW uprightW elems].
      rewrite E. auto.
    + exact Hhdr.
Qed.

(** The weight tables have the size of the image and hold, at every pixel
    of the image, what the body of the loop computes for that pixel. *)
Lemma calcNWeights_at (img : Mat Vec3b) (beta gamma : R) (y x : Z) :
  (0 <= y < rows img)%Z -> (0 <= x < cols img)%Z ->
  let nw := calcNWeights img beta gamma in
  let color := to_Vec3d (mat_at img y x) in
  mat_at (leftW nw) y x
  = (if (0 <? x)%Z then gamma * exp (- beta * sqdiff img color y (x - 1)) else 0)
  /\ mat_at (upleftW nw) y x
     = (if (0 <? x)%Z && (0 <? y)%Z
        then gamma / sqrt2f * exp (- beta * sqdiff img color (y - 1) (x - 1)) else 0)
  /\ mat_at (upW nw) y x
     = (if (0 <? y)%Z then gamma * exp (- beta * sqdiff img color (y - 1) x) else 0)
  /\ mat_at (uprightW nw) y x
     = (if (x <? cols img - 1)%Z && (0 <? y)%Z
        then gamma / sqrt2f * exp (- beta * sqdiff img color (y - 1) (x + 1)) else 0).
Proof.
  intros Hy Hx. cbv zeta. unfold calcNWeights. cbv zeta.
  match goal with |- context [fold_left ?f ?l ?n] =>
    pose proof (calcNWeights_fold img beta gamma l n y x) as H end.
  cbv zeta in H. destruct H as [Hin _].
  destruct Hin as [H1 [H2 [H3 H4]]].
  { apply raster_In. cbn. auto. }
  rewrite H1, H2, H3, H4.
  replace (x - 1 >=? 0)%Z with (0 <? x)%Z
    by (destruct (0 <? x)%Z eqn:E; symmetry; rewrite Z.geb_leb;
        [apply Z.leb_le; apply Z.ltb_lt in E | apply Z.leb_gt; apply Z.ltb_ge in E]; lia).
  replace (y - 1 >=? 0)%Z with (0 <? y)%Z
    by (destruct (0 <? y)%Z eqn:E; symmetry; rewrite Z.geb_leb;
        [apply Z.leb_le; apply Z.ltb_lt in E | apply Z.leb_gt; apply Z.ltb_ge in E]; lia).
  replace (x + 1 <? cols img)%Z with (x <? cols img - 1)%Z
    by (destruct (x <? cols img - 1)%Z eqn:E; symmetry;
        [apply Z.ltb_lt; apply Z.ltb_lt in E | apply Z.ltb_ge; apply Z.ltb_ge in E]; lia).
  auto.
Qed.

Lemma exp_neg_le_1 (t : R) : 0 <= t -> 0 < exp (- t) <= 1.
Proof.
  intros Ht. split; [apply exp_pos |].
  destruct Ht as [Ht | <-].
  - rewrite <- exp_0. apply Rlt_le. apply exp_increasing. lra.
  - rewrite Ropp_0, exp_0. lra.
Qed.

Lemma sqrt2f_gt_1 : 1 < sqrt2f.
Proof. unfold sqrt2f. lra. Qed.

(** X9.  The tables of [calcNWeights] at a pixel of the image: the weight
    of the edge to the left, upper-left, upper and upper-right neighbour is
    gamma (on the diagonals gamma divided by the single-precision square
    root of 2) times exp(-beta d), with d the squared distance of the two
    colours, and it is 0 where the image has no such neighbour (first
    column, first row, last column). *)
Theorem calcNWeights_tables (img : Mat Vec3b) (beta gamma : R) (y x : Z)
    (Hy : (0 <= y < rows img)%Z) (Hx : (0 <= x < cols img)%Z) :
  let nw := calcNWeights img beta gamma in
  let color := to_Vec3d (mat_at img y x) in
  mat_at (leftW nw) y x
  = (if (0 <? x)%Z then gamma * exp (- beta * sqdiff img color y (x - 1)) else 0)
  /\ mat_at (upleftW nw) y x
     = (if (0 <? x)%Z && (0 <? y)%Z
        then gamma / sqrt2f * exp (- beta * sqdiff img color (y - 1) (x - 1)) else 0)
  /\ mat_at (upW nw) y x
     = (if (0 <? y)%Z then gamma * exp (- beta * sqdiff img color (y - 1) x) else 0)
  /\ mat_at (uprightW nw) y x
     = (if (x <? cols img - 1)%Z && (0 <? y)%Z
        then gamma / sqrt2f * exp (- beta * sqdiff img color (y - 1) (x + 1)) else 0).
Proof. exact (calcNWeights_at img beta gamma y x Hy Hx). Qed.

(** X10.  On an image small enough for the [int] product
    4 * cols * rows not to overflow, the smoothness weights that the entry
    points compute, with beta = calcBeta(img) and gamma = 50, lie between 0
    and gamma at every pixel of the image, and on the diagonals between 0
    and gamma divided by the single-precision square root of 2. *)
Theorem smoothness_weights_bounded (img : Mat Vec3b) (y x : Z)
    (Hsize : (4 * cols img * rows img <= 2 ^ 31 - 1)%Z)
    (Hy : (0 <= y < rows img)%Z) (Hx : (0 <= x < cols img)%Z) :
  let nw := calcNWeights img (calcBeta img) gamma in
  0 <= mat_at (leftW nw) y x <= gamma
  /\ 0 <= mat_at (upleftW nw) y x <= gamma / sqrt2f
  /\ 0 <= mat_at (upW nw) y x <= gamma
  /\ 0 <= mat_at (uprightW nw) y x <= gamma / sqrt2f.
Proof.
  cbv zeta.
  destruct (calcNWeights_at img (calcBeta img) gamma y x Hy Hx) as [H1 [H2 [H3 H4]]].
  rewrite H1, H2, H3, H4. clear H1 H2 H3 H4.
  pose proof (calcBeta_ge_0 img Hsize) as Hb.
  pose proof sqrt2f_gt_1 as Hs.
  assert (Hg : 0 < gamma) by (unfold gamma; lra).
  assert (Hg2 : 0 < gamma / sqrt2f) by (apply Rdiv_lt_0_compat; lra).
  assert (He : forall y' x',
            0 < exp (- calcBeta img * sqdiff img (to_Vec3d (mat_at img y x)) y' x') <= 1).
  { intros y' x'. rewrite <- Ropp_mult_distr_l. apply exp_neg_le_1.
    apply Rmult_le_pos; [exact Hb | apply sqdiff_nonneg]. }
  repeat split;
    repeat match goal with |- context [if ?b then _ else _] => destruct b end;
    try lra;
    match goal with |- context [exp (- calcBeta img * sqdiff img ?c ?y' ?x')] =>
      pose proof (He y' x') end; nra.
Qed.

End Smoothness_weights.

(** ** Learning the parameters *)

Section Learning_parameters.
Local Open Scope R_scope.

(** A loop whose body keeps an invariant keeps it when it ends normally. *)
Lemma forM_Ok_keeps {A S} (I : list A -> S -> Prop) (body : S -> A -> res S)
    (l : list A) (s0 : S) :
  I [] s0 ->
  (forall pre a post s s', l = pre ++ a :: post -> I pre s ->
     body s a = Ok s' -> I (pre ++ [a]) s') ->
  forall s', forM l body s0 = Ok s' -> I l s'.
Proof.
  intros H0 Hstep.
  assert (G : forall rest pre s, l = pre ++ rest -> I pre s ->
              forall s', forM rest body s = Ok s' -> I l s').
  { induction rest as [| a rest IH]; intros pre s Hl Hi s' H.
    - cbn in H. injection H as <-. rewrite app_nil_r in Hl. now subst.
    - cbn [forM] in H. apply bind_Ok in H. destruct H as [s1 [Hb H]].
      apply (IH (pre ++ [a]) s1); [now rewrite <- app_assoc | | exact H].
      now apply (Hstep pre a rest s). }
  intros s'. apply (G l [] s0); auto.
Qed.

(** Column [k] of the parameter buffer after a write. *)
Lemma model_set_coefs (g : GMM) (i k : Z) (v : R) :
  mat_at (model (set_coefs g i v)) 0 k = if (k =? i)%Z then v else mat_at (model g) 0 k.
Proof. reflexivity. Qed.

Lemma model_set_mean (g : GMM) (i k : Z) (v : R) :
  mat_at (model (set_mean g i v)) 0 k
  = if (k =? 5 + i)%Z then v else mat_at (model g) 0 k.
Proof. reflexivity. Qed.

Lemma model_set_cov (g : GMM) (i k : Z) (v : R) :
  mat_at (model (set_cov g i v)) 0 k
  = if (k =? 5 + 3 * 5 + i)%Z then v else mat_at (model g) 0 k.
Proof. reflexivity. Qed.

Lemma three_cases (j : Z) : (0 <= j < 3)%Z -> j = 0%Z \/ j = 1%Z \/ j = 2%Z.
Proof. lia. Qed.

Lemma pair_dec (a b : Z * Z) : {a = b} + {a <> b}.
Proof. decide equality; apply Z.eq_dec. Qed.

(** The nine assignments to the covariance in [endLearning]. *)
Lemma cov_fold (ci : Z) (nr : R) (m : Z -> R) (l : list (Z * Z)) :
  (forall ij, In ij l -> (0 <= fst ij < 3)%Z /\ (0 <= snd ij < 3)%Z) ->
  forall g,
  let g' := fold_left
    (fun g ij => set_cov g (9 * ci + (3 * fst ij + snd ij))
                   (prods g ci (fst ij) (snd ij) / nr - m (fst ij) * m (snd ij)))
    l g in
  inverseCovs g' = inverseCovs g /\ covDeterms g' = covDeterms g
  /\ same_learning g g'
  /\ (forall i j, In (i, j) l ->
        mat_at (model g') 0 (5 + 3 * 5 + (9 * ci + (3 * i + j)))
        = prods g ci i j / nr - m i * m j)
  /\ (forall k, (forall ij, In ij l ->
                   k <> (5 + 3 * 5 + (9 * ci + (3 * fst ij + snd ij)))%Z) ->
        mat_at (model g') 0 k = mat_at (model g) 0 k).
Proof.
  induction l as [| ij l IH]; intros Hl g; cbn [fold_left].
  - cbv zeta. unfold same_learning. repeat split; auto. intros i j [].
  - specialize (IH (fun a Ha => Hl a (or_intror Ha))
                   (set_cov g (9 * ci + (3 * fst ij + snd ij))
                      (prods g ci (fst ij) (snd ij) / nr - m (fst ij) * m (snd ij)))).
    cbv zeta in IH |- *.
    destruct IH as [H1 [H2 [[H3 [H4 [H5 H6]]] [Hin Hout]]]].
    split; [exact H1 |]. split; [exact H2 |].
    split; [unfold same_learning; auto |]. split.
    + intros i j Hij.
      destruct (in_dec pair_dec (i, j) l) as [Hi | Hn]; [now apply Hin |].
      destruct Hij as [-> | Hij]; [| contradiction].
      rewrite Hout.
      * rewrite model_set_cov. cbn [fst snd]. now rewrite Z.eqb_refl.
      * intros [i' j'] Hin' E. cbn [fst snd] in E.
        destruct (Hl (i', j') (or_intror Hin')) as [Hi' Hj']. cbn [fst snd] in Hi', Hj'.
        destruct (Hl (i, j) (or_introl eq_refl)) as [Hi0 Hj0]. cbn [fst snd] in Hi0, Hj0.
        apply Hn. replace i with i' by lia. replace j with j' by lia. exact Hin'.
    + intros k Hk. rewrite Hout by (intros a Ha; apply Hk; now right).
      rewrite model_set_cov.
      replace (k =? _)%Z with false; [reflexivity |].
      symmetry. apply Z.eqb_neq. apply Hk. now left.
Qed.

(** The assignments of [endLearning] for a component that has samples. *)
Lemma learnComponent_effect (g : GMM) (ci : Z) :
  (0 <= ci < 5)%Z ->
  let g1 := learnComponent g ci in
  let n := IZR (sampleCounts g ci) in
  inverseCovs g1 = inverseCovs g /\ covDeterms g1 = covDeterms g
  /\ same_learning g g1
  /\ coefs g1 ci = n / IZR (totalSampleCount g)
  /\ (forall j, (0 <= j < 3)%Z -> mean g1 (3 * ci + j) = sums g ci j / n)
  /\ (forall i j, (0 <= i < 3)%Z -> (0 <= j < 3)%Z ->
        cov g1 (9 * ci + (3 * i + j)) = sampleCov g ci i j)
  /\ (forall cj, (0 <= cj < 5)%Z -> cj <> ci ->
        coefs g1 cj = coefs g cj
        /\ (forall j, (0 <= j < 3)%Z -> mean g1 (3 * cj + j) = mean g (3 * cj + j))
        /\ (forall k, (0 <= k < 9)%Z -> cov g1 (9 * cj + k) = cov g (9 * cj + k))).
Proof.
  intros Hci. cbv zeta. unfold learnComponent. cbv zeta.
  set (nr := IZR (sampleCounts g ci)).
  set (g0 := set_coefs g ci (nr / IZR (totalSampleCount g))).
  set (ga := set_mean g0 (3 * ci + 0) (sums g0 ci 0%Z / nr)).
  set (gb := set_mean ga (3 * ci + 1) (sums ga ci 1%Z / nr)).
  set (gc := set_mean gb (3 * ci + 2) (sums gb ci 2%Z / nr)).
  set (m := fun i => mean gc (3 * ci + i)).
  match goal with |- context [fold_left ?f ?l gc] =>
    pose proof (cov_fold ci nr m l) as Hf end.
  cbv zeta in Hf.
  match type of Hf with ?P -> _ => assert (Hl : P) end.
  { intros ij Hij. cbn in Hij.
    repeat (destruct Hij as [<- | Hij]; [cbn; lia |]). contradiction. }
  specialize (Hf Hl gc). clear Hl.
  match type of Hf with context [fold_left ?f ?l gc] =>
    set (g' := fold_left f l gc) in * end.
  destruct Hf as [H1 [H2 [[H3 [H4 [H5 H6]]] [Hin Hout]]]].
  assert (Hcol : forall k, (k < 5 + 3 * 5 + 9 * ci \/ 5 + 3 * 5 + 9 * ci + 9 <= k)%Z ->
            mat_at (model g') 0 k = mat_at (model gc) 0 k).
  { intros k Hk. apply Hout. intros ij Hij. cbn in Hij.
    repeat (destruct Hij as [<- | Hij]; [cbn [fst snd]; lia |]). contradiction. }
  assert (Hm : forall j, (0 <= j < 3)%Z -> m j = sums g ci j / nr).
  { intros j Hj. unfold m, mean, componentsCount.
    destruct (three_cases j Hj) as [-> | [-> | ->]]; subst gc gb ga g0;
      rewrite ?model_set_mean, ?model_set_coefs;
      repeat match goal with
             | |- context [(?a =? ?b)%Z] =>
                 first [ replace (a =? b)%Z with true by (symmetry; apply Z.eqb_eq; lia)
                       | replace (a =? b)%Z with false by (symmetry; apply Z.eqb_neq; lia) ]
             end; reflexivity. }
  split; [exact H1 |]. split; [exact H2 |].
  split; [unfold same_learning; auto |]. split; [| split; [| split]].
  - unfold coefs. rewrite Hcol by lia. subst gc gb ga g0.
    rewrite !model_set_mean, model_set_coefs.
    repeat match goal with
           | |- context [(?a =? ?b)%Z] =>
               first [ replace (a =? b)%Z with true by (symmetry; apply Z.eqb_eq; lia)
                     | replace (a =? b)%Z with false by (symmetry; apply Z.eqb_neq; lia) ]
           end. reflexivity.
  - intros j Hj. rewrite <- (Hm j Hj). unfold m, mean, componentsCount.
    apply Hcol. lia.
  - intros i j Hi Hj. unfold cov, componentsCount. rewrite Hin.
    + unfold sampleCov. rewrite !Hm by assumption. reflexivity.
    + destruct (three_cases i Hi) as [-> | [-> | ->]];
        destruct (three_cases j Hj) as [-> | [-> | ->]]; cbn; tauto.
  - intros cj Hcj Hne.
    assert (Hother : forall k, (k < 5 + 3 * ci \/ 5 + 3 * ci + 3 <= k)%Z -> k <> ci ->
              (k < 5 + 3 * 5 + 9 * ci \/ 5 + 3 * 5 + 9 * ci + 9 <= k)%Z ->
              mat_at (model g') 0 k = mat_at (model g) 0 k).
    { intros k Hk1 Hk2 Hk3. rewrite Hcol by exact Hk3. subst gc gb ga g0.
      rewrite !model_set_mean, model_set_coefs.
      repeat match goal with
             | |- context [(?a =? ?b)%Z] =>
                 replace (a =? b)%Z with false by (symmetry; apply Z.eqb_neq; lia)
             end. reflexivity. }
    unfold coefs, mean, cov, componentsCount. repeat split.
    + apply Hother; lia.
    + intros j Hj. apply Hother; lia.
    + intros k Hk. apply Hother; lia.
Qed.

(** The white noise touches the diagonal of the covariance of its
    component, and only when the determinant is at most epsilon. *)
Lemma addWhiteNoise_effect (g : GMM) (ci : Z) :
  (0 <= ci < 5)%Z ->
  let g1 := addWhiteNoise g ci in
  inverseCovs g1 = inverseCovs g /\ covDeterms g1 = covDeterms g
  /\ same_learning g g1
  /\ (forall i j, (0 <= i < 3)%Z -> (0 <= j < 3)%Z ->
        cov g1 (9 * ci + (3 * i + j))
        = cov g (9 * ci + (3 * i + j))
          + (if Rleb (det3 (fun k => cov g (9 * ci + k))) epsilon
             then if (i =? j)%Z then 1 / 100 else 0
             else 0))
  /\ (forall k, (k < 5 + 3 * 5 + 9 * ci \/ 5 + 3 * 5 + 9 * ci + 9 <= k)%Z ->
        mat_at (model g1) 0 k = mat_at (model g) 0 k).
Proof.
  intros Hci. cbv zeta. unfold addWhiteNoise. cbv zeta.
  destruct (Rleb _ epsilon).
  - unfold same_learning. repeat split.
    + intros i j Hi Hj. unfold cov at 1. unfold componentsCount.
      rewrite !model_set_cov.
      destruct (three_cases i Hi) as [-> | [-> | ->]];
        destruct (three_cases j Hj) as [-> | [-> | ->]];
        repeat match goal with
               | |- context [(?a =? ?b)%Z] =>
                   first [ replace (a =? b)%Z with true by (symmetry; apply Z.eqb_eq; lia)
                         | replace (a =? b)%Z with false by (symmetry; apply Z.eqb_neq; lia) ]
               end;
        unfold cov, componentsCount; cbv iota;
        first [lra | f_equal; f_equal; lia].
    + intros k Hk. rewrite !model_set_cov.
      repeat match goal with
             | |- context [(?a =? ?b)%Z] =>
                 replace (a =? b)%Z with false by (symmetry; apply Z.eqb_neq; lia)
             end. reflexivity.
  - unfold same_learning. repeat split. intros i j _ _. lra.
Qed.

(** [calcInverseCovAndDeterm] that returns: for an active component the
    determinant has passed the assertion and the derived state is set from
    the buffer; nothing else is changed. *)
Lemma calcInverseCovAndDeterm_effect (g g' : GMM) (ci : Z) :
  calcInverseCovAndDeterm g ci = Ok g' ->
  model g' = model g /\ same_learning g g'
  /\ (coefs g ci > 0 -> derived_ok g' ci /\ covDeterms g' ci > epsilon)
  /\ (forall cj, cj <> ci ->
        covDeterms g' cj = covDeterms g cj
        /\ forall i j, inverseCovs g' cj i j = inverseCovs g cj i j).
Proof.
  unfold calcInverseCovAndDeterm. cbv zeta.
  destruct (Rgtb (coefs g ci) 0) eqn:Ec.
  2:{ intros H. injection H as <-. split; [reflexivity |].
      split; [unfold same_learning; auto |]. split; [| auto].
      intros Hc. apply Rgtb_spec in Hc. congruence. }
  destruct (Rgtb _ epsilon) eqn:Ed; cbn [CV_Assert bind]; [| discriminate].
  apply Rgtb_spec in Ed.
  intros H. injection H as <-.
  cbn [model sums prods sampleCounts totalSampleCount covDeterms inverseCovs].
  split; [reflexivity |]. split; [unfold same_learning; auto |]. split.
  - intros _. split; [split |].
    + unfold covOf, cov. cbn [model covDeterms]. unfold upd1. now rewrite Z.eqb_refl.
    + intros i j Hi Hj. unfold covOf, cov. cbn [model inverseCovs].
      destruct (three_cases i Hi) as [-> | [-> | ->]];
        destruct (three_cases j Hj) as [-> | [-> | ->]];
        unfold upd3, inv3; rewrite ?Z.eqb_refl; cbn [andb Z.eqb Pos.eqb];
        reflexivity.
    + cbn [covDeterms]. unfold upd1. rewrite Z.eqb_refl. exact Ed.
  - intros cj Hne. cbn [covDeterms inverseCovs]. split.
    + unfold upd1. replace (cj =? ci)%Z with false
        by (symmetry; apply Z.eqb_neq; assumption). reflexivity.
    + intros i j. unfold upd3.
      replace (cj =? ci)%Z with false by (symmetry; apply Z.eqb_neq; assumption).
      reflexivity.
Qed.

Lemma derived_ok_transfer (g g' : GMM) (cj : Z) :
  same_component g g' cj -> derived_ok g cj -> derived_ok g' cj.
Proof.
  intros [_ [_ [Hc [Hd Hi]]]] [H1 H2]. unfold derived_ok.
  assert (Hcov : forall k, (0 <= k < 9)%Z -> covOf g' cj k = covOf g cj k).
  { intros k Hk. unfold covOf. now apply Hc. }
  assert (Hdet : det3 (covOf g' cj) = det3 (covOf g cj)).
  { unfold det3. rewrite !Hcov by lia. reflexivity. }
  split.
  - now rewrite Hd, Hdet.
  - intros i j Hi' Hj'. rewrite Hi, H2 by assumption.
    unfold inv3. rewrite Hdet, !Hcov by lia. reflexivity.
Qed.

Lemma learnt_transfer (g0 g g' : GMM) (cj : Z) :
  same_component g g' cj -> learnt g0 g cj -> learnt g0 g' cj.
Proof.
  intros Hs [H1 [H2 H3]]. pose proof Hs as [Hc [Hm [Hv [Hd Hi]]]].
  unfold learnt. rewrite Hc. split; [exact H1 |]. split.
  - intros Hn. destruct (H2 Hn) as [Ha Hb]. split.
    + intros j Hj. now rewrite Hm, Ha.
    + intros i j Hi' Hj'. rewrite Hv by lia. now apply Hb.
  - intros Hpos. destruct (H3 Hpos) as [Ha Hb]. split.
    + now apply (derived_ok_transfer g).
    + now rewrite Hd.
Qed.

(** The body of the loop of [endLearning] for component [ci]. *)
Lemma endLearning_ci_effect (g g' : GMM) (ci : Z) :
  (0 <= ci < 5)%Z -> endLearning_ci g ci = Ok g' ->
  same_learning g g' /\ learnt g g' ci
  /\ forall cj, (0 <= cj < 5)%Z -> cj <> ci -> same_component g g' cj.
Proof.
  intros Hci. unfold endLearning_ci. cbv zeta.
  destruct (sampleCounts g ci =? 0)%Z eqn:En.
  - apply Z.eqb_eq in En. intros H. injection H as <-.
    split; [unfold same_learning; auto |]. split.
    + unfold learnt. unfold coefs at 1 2. rewrite model_set_coefs, Z.eqb_refl, En.
      split; [unfold Rdiv; now rewrite Rmult_0_l |].
      split; [intros Hn; now elim Hn | intros Hpos; lra].
    + intros cj Hcj Hne. unfold same_component, coefs, mean, cov, componentsCount.
      rewrite !model_set_coefs. repeat split; auto.
      * replace (cj =? ci)%Z with false by (symmetry; apply Z.eqb_neq; lia). reflexivity.
      * intros j Hj. rewrite model_set_coefs.
        replace (_ =? ci)%Z with false by (symmetry; apply Z.eqb_neq; lia). reflexivity.
      * intros k Hk. rewrite model_set_coefs.
        replace (_ =? ci)%Z with false by (symmetry; apply Z.eqb_neq; lia). reflexivity.
  - apply Z.eqb_neq in En. intros H.
    destruct (learnComponent_effect g ci Hci)
      as [L1 [L2 [[L3 [L4 [L5 L6]]] [Lc [Lm [Lv Lo]]]]]].
    destruct (addWhiteNoise_effect (learnComponent g ci) ci Hci)
      as [W1 [W2 [[W3 [W4 [W5 W6]]] [Wv Wo]]]].
    destruct (calcInverseCovAndDeterm_effect _ _ _ H)
      as [Cm [[C3 [C4 [C5 C6]]] [Cd Co]]].
    set (g1 := learnComponent g ci) in *. set (g2 := addWhiteNoise g1 ci) in *.
    assert (Hcol : forall k, mat_at (model g') 0 k = mat_at (model g2) 0 k)
      by (intros k; now rewrite Cm).
    split; [unfold same_learning; repeat split; congruence |]. split.
    + unfold learnt.
      assert (Hcoef : coefs g' ci = coefs g1 ci).
      { unfold coefs. rewrite Hcol. apply Wo. lia. }
      split; [now rewrite Hcoef, Lc |]. split.
      * intros _. split.
        -- intros j Hj. unfold mean, componentsCount. rewrite Hcol, Wo by lia.
           now apply Lm.
        -- intros i j Hi Hj. unfold cov at 1. unfold componentsCount. rewrite Hcol.
           change (mat_at (model g2) 0 (5 + 3 * 5 + (9 * ci + (3 * i + j))))
             with (cov g2 (9 * ci + (3 * i + j))).
           rewrite Wv, Lv by assumption. unfold learntCov. f_equal.
           replace (det3 (fun k => cov g1 (9 * ci + k)))
             with (det3 (fun k => sampleCov g ci (k / 3) (k mod 3))); [reflexivity |].
           assert (Lv' : forall k, (0 <= k < 9)%Z ->
                     cov g1 (9 * ci + k) = sampleCov g ci (k / 3) (k mod 3)).
           { intros k Hk.
             destruct (nine_cases k Hk)
               as [-> | [-> | [-> | [-> | [-> | [-> | [-> | [-> | ->]]]]]]]];
               [ exact (Lv 0 0 ltac:(lia) ltac:(lia))%Z
               | exact (Lv 0 1 ltac:(lia) ltac:(lia))%Z
               | exact (Lv 0 2 ltac:(lia) ltac:(lia))%Z
               | exact (Lv 1 0 ltac:(lia) ltac:(lia))%Z
               | exact (Lv 1 1 ltac:(lia) ltac:(lia))%Z
               | exact (Lv 1 2 ltac:(lia) ltac:(lia))%Z
               | exact (Lv 2 0 ltac:(lia) ltac:(lia))%Z
               | exact (Lv 2 1 ltac:(lia) ltac:(lia))%Z
               | exact (Lv 2 2 ltac:(lia) ltac:(lia))%Z ]. }
           unfold det3. rewrite !Lv' by lia. reflexivity.
      * intros Hpos. apply Cd. unfold coefs in *. now rewrite <- Hcol.
    + intros cj Hcj Hne. destruct (Lo cj Hcj Hne) as [O1 [O2 O3]].
      destruct (Co cj Hne) as [D1 D2].
      unfold same_component, coefs, mean, cov, componentsCount in *. repeat split.
      * rewrite Hcol, Wo by lia. exact O1.
      * intros j Hj. rewrite Hcol, Wo by lia. now apply O2.
      * intros k Hk. rewrite Hcol, Wo by lia. now apply O3.
      * now rewrite D1, W2, L2.
      * intros i j. now rewrite D2, W1, L1.
Qed.

(** [endLearning] that returns has learnt every component. *)
Lemma endLearning_learnt (g g' : GMM) :
  endLearning g = Ok g' ->
  same_learning g g' /\ forall ci, (0 <= ci < 5)%Z -> learnt g g' ci.
Proof.
  unfold endLearning. intros H.
  pose proof (forM_Ok_keeps
    (fun done s => same_learning g s /\ forall ci, In ci done -> learnt g s ci)
    endLearning_ci (zrange componentsCount) g) as Hinv.
  destruct (Hinv) with (s' := g') as [Hs Hl]; [| | exact H |].
  - split; [unfold same_learning; auto | intros ci []].
  - intros pre a post s s' Hsplit [[S1 [S2 [S3 S4]]] Hdone] Hbody.
    assert (Ha : (0 <= a < 5)%Z).
    { apply (zrange_In 5). change 5%Z with componentsCount. rewrite Hsplit.
      apply in_or_app. right. now left. }
    destruct (endLearning_ci_effect s s' a Ha Hbody) as [[T1 [T2 [T3 T4]]] [Hl Ho]].
    split; [unfold same_learning; repeat split; congruence |].
    intros ci Hin. apply in_app_or in Hin. destruct Hin as [Hin | [<- | []]].
    + apply (learnt_transfer g s); [| now apply Hdone].
      assert (Hlt : (ci < a)%Z).
      { pose proof (zrange_sorted componentsCount) as Hsrt. rewrite Hsplit in Hsrt.
        now apply (StronglySorted_prefix Z.lt pre post a Hsrt). }
      apply Ho; [| lia].
      assert (Hci : In ci (zrange componentsCount))
        by (rewrite Hsplit; apply in_or_app; now left).
      apply zrange_In in Hci. unfold componentsCount in Hci. lia.
    + unfold learnt, learntCov, sampleCov in *.
      rewrite S1, S2, S3, S4 in Hl. exact Hl.
  - split; [exact Hs |]. intros ci Hci. apply Hl. now apply zrange_In.
Qed.

End Learning_parameters.

Section Learnt_models.
Local Open Scope R_scope.

(** X11.  [endLearning] that returns has set, for each of the five
    components, the weight to the share of the samples of the component in
    all samples, and, for a component that has samples, the mean to the
    mean of its samples and the covariance to the covariance of its
    samples, with or without the white noise: 0.01 added to each of the
    three diagonal entries, or nothing. *)
Theorem endLearning_parameters (g g' : GMM) (ci : Z)
    (Hrun : endLearning g = Ok g') (Hci : (0 <= ci < componentsCount)%Z) :
  coefs g' ci = IZR (sampleCounts g ci) / IZR (totalSampleCount g)
  /\ (sampleCounts g ci <> 0%Z ->
      (forall j, (0 <= j < 3)%Z ->
         mean g' (3 * ci + j) = sums g ci j / IZR (sampleCounts g ci))
      /\ exists noise,
           (noise = 0 \/ noise = 1 / 100)
           /\ forall i j, (0 <= i < 3)%Z -> (0 <= j < 3)%Z ->
                cov g' (9 * ci + (3 * i + j))
                = sampleCov g ci i j + (if (i =? j)%Z then noise else 0)).
Proof.
  destruct (endLearning_learnt g g' Hrun) as [_ Hl].
  destruct (Hl ci Hci) as [H1 [H2 _]].
  split; [exact H1 |]. intros Hn. destruct (H2 Hn) as [Hm Hc].
  split; [exact Hm |]. unfold learntCov in Hc.
  destruct (Rleb _ epsilon).
  - exists (1 / 100). split; [now right |]. exact Hc.
  - exists 0. split; [now left |]. intros i j Hi Hj. rewrite (Hc i j Hi Hj).
    destruct (i =? j)%Z; reflexivity.
Qed.

(** After [endLearning] every active component passes the assertion of
    [operator()]. *)
Lemma endLearning_regular (g g' : GMM) :
  endLearning g = Ok g' ->
  components_regular g'
  /\ forall ci, (0 <= ci < componentsCount)%Z -> coefs g' ci > 0 -> derived_ok g' ci.
Proof.
  intros Hrun. destruct (endLearning_learnt g g' Hrun) as [_ Hl].
  split; intros ci Hci Hpos; destruct (Hl ci Hci) as [_ [_ H3]]; now apply H3.
Qed.

(** X12.  A model that [endLearning] has learnt can be evaluated: the
    determinant of every component of positive weight is above epsilon and
    its inverse covariance is that of the buffer, so that neither
    [operator()] nor [whichComponent] fails its assertion, and the value of
    the mixture is not negative. *)
Theorem learnt_model_can_be_evaluated (g g' : GMM) (color : Vec3d)
    (Hrun : endLearning g = Ok g') :
  components_regular g'
  /\ (forall ci, (0 <= ci < componentsCount)%Z -> coefs g' ci > 0 -> derived_ok g' ci)
  /\ GMM_call g' color = Ok (mixtureValue g' color)
  /\ 0 <= mixtureValue g' color
  /\ exists k, whichComponent g' color = Ok k /\ (0 <= k < componentsCount)%Z.
Proof.
  destruct (endLearning_regular g g' Hrun) as [Hreg Hder].
  split; [exact Hreg |]. split; [exact Hder |].
  split; [now apply GMM_call_value |]. split.
  - unfold mixtureValue. change (zrange componentsCount) with [0; 1; 2; 3; 4]%Z.
    cbn [fold_left].
    assert (Ht : forall ci, (0 <= ci < componentsCount)%Z ->
              0 <= coefs g' ci * componentValue g' ci color).
    { intros ci Hci. unfold componentValue.
      destruct (Rgtb (coefs g' ci) 0) eqn:E; [| lra].
      pose proof (componentValue_nonneg g' ci color (Hreg ci Hci)) as Hv.
      unfold componentValue in Hv. rewrite E in Hv. apply Rgtb_spec in E.
      apply Rmult_le_pos; lra. }
    pose proof (Ht 0%Z ltac:(unfold componentsCount; lia)).
    pose proof (Ht 1%Z ltac:(unfold componentsCount; lia)).
    pose proof (Ht 2%Z ltac:(unfold componentsCount; lia)).
    pose proof (Ht 3%Z ltac:(unfold componentsCount; lia)).
    pose proof (Ht 4%Z ltac:(unfold componentsCount; lia)). lra.
  - destruct (whichComponent_first_largest g' color Hreg) as [k [Hk [Hr _]]]. eauto.
Qed.

(** The weights of a learnt model, for consistent counters. *)
Lemma endLearning_weightSum (g g' : GMM) :
  endLearning g = Ok g' -> counts_consistent g ->
  (forall ci, (0 <= ci < componentsCount)%Z -> 0 <= coefs g' ci <= 1)
  /\ ((0 < totalSampleCount g)%Z -> weightSum g' = 1)
  /\ (totalSampleCount g = 0%Z ->
      forall ci, (0 <= ci < componentsCount)%Z -> coefs g' ci = 0).
Proof.
  intros Hrun [Hnn Htot]. destruct (endLearning_learnt g g' Hrun) as [_ Hl].
  assert (Hc : forall ci, (0 <= ci < componentsCount)%Z ->
            coefs g' ci = IZR (sampleCounts g ci) / IZR (totalSampleCount g)).
  { intros ci Hci. now destruct (Hl ci Hci) as [H _]. }
  assert (H0 := Hnn 0%Z ltac:(unfold componentsCount; lia)).
  assert (H1 := Hnn 1%Z ltac:(unfold componentsCount; lia)).
  assert (H2 := Hnn 2%Z ltac:(unfold componentsCount; lia)).
  assert (H3 := Hnn 3%Z ltac:(unfold componentsCount; lia)).
  assert (H4 := Hnn 4%Z ltac:(unfold componentsCount; lia)).
  split; [| split].
  - intros ci Hci. rewrite (Hc ci Hci).
    assert (Hle : (0 <= sampleCounts g ci <= totalSampleCount g)%Z).
    { split; [now apply Hnn |]. unfold componentsCount in Hci.
      assert (E : ci = 0%Z \/ ci = 1%Z \/ ci = 2%Z \/ ci = 3%Z \/ ci = 4%Z) by lia.
      destruct E as [-> | [-> | [-> | [-> | ->]]]]; lia. }
    destruct (Z.eq_dec (totalSampleCount g) 0) as [Ez | Ez].
    + assert (En : sampleCounts g ci = 0%Z) by lia. rewrite En.
      unfold Rdiv. rewrite Rmult_0_l. lra.
    + assert (Hp : 0 < IZR (totalSampleCount g)) by (apply IZR_lt; lia).
      destruct Hle as [Ha Hb]. apply IZR_le in Ha. apply IZR_le in Hb.
      split.
      * apply Rmult_le_pos; [exact Ha |]. apply Rlt_le. now apply Rinv_0_lt_compat.
      * apply (Rmult_le_reg_r (IZR (totalSampleCount g))); [exact Hp |].
        unfold Rdiv. rewrite Rmult_assoc, Rinv_l by lra. lra.
  - intros Hpos. unfold weightSum.
    rewrite !Hc by (unfold componentsCount; lia).
    assert (Hp : 0 < IZR (totalSampleCount g)) by (apply IZR_lt; lia).
    rewrite Htot at 1 2 3 4 5. rewrite !plus_IZR.
    rewrite Htot in Hp. rewrite !plus_IZR in Hp. field. lra.
  - intros Ez ci Hci. rewrite (Hc ci Hci).
    assert (En : sampleCounts g ci = 0%Z).
    { unfold componentsCount in Hci.
      assert (E : ci = 0%Z \/ ci = 1%Z \/ ci = 2%Z \/ ci = 3%Z \/ ci = 4%Z) by lia.
      destruct E as [-> | [-> | [-> | [-> | ->]]]]; lia. }
    rewrite En. unfold Rdiv. now rewrite Rmult_0_l.
Qed.

(** *** The counters *)

Lemma initLearning_fold_counts (l : list Z) (g : GMM) (ci : Z) :
  sampleCounts
    (fold_left
       (fun g ci =>
          let s := upd2 (upd2 (upd2 (sums g) ci 2 0) ci 1 0) ci 0 0 in
          let p := prods g in
          let p := upd3 (upd3 (upd3 p ci 0 2 0) ci 0 1 0) ci 0 0 0 in
          let p := upd3 (upd3 (upd3 p ci 1 2 0) ci 1 1 0) ci 1 0 0 in
          let p := upd3 (upd3 (upd3 p ci 2 2 0) ci 2 1 0) ci 2 0 0 in
          mkGMM (model g) (inverseCovs g) (covDeterms g) s p
                (upd1 (sampleCounts g) ci 0%Z) (totalSampleCount g))
       l g) ci
  = if existsb (Z.eqb ci) l then 0%Z else sampleCounts g ci.
Proof.
  revert g. induction l as [| a l IH]; intros g; cbn [fold_left existsb];
    [reflexivity |].
  rewrite IH. cbv zeta. cbn [sampleCounts]. unfold upd1.
  destruct (existsb (Z.eqb ci) l); [now rewrite orb_true_r |].
  rewrite orb_false_r. reflexivity.
Qed.

Lemma initLearning_counts (g : GMM) :
  counts_consistent (initLearning g) /\ totalSampleCount (initLearning g) = 0%Z.
Proof.
  assert (Hz : forall ci, (0 <= ci < componentsCount)%Z ->
            sampleCounts (initLearning g) ci = 0%Z).
  { intros ci Hci. unfold initLearning. cbv zeta. cbn [sampleCounts].
    rewrite initLearning_fold_counts.
    replace (existsb (Z.eqb ci) (zrange componentsCount)) with true; [reflexivity |].
    symmetry. apply existsb_exists. exists ci. split; [now apply zrange_In |].
    apply Z.eqb_refl. }
  split; [| reflexivity]. split.
  - intros ci Hci. rewrite Hz by assumption. lia.
  - rewrite !Hz by (unfold componentsCount; lia). reflexivity.
Qed.

Lemma addSample_counts (g : GMM) (ci : Z) (color : Vec3d) :
  (0 <= ci < componentsCount)%Z -> counts_consistent g ->
  counts_consistent (addSample g ci color)
  /\ totalSampleCount (addSample g ci color) = (totalSampleCount g + 1)%Z.
Proof.
  intros Hci [Hnn Htot]. destruct color as [[c0 c1] c2].
  unfold addSample. cbv zeta. cbn [totalSampleCount]. split; [| reflexivity].
  unfold counts_consistent. cbn [sampleCounts totalSampleCount]. unfold upd1. split.
  - intros cj Hcj. destruct (cj =? ci)%Z; [| now apply Hnn].
    specialize (Hnn ci Hci). lia.
  - unfold componentsCount in Hci.
    assert (E : ci = 0%Z \/ ci = 1%Z \/ ci = 2%Z \/ ci = 3%Z \/ ci = 4%Z) by lia.
    destruct E as [-> | [-> | [-> | [-> | ->]]]]; cbn [Z.eqb Pos.eqb]; lia.
Qed.

Lemma fold_left_keeps {A S} (P : S -> Prop) (step : S -> A -> S) (l : list A) :
  (forall s a, In a l -> P s -> P (step s a)) ->
  forall s, P s -> P (fold_left step l s).
Proof.
  induction l as [| a l IH]; intros H s Hs; cbn [fold_left]; [exact Hs |].
  apply IH; [intros s' a' Ha'; apply H; now right |].
  apply H; [now left | exact Hs].
Qed.

(** X13.  The weights that [learnGMMs] gives to each of the two models lie
    between 0 and 1, and they sum to 1 or are all 0. *)
Theorem learnGMMs_weights_sum_to_one
    (img : Mat Vec3b) (mask compIdxs : Mat Z) (bgdGMM fgdGMM b f : GMM)
    (Hrun : learnGMMs img mask compIdxs bgdGMM fgdGMM = Ok (b, f)) :
  (forall ci, (0 <= ci < componentsCount)%Z -> 0 <= coefs b ci <= 1 /\ 0 <= coefs f ci <= 1)
  /\ (weightSum b = 1 \/ forall ci, (0 <= ci < componentsCount)%Z -> coefs b ci = 0)
  /\ (weightSum f = 1 \/ forall ci, (0 <= ci < componentsCount)%Z -> coefs f ci = 0).
Proof.
  unfold learnGMMs in Hrun.
  match type of Hrun with context [fold_left ?F ?l ?s0] =>
    assert (Hinv : counts_consistent (fst (fold_left F l s0))
                   /\ counts_consistent (snd (fold_left F l s0)));
    [| destruct (fold_left F l s0) as [b0 f0] ] end.
  { apply (fold_left_keeps (fun bf : GMM * GMM =>
             counts_consistent (fst bf) /\ counts_consistent (snd bf))).
    - intros bf ci Hci Hbf. apply zrange_In in Hci.
      apply (fold_left_keeps (fun bf : GMM * GMM =>
               counts_consistent (fst bf) /\ counts_consistent (snd bf)));
        [| exact Hbf].
      intros [b1 f1] p _ [Hb1 Hf1]. cbn [fst snd] in *.
      destruct (mat_atP compIdxs p =? ci)%Z; [| now split].
      destruct (is_bgd_like (mat_atP mask p)); cbn [fst snd]; split; auto;
        now apply addSample_counts.
    - cbn [fst snd]. split; apply initLearning_counts. }
  cbn [fst snd] in Hinv. destruct Hinv as [Hb0 Hf0].
  apply bind_Ok in Hrun. destruct Hrun as [b' [Hb Hrun]].
  apply bind_Ok in Hrun. destruct Hrun as [f' [Hf Hrun]].
  injection Hrun as <- <-.
  destruct (endLearning_weightSum b0 b' Hb Hb0) as [B1 [B2 B3]].
  destruct (endLearning_weightSum f0 f' Hf Hf0) as [F1 [F2 F3]].
  split; [intros ci Hci; split; auto |].
  assert (Hbt : (0 <= totalSampleCount b0)%Z).
  { destruct Hb0 as [Hnn ->].
    pose proof (Hnn 0%Z ltac:(unfold componentsCount; lia)).
    pose proof (Hnn 1%Z ltac:(unfold componentsCount; lia)).
    pose proof (Hnn 2%Z ltac:(unfold componentsCount; lia)).
    pose proof (Hnn 3%Z ltac:(unfold componentsCount; lia)).
    pose proof (Hnn 4%Z ltac:(unfold componentsCount; lia)). lia. }
  assert (Hft : (0 <= totalSampleCount f0)%Z).
  { destruct Hf0 as [Hnn ->].
    pose proof (Hnn 0%Z ltac:(unfold componentsCount; lia)).
    pose proof (Hnn 1%Z ltac:(unfold componentsCount; lia)).
    pose proof (Hnn 2%Z ltac:(unfold componentsCount; lia)).
    pose proof (Hnn 3%Z ltac:(unfold componentsCount; lia)).
    pose proof (Hnn 4%Z ltac:(unfold componentsCount; lia)). lia. }
  split.
  - destruct (Z.eq_dec (totalSampleCount b0) 0) as [E | E];
      [right; now apply B3 | left; apply B2; lia].
  - destruct (Z.eq_dec (totalSampleCount f0) 0) as [E | E];
      [right; now apply F3 | left; apply F2; lia].
Qed.

End Learnt_models.

Section Seeded_models.
Local Open Scope R_scope.
Variable kmeans : list Vec3d -> Z -> list Z.

Lemma addLabelled_fold_counts (labels : list Z) (samples : list Vec3d) (l : list nat) :
  (forall i, (0 <= nth i labels 0 < componentsCount)%Z) ->
  forall g, counts_consistent g ->
  let g' := fold_left (fun g i => addSample g (nth i labels 0%Z) (nth i samples zero3))
                      l g in
  counts_consistent g'
  /\ totalSampleCount g' = (totalSampleCount g + Z.of_nat (List.length l))%Z.
Proof.
  intros Hl. induction l as [| i l IH]; intros g Hg; cbn [fold_left List.length].
  - cbv zeta. split; [exact Hg | lia].
  - destruct (addSample_counts g (nth i labels 0%Z) (nth i samples zero3) (Hl i) Hg)
      as [Hc Ht].
    destruct (IH _ Hc) as [Hc' Ht']. cbv zeta in *. split; [exact Hc' |].
    rewrite Ht', Ht. lia.
Qed.

Lemma addLabelled_counts (g : GMM) (labels : list Z) (samples : list Vec3d) :
  (forall i, (0 <= nth i labels 0 < componentsCount)%Z) ->
  counts_consistent (addLabelled (initLearning g) labels samples)
  /\ totalSampleCount (addLabelled (initLearning g) labels samples)
     = Z.of_nat (List.length samples).
Proof.
  intros Hl. destruct (initLearning_counts g) as [Hc Ht].
  destruct (addLabelled_fold_counts labels samples (seq 0 (List.length samples)) Hl
              (initLearning g) Hc) as [Hc' Ht'].
  cbv zeta in *. unfold addLabelled. split; [exact Hc' |].
  rewrite Ht', Ht, length_seq. lia.
Qed.

(** X14.  With a k-means that labels every sample with one of the five
    clusters, the weights of each of the two models that [initGMMs]
    returns lie between 0 and 1 and sum to 1. *)
Theorem initGMMs_weights_sum_to_one
    (img : Mat Vec3b) (mask : Mat Z) (bgdGMM fgdGMM b f : GMM)
    (Hlabels : forall samples i,
       (0 <= nth i (kmeans samples componentsCount) 0 < componentsCount)%Z)
    (Hrun : initGMMs kmeans img mask bgdGMM fgdGMM = Ok (b, f)) :
  weightSum b = 1 /\ weightSum f = 1
  /\ forall ci, (0 <= ci < componentsCount)%Z ->
       0 <= coefs b ci <= 1 /\ 0 <= coefs f ci <= 1.
Proof.
  unfold initGMMs in Hrun.
  destruct (fold_left _ _ _) as [bs fs].
  apply bind_Ok in Hrun. destruct Hrun as [[] [Hassert Hrun]].
  apply bind_Ok in Hrun. destruct Hrun as [b' [Hb Hrun]].
  apply bind_Ok in Hrun. destruct Hrun as [f' [Hf Hrun]].
  injection Hrun as <- <-.
  unfold CV_Assert in Hassert.
  destruct (negb (List.length bs =? 0)%nat && negb (List.length fs =? 0)%nat) eqn:E;
    [| discriminate].
  apply andb_true_iff in E. destruct E as [Eb Ef].
  apply negb_true_iff in Eb. apply negb_true_iff in Ef.
  apply Nat.eqb_neq in Eb. apply Nat.eqb_neq in Ef.
  destruct (addLabelled_counts bgdGMM (kmeans bs componentsCount) bs (Hlabels bs))
    as [Hcb Htb].
  destruct (addLabelled_counts fgdGMM (kmeans fs componentsCount) fs (Hlabels fs))
    as [Hcf Htf].
  destruct (endLearning_weightSum _ _ Hb Hcb) as [B1 [B2 _]].
  destruct (endLearning_weightSum _ _ Hf Hcf) as [F1 [F2 _]].
  split; [apply B2; lia |]. split; [apply F2; lia |].
  intros ci Hci. split; auto.
Qed.

End Seeded_models.

Section Component_indices.
Local Open Scope R_scope.

(** [whichComponent] that returns gives one of the five indices. *)
Lemma whichComponent_range (g : GMM) (color : Vec3d) (k : Z) :
  whichComponent g color = Ok k -> (0 <= k < componentsCount)%Z.
Proof.
  unfold whichComponent. intros H. apply bind_Ok in H. destruct H as [km [Hrun H]].
  injection H as <-. revert Hrun.
  apply (forM_Ok_keeps (fun _ (km : Z * R) => (0 <= fst km < componentsCount)%Z)).
  - cbn. unfold componentsCount. lia.
  - intros pre a post s s' Hsplit Hs Hbody.
    apply bind_Ok in Hbody. destruct Hbody as [p [_ Hbody]].
    destruct (Rgtb p (snd s)); injection Hbody as <-; [| exact Hs].
    cbn [fst]. apply zrange_In. rewrite Hsplit. apply in_or_app. right. now left.
Qed.

(** The component indices after [assignGMMsComponents]. *)
Lemma assignGMMsComponents_at
    (img : Mat Vec3b) (mask : Mat Z) (bgdGMM fgdGMM : GMM) (compIdxs compIdxs' : Mat Z)
    (y x : Z) :
  assignGMMsComponents img mask bgdGMM fgdGMM compIdxs = Ok compIdxs' ->
  (0 <= y < rows img)%Z -> (0 <= x < cols img)%Z ->
  whichComponent (if is_bgd_like (mat_at mask y x) then bgdGMM else fgdGMM)
                 (to_Vec3d (mat_at img y x))
  = Ok (mat_at compIdxs' y x)
  /\ (0 <= mat_at compIdxs' y x < componentsCount)%Z.
Proof.
  intros Hrun Hy Hx.
  assert (H : whichComponent (if is_bgd_like (mat_at mask y x) then bgdGMM else fgdGMM)
                (to_Vec3d (mat_at img y x)) = Ok (mat_at compIdxs' y x)).
  { unfold assignGMMsComponents in Hrun. revert Hrun.
    pose (good := fun (c : Mat Z) (q : Point) =>
      whichComponent (if is_bgd_like (mat_atP mask q) then bgdGMM else fgdGMM)
                     (to_Vec3d (mat_atP img q)) = Ok (mat_atP c q)).
    intros Hrun.
    assert (Hall : forall q, In q (raster (rows img) (cols img)) -> good compIdxs' q).
    { revert Hrun.
      apply (forM_Ok_keeps (fun done c => forall q, In q done -> good c q)).
      - intros q [].
      - intros pre p post c c' _ Hdone Hbody.
        apply bind_Ok in Hbody. destruct Hbody as [k [Hk Hbody]].
        injection Hbody as <-. intros q Hq. unfold good, mat_atP, mat_setP, mat_set.
        cbn [elems].
        destruct ((py q =? py p)%Z && (px q =? px p)%Z) eqn:E.
        + apply andb_true_iff in E. destruct E as [Ey Ex].
          apply Z.eqb_eq in Ey. apply Z.eqb_eq in Ex.
          unfold mat_atP in Hk. rewrite Ey, Ex.
          destruct (is_bgd_like (elems mask (py p) (px p))); exact Hk.
        + apply in_app_or in Hq. destruct Hq as [Hq | [<- | []]].
          * now apply Hdone.
          * rewrite !Z.eqb_refl in E. discriminate. }
    apply (Hall (mkPoint x y)). apply raster_In. cbn. auto. }
  split; [exact H |]. now apply whichComponent_range in H.
Qed.

(** X15.  After [assignGMMsComponents] the entry of [compIdxs] at each
    pixel of the image is the answer of [whichComponent] of the model of
    the class of the pixel (the background model for GC_BGD and GC_PR_BGD,
    the foreground model otherwise) for the colour of the pixel, and it is
    one of 0, ..., 4. *)
Theorem assignGMMsComponents_indices
    (img : Mat Vec3b) (mask : Mat Z) (bgdGMM fgdGMM : GMM) (compIdxs compIdxs' : Mat Z)
    (y x : Z)
    (Hrun : assignGMMsComponents img mask bgdGMM fgdGMM compIdxs = Ok compIdxs')
    (Hy : (0 <= y < rows img)%Z) (Hx : (0 <= x < cols img)%Z) :
  whichComponent (if is_bgd_like (mat_at mask y x) then bgdGMM else fgdGMM)
                 (to_Vec3d (mat_at img y x))
  = Ok (mat_at compIdxs' y x)
  /\ (0 <= mat_at compIdxs' y x < componentsCount)%Z.
Proof.
  exact (assignGMMsComponents_at img mask bgdGMM fgdGMM compIdxs compIdxs' y x
           Hrun Hy Hx).
Qed.

Lemma assignGMMsComponents_indexed
    (img : Mat Vec3b) (mask : Mat Z) (bgdGMM fgdGMM : GMM) (compIdxs compIdxs' : Mat Z)
    (y x : Z) :
  assignGMMsComponents img mask bgdGMM fgdGMM compIdxs = Ok compIdxs' ->
  (0 <= y < rows img)%Z -> (0 <= x < cols img)%Z ->
  (0 <= mat_at compIdxs' y x < componentsCount)%Z.
Proof.
  intros Hrun Hy Hx.
  now destruct (assignGMMsComponents_at img mask bgdGMM fgdGMM compIdxs compIdxs' y x
                  Hrun Hy Hx).
Qed.

End Component_indices.

(** ** The inverse covariance *)

Section Inverse_covariance.
Local Open Scope R_scope.

(** X16.  For a component of positive weight, [calcInverseCovAndDeterm]
    that returns has stored the determinant of the covariance, which is
    above epsilon, and the inverse of the covariance: the product of the
    covariance and [inverseCovs] is the identity matrix.  The parameter
    buffer is left as it is. *)
Theorem calcInverseCovAndDeterm_inverts (g g' : GMM) (ci : Z)
    (Hrun : calcInverseCovAndDeterm g ci = Ok g') (Hpos : coefs g ci > 0) :
  model g' = model g
  /\ covDeterms g' ci = det3 (covOf g ci) /\ covDeterms g' ci > epsilon
  /\ forall i j, (0 <= i < 3)%Z -> (0 <= j < 3)%Z ->
       cov g (9 * ci + (3 * i + 0)) * inverseCovs g' ci 0 j
       + cov g (9 * ci + (3 * i + 1)) * inverseCovs g' ci 1 j
       + cov g (9 * ci + (3 * i + 2)) * inverseCovs g' ci 2 j
       = if (i =? j)%Z then 1 else 0.
Proof.
  destruct (calcInverseCovAndDeterm_effect g g' ci Hrun) as [Hm [_ [Hd _]]].
  destruct (Hd Hpos) as [[Hdet Hinv] Hgt].
  assert (Hcov : covOf g' ci = covOf g ci) by (unfold covOf, cov; now rewrite Hm).
  rewrite Hcov in Hdet, Hinv.
  split; [exact Hm |]. split; [exact Hdet |]. split; [exact Hgt |].
  intros i j Hi Hj. rewrite !Hinv by lia.
  apply (inv3_inverse (covOf g ci)); [| exact Hi | exact Hj].
  rewrite <- Hdet. pose proof epsilon_pos. lra.
Qed.

(** The value of a component is not negative when it is defined. *)
Lemma GMM_call_ci_nonneg (g : GMM) (ci : Z) (color : Vec3d) (v : R) :
  GMM_call_ci g ci color = Ok v -> 0 <= v /\ 0 <= coefs g ci * v.
Proof.
  unfold GMM_call_ci. destruct (Rgtb (coefs g ci) 0) eqn:Ec.
  - apply Rgtb_spec in Ec.
    destruct (Rgtb (covDeterms g ci) epsilon) eqn:Ed; cbn [CV_Assert bind];
      [| discriminate].
    apply Rgtb_spec in Ed. destruct color as [[c0 c1] c2]. cbv zeta.
    intros H. injection H as <-.
    pose proof epsilon_pos.
    assert (0 < sqrt (covDeterms g ci)) by (apply sqrt_lt_R0; lra).
    assert (0 < 1 / sqrt (covDeterms g ci)) by (apply Rdiv_lt_0_compat; lra).
    match goal with |- context [exp ?t] =>
      pose proof (exp_pos t); set (e := exp t) in * end.
    set (q := 1 / sqrt (covDeterms g ci)) in *.
    assert (0 < q * e) by (apply Rmult_lt_0_compat; assumption).
    split; [lra |]. apply Rmult_le_pos; lra.
  - intros H. injection H as <-. split; [lra |]. rewrite Rmult_0_r. lra.
Qed.

(** X17.  The value of the mixture, [operator()(color)], is never
    negative, whatever the parameters: a component of weight at most 0
    contributes 0 and one of positive weight a positive value. *)
Theorem GMM_call_nonneg (g : GMM) (color : Vec3d) (v : R)
    (Hrun : GMM_call g color = Ok v) : 0 <= v.
Proof.
  unfold GMM_call in Hrun. revert Hrun.
  apply (forM_Ok_keeps (fun _ (r : R) => 0 <= r)).
  - lra.
  - intros pre a post s s' _ Hs Hbody.
    apply bind_Ok in Hbody. destruct Hbody as [w [Hw Hbody]].
    injection Hbody as <-. apply GMM_call_ci_nonneg in Hw. lra.
Qed.

End Inverse_covariance.

(** ** The segmentation update *)

Section Segmentation_update.
Variable inSourceSegment : GCGraph -> Z -> bool.

Lemma fold_left_done {A S} (I : list A -> S -> Prop) (step : S -> A -> S)
    (l : list A) (s0 : S) :
  I [] s0 ->
  (forall pre a post s, l = pre ++ a :: post -> I pre s -> I (pre ++ [a]) (step s a)) ->
  I l (fold_left step l s0).
Proof.
  intros H0 Hstep.
  assert (G : forall rest pre s, l = pre ++ rest -> I pre s -> I l (fold_left step rest s)).
  { induction rest as [| a rest IH]; intros pre s Hl Hi; cbn [fold_left].
    - rewrite app_nil_r in Hl. now subst.
    - apply (IH (pre ++ [a])); [now rewrite <- app_assoc |]. now apply (Hstep pre a rest). }
  apply (G l [] s0); auto.
Qed.

Lemma visited_raster (r c y x : Z) :
  visited (raster r c) y x = true <-> 0 <= y < r /\ 0 <= x < c.
Proof.
  unfold visited. rewrite existsb_exists. split.
  - intros [p [Hp E]]. apply raster_In in Hp. apply andb_true_iff in E.
    destruct E as [Ey Ex]. apply Z.eqb_eq in Ey. apply Z.eqb_eq in Ex. lia.
  - intros [Hy Hx]. exists (mkPoint x y). split; [apply raster_In; cbn; auto |].
    cbn. now rewrite !Z.eqb_refl.
Qed.

Lemma visited_snoc (l : list Point) (p : Point) (y x : Z) :
  visited (l ++ [p]) y x = visited l y x || ((py p =? y) && (px p =? x)).
Proof. unfold visited. rewrite existsb_app. cbn. now rewrite orb_false_r. Qed.

Lemma mat_at_setP (m : Mat Z) (p : Point) (v y x : Z) :
  mat_at (mat_setP m p v) y x
  = if (py p =? y) && (px p =? x) then v else mat_at m y x.
Proof.
  unfold mat_at, mat_setP, mat_set. cbn [elems].
  now rewrite (Z.eqb_sym y (py p)), (Z.eqb_sym x (px p)).
Qed.

Lemma is_probable_relabel graph ncols v y x :
  is_probable (relabel inSourceSegment graph ncols v y x) = is_probable v.
Proof.
  unfold relabel. destruct (is_probable v) eqn:E; [| exact E].
  now destruct (inSourceSegment graph _).
Qed.

Lemma is_probable_relabel_slim graph v n :
  is_probable (relabel_slim inSourceSegment graph v n) = is_probable v.
Proof.
  unfold relabel_slim. destruct (is_probable v) eqn:E; [| exact E].
  destruct (n =? GC_JNT_BGD); [reflexivity |].
  destruct (n =? GC_JNT_FGD); [reflexivity |].
  now destruct (inSourceSegment graph n).
Qed.

(** The mask during the loop of [estimateSegmentation]. *)
Lemma estimateSegmentation_loop (graph : GCGraph) (mask : Mat Z) (l : list Point) :
  let m := fold_left
    (fun mask p =>
       if is_probable (mat_atP mask p) then
         if inSourceSegment graph (py p * cols mask + px p)
         then mat_setP mask p GC_PR_FGD
         else mat_setP mask p GC_PR_BGD
       else mask) l mask in
  mtype m = mtype mask /\ rows m = rows mask /\ cols m = cols mask
  /\ forall y x, mat_at m y x
       = if visited l y x
         then relabel inSourceSegment graph (cols mask) (mat_at mask y x) y x
         else mat_at mask y x.
Proof.
  cbv zeta.
  apply (fold_left_done (fun done m =>
    mtype m = mtype mask /\ rows m = rows mask /\ cols m = cols mask
    /\ forall y x, mat_at m y x
         = if visited done y x
           then relabel inSourceSegment graph (cols mask) (mat_at mask y x) y x
           else mat_at mask y x)).
  - repeat split.
  - intros pre p post m _ [Ht [Hr [Hc He]]].
    assert (Hp : is_probable (mat_atP m p) = is_probable (mat_atP mask p)).
    { unfold mat_atP. fold (mat_at m (py p) (px p)). rewrite He.
      destruct (visited pre (py p) (px p)); [apply is_probable_relabel | reflexivity]. }
    assert (Hnew : forall y x, (py p =? y) && (px p =? x) = true ->
              relabel inSourceSegment graph (cols mask) (mat_at mask y x) y x
              = if is_probable (mat_atP m p)
                then if inSourceSegment graph (py p * cols m + px p)
                     then GC_PR_FGD else GC_PR_BGD
                else mat_at m y x).
    { intros y x E. apply andb_true_iff in E. destruct E as [Ey Ex].
      apply Z.eqb_eq in Ey. apply Z.eqb_eq in Ex. subst y x.
      rewrite Hp, Hc. unfold relabel, mat_atP, mat_at.
      destruct (is_probable (elems mask (py p) (px p))) eqn:E; [reflexivity |].
      fold (mat_at m (py p) (px p)). rewrite He.
      destruct (visited pre (py p) (px p)); [| reflexivity].
      unfold relabel, mat_at. now rewrite E. }
    destruct (is_probable (mat_atP m p)) eqn:Epr.
    + assert (Hset : forall v,
                mtype (mat_setP m p v) = mtype mask /\ rows (mat_setP m p v) = rows mask
                /\ cols (mat_setP m p v) = cols mask) by (intros v; cbn; auto).
      destruct (inSourceSegment graph (py p * cols m + px p)) eqn:Es;
        (split; [apply Hset |]; split; [apply Hset |]; split; [apply Hset |]);
        intros y x; rewrite visited_snoc, mat_at_setP;
        destruct ((py p =? y) && (px p =? x)) eqn:E;
        rewrite ?orb_true_r, ?orb_false_r;
        [symmetry; now apply Hnew | apply He | symmetry; now apply Hnew | apply He].
    + split; [exact Ht |]. split; [exact Hr |]. split; [exact Hc |].
      intros y x. rewrite visited_snoc.
      destruct ((py p =? y) && (px p =? x)) eqn:E;
        rewrite ?orb_true_r, ?orb_false_r; [| apply He].
      now rewrite (Hnew y x E).
Qed.

(** The mask during the loop of [estimateSegmentation_slim]. *)
Lemma estimateSegmentation_slim_loop (graph : GCGraph) (mask ptx2Vtx : Mat Z)
    (l : list Point) :
  let m := fold_left
    (fun mask p =>
       if is_probable (mat_atP mask p) then
         let v := mat_atP ptx2Vtx p in
         if v =? GC_JNT_BGD then mat_setP mask p GC_PR_BGD
         else if v =? GC_JNT_FGD then mat_setP mask p GC_PR_FGD
         else if inSourceSegment graph v then mat_setP mask p GC_PR_FGD
         else mat_setP mask p GC_PR_BGD
       else mask) l mask in
  mtype m = mtype mask /\ rows m = rows mask /\ cols m = cols mask
  /\ forall y x, mat_at m y x
       = if visited l y x
         then relabel_slim inSourceSegment graph (mat_at mask y x) (mat_at ptx2Vtx y x)
         else mat_at mask y x.
Proof.
  cbv zeta.
  apply (fold_left_done (fun done m =>
    mtype m = mtype mask /\ rows m = rows mask /\ cols m = cols mask
    /\ forall y x, mat_at m y x
         = if visited done y x
           then relabel_slim inSourceSegment graph (mat_at mask y x) (mat_at ptx2Vtx y x)
           else mat_at mask y x)).
  - repeat split.
  - intros pre p post m _ [Ht [Hr [Hc He]]].
    assert (Hp : is_probable (mat_atP m p) = is_probable (mat_atP mask p)).
    { unfold mat_atP. fold (mat_at m (py p) (px p)). rewrite He.
      destruct (visited pre (py p) (px p)); [apply is_probable_relabel_slim | reflexivity]. }
    set (new := if mat_atP ptx2Vtx p =? GC_JNT_BGD then GC_PR_BGD
                else if mat_atP ptx2Vtx p =? GC_JNT_FGD then GC_PR_FGD
                else if inSourceSegment graph (mat_atP ptx2Vtx p)
                     then GC_PR_FGD else GC_PR_BGD).
    assert (Hbody : (if is_probable (mat_atP m p) then
                       if mat_atP ptx2Vtx p =? GC_JNT_BGD then mat_setP m p GC_PR_BGD
                       else if mat_atP ptx2Vtx p =? GC_JNT_FGD
                            then mat_setP m p GC_PR_FGD
                            else if inSourceSegment graph (mat_atP ptx2Vtx p)
                                 then mat_setP m p GC_PR_FGD
                                 else mat_setP m p GC_PR_BGD
                     else m)
                    = if is_probable (mat_atP m p) then mat_setP m p new else m).
    { subst new. destruct (is_probable (mat_atP m p)); [| reflexivity].
      destruct (mat_atP ptx2Vtx p =? GC_JNT_BGD); [reflexivity |].
      destruct (mat_atP ptx2Vtx p =? GC_JNT_FGD); [reflexivity |].
      now destruct (inSourceSegment graph (mat_atP ptx2Vtx p)). }
    rewrite Hbody. clear Hbody.
    assert (Hnew : forall y x, (py p =? y) && (px p =? x) = true ->
              relabel_slim inSourceSegment graph (mat_at mask y x) (mat_at ptx2Vtx y x)
              = if is_probable (mat_atP m p) then new else mat_at m y x).
    { intros y x E. apply andb_true_iff in E. destruct E as [Ey Ex].
      apply Z.eqb_eq in Ey. apply Z.eqb_eq in Ex. subst y x.
      rewrite Hp. unfold relabel_slim, mat_atP, mat_at.
      destruct (is_probable (elems mask (py p) (px p))) eqn:E; [reflexivity |].
      fold (mat_at m (py p) (px p)). rewrite He.
      destruct (visited pre (py p) (px p)); [| reflexivity].
      unfold relabel_slim, mat_at. now rewrite E. }
    destruct (is_probable (mat_atP m p)) eqn:Epr.
    + split; [exact Ht |]. split; [exact Hr |]. split; [exact Hc |].
      intros y x; rewrite visited_snoc, mat_at_setP.
      destruct ((py p =? y) && (px p =? x)) eqn:E;
        rewrite ?orb_true_r, ?orb_false_r; [| apply He].
      symmetry. now apply Hnew.
    + split; [exact Ht |]. split; [exact Hr |]. split; [exact Hc |].
      intros y x. rewrite visited_snoc.
      destruct ((py p =? y) && (px p =? x)) eqn:E;
        rewrite ?orb_true_r, ?orb_false_r; [| apply He].
      now rewrite (Hnew y x E).
Qed.

Lemma estimateSegmentation_at (graph : GCGraph) (mask : Mat Z) :
  let m := estimateSegmentation inSourceSegment graph mask in
  mtype m = mtype mask /\ rows m = rows mask /\ cols m = cols mask
  /\ forall y x, mat_at m y x
       = if (0 <=? y) && (y <? rows mask) && (0 <=? x) && (x <? cols mask)
         then relabel inSourceSegment graph (cols mask) (mat_at mask y x) y x
         else mat_at mask y x.
Proof.
  cbv zeta. unfold estimateSegmentation.
  destruct (estimateSegmentation_loop graph mask (raster (rows mask) (cols mask)))
    as [Ht [Hr [Hc He]]].
  split; [exact Ht |]. split; [exact Hr |]. split; [exact Hc |].
  intros y x. rewrite He.
  replace (visited (raster (rows mask) (cols mask)) y x)
    with ((0 <=? y) && (y <? rows mask) && (0 <=? x) && (x <? cols mask)); [reflexivity |].
  destruct (visited _ y x) eqn:E.
  - apply visited_raster in E.
    repeat (apply andb_true_iff; split); try apply Z.leb_le; try apply Z.ltb_lt; lia.
  - destruct ((0 <=? y) && (y <? rows mask) && (0 <=? x) && (x <? cols mask)) eqn:E';
      [| reflexivity].
    repeat (apply andb_true_iff in E'; destruct E' as [E' ?]).
    assert (Hv : visited (raster (rows mask) (cols mask)) y x = true).
    { apply visited_raster.
      repeat match goal with
             | H : (_ <=? _) = true |- _ => apply Z.leb_le in H
             | H : (_ <? _) = true |- _ => apply Z.ltb_lt in H
             end. lia. }
    congruence.
Qed.

Lemma estimateSegmentation_slim_at (graph : GCGraph) (mask ptx2Vtx : Mat Z) :
  let m := estimateSegmentation_slim inSourceSegment graph mask ptx2Vtx in
  mtype m = mtype mask /\ rows m = rows mask /\ cols m = cols mask
  /\ forall y x, mat_at m y x
       = if (0 <=? y) && (y <? rows mask) && (0 <=? x) && (x <? cols mask)
         then relabel_slim inSourceSegment graph (mat_at mask y x) (mat_at ptx2Vtx y x)
         else mat_at mask y x.
Proof.
  cbv zeta. unfold estimateSegmentation_slim.
  destruct (estimateSegmentation_slim_loop graph mask ptx2Vtx
              (raster (rows mask) (cols mask))) as [Ht [Hr [Hc He]]].
  split; [exact Ht |]. split; [exact Hr |]. split; [exact Hc |].
  intros y x. rewrite He.
  replace (visited (raster (rows mask) (cols mask)) y x)
    with ((0 <=? y) && (y <? rows mask) && (0 <=? x) && (x <? cols mask)); [reflexivity |].
  destruct (visited _ y x) eqn:E.
  - apply visited_raster in E.
    repeat (apply andb_true_iff; split); try apply Z.leb_le; try apply Z.ltb_lt; lia.
  - destruct ((0 <=? y) && (y <? rows mask) && (0 <=? x) && (x <? cols mask)) eqn:E';
      [| reflexivity].
    repeat (apply andb_true_iff in E'; destruct E' as [E' ?]).
    assert (Hv : visited (raster (rows mask) (cols mask)) y x = true).
    { apply visited_raster.
      repeat match goal with
             | H : (_ <=? _) = true |- _ => apply Z.leb_le in H
             | H : (_ <? _) = true |- _ => apply Z.ltb_lt in H
             end. lia. }
    congruence.
Qed.

(** X18.  [estimateSegmentation] keeps the size and the type of the mask
    and, at each pixel of the mask, leaves a label that is not probable as
    it is and replaces a probable one by GC_PR_FGD when the solver puts
    vertex y * cols + x in the source segment and by GC_PR_BGD otherwise. *)
Theorem estimateSegmentation_labels (graph : GCGraph) (mask : Mat Z) (y x : Z)
    (Hy : 0 <= y < rows mask) (Hx : 0 <= x < cols mask) :
  let m := estimateSegmentation inSourceSegment graph mask in
  mtype m = mtype mask /\ rows m = rows mask /\ cols m = cols mask
  /\ mat_at m y x
     = if is_probable (mat_at mask y x)
       then if inSourceSegment graph (y * cols mask + x) then GC_PR_FGD else GC_PR_BGD
       else mat_at mask y x.
Proof.
  cbv zeta. destruct (estimateSegmentation_at graph mask) as [Ht [Hr [Hc He]]].
  split; [exact Ht |]. split; [exact Hr |]. split; [exact Hc |].
  rewrite He.
  replace ((0 <=? y) && (y <? rows mask) && (0 <=? x) && (x <? cols mask)) with true;
    [reflexivity |].
  symmetry. repeat (apply andb_true_iff; split);
    try apply Z.leb_le; try apply Z.ltb_lt; lia.
Qed.

(** X19.  [estimateSegmentation_slim] keeps the size and the type of the
    mask and, at each pixel of the mask, leaves a label that is not
    probable as it is and replaces a probable one by GC_PR_BGD when the
    pixel is joined to the sink, by GC_PR_FGD when it is joined to the
    source, and otherwise by the side on which the solver puts the vertex
    of the pixel. *)
Theorem estimateSegmentation_slim_labels (graph : GCGraph) (mask ptx2Vtx : Mat Z)
    (y x : Z) (Hy : 0 <= y < rows mask) (Hx : 0 <= x < cols mask) :
  let m := estimateSegmentation_slim inSourceSegment graph mask ptx2Vtx in
  mtype m = mtype mask /\ rows m = rows mask /\ cols m = cols mask
  /\ mat_at m y x
     = if is_probable (mat_at mask y x)
       then if mat_at ptx2Vtx y x =? GC_JNT_BGD then GC_PR_BGD
            else if mat_at ptx2Vtx y x =? GC_JNT_FGD then GC_PR_FGD
            else if inSourceSegment graph (mat_at ptx2Vtx y x)
                 then GC_PR_FGD else GC_PR_BGD
       else mat_at mask y x.
Proof.
  cbv zeta. destruct (estimateSegmentation_slim_at graph mask ptx2Vtx)
    as [Ht [Hr [Hc He]]].
  split; [exact Ht |]. split; [exact Hr |]. split; [exact Hc |].
  rewrite He.
  replace ((0 <=? y) && (y <? rows mask) && (0 <=? x) && (x <? cols mask)) with true;
    [reflexivity |].
  symmetry. repeat (apply andb_true_iff; split);
    try apply Z.leb_le; try apply Z.ltb_lt; lia.
Qed.

End Segmentation_update.

(** ** The mask that the entry points return *)

Section Returned_mask.
Variable kmeans : list Vec3d -> Z -> list Z.
Variable inSourceSegment : GCGraph -> Z -> bool.

Lemma is_label_probable (v : Z) : is_probable v = true -> is_label v = true.
Proof.
  unfold is_probable, is_label. intros H. apply orb_true_iff in H.
  destruct H as [-> | ->]; now rewrite ?orb_true_r.
Qed.

Lemma mask_fits_estimateSegmentation (img : Mat Vec3b) (graph : GCGraph) (mask : Mat Z) :
  mask_fits img mask -> mask_fits img (estimateSegmentation inSourceSegment graph mask).
Proof.
  intros [He [Ht [Hc [Hr Hl]]]].
  destruct (estimateSegmentation_at inSourceSegment graph mask) as [Et [Er [Ec Ee]]].
  unfold mask_fits. rewrite Et, Er, Ec. unfold mat_empty in *. rewrite Er, Ec.
  repeat split; auto. intros y x Hy Hx. rewrite Ee.
  destruct (_ && _); [| now apply Hl].
  unfold relabel. destruct (is_probable (mat_at mask y x)); [| now apply Hl].
  now destruct (inSourceSegment graph _).
Qed.

Lemma mask_fits_estimateSegmentation_slim (img : Mat Vec3b) (graph : GCGraph)
    (mask ptx : Mat Z) :
  mask_fits img mask ->
  mask_fits img (estimateSegmentation_slim inSourceSegment graph mask ptx).
Proof.
  intros [He [Ht [Hc [Hr Hl]]]].
  destruct (estimateSegmentation_slim_at inSourceSegment graph mask ptx)
    as [Et [Er [Ec Ee]]].
  unfold mask_fits. rewrite Et, Er, Ec. unfold mat_empty in *. rewrite Er, Ec.
  repeat split; auto. intros y x Hy Hx. rewrite Ee.
  destruct (_ && _); [| now apply Hl].
  unfold relabel_slim. destruct (is_probable (mat_at mask y x)); [| now apply Hl].
  destruct (_ =? GC_JNT_BGD); [reflexivity |].
  destruct (_ =? GC_JNT_FGD); [reflexivity |].
  now destruct (inSourceSegment graph _).
Qed.

Lemma mask_fits_iteration (img : Mat Vec3b) (nw : NWeights) (st st' : IterState) :
  iteration inSourceSegment img nw st = Ok st' ->
  mask_fits img (iter_mask st) -> mask_fits img (iter_mask st').
Proof.
  destruct st as [[[[mask b] f] c] p2v]. intros H Hfit.
  apply iteration_mask in H. destruct H as [g ->].
  now apply mask_fits_estimateSegmentation.
Qed.

Lemma mask_fits_iteration_slim (img : Mat Vec3b) (nw : NWeights) (st st' : IterState) :
  iteration_slim inSourceSegment img nw st = Ok st' ->
  mask_fits img (iter_mask st) -> mask_fits img (iter_mask st').
Proof.
  destruct st as [[[[mask b] f] c] p2v]. intros H Hfit.
  apply iteration_slim_mask in H. destruct H as [g [ptx ->]].
  now apply mask_fits_estimateSegmentation_slim.
Qed.

(** The mask that an entry point returns fits the image, when the mode is
    one that builds or checks the mask. *)
Lemma grabCut_with_mask_fits
    (iter : Mat Vec3b -> NWeights -> IterState -> res IterState)
    (img : Mat Vec3b) (mask : Mat Z) (rect : Rect) (bgdModel fgdModel : Mat R)
    (iterCount mode : Z) (out : Outputs) :
  (forall nw st st', iter img nw st = Ok st' ->
     mask_fits img (iter_mask st) -> mask_fits img (iter_mask st')) ->
  grabCut_with kmeans iter img mask rect bgdModel fgdModel iterCount mode = Ok out ->
  mode = GC_INIT_WITH_RECT \/ mode = GC_INIT_WITH_MASK
  \/ (mode = GC_EVAL /\ 0 < iterCount) ->
  mask_fits img (out_mask out).
Proof.
  intros Hiter Hrun Hmode. unfold grabCut_with in Hrun.
  apply bind_Ok in Hrun. destruct Hrun as [[[mask1 b] f] [Hinit Hrun]].
  assert (Hfit1 : mode = GC_INIT_WITH_RECT \/ mode = GC_INIT_WITH_MASK ->
                  mask_fits img mask1).
  { intros Hm. unfold initialise in Hinit.
    destruct (mat_empty img) eqn:Eimg; [discriminate |].
    destruct (negb (mtype img =? CV_8UC3)); [discriminate |].
    apply bind_Ok in Hinit. destruct Hinit as [b0 [_ Hinit]].
    apply bind_Ok in Hinit. destruct Hinit as [f0 [_ Hinit]].
    destruct Hm as [-> | ->].
    - change ((GC_INIT_WITH_RECT =? GC_INIT_WITH_RECT)
              || (GC_INIT_WITH_RECT =? GC_INIT_WITH_MASK)) with true in Hinit.
      change (GC_INIT_WITH_RECT =? GC_INIT_WITH_RECT) with true in Hinit.
      cbv iota in Hinit.
      apply bind_Ok in Hinit. destruct Hinit as [m [Hm Hinit]].
      apply bind_Ok in Hinit. destruct Hinit as [[b1 f1] [_ Hinit]].
      injection Hinit as <- _ _.
      apply checkMask_Ok_iff. now apply (initMaskWithRect_mask_is_fit img rect).
    - change ((GC_INIT_WITH_MASK =? GC_INIT_WITH_RECT)
              || (GC_INIT_WITH_MASK =? GC_INIT_WITH_MASK)) with true in Hinit.
      change (GC_INIT_WITH_MASK =? GC_INIT_WITH_RECT) with false in Hinit.
      cbv iota in Hinit.
      apply bind_Ok in Hinit. destruct Hinit as [m [Hm Hinit]].
      apply bind_Ok in Hm. destruct Hm as [[] [Hcheck Hm]]. injection Hm as <-.
      apply bind_Ok in Hinit. destruct Hinit as [[b1 f1] [_ Hinit]].
      injection Hinit as <- _ _.
      now apply checkMask_Ok_iff. }
  destruct (iterCount <=? 0) eqn:Eit.
  - injection Hrun as <-. cbn [outputs out_mask].
    destruct Hmode as [Hm | [Hm | [_ Hm]]]; [now apply Hfit1; left | now apply Hfit1; right |].
    apply Z.leb_le in Eit. lia.
  - apply bind_Ok in Hrun. destruct Hrun as [[] [Hcheck Hrun]].
    assert (Hfit : mask_fits img mask1).
    { destruct Hmode as [Hm | [Hm | [-> _]]];
        [now apply Hfit1; left | now apply Hfit1; right |].
      change (GC_EVAL =? GC_EVAL) with true in Hcheck. cbv iota in Hcheck.
      now apply checkMask_Ok_iff. }
    apply bind_Ok in Hrun. destruct Hrun as [[[[[mask2 b2] f2] c2] p2] [Hloop Hrun]].
    injection Hrun as <-. cbn [outputs out_mask].
    change mask2 with (iter_mask (mask2, b2, f2, c2, p2)).
    revert Hloop.
    apply (forM_Ok_keeps (fun _ st => mask_fits img (iter_mask st))).
    + exact Hfit.
    + intros pre a post s s' _ Hs Hbody. now apply (Hiter _ _ _ Hbody).
Qed.

(** X20.  The mask that [grabCut] or [grabCut_slim] returns passes
    [checkMask] for the image (it is not empty, has type CV_8UC1 and the
    size of the image, and holds a label at every pixel) in the modes
    GC_INIT_WITH_RECT and GC_INIT_WITH_MASK for every number of iterations,
    and in mode GC_EVAL when at least one iteration is asked for. *)
Theorem returned_mask_passes_checkMask
    (img : Mat Vec3b) (mask : Mat Z) (rect : Rect) (bgdModel fgdModel : Mat R)
    (iterCount mode : Z)
    (Hmode : mode = GC_INIT_WITH_RECT \/ mode = GC_INIT_WITH_MASK
             \/ (mode = GC_EVAL /\ 0 < iterCount)) :
  (forall out,
     grabCut_slim kmeans inSourceSegment img mask rect bgdModel fgdModel iterCount mode
     = Ok out -> checkMask img (out_mask out) = Ok tt)
  /\ (forall out,
        grabCut kmeans inSourceSegment img mask rect bgdModel fgdModel iterCount mode
        = Ok out -> checkMask img (out_mask out) = Ok tt).
Proof.
  split; intros out Hrun; apply checkMask_Ok_iff;
    [apply (grabCut_with_mask_fits (iteration_slim inSourceSegment)) with (mask := mask)
       (rect := rect) (bgdModel := bgdModel) (fgdModel := fgdModel)
       (iterCount := iterCount) (mode := mode)
    | apply (grabCut_with_mask_fits (iteration inSourceSegment)) with (mask := mask)
       (rect := rect) (bgdModel := bgdModel) (fgdModel := fgdModel)
       (iterCount := iterCount) (mode := mode)];
    auto.
  - intros nw st st'. apply mask_fits_iteration_slim.
  - intros nw st st'. apply mask_fits_iteration.
Qed.

End Returned_mask.

(** ** The plain graph *)

Section Plain_graph.
Local Open Scope R_scope.

Lemma row_index (c y : Z) (pre post : list Point) (p : Point) :
  map (fun x => mkPoint x y) (zrange c) = pre ++ p :: post ->
  px p = Z.of_nat (List.length pre) /\ py p = y.
Proof.
  intros H. unfold zrange in H.
  assert (Hlen : (List.length pre < Z.to_nat c)%nat).
  { apply (f_equal (@List.length Point)) in H.
    rewrite !length_map, length_seq, length_app in H. cbn in H. lia. }
  assert (Hn : nth (List.length pre)
                 (map (fun x => mkPoint x y) (map Z.of_nat (seq 0 (Z.to_nat c))))
                 (mkPoint 0 y) = p).
  { rewrite H, app_nth2, Nat.sub_diag by lia. reflexivity. }
  change (mkPoint 0 y) with ((fun x => mkPoint x y) (Z.of_nat 0)) in Hn.
  rewrite map_nth, map_nth, seq_nth in Hn by exact Hlen.
  subst p. cbn. split; [lia | reflexivity].
Qed.

Lemma rows_index (c : Z) (n : nat) :
  forall (a : nat) (pre post : list Point) (p : Point),
    flat_map (fun y => map (fun x => mkPoint x y) (zrange c)) (map Z.of_nat (seq a n))
    = pre ++ p :: post ->
    Z.of_nat (List.length pre)
    = ((py p - Z.of_nat a) * Z.of_nat (Z.to_nat c) + px p)%Z.
Proof.
  induction n as [| n IH]; intros a pre post p H; cbn [seq map flat_map] in H.
  - destruct pre; discriminate.
  - apply app_eq_app in H. destruct H as [l [[Hrow Hrest] | [Hpre Hrest]]].
    + destruct l as [| q l].
      * cbn in Hrest. rewrite app_nil_r in Hrow. symmetry in Hrest.
        apply (IH (S a) [] post p) in Hrest. cbn [List.length] in Hrest.
        rewrite <- Hrow. rewrite length_map. unfold zrange.
        rewrite length_map, length_seq. lia.
      * cbn in Hrest. injection Hrest as <- Hpost.
        apply row_index in Hrow. destruct Hrow as [Hx Hy]. rewrite Hx, Hy. lia.
    + apply (IH (S a)) in Hrest. rewrite Hpre, length_app, length_map.
      unfold zrange. rewrite length_map, length_seq. lia.
Qed.

(** The pixel (y, x) is the one that the raster scan visits after
    y * cols + x others. *)
Lemma raster_index (r c : Z) (pre post : list Point) (p : Point) :
  raster r c = pre ++ p :: post -> Z.of_nat (List.length pre) = (py p * c + px p)%Z.
Proof.
  intros H.
  assert (Hp : In p (raster r c)) by (rewrite H; apply in_or_app; right; now left).
  apply raster_In in Hp.
  unfold raster, zrange at 2 in H. apply rows_index in H.
  rewrite H, Z2Nat.id by lia. cbn. lia.
Qed.

Lemma nth_error_snoc {A} (l : list A) (a b : A) (k : nat) :
  nth_error (l ++ [a]) k = Some b ->
  ((k < List.length l)%nat /\ nth_error l k = Some b) \/ (k = List.length l /\ b = a).
Proof.
  intros H. destruct (Nat.lt_ge_cases k (List.length l)) as [Hk | Hk].
  - left. split; [exact Hk |]. now rewrite nth_error_app1 in H.
  - right. rewrite nth_error_app2 in H by exact Hk.
    destruct (k - List.length l)%nat as [| m] eqn:E; cbn in H.
    + injection H as <-. split; [lia | reflexivity].
    + destruct m; discriminate.
Qed.

Lemma tWeights_fields (g : GCGraph) (i : Z) (fs ts : R) :
  vtxCount (addTermWeights g i fs ts) = vtxCount g
  /\ edges (addTermWeights g i fs ts) = edges g
  /\ (forall k, fromSourceW (addTermWeights g i fs ts) k
                = if (k =? i)%Z then fromSourceW g i + fs else fromSourceW g k)
  /\ (forall k, toSinkW (addTermWeights g i fs ts) k
                = if (k =? i)%Z then toSinkW g i + ts else toSinkW g k).
Proof. repeat split. Qed.

Lemma cond_edge (b : bool) (g : GCGraph) (i j : Z) (w : R) (n : Z) :
  (b = true -> (0 <= j < i)%Z /\ (i < n)%Z) ->
  (forall e, In e (edges g) ->
     (0 <= ev e < eu e)%Z /\ (eu e < n)%Z /\ capUV e = capVU e) ->
  let g' := if b then addEdges g i j w w else g in
  vtxCount g' = vtxCount g /\ fromSourceW g' = fromSourceW g
  /\ toSinkW g' = toSinkW g
  /\ forall e, In e (edges g') ->
       (0 <= ev e < eu e)%Z /\ (eu e < n)%Z /\ capUV e = capVU e.
Proof.
  intros Hb He. cbv zeta. destruct b; [| auto].
  cbn [addEdges vtxCount fromSourceW toSinkW edges].
  split; [reflexivity |]. split; [reflexivity |]. split; [reflexivity |].
  intros e H. apply in_app_or in H. destruct H as [H | [<- | []]]; [now apply He |].
  cbn. specialize (Hb eq_refl). repeat split; lia.
Qed.

(** One turn of the loop of [constructGCGraph]. *)
Lemma constructGCGraph_step (img : Mat Vec3b) (mask : Mat Z) (bgdGMM fgdGMM : GMM)
    (lam : R) (nw : NWeights) (pre post : list Point) (p : Point) (g g' : GCGraph) :
  raster (rows img) (cols img) = pre ++ p :: post ->
  plain_built img mask bgdGMM fgdGMM lam pre g ->
  (let x := px p in let y := py p in
   let '(graph, vtxIdx) := addVtx g in
   let color := to_Vec3d (mat_atP img p) in
   do '(fromSource, toSink) <- tWeights (mat_atP mask p) color bgdGMM fgdGMM lam;
   let graph := addTermWeights graph vtxIdx fromSource toSink in
   let graph := if (x >? 0)%Z
                then let w := mat_atP (leftW nw) p in
                     addEdges graph vtxIdx (vtxIdx - 1) w w
                else graph in
   let graph := if ((x >? 0) && (y >? 0))%Z
                then let w := mat_atP (upleftW nw) p in
                     addEdges graph vtxIdx (vtxIdx - cols img - 1) w w
                else graph in
   let graph := if (y >? 0)%Z
                then let w := mat_atP (upW nw) p in
                     addEdges graph vtxIdx (vtxIdx - cols img) w w
                else graph in
   let graph := if ((x <? cols img - 1) && (y >? 0))%Z
                then let w := mat_atP (uprightW nw) p in
                     addEdges graph vtxIdx (vtxIdx - cols img + 1) w w
                else graph in
   Ok graph) = Ok g' ->
  plain_built img mask bgdGMM fgdGMM lam (pre ++ [p]) g'.
Proof.
  intros Hsplit [Hcnt [Htw [Hzero Hedges]]] Hbody.
  pose proof (raster_index _ _ _ _ _ Hsplit) as Hidx.
  assert (Hp : In p (raster (rows img) (cols img)))
    by (rewrite Hsplit; apply in_or_app; right; now left).
  apply raster_In in Hp. destruct Hp as [Hpy Hpx].
  cbv zeta in Hbody. unfold addVtx in Hbody. cbv iota beta in Hbody.
  apply bind_Ok in Hbody. destruct Hbody as [[fs ts] [Htp Hbody]].
  rewrite Hcnt in Hbody. set (idx := Z.of_nat (List.length pre)) in *.
  set (n := Z.of_nat (List.length (pre ++ [p]))).
  assert (Hn : n = (idx + 1)%Z) by (unfold n, idx; rewrite length_app; cbn; lia).
  set (g1 := addTermWeights _ idx fs ts) in Hbody.
  assert (H1 : forall e, In e (edges g1) ->
            (0 <= ev e < eu e)%Z /\ (eu e < n)%Z /\ capUV e = capVU e).
  { intros e He. destruct (Hedges e He) as [? [? ?]]. repeat split; auto; lia. }
  destruct (cond_edge (px p >? 0)%Z g1 idx (idx - 1) (mat_atP (leftW nw) p) n)
    as [A1 [A2 [A3 A4]]]; [| exact H1 |].
  { intros E. apply Z.gtb_lt in E. nia. }
  cbv zeta in A1, A2, A3, A4.
  set (g2 := if (px p >? 0)%Z then _ else g1) in *.
  destruct (cond_edge ((px p >? 0) && (py p >? 0))%Z g2 idx (idx - cols img - 1)
              (mat_atP (upleftW nw) p) n) as [B1 [B2 [B3 B4]]]; [| exact A4 |].
  { intros E. apply andb_true_iff in E. destruct E as [Ex Ey].
    apply Z.gtb_lt in Ex. apply Z.gtb_lt in Ey. nia. }
  cbv zeta in B1, B2, B3, B4.
  set (g3 := if ((px p >? 0) && (py p >? 0))%Z then _ else g2) in *.
  destruct (cond_edge (py p >? 0)%Z g3 idx (idx - cols img)
              (mat_atP (upW nw) p) n) as [C1 [C2 [C3 C4]]]; [| exact B4 |].
  { intros E. apply Z.gtb_lt in E. nia. }
  cbv zeta in C1, C2, C3, C4.
  set (g4 := if (py p >? 0)%Z then _ else g3) in *.
  destruct (cond_edge ((px p <? cols img - 1) && (py p >? 0))%Z g4 idx
              (idx - cols img + 1) (mat_atP (uprightW nw) p) n)
    as [D1 [D2 [D3 D4]]]; [| exact C4 |].
  { intros E. apply andb_true_iff in E. destruct E as [Ex Ey].
    apply Z.ltb_lt in Ex. apply Z.gtb_lt in Ey. nia. }
  cbv zeta in D1, D2, D3, D4.
  set (g5 := if ((px p <? cols img - 1) && (py p >? 0))%Z then _ else g4) in *.
  injection Hbody as <-.
  assert (Hfs : fromSourceW g5 = fromSourceW g1) by congruence.
  assert (Hts : toSinkW g5 = toSinkW g1) by congruence.
  assert (Hvc : vtxCount g5 = vtxCount g1) by congruence.
  destruct (Hzero idx ltac:(lia)) as [Z1 Z2].
  unfold plain_built. fold n. split; [| split; [| split]].
  - rewrite Hvc. unfold g1. cbn. lia.
  - intros k q Hk. rewrite Hfs, Hts. unfold g1. cbn [addTermWeights fromSourceW toSinkW].
    unfold upd1. apply nth_error_snoc in Hk. destruct Hk as [[Hlt Hk] | [-> ->]].
    + replace (Z.of_nat k =? idx)%Z with false
        by (symmetry; apply Z.eqb_neq; unfold idx; lia).
      now apply Htw.
    + fold idx. rewrite Z.eqb_refl, Z1, Z2, !Rplus_0_l. exact Htp.
  - intros k Hk. rewrite Hfs, Hts. unfold g1. cbn [addTermWeights fromSourceW toSinkW].
    unfold upd1.
    replace (k =? idx)%Z with false by (symmetry; apply Z.eqb_neq; lia).
    apply Hzero. lia.
  - exact D4.
Qed.

(** The graph that [constructGCGraph] returns. *)
Lemma constructGCGraph_built (img : Mat Vec3b) (mask : Mat Z) (bgdGMM fgdGMM : GMM)
    (lam : R) (nw : NWeights) (g : GCGraph) :
  constructGCGraph img mask bgdGMM fgdGMM lam nw = Ok g ->
  plain_built img mask bgdGMM fgdGMM lam (raster (rows img) (cols img)) g.
Proof.
  unfold constructGCGraph.
  apply (forM_Ok_keeps (plain_built img mask bgdGMM fgdGMM lam)).
  - unfold plain_built. cbn. split; [reflexivity |].
    split; [intros k q Hk; destruct k; discriminate |].
    split; [intros; split; reflexivity | intros e []].
  - intros pre p post s s' Hsplit Hs Hbody.
    now apply (constructGCGraph_step img mask bgdGMM fgdGMM lam nw pre post p s s').
Qed.

Lemma raster_length (r c : Z) :
  (0 <= r)%Z -> (0 <= c)%Z -> Z.of_nat (List.length (raster r c)) = (r * c)%Z.
Proof.
  intros Hr Hc. unfold raster, zrange.
  assert (H : forall n a, List.length
            (flat_map (fun y => map (fun x => mkPoint x y)
                                    (map Z.of_nat (seq 0 (Z.to_nat c))))
                      (map Z.of_nat (seq a n))) = (n * Z.to_nat c)%nat).
  { induction n as [| n IH]; intros a; cbn [seq map flat_map]; [reflexivity |].
    rewrite length_app, IH, !length_map, length_seq. lia. }
  rewrite H. lia.
Qed.

(** X21.  The graph that [constructGCGraph] returns has one vertex for each
    pixel; the vertex of pixel (y, x) is number y * cols + x, the number
    under which [estimateSegmentation] asks the solver about the pixel, and
    its weights from the source and to the sink are the two terminal
    weights of the pixel. *)
Theorem constructGCGraph_vertices
    (img : Mat Vec3b) (mask : Mat Z) (bgdGMM fgdGMM : GMM) (lam : R) (nw : NWeights)
    (g : GCGraph) (y x : Z)
    (Hrun : constructGCGraph img mask bgdGMM fgdGMM lam nw = Ok g)
    (Hy : (0 <= y < rows img)%Z) (Hx : (0 <= x < cols img)%Z) :
  vtxCount g = (rows img * cols img)%Z
  /\ tWeights (mat_at mask y x) (to_Vec3d (mat_at img y x)) bgdGMM fgdGMM lam
     = Ok (fromSourceW g (y * cols img + x), toSinkW g (y * cols img + x)).
Proof.
  destruct (constructGCGraph_built _ _ _ _ _ _ _ Hrun) as [Hcnt [Htw _]].
  split; [rewrite Hcnt; apply raster_length; lia |].
  assert (Hp : In (mkPoint x y) (raster (rows img) (cols img)))
    by (apply raster_In; cbn; auto).
  apply in_split in Hp. destruct Hp as [pre [post Hsplit]].
  pose proof (raster_index _ _ _ _ _ Hsplit) as Hidx. cbn in Hidx.
  rewrite <- Hidx. apply (Htw (List.length pre) (mkPoint x y)).
  rewrite Hsplit, nth_error_app2, Nat.sub_diag by lia. reflexivity.
Qed.

(** X22.  Every edge of the graph that [constructGCGraph] returns joins
    two vertices of the graph, from a vertex to one added before it, with
    the same capacity in both directions. *)
Theorem constructGCGraph_edges
    (img : Mat Vec3b) (mask : Mat Z) (bgdGMM fgdGMM : GMM) (lam : R) (nw : NWeights)
    (g : GCGraph)
    (Hrun : constructGCGraph img mask bgdGMM fgdGMM lam nw = Ok g) :
  Forall (fun e => (0 <= ev e < eu e)%Z /\ (eu e < vtxCount g)%Z /\ capUV e = capVU e)
         (edges g).
Proof.
  destruct (constructGCGraph_built _ _ _ _ _ _ _ Hrun) as [Hcnt [_ [_ Hedges]]].
  apply Forall_forall. intros e He. rewrite Hcnt. now apply Hedges.
Qed.

End Plain_graph.

(** ** The slim graph *)

Section Slim_graph.
Local Open Scope R_scope.

Lemma raster_before (r c : Z) (pre post : list Point) (p q : Point) :
  raster r c = pre ++ p :: post -> In q pre -> before q p.
Proof.
  intros Hsplit Hq. pose proof (raster_sorted r c) as Hs. rewrite Hsplit in Hs.
  now apply (StronglySorted_prefix before pre post p Hs).
Qed.

Lemma raster_fresh (r c : Z) (pre post : list Point) (p : Point) :
  raster r c = pre ++ p :: post -> visited pre (py p) (px p) = false.
Proof.
  intros Hsplit. destruct (visited pre (py p) (px p)) eqn:E; [| reflexivity].
  unfold visited in E. apply existsb_exists in E. destruct E as [q [Hq E]].
  apply andb_true_iff in E. destruct E as [Ey Ex].
  apply Z.eqb_eq in Ey. apply Z.eqb_eq in Ex.
  pose proof (raster_before r c pre post p q Hsplit Hq) as Hb.
  unfold before in Hb. lia.
Qed.

Lemma visited_In (l : list Point) (q : Point) :
  In q l -> visited l (py q) (px q) = true.
Proof.
  intros H. unfold visited. apply existsb_exists. exists q.
  split; [exact H |]. now rewrite !Z.eqb_refl.
Qed.

Lemma StronglySorted_snoc {A} (Rel : A -> A -> Prop) (l : list A) (x : A) :
  StronglySorted Rel l -> (forall a, In a l -> Rel a x) -> StronglySorted Rel (l ++ [x]).
Proof.
  intros Hs Hx. apply StronglySorted_app_intro; [exact Hs | |].
  - constructor; [constructor | constructor].
  - intros a b Ha [<- | []]. now apply Hx.
Qed.

(** The neighbours that [searchJoin] and the linking blocks read are
    pixels that the loop has visited. *)
Lemma neighbours_have (P : Z -> Prop) (img : Mat Vec3b) (nw : NWeights)
    (pre post : list Point) (p : Point) (p2v : Mat Z) :
  raster (rows img) (cols img) = pre ++ p :: post ->
  (forall q, In q pre -> P (mat_atP p2v q)) ->
  forall qx qy, (0 <= qy < rows img)%Z -> (0 <= qx < cols img)%Z ->
    before (mkPoint qx qy) p -> P (mat_at p2v qy qx).
Proof.
  intros Hsplit HP qx qy Hy Hx Hb.
  apply (HP (mkPoint qx qy)).
  apply (raster_visited (rows img) (cols img) pre post p); auto.
Qed.

Lemma neighbours_ok (P : Z -> Prop) (img : Mat Vec3b) (nw : NWeights)
    (pre post : list Point) (p : Point) (p2v : Mat Z) :
  raster (rows img) (cols img) = pre ++ p :: post ->
  (forall q, In q pre -> P (mat_atP p2v q)) ->
  forall i, fst (neighbours p img p2v nw i) = (-10)%Z
            \/ P (fst (neighbours p img p2v nw i)).
Proof.
  intros Hsplit HP i.
  assert (Hp : In p (raster (rows img) (cols img)))
    by (rewrite Hsplit; apply in_or_app; right; now left).
  apply raster_In in Hp. destruct Hp as [Hpy Hpx].
  pose proof (neighbours_have P img nw pre post p p2v Hsplit HP) as Hq.
  unfold neighbours. cbv zeta.
  repeat match goal with |- context [if ?b then _ else _] => destruct b eqn:? end;
    cbn [fst]; auto; right;
    repeat match goal with
           | H : _ && _ = true |- _ => apply andb_true_iff in H; destruct H
           | H : (_ >? _)%Z = true |- _ => apply Z.gtb_lt in H
           | H : (_ <? _)%Z = true |- _ => apply Z.ltb_lt in H
           end;
    apply Hq; unfold before; cbn; lia.
Qed.

(** The two terminal weights of a pixel whose label is probable, when
    the terminal weights of the pixel are defined. *)
Lemma probable_terminal_weights (p : Point) (img : Mat Vec3b) (mask : Mat Z)
    (b f : GMM) (lam fs ts : R) :
  is_probable (mat_atP mask p) = true ->
  tWeights (mat_atP mask p) (to_Vec3d (mat_atP img p)) b f lam = Ok (fs, ts) ->
  probableWeights (to_Vec3d (mat_atP img p)) b f = Ok (fs, ts)
  /\ getSourceW p img mask b f lam = Ok fs
  /\ getSinkW p img mask b f lam = Ok ts.
Proof.
  intros Hpr Htw. unfold tWeights in Htw. rewrite Hpr in Htw.
  split; [exact Htw |].
  assert (Hb : (mat_atP mask p =? GC_BGD)%Z = false /\ (mat_atP mask p =? GC_FGD)%Z = false).
  { unfold is_probable in Hpr. apply orb_true_iff in Hpr.
    destruct Hpr as [E | E]; apply Z.eqb_eq in E; rewrite E; split; reflexivity. }
  destruct Hb as [Hb Hf].
  unfold probableWeights in Htw.
  apply bind_Ok in Htw. destruct Htw as [vb [Hvb Htw]].
  apply bind_Ok in Htw. destruct Htw as [lb [Hlb Htw]].
  apply bind_Ok in Htw. destruct Htw as [vf [Hvf Htw]].
  apply bind_Ok in Htw. destruct Htw as [lf [Hlf Htw]].
  injection Htw as <- <-.
  unfold getSourceW, getSinkW. rewrite Hb, Hf.
  change (mat_at mask (py p) (px p)) with (mat_atP mask p). rewrite Hpr.
  change (mat_at img (py p) (px p)) with (mat_atP img p).
  rewrite Hvb, Hvf. cbn [bind]. auto.
Qed.

Lemma joinLoop_total (nghbrVtx : Z -> Z) s half dual (P : Z -> Prop) (idx : list Z) :
  (forall i, nghbrVtx i = (-10)%Z \/ P (nghbrVtx i)) ->
  (forall cn si, P cn -> exists d, dual cn si = Ok d) ->
  exists r, joinLoop nghbrVtx s half dual idx = Ok r /\ (r = BV_NO_VTX_FOUND \/ P r).
Proof.
  intros Hn Hd. induction idx as [| i idx IH]; cbn [joinLoop].
  - exists BV_NO_VTX_FOUND. auto.
  - destruct (nghbrVtx i =? -10)%Z eqn:E; [exact IH |].
    apply Z.eqb_neq in E. destruct (Hn i) as [Hi | Hi]; [contradiction |].
    destruct (Rgtb (s i) half); [eauto |].
    destruct (Hd (nghbrVtx i) (s i) Hi) as [d ->]. cbn [bind].
    destruct d; [eauto | exact IH].
Qed.

Lemma dualCondition_total p img nw g v2p sink source ws wt cn si :
  mat_atP v2p p = noPoint ->
  ((0 <= cn < vtxCount g)%Z \/ (cn = GC_JNT_BGD /\ sink <> [])
   \/ (cn = GC_JNT_FGD /\ source <> [])) ->
  exists d, dualCondition p img nw g v2p sink source ws wt cn si = Ok d.
Proof.
  intros Hv H. unfold dualCondition.
  destruct (cn >=? 0)%Z eqn:E0.
  - unfold slimSumW. cbv zeta. rewrite Hv.
    change (Point_eqb noPoint noPoint) with true.
    destruct (Point_eqb _ noPoint); cbn [bind]; eauto.
  - rewrite Z.geb_leb in E0. apply Z.leb_gt in E0.
    destruct H as [H | [[-> Hs] | [-> Hs]]]; [lia | |].
    + rewrite Z.eqb_refl.
      rewrite (getSinkPendingSumW_nonempty _ _ _ _ Hs). cbn [bind]. eauto.
    + change (GC_JNT_FGD =? GC_JNT_BGD)%Z with false. cbv iota.
      rewrite getSourcePendingSumW_eq.
      rewrite (getSinkPendingSumW_nonempty _ _ _ _ Hs). cbn [bind]. eauto.
Qed.

(** [searchJoin] on a probable pixel whose terminal weights are defined:
    it answers "not found", a vertex of the graph, or a sentinel. *)
Lemma searchJoin_total p img sigmaW p2v nw g v2p mask b f lam sink source fs ts :
  is_probable (mat_atP mask p) = true ->
  tWeights (mat_atP mask p) (to_Vec3d (mat_atP img p)) b f lam = Ok (fs, ts) ->
  mat_atP v2p p = noPoint ->
  (forall i, fst (neighbours p img p2v nw i) = (-10)%Z
             \/ ((0 <= fst (neighbours p img p2v nw i) < vtxCount g)%Z
                 \/ (fst (neighbours p img p2v nw i) = GC_JNT_BGD /\ sink <> [])
                 \/ (fst (neighbours p img p2v nw i) = GC_JNT_FGD /\ source <> []))) ->
  exists r, searchJoin p img sigmaW p2v nw g v2p mask b f lam sink source = Ok r
            /\ (r = BV_NO_VTX_FOUND \/ (0 <= r < vtxCount g)%Z
                \/ r = GC_JNT_BGD \/ r = GC_JNT_FGD).
Proof.
  intros Hpr Htw Hv Hn.
  destruct (probable_terminal_weights p img mask b f lam fs ts Hpr Htw) as [_ [Hs Ht]].
  unfold searchJoin. cbv zeta. rewrite Hs, Ht. cbn [bind].
  destruct (Rgtb ts _); [eauto 6 |].
  destruct (Rgtb fs _); [eauto 6 |].
  destruct (joinLoop_total (fun i => fst (neighbours p img p2v nw i))
              (aggregated (neighbours p img p2v nw) ts fs)
              (1 / 2 * mat_atP sigmaW p)
              (dualCondition p img nw g v2p sink source ts fs)
              (fun cn => (0 <= cn < vtxCount g)%Z \/ (cn = GC_JNT_BGD /\ sink <> [])
                         \/ (cn = GC_JNT_FGD /\ source <> []))
              (zrange 4)) as [r [Hr Hc]].
  - exact Hn.
  - intros cn si Hc. now apply dualCondition_total.
  - exists r. split; [exact Hr |]. destruct Hc as [-> | [Hc | [[-> _] | [-> _]]]]; auto.
Qed.

(** What [classifyPixel] does with a pixel whose terminal weights are
    defined: the pixel gets a fresh vertex, the vertex of a neighbour, or a
    terminal, and the state is changed accordingly. *)
Lemma classifyPixel_total img mask b f lam nw sigmaW st p fs ts :
  (0 <= vtxCount (graph st))%Z ->
  tWeights (mat_atP mask p) (to_Vec3d (mat_atP img p)) b f lam = Ok (fs, ts) ->
  mat_atP (Vtx2pxl st) p = noPoint ->
  (forall i, fst (neighbours p img (pxl2Vtx st) nw i) = (-10)%Z
             \/ ((0 <= fst (neighbours p img (pxl2Vtx st) nw i) < vtxCount (graph st))%Z
                 \/ (fst (neighbours p img (pxl2Vtx st) nw i) = GC_JNT_BGD
                     /\ sinkToPxl st <> [])
                 \/ (fst (neighbours p img (pxl2Vtx st) nw i) = GC_JNT_FGD
                     /\ sourceToPxl st <> []))) ->
  exists st1 v,
    classifyPixel img mask b f lam nw sigmaW st p = Ok st1
    /\ pxl2Vtx st1 = mat_setP (pxl2Vtx st) p v
    /\ edges (graph st1) = edges (graph st)
    /\ (Vtx2pxl st1 = Vtx2pxl st \/ exists q, Vtx2pxl st1 = mat_setP (Vtx2pxl st) p q)
    /\ ((is_probable (mat_atP mask p) = true /\ v = vtxCount (graph st)
         /\ vtxCount (graph st1) = (vtxCount (graph st) + 1)%Z
         /\ count st1 = count st
         /\ sinkToPxl st1 = sinkToPxl st /\ sourceToPxl st1 = sourceToPxl st)
        \/ (is_probable (mat_atP mask p) = true /\ (0 <= v < vtxCount (graph st))%Z
            /\ vtxCount (graph st1) = vtxCount (graph st)
            /\ count st1 = (count st + 1)%Z
            /\ sinkToPxl st1 = sinkToPxl st /\ sourceToPxl st1 = sourceToPxl st)
        \/ (v = GC_JNT_BGD /\ vtxCount (graph st1) = vtxCount (graph st)
            /\ sinkToPxl st1 = sinkToPxl st ++ [p] /\ sourceToPxl st1 = sourceToPxl st
            /\ ((is_probable (mat_atP mask p) = true /\ count st1 = (count st + 1)%Z)
                \/ (is_probable (mat_atP mask p) = false /\ mat_atP mask p = GC_BGD
                    /\ count st1 = count st)))
        \/ (v = GC_JNT_FGD /\ vtxCount (graph st1) = vtxCount (graph st)
            /\ sinkToPxl st1 = sinkToPxl st /\ sourceToPxl st1 = sourceToPxl st ++ [p]
            /\ ((is_probable (mat_atP mask p) = true /\ count st1 = (count st + 1)%Z)
                \/ (is_probable (mat_atP mask p) = false /\ mat_atP mask p <> GC_BGD
                    /\ count st1 = count st)))).
Proof.
  intros Hcount Htw Hv Hn. unfold classifyPixel. cbv zeta.
  destruct (is_probable (mat_atP mask p)) eqn:Hpr.
  - destruct (probable_terminal_weights p img mask b f lam fs ts Hpr Htw)
      as [Hpw [Hsrc Hsnk]].
    destruct (searchJoin_total p img sigmaW (pxl2Vtx st) nw (graph st) (Vtx2pxl st)
                mask b f lam (sinkToPxl st) (sourceToPxl st) fs ts Hpr Htw Hv Hn)
      as [i [Hi Hcase]].
    rewrite Hi. cbn [bind].
    destruct Hcase as [-> | [Hr | [-> | ->]]].
    + (* not found: a fresh vertex *)
      change (negb (BV_NO_VTX_FOUND =? BV_NO_VTX_FOUND)%Z) with false. cbv iota.
      unfold addVtx.
      replace (vtxCount (graph st) >=? 0)%Z with true
        by (symmetry; rewrite Z.geb_leb; apply Z.leb_le; lia).
      rewrite Hpw. cbn [bind].
      eexists. exists (vtxCount (graph st)). split; [reflexivity |].
      cbn. split; [reflexivity |]. split; [reflexivity |]. split; [now left |].
      left. auto 10.
    + (* joined to the vertex of a neighbour *)
      replace (i =? BV_NO_VTX_FOUND)%Z with false
        by (symmetry; apply Z.eqb_neq; unfold BV_NO_VTX_FOUND; lia).
      replace (i >=? 0)%Z with true by (symmetry; rewrite Z.geb_leb; apply Z.leb_le; lia).
      cbn [negb]. cbv iota.
      replace (i >=? 0)%Z with true by (symmetry; rewrite Z.geb_leb; apply Z.leb_le; lia).
      rewrite Hpw. cbn [bind].
      eexists. exists i. split; [reflexivity |].
      cbn. split; [reflexivity |]. split; [reflexivity |]. split; [right; eauto |].
      right. left. auto 10.
    + (* joined to the sink *)
      cbn. rewrite Hsrc. cbn [bind].
      eexists. exists GC_JNT_BGD. split; [reflexivity |].
      cbn. split; [reflexivity |]. split; [reflexivity |]. split; [now left |].
      right. right. left. auto 10.
    + (* joined to the source *)
      cbn. rewrite Hsnk. cbn [bind].
      eexists. exists GC_JNT_FGD. split; [reflexivity |].
      cbn. split; [reflexivity |]. split; [reflexivity |]. split; [now left |].
      right. right. right. auto 10.
  - destruct (mat_atP mask p =? GC_BGD)%Z eqn:Eb.
    + apply Z.eqb_eq in Eb.
      eexists. exists GC_JNT_BGD. split; [reflexivity |].
      cbn. split; [reflexivity |]. split; [reflexivity |]. split; [now left |].
      right. right. left. auto 10.
    + apply Z.eqb_neq in Eb.
      eexists. exists GC_JNT_FGD. split; [reflexivity |].
      cbn. split; [reflexivity |]. split; [reflexivity |]. split; [now left |].
      right. right. right. auto 10.
Qed.

Lemma edge_ok_same (g g' : GCGraph) (e : Edge) :
  vtxCount g' = vtxCount g -> edge_ok g e -> edge_ok g' e.
Proof. unfold edge_ok. intros ->. auto. Qed.

Lemma linkNeighbor_edges (g : GCGraph) (w : R) (vtx n : Z) (wt : R) :
  (forall e, In e (edges g) -> edge_ok g e) ->
  ((0 <= vtx)%Z -> (vtx < vtxCount g)%Z) -> ((0 <= n)%Z -> (n < vtxCount g)%Z) ->
  forall e, In e (edges (fst (linkNeighbor g w vtx n wt))) ->
            edge_ok (fst (linkNeighbor g w vtx n wt)) e.
Proof.
  intros He Hvtx Hn e. pose proof (linkNeighbor_vtxCount g w vtx n wt) as Hc.
  intros Hin. apply (edge_ok_same g); [exact Hc |]. revert Hin.
  unfold linkNeighbor.
  destruct (n >=? 0)%Z eqn:En.
  - destruct (vtx >=? 0)%Z eqn:Ev.
    + destruct (negb (vtx =? n)%Z) eqn:Ene; cbn [fst]; [| apply He].
      unfold addWeight. cbn [addEdges edges].
      intros Hin. apply in_app_or in Hin.
      destruct Hin as [Hin | [<- | []]]; [now apply He |].
      rewrite Z.geb_leb in En, Ev. apply Z.leb_le in En. apply Z.leb_le in Ev.
      apply negb_true_iff in Ene. apply Z.eqb_neq in Ene.
      unfold edge_ok. cbn. specialize (Hvtx Ev). specialize (Hn En).
      repeat split; auto; lia.
    + cbn [fst addTermWeights edges]. apply He.
  - destruct (vtx >=? 0)%Z.
    + cbn [fst addTermWeights edges]. apply He.
    + destruct (negb (Bool.eqb (jbg vtx) (jbg n))); cbn [fst]; apply He.
Qed.

Lemma cond_link (c : bool) (gs : GCGraph * R) (vtx n : Z) (wt : R) :
  (forall e, In e (edges (fst gs)) -> edge_ok (fst gs) e) ->
  ((0 <= vtx)%Z -> (vtx < vtxCount (fst gs))%Z) ->
  (c = true -> (0 <= n)%Z -> (n < vtxCount (fst gs))%Z) ->
  let gs' := if c then linkNeighbor (fst gs) (snd gs) vtx n wt else gs in
  vtxCount (fst gs') = vtxCount (fst gs)
  /\ forall e, In e (edges (fst gs')) -> edge_ok (fst gs') e.
Proof.
  intros He Hvtx Hn. cbv zeta. destruct c; [| auto].
  split; [apply linkNeighbor_vtxCount |].
  apply linkNeighbor_edges; auto.
Qed.

(** The four linking blocks add edges between vertices of the graph. *)
Lemma linkNeighbors_edges (img : Mat Vec3b) (nw : NWeights) (p : Point) (p2v : Mat Z)
    (g : GCGraph) (w : R) :
  (forall e, In e (edges g) -> edge_ok g e) ->
  ((0 <= mat_atP p2v p)%Z -> (mat_atP p2v p < vtxCount g)%Z) ->
  (forall qx qy, (0 <= qy < rows img)%Z -> (0 <= qx < cols img)%Z ->
     before (mkPoint qx qy) p ->
     (0 <= mat_at p2v qy qx)%Z -> (mat_at p2v qy qx < vtxCount g)%Z) ->
  (0 <= py p < rows img)%Z -> (0 <= px p < cols img)%Z ->
  forall e, In e (edges (fst (linkNeighbors img nw p p2v g w))) ->
            edge_ok (fst (linkNeighbors img nw p p2v g w)) e.
Proof.
  intros He Hvtx Hq Hpy Hpx. unfold linkNeighbors. cbv zeta.
  set (vtx := mat_atP p2v p) in *.
  destruct (cond_link (px p >? 0)%Z (g, w) vtx
              (mat_atP p2v (mkPoint (px p - 1) (py p))) (mat_atP (leftW nw) p))
    as [A1 A2]; [exact He | exact Hvtx | |].
  { intros E. apply Z.gtb_lt in E. cbn [fst]. apply Hq; unfold before; cbn; lia. }
  cbv zeta in A1, A2. cbn [fst snd] in A1, A2 |- *.
  set (gs1 := if (px p >? 0)%Z then _ else (g, w)) in *.
  destruct (cond_link ((px p >? 0) && (py p >? 0))%Z gs1 vtx
              (mat_atP p2v (mkPoint (px p - 1) (py p - 1))) (mat_atP (upleftW nw) p))
    as [B1 B2]; [exact A2 | rewrite A1; exact Hvtx | |].
  { intros E. apply andb_true_iff in E. destruct E as [Ex Ey].
    apply Z.gtb_lt in Ex. apply Z.gtb_lt in Ey. rewrite A1.
    apply Hq; unfold before; cbn; lia. }
  cbv zeta in B1, B2.
  set (gs2 := if ((px p >? 0) && (py p >? 0))%Z then _ else gs1) in *.
  destruct (cond_link (py p >? 0)%Z gs2 vtx
              (mat_atP p2v (mkPoint (px p) (py p - 1))) (mat_atP (upW nw) p))
    as [C1 C2]; [exact B2 | rewrite B1, A1; exact Hvtx | |].
  { intros E. apply Z.gtb_lt in E. rewrite B1, A1.
    apply Hq; unfold before; cbn; lia. }
  cbv zeta in C1, C2.
  set (gs3 := if (py p >? 0)%Z then _ else gs2) in *.
  destruct (cond_link ((px p <? cols img - 1) && (py p >? 0))%Z gs3 vtx
              (mat_atP p2v (mkPoint (px p + 1) (py p - 1))) (mat_atP (uprightW nw) p))
    as [D1 D2]; [exact C2 | rewrite C1, B1, A1; exact Hvtx | |].
  { intros E. apply andb_true_iff in E. destruct E as [Ex Ey].
    apply Z.ltb_lt in Ex. apply Z.gtb_lt in Ey. rewrite C1, B1, A1.
    apply Hq; unfold before; cbn; lia. }
  cbv zeta in D1, D2. exact D2.
Qed.

Lemma mat_set_at {A} (m : Mat A) (p : Point) (v : A) (y x : Z) :
  mat_at (mat_setP m p v) y x
  = if ((y =? py p) && (x =? px p))%Z then v else mat_at m y x.
Proof. reflexivity. Qed.

Lemma probableCount_snoc (mask : Mat Z) (l : list Point) (p : Point) :
  probableCount mask (l ++ [p])
  = (probableCount mask l + (if is_probable (mat_atP mask p) then 1 else 0))%Z.
Proof.
  unfold probableCount. rewrite filter_app, length_app. cbn [filter].
  destruct (is_probable (mat_atP mask p)); cbn [List.length]; lia.
Qed.

Lemma before_differs (q p : Point) :
  before q p -> ((py q =? py p) && (px q =? px p))%Z = false.
Proof.
  intros H. destruct ((py q =? py p) && (px q =? px p))%Z eqn:E; [| reflexivity].
  apply andb_true_iff in E. destruct E as [Ey Ex].
  apply Z.eqb_eq in Ey. apply Z.eqb_eq in Ex. unfold before in H. lia.
Qed.

(** One turn of the loop of [constructGCGraph_slim] on a pixel whose
    terminal weights are defined. *)
Lemma slimStep_built img mask b f lam nw sigmaW
    (pre post : list Point) (p : Point) (st : SlimState) (fs ts : R) :
  raster (rows img) (cols img) = pre ++ p :: post ->
  slim_built mask pre st ->
  tWeights (mat_atP mask p) (to_Vec3d (mat_atP img p)) b f lam = Ok (fs, ts) ->
  exists st', slimStep img mask b f lam nw sigmaW st p = Ok st'
              /\ slim_built mask (pre ++ [p]) st'.
Proof.
  intros Hsplit [Hvc [Hvert [Hhard [Hv2p [Hedges [Hcnt [Hs1 [Hs2 [Hin1 [Hin2
    [Hc0 [Hk1 Hk2]]]]]]]]]]]] Htw.
  assert (Hp : In p (raster (rows img) (cols img)))
    by (rewrite Hsplit; apply in_or_app; right; now left).
  apply raster_In in Hp. destruct Hp as [Hpy Hpx].
  pose proof (raster_fresh _ _ _ _ _ Hsplit) as Hfresh.
  pose proof (Hv2p _ _ Hfresh) as Hv.
  assert (Hbefore : forall q, In q pre -> before q p)
    by (intros q Hq; apply (raster_before _ _ _ _ _ _ Hsplit Hq)).
  assert (Hn : forall i,
            fst (neighbours p img (pxl2Vtx st) nw i) = (-10)%Z
            \/ ((0 <= fst (neighbours p img (pxl2Vtx st) nw i) < vtxCount (graph st))%Z
                \/ (fst (neighbours p img (pxl2Vtx st) nw i) = GC_JNT_BGD
                    /\ sinkToPxl st <> [])
                \/ (fst (neighbours p img (pxl2Vtx st) nw i) = GC_JNT_FGD
                    /\ sourceToPxl st <> []))).
  { apply (neighbours_ok (fun cn => (0 <= cn < vtxCount (graph st))%Z
                            \/ (cn = GC_JNT_BGD /\ sinkToPxl st <> [])
                            \/ (cn = GC_JNT_FGD /\ sourceToPxl st <> []))
             img nw pre post p (pxl2Vtx st) Hsplit).
    intros q Hq. destruct (Hvert q Hq) as [H | [[H1 H2] | [H1 H2]]]; auto.
    - right. left. split; [exact H1 |]. intros E. rewrite E in H2. exact H2.
    - right. right. split; [exact H1 |]. intros E. rewrite E in H2. exact H2. }
  destruct (classifyPixel_total img mask b f lam nw sigmaW st p fs ts Hvc Htw Hv Hn)
    as [st1 [v [Hcp [Hp2v [Hedg1 [Hv2p1 Hcase]]]]]].
  unfold slimStep. rewrite Hcp. cbn [bind].
  (* the facts common to the four cases *)
  assert (Hmono : (vtxCount (graph st) <= vtxCount (graph st1))%Z
                  /\ (forall q, In q (sinkToPxl st) -> In q (sinkToPxl st1))
                  /\ (forall q, In q (sourceToPxl st) -> In q (sourceToPxl st1))).
  { destruct Hcase as [[_ [_ [Hc [_ [-> ->]]]]] | [[_ [_ [Hc [_ [-> ->]]]]]
                      | [[_ [Hc [-> [-> _]]]] | [_ [Hc [-> [-> _]]]]]]];
      repeat split; auto; try lia; intros q Hq; apply in_or_app; now left. }
  destruct Hmono as [Hvc1 [Hsink1 Hsource1]].
  assert (Hvp : vertex_of st1 p v).
  { unfold vertex_of.
    destruct Hcase as [[_ [-> [Hc _]]] | [[_ [Hr [Hc _]]]
                      | [[-> [_ [Hk _]]] | [-> [_ [_ [Hk _]]]]]]].
    - left. lia.
    - left. lia.
    - right. left. split; [reflexivity |]. rewrite Hk. apply in_or_app. right. now left.
    - right. right. split; [reflexivity |]. rewrite Hk. apply in_or_app. right. now left. }
  assert (Hold : forall q, In q pre -> mat_atP (pxl2Vtx st1) q = mat_atP (pxl2Vtx st) q).
  { intros q Hq. rewrite Hp2v. unfold mat_atP at 1. fold (mat_at (mat_setP (pxl2Vtx st) p v) (py q) (px q)).
    rewrite mat_set_at, (before_differs q p (Hbefore q Hq)). reflexivity. }
  assert (Hnew : mat_atP (pxl2Vtx st1) p = v).
  { rewrite Hp2v. unfold mat_atP. fold (mat_at (mat_setP (pxl2Vtx st) p v) (py p) (px p)).
    rewrite mat_set_at, !Z.eqb_refl. reflexivity. }
  assert (Hvert1 : forall q, In q pre -> vertex_of st1 q (mat_atP (pxl2Vtx st) q)).
  { intros q Hq. destruct (Hvert q Hq) as [H | [[H1 H2] | [H1 H2]]]; unfold vertex_of.
    - left. lia.
    - right. left. auto.
    - right. right. auto. }
  pose proof (linkNeighbors_vtxCount img nw p (pxl2Vtx st1) (graph st1) (s2tw st1)) as Hlc.
  pose proof (linkNeighbors_edges img nw p (pxl2Vtx st1) (graph st1) (s2tw st1)) as Hle.
  destruct (linkNeighbors img nw p (pxl2Vtx st1) (graph st1) (s2tw st1)) as [g w].
  cbn [fst] in Hlc, Hle.
  eexists. split; [reflexivity |].
  unfold slim_built.
  cbn [graph pxl2Vtx Vtx2pxl sinkToPxl sourceToPxl count].
  assert (Hvof : forall q u, vertex_of st1 q u ->
            vertex_of (mkSlim g (pxl2Vtx st1) (Vtx2pxl st1) (sinkToPxl st1)
                              (sourceToPxl st1) w (count st1)) q u).
  { intros q u H. unfold vertex_of in *.
    cbn [graph sinkToPxl sourceToPxl]. now rewrite Hlc. }
  repeat apply conj.
  - lia.
  - intros q Hq. apply Hvof. apply in_app_or in Hq. destruct Hq as [Hq | [<- | []]].
    + rewrite (Hold q Hq). now apply Hvert1.
    + now rewrite Hnew.
  - intros q Hq Hnp. apply in_app_or in Hq. destruct Hq as [Hq | [<- | []]].
    + rewrite (Hold q Hq). now apply Hhard.
    + rewrite Hnew.
      destruct Hcase as [[Hpr _] | [[Hpr _]
                        | [[-> [_ [_ [_ [[Hpr _] | [_ [Hb _]]]]]]]
                          | [-> [_ [_ [_ [[Hpr _] | [_ [Hb _]]]]]]]]]];
        try congruence.
      * now rewrite Hb.
      * apply Z.eqb_neq in Hb. now rewrite Hb.
  - intros y x Hvis. rewrite visited_snoc in Hvis. apply orb_false_iff in Hvis.
    destruct Hvis as [Hvis Hpos].
    destruct Hv2p1 as [-> | [q ->]]; [now apply Hv2p |].
    rewrite mat_set_at, (Z.eqb_sym y), (Z.eqb_sym x), Hpos. now apply Hv2p.
  - apply Hle; auto.
    + intros e He. rewrite Hedg1 in He.
      destruct (Hedges e He) as [? [? [? ?]]]. unfold edge_ok. repeat split; auto; lia.
    + rewrite Hnew. intros H0. destruct Hvp as [H | [[H _] | [H _]]];
        [lia | rewrite H in H0; unfold GC_JNT_BGD in H0; lia
        | rewrite H in H0; unfold GC_JNT_FGD in H0; lia].
    + intros qx qy Hqy Hqx Hb H0.
      assert (Hq : In (mkPoint qx qy) pre)
        by (apply (raster_visited (rows img) (cols img) pre post p); auto).
      pose proof (Hold _ Hq) as Ho. unfold mat_atP in Ho. cbn [px py] in Ho.
      unfold mat_at in *. rewrite Ho in *.
      destruct (Hvert _ Hq) as [H | [[H _] | [H _]]]; unfold mat_atP in H; cbn [px py] in H.
      * lia.
      * rewrite H in H0. unfold GC_JNT_BGD in H0. lia.
      * rewrite H in H0. unfold GC_JNT_FGD in H0. lia.
  - rewrite Hlc, probableCount_snoc, <- Hcnt.
    destruct Hcase as [[Hpr [_ [Hc [Hk _]]]] | [[Hpr [_ [Hc [Hk _]]]]
                      | [[_ [Hc [_ [_ [[Hpr Hk] | [Hpr [_ Hk]]]]]]]
                        | [_ [Hc [_ [_ [[Hpr Hk] | [Hpr [_ Hk]]]]]]]]]];
      rewrite Hpr, Hc, Hk; lia.
  - destruct Hcase as [[_ [_ [_ [_ [-> _]]]]] | [[_ [_ [_ [_ [-> _]]]]]
                      | [[_ [_ [-> _]]] | [_ [_ [-> _]]]]]]; auto.
    apply StronglySorted_snoc; auto.
  - destruct Hcase as [[_ [_ [_ [_ [_ ->]]]]] | [[_ [_ [_ [_ [_ ->]]]]]
                      | [[_ [_ [_ [-> _]]]] | [_ [_ [_ [-> _]]]]]]]; auto.
    apply StronglySorted_snoc; auto.
  - intros q Hq. apply in_or_app.
    destruct Hcase as [[_ [_ [_ [_ [E _]]]]] | [[_ [_ [_ [_ [E _]]]]]
                      | [[_ [_ [E _]]] | [_ [_ [E _]]]]]]; rewrite E in Hq;
      try (left; now apply Hin1).
    apply in_app_or in Hq. destruct Hq as [Hq | Hq]; [left; now apply Hin1 | now right].
  - intros q Hq. apply in_or_app.
    destruct Hcase as [[_ [_ [_ [_ [_ E]]]]] | [[_ [_ [_ [_ [_ E]]]]]
                      | [[_ [_ [_ [E _]]]] | [_ [_ [_ [E _]]]]]]]; rewrite E in Hq;
      try (left; now apply Hin2).
    apply in_app_or in Hq. destruct Hq as [Hq | Hq]; [left; now apply Hin2 | now right].
  - destruct Hcase as [[_ [_ [_ [E _]]]] | [[_ [_ [_ [E _]]]]
                      | [[_ [_ [_ [_ [[_ E] | [_ [_ E]]]]]]]
                        | [_ [_ [_ [_ [[_ E] | [_ [_ E]]]]]]]]]]; rewrite E; lia.
  - intros q Hq.
    assert (Hcases : In q (sinkToPxl st) \/ (q = p /\ v = GC_JNT_BGD)).
    { destruct Hcase as [[_ [_ [_ [_ [E _]]]]] | [[_ [_ [_ [_ [E _]]]]]
                        | [[Ev [_ [E _]]] | [_ [_ [E _]]]]]]; rewrite E in Hq; auto.
      apply in_app_or in Hq. destruct Hq as [Hq | [<- | []]]; auto. }
    destruct Hcases as [Hq' | [-> ->]]; [| exact Hnew].
    rewrite (Hold q (Hin1 q Hq')). now apply Hk1.
  - intros q Hq.
    assert (Hcases : In q (sourceToPxl st) \/ (q = p /\ v = GC_JNT_FGD)).
    { destruct Hcase as [[_ [_ [_ [_ [_ E]]]]] | [[_ [_ [_ [_ [_ E]]]]]
                        | [[_ [_ [_ [E _]]]] | [Ev [_ [_ [E _]]]]]]]; rewrite E in Hq; auto.
      apply in_app_or in Hq. destruct Hq as [Hq | [<- | []]]; auto. }
    destruct Hcases as [Hq' | [-> ->]]; [| exact Hnew].
    rewrite (Hold q (Hin2 q Hq')). now apply Hk2.
Qed.

End Slim_graph.

Section Slim_results.
Local Open Scope R_scope.

Lemma same_outcome_sym {A B} (r1 : res A) (r2 : res B) :
  same_outcome r1 r2 -> same_outcome r2 r1.
Proof. destruct r1, r2; cbn; auto. Qed.

Lemma same_outcome_trans {A B C} (r1 : res A) (r2 : res B) (r3 : res C) :
  same_outcome r1 r2 -> same_outcome r2 r3 -> same_outcome r1 r3.
Proof. destruct r1, r2, r3; cbn; auto; try contradiction. congruence. Qed.

(** A loop whose body fails only where a test of the loop element fails
    has the outcome of the loop of the tests alone. *)
Lemma forM_tests {A S X} (t : A -> res X) (cont : S -> A -> X -> res S)
    (body : S -> A -> res S) (l : list A) :
  (forall s a, body s a = bind (t a) (cont s a)) ->
  (forall s a x, exists s', cont s a x = Ok s') ->
  forall s, same_outcome (forM l body s)
              (forM l (fun (_ : unit) a => do _ <- t a; Ok tt) tt).
Proof.
  intros Hb Hc. induction l as [| a l IH]; intros s; cbn [forM]; [exact I |].
  rewrite Hb. destruct (t a) as [x | e]; cbn [bind]; [| reflexivity].
  destruct (Hc s a x) as [s' ->]. apply IH.
Qed.

Lemma forM_tests_Ok {A X} (t : A -> res X) (l : list A) :
  forM l (fun (_ : unit) a => do _ <- t a; Ok tt) tt = Ok tt ->
  forall a, In a l -> exists x, t a = Ok x.
Proof.
  induction l as [| a l IH]; cbn [forM]; intros H b Hb; [contradiction |].
  destruct (t a) as [x | e] eqn:E; cbn [bind] in H; [| discriminate].
  destruct Hb as [<- | Hb]; [eauto | now apply IH].
Qed.

Lemma constructGCGraph_scan img mask b f lam nw :
  same_outcome (constructGCGraph img mask b f lam nw)
               (terminalScan img mask b f lam (raster (rows img) (cols img))).
Proof.
  unfold constructGCGraph, terminalScan.
  apply (forM_tests
    (fun p => tWeights (mat_atP mask p) (to_Vec3d (mat_atP img p)) b f lam)
    (fun graph p (x : R * R) =>
       let '(fromSource, toSink) := x in
       let '(graph, vtxIdx) := addVtx graph in
       let graph := addTermWeights graph vtxIdx fromSource toSink in
       let graph := if (px p >? 0)%Z
                    then let w := mat_atP (leftW nw) p in
                         addEdges graph vtxIdx (vtxIdx - 1) w w
                    else graph in
       let graph := if ((px p >? 0) && (py p >? 0))%Z
                    then let w := mat_atP (upleftW nw) p in
                         addEdges graph vtxIdx (vtxIdx - cols img - 1) w w
                    else graph in
       let graph := if (py p >? 0)%Z
                    then let w := mat_atP (upW nw) p in
                         addEdges graph vtxIdx (vtxIdx - cols img) w w
                    else graph in
       let graph := if ((px p <? cols img - 1) && (py p >? 0))%Z
                    then let w := mat_atP (uprightW nw) p in
                         addEdges graph vtxIdx (vtxIdx - cols img + 1) w w
                    else graph in
       Ok graph)).
  - intros s a. cbv zeta. unfold addVtx.
    destruct (tWeights _ _ _ _ _) as [[fs ts] | e]; reflexivity.
  - intros s a [fs ts]. unfold addVtx. eexists. reflexivity.
Qed.

Lemma initSigmaW_scan img mask b f sigmaW nw lam :
  same_outcome (initSigmaW img mask b f sigmaW nw lam)
               (terminalScan img mask b f lam (raster (rows img) (cols img))).
Proof.
  unfold initSigmaW, terminalScan.
  apply (forM_tests
    (fun p => tWeights (mat_atP mask p) (to_Vec3d (mat_atP img p)) b f lam)
    (fun sigmaW p (x : R * R) =>
       let '(fromSource, toSink) := x in
       let x := px p in let y := py p in
       let s := 0 in
       let s := s + mat_at (leftW nw) y x in
       let s := s + mat_at (upleftW nw) y x in
       let s := s + mat_at (upW nw) y x in
       let s := s + mat_at (uprightW nw) y x in
       let s := if (x <? cols img - 1)%Z then s + mat_at (leftW nw) y (x + 1) else s in
       let s := if ((x <? cols img - 1) && (y <? rows img - 1))%Z
                then s + mat_at (upleftW nw) (y + 1) (x + 1) else s in
       let s := if (y <? rows img - 1)%Z then s + mat_at (upW nw) (y + 1) x else s in
       let s := if ((x >? 0) && (y <? rows img - 1))%Z
                then s + mat_at (uprightW nw) (y + 1) (x - 1) else s in
       Ok (mat_set sigmaW y x (s + fromSource + toSink)))).
  - intros s a. cbv zeta. unfold mat_atP, mat_at.
    destruct (tWeights _ _ _ _ _) as [[fs ts] | e]; reflexivity.
  - intros s a [fs ts]. eexists. reflexivity.
Qed.

Lemma slimInit_built (img : Mat Vec3b) (mask p2v : Mat Z) :
  slim_built mask [] (slimInit img p2v).
Proof.
  unfold slim_built, slimInit.
  cbn [graph pxl2Vtx Vtx2pxl sinkToPxl sourceToPxl count graph_create vtxCount edges].
  repeat apply conj.
  - lia.
  - intros q [].
  - intros q [].
  - reflexivity.
  - intros e [].
  - reflexivity.
  - constructor.
  - constructor.
  - intros q [].
  - intros q [].
  - lia.
  - intros q [].
  - intros q [].
Qed.

(** The slim construction on an image whose pixels all have terminal
    weights. *)
Lemma constructGCGraph_slim_total img mask b f lam nw p2v :
  terminalScan img mask b f lam (raster (rows img) (cols img)) = Ok tt ->
  exists st, constructGCGraph_slim img mask b f lam nw p2v = Ok st
             /\ slim_built mask (raster (rows img) (cols img)) st.
Proof.
  intros Hscan. unfold constructGCGraph_slim.
  pose proof (initSigmaW_scan img mask b f
                (mat_create_fill (rows img) (cols img) CV_64FC1 0) nw lam) as Hs.
  rewrite Hscan in Hs.
  destruct (initSigmaW _ _ _ _ _ _ _) as [sigmaW | e]; [| contradiction].
  cbn [bind].
  apply (forM_Ok_invariant (slim_built mask)).
  - apply slimInit_built.
  - intros pre p post st Hsplit Hst.
    destruct (forM_tests_Ok _ _ Hscan p) as [[fs ts] Htw].
    { rewrite Hsplit. apply in_or_app. right. now left. }
    now apply (slimStep_built img mask b f lam nw sigmaW pre post p st fs ts).
Qed.

Lemma terminalScan_unit img mask b f lam l u :
  terminalScan img mask b f lam l = Ok u -> terminalScan img mask b f lam l = Ok tt.
Proof. destruct u. auto. Qed.

Lemma constructGCGraph_slim_same img mask b f lam nw p2v :
  same_outcome (constructGCGraph_slim img mask b f lam nw p2v)
               (constructGCGraph img mask b f lam nw).
Proof.
  apply (same_outcome_trans _
           (terminalScan img mask b f lam (raster (rows img) (cols img))));
    [| apply same_outcome_sym, constructGCGraph_scan].
  destruct (terminalScan img mask b f lam (raster (rows img) (cols img)))
    as [[] | e] eqn:Hscan.
  - destruct (constructGCGraph_slim_total img mask b f lam nw p2v Hscan) as [st [-> _]].
    exact I.
  - unfold constructGCGraph_slim.
    pose proof (initSigmaW_scan img mask b f
                  (mat_create_fill (rows img) (cols img) CV_64FC1 0) nw lam) as Hs.
    unfold terminalScan in Hscan |- *. unfold terminalScan in Hs. rewrite Hscan in Hs.
    destruct (initSigmaW _ _ _ _ _ _ _) as [sigmaW | e']; [contradiction |].
    cbn [bind]. exact Hs.
Qed.

Lemma constructGCGraph_slim_built img mask b f lam nw p2v st :
  constructGCGraph_slim img mask b f lam nw p2v = Ok st ->
  slim_built mask (raster (rows img) (cols img)) st.
Proof.
  intros Hrun.
  destruct (terminalScan img mask b f lam (raster (rows img) (cols img)))
    as [[] | e] eqn:Hscan.
  - destruct (constructGCGraph_slim_total img mask b f lam nw p2v Hscan) as [st' [H Hb]].
    rewrite H in Hrun. injection Hrun as <-. exact Hb.
  - exfalso. unfold constructGCGraph_slim in Hrun.
    pose proof (initSigmaW_scan img mask b f
                  (mat_create_fill (rows img) (cols img) CV_64FC1 0) nw lam) as Hs.
    rewrite Hscan in Hs.
    destruct (initSigmaW _ _ _ _ _ _ _) as [sigmaW | e']; [contradiction | discriminate].
Qed.

(** X23.  The slim construction fails exactly where the plain construction
    fails, and with the same error: at the first pixel, in raster order,
    whose terminal weights are not defined (an assertion of a model, or the
    logarithm of a mixture value that is not positive).  Where the plain
    construction returns a graph the slim one returns one too: its loops
    end and read no chain outside its bounds. *)
Theorem slim_construction_fails_as_plain
    (img : Mat Vec3b) (mask : Mat Z) (bgdGMM fgdGMM : GMM) (lam : R) (nw : NWeights)
    (p2v : Mat Z) :
  same_outcome (constructGCGraph_slim img mask bgdGMM fgdGMM lam nw p2v)
               (constructGCGraph img mask bgdGMM fgdGMM lam nw).
Proof. exact (constructGCGraph_slim_same img mask bgdGMM fgdGMM lam nw p2v). Qed.

(** X24.  After the slim construction the entry of the pixel map at each
    pixel of the image is a vertex of the graph, or the sentinel of a
    terminal whose chain holds the pixel; a pixel labelled GC_BGD has the
    sentinel of the sink and a pixel labelled GC_FGD that of the source. *)
Theorem slim_pixel_map
    (img : Mat Vec3b) (mask : Mat Z) (bgdGMM fgdGMM : GMM) (lam : R) (nw : NWeights)
    (p2v : Mat Z) (st : SlimState) (y x : Z)
    (Hrun : constructGCGraph_slim img mask bgdGMM fgdGMM lam nw p2v = Ok st)
    (Hy : (0 <= y < rows img)%Z) (Hx : (0 <= x < cols img)%Z) :
  ((0 <= mat_at (pxl2Vtx st) y x < vtxCount (graph st))%Z
   \/ (mat_at (pxl2Vtx st) y x = GC_JNT_BGD /\ In (mkPoint x y) (sinkToPxl st))
   \/ (mat_at (pxl2Vtx st) y x = GC_JNT_FGD /\ In (mkPoint x y) (sourceToPxl st)))
  /\ (mat_at mask y x = GC_BGD -> mat_at (pxl2Vtx st) y x = GC_JNT_BGD)
  /\ (mat_at mask y x = GC_FGD -> mat_at (pxl2Vtx st) y x = GC_JNT_FGD).
Proof.
  destruct (constructGCGraph_slim_built _ _ _ _ _ _ _ _ Hrun) as [_ [Hvert [Hhard _]]].
  assert (Hp : In (mkPoint x y) (raster (rows img) (cols img)))
    by (apply raster_In; cbn; auto).
  split; [exact (Hvert _ Hp) |].
  split; intros Hm; pose proof (Hhard _ Hp) as H; unfold mat_atP in H; cbn [px py] in H;
    unfold mat_at in *; rewrite Hm in H; now apply H.
Qed.

Lemma probableCount_le (mask : Mat Z) (l : list Point) :
  (0 <= probableCount mask l <= Z.of_nat (List.length l))%Z.
Proof.
  unfold probableCount. pose proof (filter_length_le
    (fun q => is_probable (mat_atP mask q)) l). lia.
Qed.

(** X25.  The slim construction makes a vertex for a probable pixel that
    it does not join and for no other pixel: the number of vertices and
    the number of joined probable pixels (the count that the function
    prints) add up to the number of probable pixels of the image, so that
    the graph has at most rows * cols vertices. *)
Theorem slim_vertex_count
    (img : Mat Vec3b) (mask : Mat Z) (bgdGMM fgdGMM : GMM) (lam : R) (nw : NWeights)
    (p2v : Mat Z) (st : SlimState)
    (Hrun : constructGCGraph_slim img mask bgdGMM fgdGMM lam nw p2v = Ok st)
    (Hrows : (0 <= rows img)%Z) (Hcols : (0 <= cols img)%Z) :
  (vtxCount (graph st) + count st
   = probableCount mask (raster (rows img) (cols img)))%Z
  /\ (0 <= count st)%Z
  /\ (0 <= vtxCount (graph st) <= rows img * cols img)%Z.
Proof.
  destruct (constructGCGraph_slim_built _ _ _ _ _ _ _ _ Hrun)
    as [Hvc [_ [_ [_ [_ [Hcnt [_ [_ [_ [_ [Hc0 _]]]]]]]]]]].
  split; [exact Hcnt |]. split; [exact Hc0 |].
  pose proof (probableCount_le mask (raster (rows img) (cols img))) as Hle.
  rewrite raster_length in Hle by assumption. lia.
Qed.



(** *** The early exit of the pending sums *)






End Slim_results.

(** ** From the learnt models to the graph *)

Section Learnt_to_graph.
Local Open Scope R_scope.

Lemma learnGMMs_unfold img mask compIdxs bgdGMM fgdGMM :
  learnGMMs img mask compIdxs bgdGMM fgdGMM
  = (let '(b, f) := learnGMMs_samples img mask compIdxs bgdGMM fgdGMM in
     do b <- endLearning b; do f <- endLearning f; Ok (b, f)).
Proof. reflexivity. Qed.

Lemma addSample_total (g : GMM) (ci : Z) (color : Vec3d) :
  totalSampleCount (addSample g ci color) = (totalSampleCount g + 1)%Z.
Proof. destruct color as [[c0 c1] c2]. reflexivity. Qed.

Lemma fold_left_hits {A S} (m : S -> Z) (step : S -> A -> S) (l : list A) (a : A) :
  (forall s b, (m s <= m (step s b))%Z) ->
  (forall s, (m s + 1 <= m (step s a))%Z) ->
  In a l -> forall s, (m s + 1 <= m (fold_left step l s))%Z.
Proof.
  intros Hmono Hhit Hin s.
  assert (Hm : forall l' s', (m s' <= m (fold_left step l' s'))%Z).
  { induction l' as [| b l' IH]; intros s'; cbn [fold_left]; [lia |].
    specialize (IH (step s' b)). specialize (Hmono s' b). lia. }
  apply in_split in Hin. destruct Hin as [l1 [l2 ->]].
  rewrite fold_left_app. cbn [fold_left].
  pose proof (Hm l1 s). pose proof (Hhit (fold_left step l1 s)).
  pose proof (Hm l2 (step (fold_left step l1 s) a)). lia.
Qed.

(** The counters after the sample loops of [learnGMMs]: they are
    consistent, and a class that has a pixel with a component index among
    the five has a sample. *)
Lemma learnGMMs_samples_counts img mask compIdxs bgdGMM fgdGMM :
  let bf := learnGMMs_samples img mask compIdxs bgdGMM fgdGMM in
  counts_consistent (fst bf) /\ counts_consistent (snd bf)
  /\ (forall p, In p (raster (rows img) (cols img)) ->
        (0 <= mat_atP compIdxs p < componentsCount)%Z ->
        if is_bgd_like (mat_atP mask p)
        then (0 < totalSampleCount (fst bf))%Z
        else (0 < totalSampleCount (snd bf))%Z).
Proof.
  cbv zeta. unfold learnGMMs_samples.
  set (inner := fun ci (bf : GMM * GMM) p =>
         if (mat_atP compIdxs p =? ci)%Z then
           if is_bgd_like (mat_atP mask p)
           then (addSample (fst bf) ci (to_Vec3d (mat_atP img p)), snd bf)
           else (fst bf, addSample (snd bf) ci (to_Vec3d (mat_atP img p)))
         else bf).
  set (outer := fun (bf : GMM * GMM) ci =>
         fold_left (inner ci) (raster (rows img) (cols img)) bf).
  change (fold_left _ (zrange componentsCount) _)
    with (fold_left outer (zrange componentsCount)
            (initLearning bgdGMM, initLearning fgdGMM)).
  assert (Hcons : counts_consistent
                    (fst (fold_left outer (zrange componentsCount)
                            (initLearning bgdGMM, initLearning fgdGMM)))
                  /\ counts_consistent
                       (snd (fold_left outer (zrange componentsCount)
                               (initLearning bgdGMM, initLearning fgdGMM)))).
  { apply (fold_left_keeps (fun bf : GMM * GMM =>
             counts_consistent (fst bf) /\ counts_consistent (snd bf))).
    - intros bf ci Hci Hbf. apply zrange_In in Hci. unfold outer.
      apply (fold_left_keeps (fun bf : GMM * GMM =>
               counts_consistent (fst bf) /\ counts_consistent (snd bf)));
        [| exact Hbf].
      intros [b1 f1] p _ [Hb1 Hf1]. unfold inner. cbn [fst snd] in *.
      destruct (mat_atP compIdxs p =? ci)%Z; [| now split].
      destruct (is_bgd_like (mat_atP mask p)); cbn [fst snd]; split; auto;
        now apply addSample_counts.
    - cbn [fst snd]. split; apply initLearning_counts. }
  split; [apply Hcons |]. split; [apply Hcons |].
  intros p Hp Hrange.
  assert (Hin : In (mat_atP compIdxs p) (zrange componentsCount)) by now apply zrange_In.
  assert (Hinner_mono : forall ci bf q,
            (totalSampleCount (fst bf) <= totalSampleCount (fst (inner ci bf q)))%Z
            /\ (totalSampleCount (snd bf) <= totalSampleCount (snd (inner ci bf q)))%Z).
  { intros ci bf q. unfold inner.
    destruct (mat_atP compIdxs q =? ci)%Z; [| lia].
    destruct (is_bgd_like (mat_atP mask q)); cbn [fst snd];
      rewrite addSample_total; lia. }
  assert (Houter_mono : forall bf ci,
            (totalSampleCount (fst bf) <= totalSampleCount (fst (outer bf ci)))%Z
            /\ (totalSampleCount (snd bf) <= totalSampleCount (snd (outer bf ci)))%Z).
  { intros bf ci. unfold outer.
    generalize (raster (rows img) (cols img)) as l. intros l. revert bf.
    induction l as [| q l IH]; intros bf; cbn [fold_left]; [lia |].
    specialize (IH (inner ci bf q)). pose proof (Hinner_mono ci bf q). lia. }
  destruct (initLearning_counts bgdGMM) as [_ Hb0].
  destruct (initLearning_counts fgdGMM) as [_ Hf0].
  destruct (is_bgd_like (mat_atP mask p)) eqn:Ebgd.
  - pose proof (fold_left_hits (fun bf : GMM * GMM => totalSampleCount (fst bf))
                  outer (zrange componentsCount) (mat_atP compIdxs p)) as Hh.
    cbv beta in Hh.
    specialize (Hh (fun s b => proj1 (Houter_mono s b))).
    assert (Hstep : forall s, (totalSampleCount (fst s) + 1
                               <= totalSampleCount (fst (outer s (mat_atP compIdxs p))))%Z).
    { intros s. unfold outer.
      apply (fold_left_hits (fun bf : GMM * GMM => totalSampleCount (fst bf))
               (inner (mat_atP compIdxs p)) (raster (rows img) (cols img)) p).
      - intros s' q. apply Hinner_mono.
      - intros s'. unfold inner. rewrite Z.eqb_refl, Ebgd. cbn [fst].
        rewrite addSample_total. lia.
      - exact Hp. }
    specialize (Hh Hstep Hin (initLearning bgdGMM, initLearning fgdGMM)).
    cbn [fst] in Hh. rewrite Hb0 in Hh. lia.
  - pose proof (fold_left_hits (fun bf : GMM * GMM => totalSampleCount (snd bf))
                  outer (zrange componentsCount) (mat_atP compIdxs p)) as Hh.
    cbv beta in Hh.
    specialize (Hh (fun s b => proj2 (Houter_mono s b))).
    assert (Hstep : forall s, (totalSampleCount (snd s) + 1
                               <= totalSampleCount (snd (outer s (mat_atP compIdxs p))))%Z).
    { intros s. unfold outer.
      apply (fold_left_hits (fun bf : GMM * GMM => totalSampleCount (snd bf))
               (inner (mat_atP compIdxs p)) (raster (rows img) (cols img)) p).
      - intros s' q. apply Hinner_mono.
      - intros s'. unfold inner. rewrite Z.eqb_refl, Ebgd. cbn [snd].
        rewrite addSample_total. lia.
      - exact Hp. }
    specialize (Hh Hstep Hin (initLearning bgdGMM, initLearning fgdGMM)).
    cbn [snd] in Hh. rewrite Hf0 in Hh. lia.
Qed.

Lemma mixture_term_nonneg (g : GMM) (ci : Z) (color : Vec3d) :
  components_regular g -> (0 <= ci < componentsCount)%Z ->
  0 <= coefs g ci * componentValue g ci color
  /\ (coefs g ci > 0 -> 0 < coefs g ci * componentValue g ci color).
Proof.
  intros Hreg Hci. unfold componentValue.
  destruct (Rgtb (coefs g ci) 0) eqn:E.
  - apply Rgtb_spec in E. pose proof (Hreg ci Hci E) as Hd. pose proof epsilon_pos.
    assert (0 < sqrt (covDeterms g ci)) by (apply sqrt_lt_R0; lra).
    assert (0 < 1 / sqrt (covDeterms g ci)) by (apply Rdiv_lt_0_compat; lra).
    match goal with |- context [exp ?t] =>
      pose proof (exp_pos t); set (e := exp t) in * end.
    set (q := 1 / sqrt (covDeterms g ci)) in *.
    assert (0 < q * e) by (apply Rmult_lt_0_compat; assumption).
    assert (0 < coefs g ci * (q * e)) by (apply Rmult_lt_0_compat; assumption).
    split; [lra | intros _; lra].
  - split; [lra |]. intros Hpos. apply Rgtb_spec in Hpos. congruence.
Qed.

(** A model with weights that sum to 1 has a positive value everywhere. *)
Lemma mixtureValue_pos (g : GMM) (color : Vec3d) :
  components_regular g -> weightSum g = 1 -> 0 < mixtureValue g color.
Proof.
  intros Hreg Hsum. unfold mixtureValue.
  change (zrange componentsCount) with [0; 1; 2; 3; 4]%Z. cbn [fold_left].
  destruct (mixture_term_nonneg g 0 color Hreg ltac:(unfold componentsCount; lia)) as [A0 B0].
  destruct (mixture_term_nonneg g 1 color Hreg ltac:(unfold componentsCount; lia)) as [A1 B1].
  destruct (mixture_term_nonneg g 2 color Hreg ltac:(unfold componentsCount; lia)) as [A2 B2].
  destruct (mixture_term_nonneg g 3 color Hreg ltac:(unfold componentsCount; lia)) as [A3 B3].
  destruct (mixture_term_nonneg g 4 color Hreg ltac:(unfold componentsCount; lia)) as [A4 B4].
  unfold weightSum in Hsum.
  destruct (Rlt_le_dec 0 (coefs g 0)) as [H0 | H0]; [specialize (B0 H0); lra |].
  destruct (Rlt_le_dec 0 (coefs g 1)) as [H1 | H1]; [specialize (B1 H1); lra |].
  destruct (Rlt_le_dec 0 (coefs g 2)) as [H2 | H2]; [specialize (B2 H2); lra |].
  destruct (Rlt_le_dec 0 (coefs g 3)) as [H3 | H3]; [specialize (B3 H3); lra |].
  destruct (Rlt_le_dec 0 (coefs g 4)) as [H4 | H4]; [specialize (B4 H4); lra |].
  lra.
Qed.

Lemma tWeights_total (label : Z) (color : Vec3d) (b f : GMM) (lam : R) :
  components_regular b -> components_regular f ->
  weightSum b = 1 -> weightSum f = 1 ->
  exists x, tWeights label color b f lam = Ok x.
Proof.
  intros Hrb Hrf Hsb Hsf. unfold tWeights.
  destruct (is_probable label); [| destruct (label =? GC_BGD)%Z; eauto].
  unfold probableWeights.
  rewrite (GMM_call_value b color Hrb), (GMM_call_value f color Hrf). cbn [bind].
  unfold neg_log.
  rewrite (Rgtb_true _ _ (mixtureValue_pos b color Hrb Hsb)). cbn [bind].
  rewrite (Rgtb_true _ _ (mixtureValue_pos f color Hrf Hsf)). cbn [bind].
  eauto.
Qed.

(** With two models that can be evaluated and whose weights sum to 1 the
    terminal weights of every pixel are defined. *)
Lemma terminalScan_total (img : Mat Vec3b) (mask : Mat Z) (b f : GMM) (lam : R)
    (l : list Point) :
  components_regular b -> components_regular f ->
  weightSum b = 1 -> weightSum f = 1 ->
  terminalScan img mask b f lam l = Ok tt.
Proof.
  intros Hrb Hrf Hsb Hsf. unfold terminalScan.
  rewrite (forM_total _ (fun _ _ => tt)); [| intros [] p _].
  - induction l as [| a l IH]; [reflexivity | exact IH].
  - destruct (tWeights_total (mat_atP mask p) (to_Vec3d (mat_atP img p)) b f lam
                Hrb Hrf Hsb Hsf) as [x ->]. reflexivity.
Qed.

(** X29.  In an iteration the graph is built whenever the components have
    been assigned and the models learnt, if the mask has a pixel of each
    class: the learnt weights of each model then sum to 1, each model is
    evaluated at every colour without a failed assertion, and both the
    plain and the slim construction return. *)
Theorem graph_is_built_after_learning
    (img : Mat Vec3b) (mask compIdxs0 compIdxs : Mat Z) (bgdGMM fgdGMM b f : GMM)
    (lam : R) (nw : NWeights) (p2v : Mat Z) (pb pf : Point)
    (Hassign : assignGMMsComponents img mask bgdGMM fgdGMM compIdxs0 = Ok compIdxs)
    (Hlearn : learnGMMs img mask compIdxs bgdGMM fgdGMM = Ok (b, f))
    (Hpb : In pb (raster (rows img) (cols img)))
    (Hbgd : is_bgd_like (mat_atP mask pb) = true)
    (Hpf : In pf (raster (rows img) (cols img)))
    (Hfgd : is_bgd_like (mat_atP mask pf) = false) :
  weightSum b = 1 /\ weightSum f = 1
  /\ (forall color, GMM_call b color = Ok (mixtureValue b color))
  /\ (forall color, GMM_call f color = Ok (mixtureValue f color))
  /\ (exists g, constructGCGraph img mask b f lam nw = Ok g)
  /\ (exists st, constructGCGraph_slim img mask b f lam nw p2v = Ok st).
Proof.
  rewrite learnGMMs_unfold in Hlearn.
  destruct (learnGMMs_samples_counts img mask compIdxs bgdGMM fgdGMM)
    as [Hcb [Hcf Hhit]]. cbv zeta in Hcb, Hcf, Hhit.
  destruct (learnGMMs_samples img mask compIdxs bgdGMM fgdGMM) as [b0 f0].
  cbn [fst snd] in *.
  apply bind_Ok in Hlearn. destruct Hlearn as [b' [Hb Hlearn]].
  apply bind_Ok in Hlearn. destruct Hlearn as [f' [Hf Hlearn]].
  injection Hlearn as <- <-.
  assert (Hrange : forall p, In p (raster (rows img) (cols img)) ->
            (0 <= mat_atP compIdxs p < componentsCount)%Z).
  { intros p Hp. apply raster_In in Hp. destruct Hp as [Hy Hx].
    apply (assignGMMsComponents_indexed img mask bgdGMM fgdGMM compIdxs0 compIdxs
             (py p) (px p) Hassign Hy Hx). }
  pose proof (Hhit pb Hpb (Hrange pb Hpb)) as Htb. rewrite Hbgd in Htb.
  pose proof (Hhit pf Hpf (Hrange pf Hpf)) as Htf. rewrite Hfgd in Htf.
  destruct (endLearning_weightSum b0 b' Hb Hcb) as [_ [Hsb _]]. specialize (Hsb Htb).
  destruct (endLearning_weightSum f0 f' Hf Hcf) as [_ [Hsf _]]. specialize (Hsf Htf).
  destruct (endLearning_regular b0 b' Hb) as [Hrb _].
  destruct (endLearning_regular f0 f' Hf) as [Hrf _].
  split; [exact Hsb |]. split; [exact Hsf |].
  split; [intros color; now apply GMM_call_value |].
  split; [intros color; now apply GMM_call_value |].
  pose proof (terminalScan_total img mask b' f' lam (raster (rows img) (cols img))
                Hrb Hrf Hsb Hsf) as Hscan.
  split.
  - pose proof (constructGCGraph_scan img mask b' f' lam nw) as Hs.
    rewrite Hscan in Hs.
    destruct (constructGCGraph img mask b' f' lam nw) as [g | e]; [eauto | contradiction].
  - destruct (constructGCGraph_slim_total img mask b' f' lam nw p2v Hscan) as [st [H _]].
    eauto.
Qed.

End Learnt_to_graph.

(** ** One iteration of the two entry points *)

Section One_iteration.
Variable kmeans : list Vec3d -> Z -> list Z.
Variable inSourceSegment : GCGraph -> Z -> bool.

Lemma iteration_pair (img : Mat Vec3b) (nw : NWeights) (st : IterState) :
  match iteration_slim inSourceSegment img nw st,
        iteration inSourceSegment img nw st with
  | Ok (_, b1, f1, _, _), Ok (_, b2, f2, _, _) => b1 = b2 /\ f1 = f2
  | Err e1, Err e2 => e1 = e2
  | _, _ => False
  end.
Proof.
  destruct st as [[[[mask b] f] c] p2v]. unfold iteration_slim, iteration.
  destruct (assignGMMsComponents img mask b f c) as [c' | e]; cbn [bind]; [| reflexivity].
  destruct (learnGMMs img mask c' b f) as [[b' f'] | e]; cbn [bind]; [| reflexivity].
  pose proof (constructGCGraph_slim_same img mask b' f' lambda nw p2v) as Hs.
  destruct (constructGCGraph_slim img mask b' f' lambda nw p2v) as [slim | e1];
    destruct (constructGCGraph img mask b' f' lambda nw) as [g | e2];
    cbn in Hs; try contradiction; cbn [bind]; auto.
Qed.

(** X30.  Called for at most one iteration, [grabCut_slim] and [grabCut]
    fail together, with the same error, and otherwise return the same two
    model buffers: the slim variant changes neither where the entry point
    fails nor what it learns before the first segmentation update. *)
Theorem one_iteration_learns_the_same_models
    (img : Mat Vec3b) (mask : Mat Z) (rect : Rect) (bgdModel fgdModel : Mat R)
    (iterCount mode : Z) (Hiter : iterCount <= 1) :
  same_models
    (grabCut_slim kmeans inSourceSegment img mask rect bgdModel fgdModel iterCount mode)
    (grabCut kmeans inSourceSegment img mask rect bgdModel fgdModel iterCount mode).
Proof.
  unfold grabCut_slim, grabCut, grabCut_with.
  destruct (initialise kmeans img mask rect bgdModel fgdModel mode)
    as [[[mask1 b] f] | e]; cbn [bind]; [| reflexivity].
  destruct (iterCount <=? 0) eqn:E; [cbn; auto |].
  apply Z.leb_gt in E. assert (iterCount = 1) by lia. subst iterCount.
  destruct (if mode =? GC_EVAL then checkMask img mask1 else Ok tt) as [[] | e];
    cbn [bind]; [| reflexivity].
  change (zrange 1) with [0]. cbn [forM].
  match goal with |- context [iteration_slim inSourceSegment img ?nw ?st] =>
    pose proof (iteration_pair img nw st) as Hp;
    destruct (iteration_slim inSourceSegment img nw st) as [[[[[m1 b1] f1] c1] q1] | e1];
    destruct (iteration inSourceSegment img nw st) as [[[[[m2 b2] f2] c2] q2] | e2]
  end; cbn in Hp |- *; try contradiction; auto.
  destruct Hp as [-> ->]. auto.
Qed.

End One_iteration.

(** ** Instances of the further properties *)

Section Further_instances.
Local Open Scope R_scope.

Lemma kmeans_one_cluster_labels (samples : list Vec3d) (i : nat) :
  (0 <= nth i (kmeans_one_cluster samples componentsCount) 0 < componentsCount)%Z.
Proof.
  assert (H : nth i (kmeans_one_cluster samples componentsCount) 0%Z = 0%Z).
  { unfold kmeans_one_cluster. revert i.
    induction samples as [| s l IH]; intros [| i]; cbn; auto. }
  rewrite H. unfold componentsCount. lia.
Qed.

(** The models of the 1 x 2 image labelled background, foreground. *)
Lemma models_1x2 :
  exists g1,
    endLearning learnt_one = Ok g1
    /\ learnGMMs img_1x2_black mask_1x2_hard comp_1x2 zero_GMM zero_GMM = Ok (g1, g1)
    /\ initGMMs kmeans_one_cluster img_1x2_black mask_1x2_hard zero_GMM zero_GMM
       = Ok (g1, g1).
Proof.
  destruct (endLearning_one_black learnt_one learnt_one_state) as [g1 [H _]].
  exists g1. split; [exact H |].
  rewrite learn_1x2, initGMMs_1x2, H. cbn [bind]. rewrite ?H. cbn [bind].
  split; reflexivity.
Qed.

Lemma plain_graph_1x2 :
  exists g, constructGCGraph img_1x2_black mask_1x2_hard zero_GMM zero_GMM lambda nw_1x2
            = Ok g.
Proof. eexists. reflexivity. Qed.

Lemma unit_GMM_weightSum : weightSum unit_GMM = 1.
Proof. reval. lra. Qed.

Lemma slim_graph_1x3 :
  exists st, constructGCGraph_slim img_1x3 mask_1x3 unit_GMM unit_GMM lambda nw_1x3
               (mat_create_fill 1 3 CV_32SC1 0%Z) = Ok st.
Proof.
  destruct (constructGCGraph_slim_total img_1x3 mask_1x3 unit_GMM unit_GMM lambda
              nw_1x3 (mat_create_fill 1 3 CV_32SC1 0%Z)) as [st [H _]].
  - apply terminalScan_total;
      auto using unit_GMM_regular, unit_GMM_weightSum.
  - exists st. exact H.
Qed.

Lemma init_with_mask_1x2 :
  exists out,
    grabCut_slim kmeans_one_cluster solver_all_sink img_1x2_black mask_1x2_hard
                 no_rect zero_model zero_model 0 GC_INIT_WITH_MASK = Ok out.
Proof.
  destruct models_1x2 as [g1 [_ [_ Hg1]]].
  exists (outputs mask_1x2_hard g1 g1).
  unfold grabCut_slim, grabCut_with, initialise.
  change (mat_empty img_1x2_black) with false. cbv iota.
  change (negb (mtype img_1x2_black =? CV_8UC3)%Z) with false. cbv iota.
  rewrite GMM_new_zero. cbn [bind].
  change ((GC_INIT_WITH_MASK =? GC_INIT_WITH_RECT)
          || (GC_INIT_WITH_MASK =? GC_INIT_WITH_MASK))%Z with true.
  cbv iota. change (GC_INIT_WITH_MASK =? GC_INIT_WITH_RECT)%Z with false. cbv iota.
  change (checkMask img_1x2_black mask_1x2_hard) with (Ok tt : res unit). cbn [bind].
  rewrite Hg1. cbn [bind]. reflexivity.
Qed.

Lemma unit_GMM_active : coefs unit_GMM 0 > 0 /\ det3 (covOf unit_GMM 0) > epsilon.
Proof.
  assert (Hpos : coefs unit_GMM 0 > 0) by (reval; lra).
  split; [exact Hpos |].
  destruct (unit_GMM_derived 0 ltac:(unfold componentsCount; lia) Hpos) as [<- _].
  apply unit_GMM_regular; [unfold componentsCount; lia | exact Hpos].
Qed.

Lemma initMaskWithRect_marks_the_rectangle_witness :
  exists m, initMaskWithRect (mkSize 4 3) (mkRect 1 1 5 1) = Ok m
            /\ mat_at m 1 3 = GC_PR_FGD /\ mat_at m 0 3 = GC_BGD /\ mat_at m 1 0 = GC_BGD.
Proof.
  destruct (initMaskWithRect_marks_the_rectangle (mkSize 4 3) (mkRect 1 1 5 1))
    as [m [Hm [_ [_ [_ He]]]]]; cbn; try lia.
  exists m. split; [exact Hm |].
  repeat split; rewrite He by (cbn; lia); reflexivity.
Defined.

Lemma initMaskWithRect_mask_passes_checkMask_witness :
  exists m, initMaskWithRect (mat_size img_1x3) (mkRect 1 0 1 1) = Ok m
            /\ checkMask img_1x3 m = Ok tt.
Proof.
  eexists. split; [reflexivity |].
  apply (initMaskWithRect_mask_passes_checkMask img_1x3 (mkRect 1 0 1 1));
    reflexivity.
Defined.

Lemma initGMMs_needs_both_classes_witness :
  initGMMs kmeans_one_cluster img_1x1 mask_1x1 zero_GMM zero_GMM = Err AssertFailed.
Proof.
  apply (initGMMs_needs_both_classes kmeans_one_cluster img_1x1 mask_1x1 zero_GMM
           zero_GMM).
  right. intros y x _ _. reflexivity.
Defined.

Lemma rect_needs_pixels_inside_and_outside_witness :
  grabCut_slim kmeans_one_cluster solver_all_sink img_1x3 mask_1x3 (mkRect 0 0 3 1)
               empty_model empty_model 1 GC_INIT_WITH_RECT = Err AssertFailed
  /\ grabCut kmeans_one_cluster solver_all_sink img_1x3 mask_1x3 (mkRect 0 0 3 1)
             empty_model empty_model 1 GC_INIT_WITH_RECT = Err AssertFailed.
Proof.
  apply (rect_needs_pixels_inside_and_outside kmeans_one_cluster solver_all_sink
           img_1x3 mask_1x3 (mkRect 0 0 3 1) empty_model empty_model zero_GMM zero_GMM 1).
  - reflexivity.
  - reflexivity.
  - reflexivity.
  - exact (GMM_new_empty empty_model eq_refl).
  - exact (GMM_new_empty empty_model eq_refl).
  - left. cbn. lia.
Defined.

Lemma calcBeta_nonneg_witness : 0 <= calcBeta img_2x2_step.
Proof. apply (calcBeta_nonneg img_2x2_step). cbn. lia. Defined.

Lemma calcBeta_constant_image_witness : calcBeta img_1x3 = 0.
Proof.
  apply (calcBeta_constant_image img_1x3). intros y x y' x' _ _ _ _. reflexivity.
Defined.

Lemma calcNWeights_tables_witness :
  mat_at (leftW (calcNWeights img_2x2_step 1 gamma)) 1 1
  = gamma * exp (- 1 * sqdiff img_2x2_step (to_Vec3d (mat_at img_2x2_step 1 1)) 1 (1 - 1))
  /\ mat_at (upleftW (calcNWeights img_2x2_step 1 gamma)) 1 1
     = gamma / sqrt2f
       * exp (- 1 * sqdiff img_2x2_step (to_Vec3d (mat_at img_2x2_step 1 1))
                      (1 - 1) (1 - 1))
  /\ mat_at (uprightW (calcNWeights img_2x2_step 1 gamma)) 1 1 = 0.
Proof.
  destruct (calcNWeights_tables img_2x2_step 1 gamma 1 1) as [H1 [H2 [_ H4]]];
    [cbn; lia | cbn; lia |].
  split; [exact H1 |]. split; [exact H2 | exact H4].
Defined.

Lemma smoothness_weights_bounded_witness :
  0 <= mat_at (leftW (calcNWeights img_2x2_step (calcBeta img_2x2_step) gamma)) 1 1
    <= gamma
  /\ 0 <= mat_at (upleftW (calcNWeights img_2x2_step (calcBeta img_2x2_step) gamma)) 1 1
       <= gamma / sqrt2f.
Proof.
  destruct (smoothness_weights_bounded img_2x2_step 1 1) as [H1 [H2 _]];
    [cbn; lia | cbn; lia | cbn; lia |].
  split; [exact H1 | exact H2].
Defined.

Lemma endLearning_parameters_witness :
  exists g', endLearning learnt_one = Ok g'
             /\ coefs g' 0
                = IZR (sampleCounts learnt_one 0) / IZR (totalSampleCount learnt_one)
             /\ exists noise,
                  (noise = 0 \/ noise = 1 / 100)
                  /\ forall i j, (0 <= i < 3)%Z -> (0 <= j < 3)%Z ->
                       cov g' (9 * 0 + (3 * i + j))
                       = sampleCov learnt_one 0 i j + (if (i =? j)%Z then noise else 0).
Proof.
  destruct models_1x2 as [g1 [H _]]. exists g1. split; [exact H |].
  destruct (endLearning_parameters learnt_one g1 0 H) as [Hc Hrest];
    [unfold componentsCount; lia |].
  split; [exact Hc |].
  destruct Hrest as [_ Hn]; [discriminate | exact Hn].
Defined.

Lemma learnt_model_can_be_evaluated_witness :
  exists g', endLearning learnt_one = Ok g'
             /\ GMM_call g' black = Ok (mixtureValue g' black).
Proof.
  destruct models_1x2 as [g1 [H _]]. exists g1. split; [exact H |].
  apply (learnt_model_can_be_evaluated learnt_one g1 black H).
Defined.

Lemma learnGMMs_weights_sum_to_one_witness :
  exists b f, learnGMMs img_1x2_black mask_1x2_hard comp_1x2 zero_GMM zero_GMM = Ok (b, f)
              /\ (weightSum b = 1
                  \/ forall ci, (0 <= ci < componentsCount)%Z -> coefs b ci = 0).
Proof.
  destruct models_1x2 as [g1 [_ [H _]]]. exists g1, g1. split; [exact H |].
  apply (learnGMMs_weights_sum_to_one img_1x2_black mask_1x2_hard comp_1x2
           zero_GMM zero_GMM g1 g1 H).
Defined.

Lemma initGMMs_weights_sum_to_one_witness :
  exists b f,
    initGMMs kmeans_one_cluster img_1x2_black mask_1x2_hard zero_GMM zero_GMM = Ok (b, f)
    /\ weightSum b = 1 /\ weightSum f = 1.
Proof.
  destruct models_1x2 as [g1 [_ [_ H]]]. exists g1, g1. split; [exact H |].
  destruct (initGMMs_weights_sum_to_one kmeans_one_cluster img_1x2_black mask_1x2_hard
              zero_GMM zero_GMM g1 g1 kmeans_one_cluster_labels H) as [Hb [Hf _]].
  split; assumption.
Defined.

Lemma assignGMMsComponents_indices_witness :
  whichComponent zero_GMM (to_Vec3d (mat_at img_1x2_black 0 1))
  = Ok (mat_at comp_1x2 0 1)
  /\ (0 <= mat_at comp_1x2 0 1 < componentsCount)%Z.
Proof.
  apply (assignGMMsComponents_indices img_1x2_black mask_1x2_hard zero_GMM zero_GMM
           (mat_create_fill 1 2 CV_32SC1 0%Z) comp_1x2 0 1 assign_1x2); cbn; lia.
Defined.

Lemma calcInverseCovAndDeterm_inverts_witness :
  exists g', calcInverseCovAndDeterm unit_GMM 0 = Ok g'
             /\ model g' = model unit_GMM
             /\ covDeterms g' 0 = det3 (covOf unit_GMM 0).
Proof.
  destruct unit_GMM_active as [Hpos Hdet].
  destruct (calcInverseCovAndDeterm_derived unit_GMM 0 Hpos Hdet) as [g' [Hrun _]].
  exists g'. split; [exact Hrun |].
  destruct (calcInverseCovAndDeterm_inverts unit_GMM g' 0 Hrun Hpos) as [Hm [Hd _]].
  split; assumption.
Defined.

Lemma GMM_call_nonneg_witness : 0 <= mixtureValue unit_GMM black.
Proof.
  apply (GMM_call_nonneg unit_GMM black (mixtureValue unit_GMM black)).
  apply GMM_call_value. exact unit_GMM_regular.
Defined.

Lemma estimateSegmentation_labels_witness :
  mat_at (estimateSegmentation solver_all_sink graph_create mask_1x3) 0 1 = GC_PR_BGD
  /\ mat_at (estimateSegmentation solver_all_sink graph_create mask_1x3) 0 2 = GC_FGD.
Proof.
  destruct (estimateSegmentation_labels solver_all_sink graph_create mask_1x3 0 1)
    as [_ [_ [_ H1]]]; [cbn; lia | cbn; lia |].
  destruct (estimateSegmentation_labels solver_all_sink graph_create mask_1x3 0 2)
    as [_ [_ [_ H2]]]; [cbn; lia | cbn; lia |].
  split; [exact H1 | exact H2].
Defined.

Lemma estimateSegmentation_slim_labels_witness :
  mat_at (estimateSegmentation_slim solver_all_sink graph_create mask_1x3
            (mat_create_fill 1 3 CV_32SC1 GC_JNT_FGD)) 0 1 = GC_PR_FGD.
Proof.
  destruct (estimateSegmentation_slim_labels solver_all_sink graph_create mask_1x3
              (mat_create_fill 1 3 CV_32SC1 GC_JNT_FGD) 0 1)
    as [_ [_ [_ H1]]]; [cbn; lia | cbn; lia |].
  exact H1.
Defined.

Lemma returned_mask_passes_checkMask_witness :
  exists out,
    grabCut_slim kmeans_one_cluster solver_all_sink img_1x2_black mask_1x2_hard
                 no_rect zero_model zero_model 0 GC_INIT_WITH_MASK = Ok out
    /\ checkMask img_1x2_black (out_mask out) = Ok tt.
Proof.
  destruct init_with_mask_1x2 as [out Hrun]. exists out. split; [exact Hrun |].
  apply (proj1 (returned_mask_passes_checkMask kmeans_one_cluster solver_all_sink
                  img_1x2_black mask_1x2_hard no_rect zero_model zero_model 0
                  GC_INIT_WITH_MASK (or_intror (or_introl eq_refl))) out Hrun).
Defined.

Lemma constructGCGraph_vertices_witness :
  exists g, constructGCGraph img_1x2_black mask_1x2_hard zero_GMM zero_GMM lambda nw_1x2
            = Ok g
            /\ vtxCount g = (rows img_1x2_black * cols img_1x2_black)%Z
            /\ tWeights (mat_at mask_1x2_hard 0 1) (to_Vec3d (mat_at img_1x2_black 0 1))
                        zero_GMM zero_GMM lambda
               = Ok (fromSourceW g (0 * cols img_1x2_black + 1),
                     toSinkW g (0 * cols img_1x2_black + 1)).
Proof.
  destruct plain_graph_1x2 as [g Hrun]. exists g. split; [exact Hrun |].
  apply (constructGCGraph_vertices img_1x2_black mask_1x2_hard zero_GMM zero_GMM
           lambda nw_1x2 g 0 1 Hrun); cbn; lia.
Defined.

Lemma constructGCGraph_edges_witness :
  exists g, constructGCGraph img_1x2_black mask_1x2_hard zero_GMM zero_GMM lambda nw_1x2
            = Ok g
            /\ Forall (fun e => (0 <= ev e < eu e)%Z /\ (eu e < vtxCount g)%Z
                                /\ capUV e = capVU e) (edges g).
Proof.
  destruct plain_graph_1x2 as [g Hrun]. exists g. split; [exact Hrun |].
  apply (constructGCGraph_edges img_1x2_black mask_1x2_hard zero_GMM zero_GMM
           lambda nw_1x2 g Hrun).
Defined.

Lemma slim_pixel_map_witness :
  exists st, constructGCGraph_slim img_1x3 mask_1x3 unit_GMM unit_GMM lambda nw_1x3
               (mat_create_fill 1 3 CV_32SC1 0%Z) = Ok st
             /\ mat_at (pxl2Vtx st) 0 0 = GC_JNT_BGD
             /\ mat_at (pxl2Vtx st) 0 2 = GC_JNT_FGD.
Proof.
  destruct slim_graph_1x3 as [st Hrun]. exists st. split; [exact Hrun |].
  destruct (slim_pixel_map img_1x3 mask_1x3 unit_GMM unit_GMM lambda nw_1x3
              (mat_create_fill 1 3 CV_32SC1 0%Z) st 0 0 Hrun) as [_ [H0 _]];
    [cbn; lia | cbn; lia |].
  destruct (slim_pixel_map img_1x3 mask_1x3 unit_GMM unit_GMM lambda nw_1x3
              (mat_create_fill 1 3 CV_32SC1 0%Z) st 0 2 Hrun) as [_ [_ H2]];
    [cbn; lia | cbn; lia |].
  split; [apply H0 | apply H2]; reflexivity.
Defined.

Lemma slim_vertex_count_witness :
  exists st, constructGCGraph_slim img_1x3 mask_1x3 unit_GMM unit_GMM lambda nw_1x3
               (mat_create_fill 1 3 CV_32SC1 0%Z) = Ok st
             /\ (vtxCount (graph st) + count st = 1)%Z.
Proof.
  destruct slim_graph_1x3 as [st Hrun]. exists st. split; [exact Hrun |].
  destruct (slim_vertex_count img_1x3 mask_1x3 unit_GMM unit_GMM lambda nw_1x3
              (mat_create_fill 1 3 CV_32SC1 0%Z) st Hrun) as [H _];
    [cbn; lia | cbn; lia |].
  exact H.
Defined.




Lemma graph_is_built_after_learning_witness :
  exists b f,
    learnGMMs img_1x2_black mask_1x2_hard comp_1x2 zero_GMM zero_GMM = Ok (b, f)
    /\ weightSum b = 1 /\ weightSum f = 1
    /\ (exists g, constructGCGraph img_1x2_black mask_1x2_hard b f lambda nw_1x2 = Ok g).
Proof.
  destruct models_1x2 as [g1 [_ [H _]]]. exists g1, g1. split; [exact H |].
  destruct (graph_is_built_after_learning img_1x2_black mask_1x2_hard
              (mat_create_fill 1 2 CV_32SC1 0%Z) comp_1x2 zero_GMM zero_GMM g1 g1
              lambda nw_1x2 comp_1x2 (mkPoint 0 0) (mkPoint 1 0) assign_1x2 H)
    as [Hb [Hf [_ [_ [Hg _]]]]].
  - left. reflexivity.
  - reflexivity.
  - right. left. reflexivity.
  - reflexivity.
  - split; [exact Hb |]. split; [exact Hf | exact Hg].
Defined.

Lemma one_iteration_learns_the_same_models_witness :
  same_models
    (grabCut_slim kmeans_one_cluster solver_all_sink img_1x2_black mask_1x2_hard
                  no_rect zero_model zero_model 1 GC_EVAL)
    (grabCut kmeans_one_cluster solver_all_sink img_1x2_black mask_1x2_hard
             no_rect zero_model zero_model 1 GC_EVAL).
Proof.
  apply (one_iteration_learns_the_same_models kmeans_one_cluster solver_all_sink
           img_1x2_black mask_1x2_hard no_rect zero_model zero_model 1 GC_EVAL).
  lia.
Defined.

End Further_instances.
